(** * Minesweeper engine: field, action resolver and solver

    A shallow embedding of [square-field.ts], [base-field.ts],
    [simple-cell.ts], [game-engine.ts] and [field-solver.ts].

    Cells are mutable objects that the field, the engine and the solver
    share by reference, so the embedding keeps an explicit object store
    ([Heap]): a grid is a grid of locations, [new SimpleCell] allocates,
    and a write through a reference is an update of the store.  The
    injected random source is a stream of numbers consumed call by call.
    [while] loops take a fuel argument; running out of fuel is reported as
    [Timeout], a JavaScript [TypeError] as [Throw]. *)

From Stdlib Require Import ZArith QArith Qround List Bool Lia.
From stdpp Require Import base option list.
Import ListNotations.

Set Default Proof Using "Type".
Local Open Scope Z_scope.

(** ** Outcomes of a call *)

Inductive result (A : Type) : Type :=
| Ok (a : A)
| Throw
| Timeout.
Arguments Ok {A} a.
Arguments Throw {A}.
Arguments Timeout {A}.

#[global] Instance result_ret : MRet result := fun A a => Ok a.
#[global] Instance result_bind : MBind result := fun A B k m =>
  match m with
  | Ok a => k a
  | Throw => Throw
  | Timeout => Timeout
  end.

(** Dereferencing [undefined] throws. *)
Definition expect {A} (o : option A) : result A :=
  match o with
  | Some a => Ok a
  | None => Throw
  end.

Fixpoint mapR {A B} (k : A -> result B) (l : list A) : result (list B) :=
  match l with
  | [] => Ok []
  | a :: l' => b ← k a; bs ← mapR k l'; Ok (b :: bs)
  end.

(** ** types.ts *)

Record GameParams := { cols : nat; rows : nat; mines : Z }.

Record Position := { col : Z; row : Z }.

#[global] Instance Position_eq_dec : EqDecision Position.
Proof. solve_decision. Defined.

Inductive GameStatus := Idle | Playing | Won | Lost.

#[global] Instance GameStatus_eq_dec : EqDecision GameStatus.
Proof. solve_decision. Defined.

Inductive GameMode := guessing.

(** ** utils.ts *)

(** [createKey] renders a position as the string [col-row].  For integer
    coordinates the rendering is injective, so the embedding keeps the
    pair itself as the key. *)
Abbreviation Key := (Z * Z)%type.
Definition createKey (p : Position) : Key := (col p, row p).
Definition parseKey (k : Key) : Position := {| col := fst k; row := snd k |}.

Definition createGrid {T} (rows cols : nat) (cb : Position -> T) : list (list T) :=
  map (fun r => map (fun c => cb {| row := Z.of_nat r; col := Z.of_nat c |}) (seq 0 cols))
      (seq 0 rows).

(** ** simple-cell.ts *)

Record SimpleCell := {
  position : Position;
  isMine : bool;
  isRevealed : bool;
  isFlagged : bool;
  adjacentMines : Z
}.

(** [new SimpleCell({ position })] *)
Definition newCell (p : Position) : SimpleCell :=
  {| position := p; isMine := false; isRevealed := false; isFlagged := false;
     adjacentMines := 0 |}.

#[global] Instance SimpleCell_inhabited : Inhabited SimpleCell :=
  populate (newCell {| col := 0; row := 0 |}).

#[global] Instance SimpleCell_eq_dec : EqDecision SimpleCell.
Proof. solve_decision. Defined.

Definition key (c : SimpleCell) : Key := createKey (position c).
Definition isEmpty (c : SimpleCell) : bool := negb (isMine c) && (adjacentMines c =? 0).
Definition isExploded (c : SimpleCell) : bool := isMine c && isRevealed c.
Definition isMissed (c : SimpleCell) : bool := isFlagged c && negb (isMine c).
Definition notFoundMine (c : SimpleCell) : bool := isMine c && negb (isFlagged c).
Definition isUntouched (c : SimpleCell) : bool := negb (isRevealed c) && negb (isFlagged c).

(** [getData] copies the stored properties into a plain object and adds the
    five getters' values; the copy is the record value itself, the derived
    properties being the functions above applied to it. *)
Abbreviation CellData := SimpleCell.

Definition setIsMine (b : bool) (c : SimpleCell) : SimpleCell :=
  {| position := position c; isMine := b; isRevealed := isRevealed c;
     isFlagged := isFlagged c; adjacentMines := adjacentMines c |}.
Definition setIsRevealed (b : bool) (c : SimpleCell) : SimpleCell :=
  {| position := position c; isMine := isMine c; isRevealed := b;
     isFlagged := isFlagged c; adjacentMines := adjacentMines c |}.
Definition setIsFlagged (b : bool) (c : SimpleCell) : SimpleCell :=
  {| position := position c; isMine := isMine c; isRevealed := isRevealed c;
     isFlagged := b; adjacentMines := adjacentMines c |}.
Definition addAdjacent (d : Z) (c : SimpleCell) : SimpleCell :=
  {| position := position c; isMine := isMine c; isRevealed := isRevealed c;
     isFlagged := isFlagged c; adjacentMines := adjacentMines c + d |}.

(** ** The object store *)

Abbreviation loc := nat.
Abbreviation Heap := (list SimpleCell).

(** Reading a property through a reference. *)
Definition deref (h : Heap) (l : loc) : SimpleCell := h !!! l.
(** Writing a property through a reference. *)
Definition modify (fn : SimpleCell -> SimpleCell) (h : Heap) (l : loc) : Heap :=
  alter fn l h.

(** The random source: the numbers it returns, first call first. *)
Definition Rng : Type := nat -> Q.
Definition rngTail (n : nat) (rng : Rng) : Rng := fun k => rng (n + k)%nat.

(** Numbers are IEEE 754 doubles: a product is the exact product rounded to
    the nearest double, ties to the even significand. *)

(** The nearest integer, ties to even. *)
Definition roundTiesEven (q : Q) : Z :=
  let f := Qfloor q in
  match Qcompare (q - inject_Z f) (1 # 2) with
  | Lt => f
  | Gt => f + 1
  | Eq => if Z.even f then f else f + 1
  end.

Definition pow2 (e : Z) : Q :=
  if 0 <=? e then inject_Z (2 ^ e) else 1 # Z.to_pos (2 ^ (- e)).

(** The exponent [e] with [2 ^ e <= |q| < 2 ^ (e + 1)], for [q] other than 0. *)
Definition binade (q : Q) : Z :=
  let n := Z.abs (Qnum q) in
  let e := Z.log2 n - Z.log2 (Zpos (Qden q)) in
  if Qle_bool (pow2 e) (n # Qden q) then e else e - 1.

(** The double nearest to [q]: 53 bits of significand, and below
    [2 ^ (-1022)] the fixed spacing of the subnormal numbers.  Beyond the
    largest double the code has [Infinity], which is not modelled: such a
    value stays a number beyond every grid here, as [Infinity] is there. *)
Definition roundDouble (q : Q) : Q :=
  if Qeq_bool q 0 then 0%Q
  else
    let ulp := pow2 (Z.max (binade q) (-1022) - 52) in
    (inject_Z (roundTiesEven (q / ulp)) * ulp)%Q.

(** [Math.floor(x * n)]; a rational that is no double stands for the double
    nearest to it. *)
Definition scaled (x : Q) (n : nat) : Z :=
  Qfloor (roundDouble (roundDouble x * roundDouble (inject_Z (Z.of_nat n)))).

(** ** base-field.ts, square-field.ts *)

Record Field := {
  params : GameParams;
  grid : list (list loc);
  isMined : bool
}.

Definition setFieldMined (b : bool) (f : Field) : Field :=
  {| params := params f; grid := grid f; isMined := b |}.

(** [a[i]] for a number [i]: [undefined] below zero and past the end. *)
Definition nthZ {A} (l : list A) (i : Z) : option A :=
  if i <? 0 then None else l !! Z.to_nat i.

(** [new SimpleCell(c)] for every cell description of every row: the cells
    are allocated row by row, and the grid holds their references. *)
Fixpoint allocGrid (h : Heap) (data : list (list CellData)) : Heap * list (list loc) :=
  match data with
  | [] => (h, [])
  | r :: rs =>
      let h1 := h ++ r in
      let refs := seq (length h) (length r) in
      let '(h2, g) := allocGrid h1 rs in
      (h2, refs :: g)
  end.

(** [createGrid(data?)] of [SquareField] *)
Definition fieldCreateGrid (p : GameParams) (data : option (list (list CellData)))
    (h : Heap) : Heap * list (list loc) :=
  match data with
  | Some d => allocGrid h d
  | None => allocGrid h (createGrid (rows p) (cols p) newCell)
  end.

(** The constructor of [BaseField] (the random source is the shared stream). *)
Definition newField (p : GameParams) (data : option (list (list CellData)))
    (h : Heap) : Field * Heap :=
  let '(h', g) := fieldCreateGrid p data h in
  ({| params := p; grid := g;
      isMined := existsb (fun r => existsb (fun l => isMine (deref h' l)) r) g |}, h').

(** [getData()] of the field *)
Definition getData (h : Heap) (f : Field) : list (list CellData) :=
  map (fun r => map (deref h) r) (grid f).

(** [this.grid[row][col]]: throws when the row is missing, and is
    [undefined] when only the column is. *)
Definition getCell (f : Field) (p : Position) : result (option loc) :=
  match nthZ (grid f) (row p) with
  | None => Throw
  | Some r => Ok (nthZ r (col p))
  end.

Definition getCellData (h : Heap) (f : Field) (p : Position) : result CellData :=
  c ← getCell f p; l ← expect c; Ok (deref h l).

Definition isInBoundary (p : GameParams) (pos : Position) : bool :=
  (col pos >=? 0) && (row pos >=? 0)
  && (col pos <? Z.of_nat (cols p)) && (row pos <? Z.of_nat (rows p)).

(** The positions visited by the two nested loops of [getSiblings], in
    their order: [dx] outside, [dy] inside, the centre skipped. *)
Definition neighbours (pos : Position) : list Position :=
  flat_map (fun dx =>
    flat_map (fun dy =>
      if (dx =? 0) && (dy =? 0) then []
      else [ {| col := col pos + dx; row := row pos + dy |} ])
      [-1; 0; 1])
    [-1; 0; 1].

Definition siblingPositions (p : GameParams) (pos : Position) : list Position :=
  filter (fun q => isInBoundary p q = true) (neighbours pos).

(** [getSiblings]: the cells at the neighbouring positions inside the
    boundary.  A position inside the boundary with no cell in the grid makes
    the source push [undefined], which every caller dereferences next; the
    embedding throws at once. *)
Definition getSiblings (f : Field) (pos : Position) : result (list loc) :=
  mapR (fun q => c ← getCell f q; expect c) (siblingPositions (params f) pos).

Definition mineCell (h : Heap) (f : Field) (pos : Position) : result Heap :=
  c ← getCell f pos; l ← expect c;
  let h1 := modify (setIsMine true) h l in
  sibs ← getSiblings f pos;
  Ok (foldl (modify (addAdjacent 1)) h1 sibs).

Definition unMineCell (h : Heap) (f : Field) (pos : Position) : result Heap :=
  c ← getCell f pos; l ← expect c;
  let h1 := modify (setIsMine false) h l in
  sibs ← getSiblings f pos;
  Ok (foldl (modify (addAdjacent (-1))) h1 sibs).

Definition relocateMine (h : Heap) (f : Field) (from to : Position) : result Heap :=
  h1 ← unMineCell h f from; mineCell h1 f to.

(** The [while] loop of [placeMines]. *)
Fixpoint placeLoop (fuel : nat) (f : Field) (avoidSet : list Key) (minesPlacedCount : Z)
    (h : Heap) (rng : Rng) : result (Heap * Rng) :=
  if minesPlacedCount <? mines (params f) then
    match fuel with
    | O => Timeout
    | S fuel' =>
        let pos := {| col := scaled (rng 0%nat) (cols (params f));
                      row := scaled (rng 1%nat) (rows (params f)) |} in
        let rng' := rngTail 2 rng in
        let hash := createKey pos in
        if bool_decide (hash ∈ avoidSet) then
          placeLoop fuel' f avoidSet minesPlacedCount h rng'
        else
          h' ← mineCell h f pos;
          placeLoop fuel' f (hash :: avoidSet) (minesPlacedCount + 1) h' rng'
    end
  else Ok (h, rng).

Definition placeMines (fuel : nat) (f : Field) (h : Heap) (rng : Rng)
    : result (Field * Heap * Rng) :=
  if isMined f then Ok (f, h, rng)
  else
    '(h', rng') ← placeLoop fuel (setFieldMined true f) [] 0 h rng;
    Ok (setFieldMined true f, h', rng').

(** [visited[row][col]] on the grid [createGrid(rows, cols, () => false)]:
    reading in a missing row throws; a column outside the row reads
    [undefined] and a write there still sticks, so the marks behave as a set
    of positions. *)
Definition visitedAt (p : GameParams) (visited : list Position) (pos : Position)
    : result bool :=
  if (row pos <? 0) || (Z.of_nat (rows p) <=? row pos) then Throw
  else Ok (bool_decide (pos ∈ visited)).

(** The [while] loop of [getAreaToReveal]. *)
Fixpoint areaLoop (fuel : nat) (h : Heap) (f : Field) (queue : list loc)
    (visited : list Position) (res : list loc) : result (list loc) :=
  match queue with
  | [] => Ok res
  | cell :: queue' =>
      match fuel with
      | O => Timeout
      | S fuel' =>
          let pos := position (deref h cell) in
          v ← visitedAt (params f) visited pos;
          if (v : bool) then areaLoop fuel' h f queue' visited res
          else
            queue'' ← (if isEmpty (deref h cell)
                       then siblings ← getSiblings f pos; Ok (queue' ++ siblings)
                       else Ok queue');
            areaLoop fuel' h f queue'' (pos :: visited) (res ++ [cell])
      end
  end.

Definition getAreaToReveal (fuel : nat) (h : Heap) (f : Field) (pos : Position)
    : result (list loc) :=
  c ← getCell f pos; target ← expect c;
  if negb (isEmpty (deref h target)) || isMine (deref h target) then Ok [target]
  else areaLoop fuel h f [target] [] [].

(** [cloneSelf]: a new field over new cells built from the current ones. *)
Definition cloneSelf (h : Heap) (f : Field) : Field * Heap :=
  newField (params f) (Some (getData h f)) h.

Module FieldState.
Record t := {
  field : list (list CellData);
  minedCells : list CellData;
  explodedCells : list CellData;
  flaggedCells : list CellData;
  notFoundMines : list CellData;
  errorFlags : list CellData;
  revealedCells : list CellData
}.
End FieldState.
Abbreviation FieldState := FieldState.t.

(** [getState]: one pass over the flattened data; each list receives, in
    row-major order, the cells that satisfy its test. *)
Definition getState (h : Heap) (f : Field) : FieldState :=
  let data := getData h f in
  let flat := concat data in
  {| FieldState.field := data;
     FieldState.minedCells := filter (fun c => isMine c = true) flat;
     FieldState.explodedCells := filter (fun c => isExploded c = true) flat;
     FieldState.flaggedCells := filter (fun c => isFlagged c = true) flat;
     FieldState.notFoundMines := filter (fun c => notFoundMine c = true) flat;
     FieldState.errorFlags := filter (fun c => isMissed c = true) flat;
     FieldState.revealedCells := filter (fun c => isRevealed c = true) flat |}.

(** ** field-factory.ts *)

Record FactoryConfig := {
  cfg_params : GameParams;
  cfg_data : option (list (list CellData))
}.

(** [FieldFactory.create] *)
Definition createField (fuel : nat) (config : FactoryConfig) (h : Heap) (rng : Rng)
    : result (Field * Heap * Rng) :=
  let '(squareField, h') := newField (cfg_params config) (cfg_data config) h in
  placeMines fuel squareField h' rng.

(** ** game-engine.ts *)

Record GameSnapshot := {
  snapshot_state : FieldState;
  snapshot_status : GameStatus
}.

(** [target] is the live cell in [revealCell] and its data in [toggleFlag]. *)
Inductive TargetCell :=
| LiveTarget (c : option loc)
| DataTarget (c : CellData).

Module ActionChanges.
Record t := {
  target : TargetCell;
  handledCells : list CellData;
  flaggedCells : list CellData;
  unflaggedCells : list CellData;
  revealedCells : list CellData;
  explodedCells : list CellData
}.
End ActionChanges.
Abbreviation ActionChanges := ActionChanges.t.

Record GameEngine := {
  mode : GameMode;
  field : Field;
  gameParams : GameParams;
  status : GameStatus;
  flagsRemaining : Z
}.

Record ActionResult := {
  actionSnapshot : GameSnapshot;
  actionChanges : ActionChanges;
  apply : GameEngine -> GameEngine
}.

(** The constructor of [GameEngine]. *)
Definition newGameEngine (fuel : nat) (config : FactoryConfig) (h : Heap) (rng : Rng)
    : result (GameEngine * Heap * Rng) :=
  '(f, h', rng') ← createField fuel config h rng;
  Ok ({| mode := guessing; field := f; gameParams := cfg_params config;
         status := Idle; flagsRemaining := mines (cfg_params config) |}, h', rng').

Definition determineStatus (p : GameParams) (resultState : FieldState) : GameStatus :=
  let revealedCount := Z.of_nat (length (FieldState.revealedCells resultState)) in
  if (0 <? Z.of_nat (length (FieldState.explodedCells resultState))) then Lost
  else if revealedCount =? Z.of_nat (cols p) * Z.of_nat (rows p) - mines p then Won
  else Playing.

Definition getFlagsRemaining (p : GameParams) (resultState : FieldState) : Z :=
  mines p - Z.of_nat (length (FieldState.flaggedCells resultState)).

Definition gameSnapshot (e : GameEngine) (h : Heap) : GameSnapshot :=
  {| snapshot_state := getState h (field e); snapshot_status := status e |}.

(** The lists an action fills in. *)
Record Changes := {
  unflaggedCells : list CellData;
  revealedCells : list CellData;
  handledCells : list CellData;
  explodedCells : list CellData
}.

Definition noChanges : Changes :=
  {| unflaggedCells := []; revealedCells := []; handledCells := []; explodedCells := [] |}.

(** The body of the [forEach] in [openArea]. *)
Definition openStep (acc : Heap * list CellData * list CellData) (cellToProcess : loc)
    : Heap * list CellData * list CellData :=
  let '(h, unflagged, revealed) := acc in
  let cellData := deref h cellToProcess in
  let '(h, unflagged) :=
    if isFlagged (deref h cellToProcess)
    then (modify (setIsFlagged false) h cellToProcess, unflagged ++ [cellData])
    else (h, unflagged) in
  let '(h, revealed) :=
    if negb (isRevealed (deref h cellToProcess))
    then (modify (setIsRevealed true) h cellToProcess, revealed ++ [cellData])
    else (h, revealed) in
  (h, unflagged, revealed).

(** [openArea]: the store after it, the unflagged and the revealed cells. *)
Definition openArea (fuel : nat) (pos : Position) (operatedField : Field) (h : Heap)
    : result (Heap * list CellData * list CellData) :=
  area ← getAreaToReveal fuel h operatedField pos;
  Ok (foldl openStep (h, [], []) area).

(** The [for] loop over the siblings in [handleRevealedClick]. *)
Fixpoint chordLoop (fuel : nat) (operatedField : Field) (siblings : list loc)
    (acc : Changes) (h : Heap) : result (Changes * Heap) :=
  match siblings with
  | [] => Ok (acc, h)
  | sibCell :: rest =>
      if isFlagged (deref h sibCell) || isRevealed (deref h sibCell)
      then chordLoop fuel operatedField rest acc h
      else if isMine (deref h sibCell) && negb (isFlagged (deref h sibCell)) then
        let h1 := modify (setIsRevealed true) h sibCell in
        chordLoop fuel operatedField rest
          {| unflaggedCells := unflaggedCells acc; revealedCells := revealedCells acc;
             handledCells := handledCells acc;
             explodedCells := explodedCells acc ++ [deref h1 sibCell] |} h1
      else
        '(h1, unflagged, revealed) ←
           openArea fuel (position (deref h sibCell)) operatedField h;
        chordLoop fuel operatedField rest
          {| unflaggedCells := unflaggedCells acc ++ unflagged;
             revealedCells := revealedCells acc ++ revealed;
             handledCells := handledCells acc;
             explodedCells := explodedCells acc |} h1
  end.

Definition handleRevealedClick (fuel : nat) (targetCell : loc) (operatedField : Field)
    (h : Heap) : result (Changes * Heap) :=
  siblings ← getSiblings operatedField (position (deref h targetCell));
  let closedSiblings := filter (fun sib => isUntouched (deref h sib) = true) siblings in
  let flags := Z.of_nat (length (filter (fun sib => isFlagged (deref h sib) = true) siblings)) in
  if flags =? adjacentMines (deref h targetCell) then
    chordLoop fuel operatedField siblings
      {| unflaggedCells := []; revealedCells := [];
         handledCells := map (deref h) closedSiblings; explodedCells := [] |} h
  else Ok (noChanges, h).

Definition revealCell (fuel : nat) (this : GameEngine) (pos : Position) (h : Heap) (rng : Rng)
    : result (ActionResult * Heap * Rng) :=
  let actionStatus := status this in
  let '(operatedField, h) := cloneSelf h (field this) in
  (* 1. the first click *)
  '(actionStatus, operatedField, h, rng) ←
    (if bool_decide (actionStatus = Idle) then
       '(operatedField, h, rng) ←
         (if negb (isMined operatedField) then placeMines fuel operatedField h rng
          else Ok (operatedField, h, rng));
       cellData ← getCellData h operatedField pos;
       if isMine cellData then
         match find (fun l => negb (isMine (deref h l))) (concat (grid operatedField)) with
         | None => Ok (Lost, operatedField, h, rng)
         | Some unminedCell =>
             h' ← relocateMine h operatedField pos (position (deref h unminedCell));
             Ok (Playing, operatedField, h', rng)
         end
       else Ok (Playing, operatedField, h, rng)
     else Ok (actionStatus, operatedField, h, rng));
  target ← getCell operatedField pos;
  (* 2. the action itself *)
  '(changes, h) ←
    (if bool_decide (actionStatus = Playing) then
       t ← expect target;
       if negb (isFlagged (deref h t)) then
         let cellData := deref h t in
         if isMine (deref h t) then
           Ok ({| unflaggedCells := []; revealedCells := [];
                  handledCells := [cellData]; explodedCells := [cellData] |},
               modify (setIsRevealed true) h t)
         else if isRevealed (deref h t) then
           handleRevealedClick fuel t operatedField h
         else
           '(h', unflagged, revealed) ← openArea fuel pos operatedField h;
           Ok ({| unflaggedCells := unflagged; revealedCells := revealed;
                  handledCells := [cellData]; explodedCells := [] |}, h')
       else Ok (noChanges, h)
     else Ok (noChanges, h));
  let resultState := getState h operatedField in
  let actionStatus := determineStatus (gameParams this) resultState in
  Ok ({| actionSnapshot :=
           {| snapshot_state := resultState; snapshot_status := actionStatus |};
         actionChanges :=
           {| ActionChanges.target := LiveTarget target;
              ActionChanges.explodedCells := explodedCells changes;
              ActionChanges.flaggedCells := [];
              ActionChanges.revealedCells := revealedCells changes;
              ActionChanges.handledCells := handledCells changes;
              ActionChanges.unflaggedCells := unflaggedCells changes |};
         apply := fun live =>
           {| mode := mode live; gameParams := gameParams live;
              status := actionStatus;
              field := operatedField;
              flagsRemaining := getFlagsRemaining (gameParams live) resultState |} |},
      h, rng).

Definition toggleFlag (this : GameEngine) (pos : Position) (h : Heap)
    : result (ActionResult * Heap) :=
  let '(operatedField, h) := cloneSelf h (field this) in
  c ← getCell operatedField pos;
  cell ← expect c;
  let cellData := deref h cell in
  let '(flagged, unflagged, h) :=
    if bool_decide (status this = Playing) && negb (isRevealed (deref h cell)) then
      if isFlagged (deref h cell) then
        ([], [cellData], modify (setIsFlagged false) h cell)
      else if 0 <? flagsRemaining this then
        ([cellData], [], modify (setIsFlagged true) h cell)
      else ([], [], h)
    else ([], [], h) in
  let resultState := getState h operatedField in
  Ok ({| actionSnapshot :=
           {| snapshot_state := resultState; snapshot_status := status this |};
         actionChanges :=
           {| ActionChanges.explodedCells := [];
              ActionChanges.flaggedCells := flagged;
              ActionChanges.unflaggedCells := unflagged;
              ActionChanges.handledCells := [];
              ActionChanges.revealedCells := [];
              ActionChanges.target := DataTarget cellData |};
         apply := fun live =>
           {| mode := mode live; gameParams := gameParams live;
              status := status live;
              field := operatedField;
              flagsRemaining := getFlagsRemaining (gameParams live) resultState |} |},
      h).

(** ** field-solver.ts *)

Module MineProbability.
Record t := { value : Q; position : Position }.
End MineProbability.
Abbreviation MineProbability := MineProbability.t.

(** A [Map] keeps its entries in insertion order: an association list in
    which [set] replaces the entry of a known key and appends a new one. *)
Section JsMap.
Context {V : Type}.

Definition mapGet (k : Key) (m : list (Key * V)) : option V :=
  snd <$> List.find (fun kv => bool_decide (fst kv = k)) m.

Definition mapHas (k : Key) (m : list (Key * V)) : bool :=
  bool_decide (is_Some (mapGet k m)).

Fixpoint mapSet (k : Key) (v : V) (m : list (Key * V)) : list (Key * V) :=
  match m with
  | [] => [(k, v)]
  | kv :: m' => if bool_decide (fst kv = k) then (k, v) :: m' else kv :: mapSet k v m'
  end.

Definition mapValues (m : list (Key * V)) : list V := map snd m.
End JsMap.

Abbreviation Probabilities := (list (Key * MineProbability)).

Record Solver := { solver_field : Field }.

(** The constructor of [Solver]. *)
Definition newSolver (fuel : nat) (config : FactoryConfig) (h : Heap) (rng : Rng)
    : result (Solver * Heap * Rng) :=
  '(f, h', rng') ← createField fuel config h rng;
  Ok ({| solver_field := f |}, h', rng').

(** [probabilities.get(createKey(s.position))?.value === v] *)
Definition hasValue (v : Q) (h : Heap) (probabilities : Probabilities) (s : loc) : bool :=
  match mapGet (createKey (position (deref h s))) probabilities with
  | Some p => Qeq_bool (MineProbability.value p) v
  | None => false
  end.

(** The inner [for (const sib of closed)] loop of both rules. *)
Definition markClosed (v : Q) (h : Heap) (closed : list loc)
    (acc : Probabilities * bool) : Probabilities * bool :=
  foldl (fun '(probabilities, updated) sib =>
           let key := createKey (position (deref h sib)) in
           if mapHas key probabilities then (probabilities, updated)
           else (mapSet key {| MineProbability.value := v;
                               MineProbability.position := position (deref h sib) |}
                        probabilities, true))
        acc closed.

Fixpoint inferCertainMines (h : Heap) (f : Field) (cells : list CellData)
    (probabilities : Probabilities) (updated : bool) : result (Probabilities * bool) :=
  match cells with
  | [] => Ok (probabilities, updated)
  | cell :: rest =>
      if isEmpty cell || isMine cell then inferCertainMines h f rest probabilities updated
      else
        siblings ← getSiblings f (position cell);
        let closed := filter (fun s => isRevealed (deref h s) = false) siblings in
        if (length closed =? 0)%nat then inferCertainMines h f rest probabilities updated
        else
          let knownSafe := filter (fun s => hasValue 0 h probabilities s = true) closed in
          if adjacentMines cell =? Z.of_nat (length closed) - Z.of_nat (length knownSafe)
          then
            let '(probabilities', updated') :=
              markClosed 1 h closed (probabilities, updated) in
            inferCertainMines h f rest probabilities' updated'
          else inferCertainMines h f rest probabilities updated
  end.

Fixpoint inferCertainSafeCells (h : Heap) (f : Field) (cells : list CellData)
    (probabilities : Probabilities) (updated : bool) : result (Probabilities * bool) :=
  match cells with
  | [] => Ok (probabilities, updated)
  | cell :: rest =>
      if isEmpty cell || isMine cell
      then inferCertainSafeCells h f rest probabilities updated
      else
        siblings ← getSiblings f (position cell);
        let closed := filter (fun s => isRevealed (deref h s) = false) siblings in
        if (length closed =? 0)%nat
        then inferCertainSafeCells h f rest probabilities updated
        else
          let knownMines := filter (fun s => hasValue 1 h probabilities s = true) closed in
          if Z.of_nat (length knownMines) =? adjacentMines cell then
            let '(probabilities', updated') :=
              markClosed 0 h closed (probabilities, updated) in
            inferCertainSafeCells h f rest probabilities' updated'
          else inferCertainSafeCells h f rest probabilities updated
  end.

(** The [do ... while (changed)] loop of [solve]. *)
Fixpoint solveLoop (fuel : nat) (h : Heap) (f : Field) (cells : list CellData)
    (probabilities : Probabilities) : result Probabilities :=
  match fuel with
  | O => Timeout
  | S fuel' =>
      '(probabilities1, certainMinesFound) ← inferCertainMines h f cells probabilities false;
      '(probabilities2, certainSafeFound) ←
         inferCertainSafeCells h f cells probabilities1 false;
      if certainMinesFound || certainSafeFound
      then solveLoop fuel' h f cells probabilities2
      else Ok probabilities2
  end.

(** [solve]; the call of [inferBySetTheory] is commented out in the source. *)
Definition solve (fuel : nat) (this : Solver) (h : Heap) : result (list MineProbability) :=
  let fieldState := getState h (solver_field this) in
  probabilities ← solveLoop fuel h (solver_field this)
                     (FieldState.revealedCells fieldState) [];
  Ok (mapValues probabilities).

Definition isGuessingState (fuel : nat) (this : Solver) (h : Heap) : result bool :=
  probabilities ← solve fuel this h;
  Ok (forallb (fun prob => negb (Qeq_bool (MineProbability.value prob) 0)) probabilities).

(** 32-bit integer arithmetic of [<<], [>>] and [&]. *)
Definition toInt32 (z : Z) : Z :=
  let m := z mod 2 ^ 32 in if m <? 2 ^ 31 then m else m - 2 ^ 32.
Definition shl32 (a n : Z) : Z := toInt32 (Z.shiftl (toInt32 a) (n mod 32)).
Definition sar32 (a n : Z) : Z := Z.shiftr (toInt32 a) (n mod 32).
Definition and32 (a b : Z) : Z := toInt32 (Z.land (toInt32 a) (toInt32 b)).

Abbreviation Assignment := (list (Key * bool)).

(** [generateAllAssignments] *)
Definition generateAllAssignments (variables : list Key) : list Assignment :=
  let total := shl32 1 (Z.of_nat (length variables)) in
  map (fun i : nat =>
         foldl (fun assignment j =>
                  let bit := and32 (sar32 (Z.of_nat i) (Z.of_nat j)) 1 in
                  match variables !! j with
                  | Some v => mapSet v (bit =? 1) assignment
                  | None => assignment
                  end)
               [] (seq 0 (length variables)))
      (seq 0 (Z.to_nat total)).

Record Constraint := {
  constraint_cell : CellData;
  constraint_neighbors : list Key;
  constraint_mines : Z
}.

Definition satisfiesAllConstraints (assignment : Assignment)
    (constraints : list Constraint) : bool :=
  forallb (fun c =>
             let count :=
               length (filter (fun key => mapGet key assignment = Some true)
                              (constraint_neighbors c)) in
             Z.of_nat count =? constraint_mines c)
          constraints.

(** * Specification vocabulary *)

(** ** Well-formed fields *)

Definition inBounds (p : GameParams) (pos : Position) : Prop :=
  0 <= row pos < Z.of_nat (rows p) ∧ 0 <= col pos < Z.of_nat (cols p).

(** The reference stored at a position of the grid, if there is one. *)
Definition locAt (f : Field) (pos : Position) : option loc :=
  r ← nthZ (grid f) (row pos); nthZ r (col pos).

(** The cell a field shows at a position in a given store. *)
Definition cellAt (h : Heap) (f : Field) (pos : Position) : option SimpleCell :=
  deref h <$> locAt f pos.

(** The grid has the size the parameters announce, its references are
    allocated, and every cell carries the position of its slot. *)
Record wf (h : Heap) (f : Field) : Prop := {
  wf_rows : length (grid f) = rows (params f);
  wf_cols : ∀ r, r ∈ grid f → length r = cols (params f);
  wf_cell : ∀ pos l, locAt f pos = Some l →
              (l < length h)%nat ∧ position (deref h l) = pos
}.

(** Two positions are adjacent when they differ and are at most one step
    apart in each direction. *)
Definition adjacent (p q : Position) : Prop :=
  p ≠ q ∧ -1 <= col q - col p <= 1 ∧ -1 <= row q - row p <= 1.

(** ** The adjacency invariant *)

Definition mineAt (h : Heap) (f : Field) (pos : Position) : bool :=
  match cellAt h f pos with
  | Some c => isMine c
  | None => false
  end.

Definition minedSiblings (h : Heap) (f : Field) (pos : Position) : nat :=
  length (filter (fun q => mineAt h f q = true) (siblingPositions (params f) pos)).

Definition adjacencyOk (h : Heap) (f : Field) : Prop :=
  ∀ pos c, cellAt h f pos = Some c → adjacentMines c = Z.of_nat (minedSiblings h f pos).

(** The references [getSiblings] returns on a well-formed field. *)
Definition siblingLocs (f : Field) (pos : Position) : list loc :=
  omap (locAt f) (siblingPositions (params f) pos).

(** The store [h'] shows, at every slot of the field, the cell of [h]
    changed by [T]; nothing is allocated and no other object is written. *)
Record updates (f : Field) (T : Position → SimpleCell → SimpleCell)
    (h h' : Heap) : Prop := {
  upd_length : length h' = length h;
  upd_cell : ∀ q l, locAt f q = Some l → deref h' l = T q (deref h l);
  upd_other : ∀ l, (∀ q, locAt f q ≠ Some l) → deref h' l = deref h l
}.

(** Every object of [h] is still there, unchanged, in [h']. *)
Definition frame (h h' : Heap) : Prop :=
  (length h ≤ length h')%nat ∧ ∀ l, (l < length h)%nat → deref h' l = deref h l.

(** All the cells of the field were allocated at or after [base]. *)
Definition owned (base : nat) (f : Field) : Prop :=
  ∀ pos l, locAt f pos = Some l → (base ≤ l)%nat.

(** What [mineCell] and [unMineCell] do to the cell at [q]. *)
Definition mineT (p : GameParams) (b : bool) (d : Z) (pos q : Position)
    (c : SimpleCell) : SimpleCell :=
  (if bool_decide (q ∈ siblingPositions p pos) then addAdjacent d else id)
    ((if bool_decide (q = pos) then setIsMine b else id) c).

(** ** Cell descriptions handed to a constructor *)

Definition dataAt (data : list (list CellData)) (pos : Position) : option CellData :=
  r ← nthZ data (row pos); nthZ r (col pos).

(** A description that fits the parameters: [rows] rows of [cols] cells,
    each carrying the position of its slot. *)
Record wfData (p : GameParams) (data : list (list CellData)) : Prop := {
  wfd_rows : length data = rows p;
  wfd_cols : ∀ r, r ∈ data → length r = cols p;
  wfd_cell : ∀ pos c, dataAt data pos = Some c → position c = pos
}.

(** Every position of the grid, row by row. *)
Definition allPositions (p : GameParams) : list Position :=
  concat (createGrid (rows p) (cols p) id).

(** No cell of the field is a mine. *)
Definition noMines (h : Heap) (f : Field) : Prop := ∀ pos, mineAt h f pos = false.

(** The mined positions. *)
Definition minedPositions (h : Heap) (f : Field) : list Position :=
  filter (fun q => mineAt h f q = true) (allPositions (params f)).

(** The reveal and flag marks of every cell of the field are the same in
    both stores. *)
Definition sameMarks (f : Field) (h h' : Heap) : Prop :=
  ∀ q l, locAt f q = Some l →
    isRevealed (deref h' l) = isRevealed (deref h l)
    ∧ isFlagged (deref h' l) = isFlagged (deref h l).

(** The mines of the field are the positions whose keys are listed. *)
Record minesAre (h : Heap) (f : Field) (keys : list Key) : Prop := {
  ma_nodup : NoDup keys;
  ma_inBounds : ∀ k, k ∈ keys → inBounds (params f) (parseKey k);
  ma_mine : ∀ q, inBounds (params f) q → mineAt h f q = true ↔ createKey q ∈ keys
}.

(** Between [h] and [h'] only cells of the field were written. *)
Definition touchesOnly (f : Field) (h h' : Heap) : Prop :=
  length h' = length h ∧ ∀ l, (∀ q, locAt f q ≠ Some l) → deref h' l = deref h l.

(** ** The reveal area *)

Definition emptyAt (h : Heap) (f : Field) (pos : Position) : Prop :=
  ∃ c, cellAt h f pos = Some c ∧ isEmpty c = true.

(** A numbered cell: not a mine, with at least one mine around it. *)
Definition numberedAt (h : Heap) (f : Field) (pos : Position) : Prop :=
  ∃ c, cellAt h f pos = Some c ∧ isMine c = false ∧ adjacentMines c ≠ 0.

(** The connected region of empty cells around an empty origin: the cells
    joined to the origin by a chain of neighbouring empty cells.  It is
    closed under the step to an empty neighbour, hence maximal. *)
Inductive emptyRegion (h : Heap) (f : Field) (origin : Position) : Position → Prop :=
| region_origin : emptyAt h f origin → emptyRegion h f origin origin
| region_step e q :
    emptyRegion h f origin e → q ∈ siblingPositions (params f) e → emptyAt h f q →
    emptyRegion h f origin q.

(** The numbered cells that touch the region. *)
Definition regionBorder (h : Heap) (f : Field) (origin q : Position) : Prop :=
  numberedAt h f q ∧ ∃ e, emptyRegion h f origin e ∧ q ∈ siblingPositions (params f) e.

(** What the traversal reaches: the origin, and the neighbours of every
    empty cell it reaches. *)
Inductive reach (h : Heap) (f : Field) (origin : Position) : Position → Prop :=
| reach_origin : reach h f origin origin
| reach_step e q :
    reach h f origin e → emptyAt h f e → q ∈ siblingPositions (params f) e →
    reach h f origin q.

(** The positions of [allPositions] not yet marked. *)
Definition unvisited (p : GameParams) (visited : list Position) : nat :=
  length (filter (fun q => q ∉ visited) (allPositions p)).

(** Fuel that lets every loop over a field of these parameters finish. *)
Definition enoughFuel (p : GameParams) : nat := S (9 * (rows p * cols p)).

(** A reference held by the grid. *)
Definition gridLoc (f : Field) (l : loc) : Prop := ∃ q, locAt f q = Some l.

(** The invariant of the loop of [getAreaToReveal]. *)
Record areaInv (h : Heap) (f : Field) (origin : Position)
    (queue : list loc) (visited : list Position) (res : list loc) : Prop := {
  ai_queue : Forall (gridLoc f) queue;
  ai_res : Forall (gridLoc f) res;
  ai_visited : map (fun l => position (deref h l)) res = reverse visited;
  ai_nodup : NoDup visited;
  ai_sound_v : ∀ q, q ∈ visited → reach h f origin q;
  ai_sound_q : ∀ l, l ∈ queue → reach h f origin (position (deref h l));
  ai_origin : origin ∈ visited ∨ ∃ l, l ∈ queue ∧ position (deref h l) = origin;
  ai_closed : ∀ e s, e ∈ visited → emptyAt h f e → s ∈ siblingPositions (params f) e →
                s ∈ visited ∨ ∃ l, l ∈ queue ∧ position (deref h l) = s
}.

(** ** Opening cells *)

(** What [openArea] does to a cell of the area. *)
Definition revealT (c : SimpleCell) : SimpleCell := setIsRevealed true (setIsFlagged false c).

(** Between [h] and [h'] cells of the field were only opened: no mine or
    number moved, no cell was closed or flagged, and a cell that changed
    is revealed. *)
Record opens (f : Field) (h h' : Heap) : Prop := {
  op_touches : touchesOnly f h h';
  op_core : ∀ q l, locAt f q = Some l →
      position (deref h' l) = position (deref h l)
      ∧ isMine (deref h' l) = isMine (deref h l)
      ∧ adjacentMines (deref h' l) = adjacentMines (deref h l);
  op_revealed : ∀ q l, locAt f q = Some l →
      isRevealed (deref h l) = true → isRevealed (deref h' l) = true;
  op_flagged : ∀ q l, locAt f q = Some l →
      isFlagged (deref h' l) = true → isFlagged (deref h l) = true;
  op_changed : ∀ q l, locAt f q = Some l →
      deref h' l = deref h l ∨ isRevealed (deref h' l) = true
}.

Definition revealedAt (h : Heap) (f : Field) (pos : Position) : bool :=
  match cellAt h f pos with
  | Some c => isRevealed c
  | None => false
  end.

Definition flaggedAt (h : Heap) (f : Field) (pos : Position) : bool :=
  match cellAt h f pos with
  | Some c => isFlagged c
  | None => false
  end.

(** No revealed mine. *)
Definition noExploded (h : Heap) (f : Field) : Prop :=
  ∀ q c, cellAt h f q = Some c → isExploded c = false.

(** The invariant of the loop of [handleRevealedClick]: [h0] is the store
    when the loop starts, [h] the current one, [done] the positions of the
    siblings already handled, [exploded] the list of exploded cells so far. *)
Record chordInv (f : Field) (h0 h : Heap) (done : list Position)
    (exploded : list CellData) : Prop := {
  ci_opens : opens f h0 h;
  ci_flood : ∀ q l, locAt f q = Some l →
      isMine (deref h0 l) = false → isRevealed (deref h0 l) = false →
      isRevealed (deref h l) = true →
      ∀ q' l', reach h0 f q q' → locAt f q' = Some l' →
        isRevealed (deref h l') = true ∧ isFlagged (deref h l') = false;
  ci_mines : ∀ q l, locAt f q = Some l →
      isMine (deref h0 l) = true → isRevealed (deref h0 l) = false →
      isRevealed (deref h l) = true →
      q ∈ done ∧ setIsRevealed true (deref h0 l) ∈ exploded;
  ci_done : ∀ q l, q ∈ done → locAt f q = Some l →
      isUntouched (deref h0 l) = true → isRevealed (deref h l) = true
}.

(** ** The engine *)

(** What holds of the engine between actions: its field is well formed and
    satisfies the adjacency invariant, the engine and the field share their
    parameters, and a field without a mine belongs to a game without mines
    (the factory has seeded the field). *)
Record engineOk (h : Heap) (e : GameEngine) : Prop := {
  eo_wf : wf h (field e);
  eo_adj : adjacencyOk h (field e);
  eo_params : gameParams e = params (field e);
  eo_seeded : noMines h (field e) → mines (gameParams e) <= 0
}.

(** Step 1 of [revealCell]: the first click. *)
Definition firstClick (fuel : nat) (pos : Position) (actionStatus : GameStatus)
    (operatedField : Field) (h : Heap) (rng : Rng)
    : result (GameStatus * Field * Heap * Rng) :=
  if bool_decide (actionStatus = Idle) then
    '(operatedField, h, rng) ←
      (if negb (isMined operatedField) then placeMines fuel operatedField h rng
       else Ok (operatedField, h, rng));
    cellData ← getCellData h operatedField pos;
    if isMine cellData then
      match find (fun l => negb (isMine (deref h l))) (concat (grid operatedField)) with
      | None => Ok (Lost, operatedField, h, rng)
      | Some unminedCell =>
          h' ← relocateMine h operatedField pos (position (deref h unminedCell));
          Ok (Playing, operatedField, h', rng)
      end
    else Ok (Playing, operatedField, h, rng)
  else Ok (actionStatus, operatedField, h, rng).

(** Step 2 of [revealCell]: the action itself. *)
Definition mainAction (fuel : nat) (pos : Position) (actionStatus : GameStatus)
    (operatedField : Field) (target : option loc) (h : Heap) : result (Changes * Heap) :=
  if bool_decide (actionStatus = Playing) then
    t ← expect target;
    if negb (isFlagged (deref h t)) then
      let cellData := deref h t in
      if isMine (deref h t) then
        Ok ({| unflaggedCells := []; revealedCells := [];
               handledCells := [cellData]; explodedCells := [cellData] |},
            modify (setIsRevealed true) h t)
      else if isRevealed (deref h t) then
        handleRevealedClick fuel t operatedField h
      else
        '(h', unflagged, revealed) ← openArea fuel pos operatedField h;
        Ok ({| unflaggedCells := unflagged; revealedCells := revealed;
               handledCells := [cellData]; explodedCells := [] |}, h')
    else Ok (noChanges, h)
  else Ok (noChanges, h).

(** The result [revealCell] returns. *)
Definition revealResult (this : GameEngine) (operatedField : Field)
    (target : option loc) (changes : Changes) (h : Heap) : ActionResult :=
  let resultState := getState h operatedField in
  let actionStatus := determineStatus (gameParams this) resultState in
  {| actionSnapshot :=
       {| snapshot_state := resultState; snapshot_status := actionStatus |};
     actionChanges :=
       {| ActionChanges.target := LiveTarget target;
          ActionChanges.explodedCells := explodedCells changes;
          ActionChanges.flaggedCells := [];
          ActionChanges.revealedCells := revealedCells changes;
          ActionChanges.handledCells := handledCells changes;
          ActionChanges.unflaggedCells := unflaggedCells changes |};
     apply := fun live =>
       {| mode := mode live; gameParams := gameParams live;
          status := actionStatus;
          field := operatedField;
          flagsRemaining := getFlagsRemaining (gameParams live) resultState |} |}.

(** The cells of two views agree everywhere. *)
Definition sameView (h : Heap) (f : Field) (h' : Heap) (f' : Field) : Prop :=
  params f' = params f ∧ ∀ q, cellAt h' f' q = cellAt h f q.

(** What [relocateMine] does to the cell at [q]. *)
Definition relocT (p : GameParams) (from to q : Position) (c : SimpleCell) : SimpleCell :=
  mineT p true 1 to q (mineT p false (-1) from q c).

Definition flaggedSiblings (h : Heap) (f : Field) (pos : Position) : nat :=
  length (filter (fun q => flaggedAt h f q = true) (siblingPositions (params f) pos)).

(** One run of [revealCell], phase by phase: the clone [(f1, h1)], the
    outcome [(st2, f2, h2)] of the first click, the target [t], and the
    outcome [(changes, h3)] of the action. *)
Record revealRun (fuel : nat) (e : GameEngine) (pos : Position) (h : Heap) (rng : Rng)
    (f1 : Field) (h1 : Heap) (st2 : GameStatus) (f2 : Field) (h2 : Heap) (t : loc)
    (changes : Changes) (h3 : Heap) : Prop := {
  rr_clone : cloneSelf h (field e) = (f1, h1);
  rr_view : sameView h (field e) h1 f1;
  rr_wf1 : wf h1 f1;
  rr_adj1 : adjacencyOk h1 f1;
  rr_frame1 : frame h h1;
  rr_owned : owned (length h) f1;
  rr_first : firstClick fuel pos (status e) f1 h1 rng = Ok (st2, f2, h2, rng);
  rr_params : params f2 = params f1;
  rr_locAt : ∀ q, locAt f2 q = locAt f1 q;
  rr_wf2 : wf h2 f2;
  rr_adj2 : adjacencyOk h2 f2;
  rr_touches : touchesOnly f1 h1 h2;
  rr_marks : sameMarks f1 h1 h2;
  rr_later : status e ≠ Idle → st2 = status e ∧ h2 = h1;
  rr_safe : status e = Idle → mineAt h1 f1 pos = false → st2 = Playing ∧ h2 = h1;
  rr_mined : status e = Idle → mineAt h1 f1 pos = true →
      (st2 = Lost ∧ h2 = h1 ∧ ∀ q, inBounds (params f1) q → mineAt h1 f1 q = true)
      ∨ (st2 = Playing ∧ ∃ to, inBounds (params f1) to ∧ mineAt h1 f1 to = false
            ∧ updates f1 (relocT (params f1) pos to) h1 h2);
  rr_target : locAt f2 pos = Some t;
  rr_main : mainAction fuel pos st2 f2 (Some t) h2 = Ok (changes, h3);
  rr_opens : opens f2 h2 h3;
  rr_result : revealCell fuel e pos h rng
              = Ok (revealResult e f2 (Some t) changes h3, h3, rng)
}.

(** The result [toggleFlag] returns. *)
Definition toggleResult (this : GameEngine) (operatedField : Field) (cellData : CellData)
    (flagged unflagged : list CellData) (h : Heap) : ActionResult :=
  let resultState := getState h operatedField in
  {| actionSnapshot :=
       {| snapshot_state := resultState; snapshot_status := status this |};
     actionChanges :=
       {| ActionChanges.explodedCells := [];
          ActionChanges.flaggedCells := flagged;
          ActionChanges.unflaggedCells := unflagged;
          ActionChanges.handledCells := [];
          ActionChanges.revealedCells := [];
          ActionChanges.target := DataTarget cellData |};
     apply := fun live =>
       {| mode := mode live; gameParams := gameParams live;
          status := status live;
          field := operatedField;
          flagsRemaining := getFlagsRemaining (gameParams live) resultState |} |}.

(** What [toggleFlag] does to the cell at [q] when it sets the flag to [b]. *)
Definition flagT (b : bool) (pos q : Position) (c : SimpleCell) : SimpleCell :=
  if bool_decide (q = pos) then setIsFlagged b c else c.

(** One run of [toggleFlag]: the clone [(f1, h1)], the target [t] and the
    store [h2] after the flag was or was not changed. *)
Record toggleRun (e : GameEngine) (pos : Position) (h : Heap)
    (f1 : Field) (h1 : Heap) (t : loc) (flagged unflagged : list CellData)
    (h2 : Heap) : Prop := {
  tr_clone : cloneSelf h (field e) = (f1, h1);
  tr_view : sameView h (field e) h1 f1;
  tr_wf1 : wf h1 f1;
  tr_adj1 : adjacencyOk h1 f1;
  tr_frame1 : frame h h1;
  tr_owned : owned (length h) f1;
  tr_target : locAt f1 pos = Some t;
  tr_cases :
    (status e = Playing ∧ isRevealed (deref h1 t) = false ∧ isFlagged (deref h1 t) = true
     ∧ flagged = [] ∧ unflagged = [deref h1 t]
     ∧ h2 = modify (setIsFlagged false) h1 t ∧ updates f1 (flagT false pos) h1 h2)
    ∨ (status e = Playing ∧ isRevealed (deref h1 t) = false
       ∧ isFlagged (deref h1 t) = false ∧ 0 < flagsRemaining e
       ∧ flagged = [deref h1 t] ∧ unflagged = []
       ∧ h2 = modify (setIsFlagged true) h1 t ∧ updates f1 (flagT true pos) h1 h2)
    ∨ ((status e ≠ Playing ∨ isRevealed (deref h1 t) = true
        ∨ (isFlagged (deref h1 t) = false ∧ flagsRemaining e <= 0))
       ∧ flagged = [] ∧ unflagged = [] ∧ h2 = h1);
  tr_result : toggleFlag e pos h
              = Ok (toggleResult e f1 (deref h1 t) flagged unflagged h2, h2)
}.

(** ** Reachable states of an engine

    A state is the engine object and the store.  An engine starts from the
    constructor; an action computes a result and leaves the engine as it
    is; the commit of a result, at once or later, replaces the engine's
    fields.  The random source is left free at every step, and the loops
    of an action are given the fuel they need. *)
Inductive reachable : GameEngine → Heap → Prop :=
| reachable_new fuel p h rng e h' rng' :
    newGameEngine fuel {| cfg_params := p; cfg_data := None |} h rng = Ok (e, h', rng') →
    reachable e h'
| reachable_reveal fuel e pos h rng res h' rng' :
    reachable e h → inBounds (gameParams e) pos →
    (enoughFuel (gameParams e) ≤ fuel)%nat →
    revealCell fuel e pos h rng = Ok (res, h', rng') →
    reachable e h'
| reachable_toggle e pos h res h' :
    reachable e h → inBounds (gameParams e) pos →
    toggleFlag e pos h = Ok (res, h') →
    reachable e h'
| reachable_apply_reveal fuel e0 pos h0 rng res h0' rng' e h :
    reachable e0 h0 → inBounds (gameParams e0) pos →
    (enoughFuel (gameParams e0) ≤ fuel)%nat →
    revealCell fuel e0 pos h0 rng = Ok (res, h0', rng') →
    reachable e h → frame h0' h → gameParams e = gameParams e0 →
    reachable (apply res e) h
| reachable_apply_toggle e0 pos h0 res h0' e h :
    reachable e0 h0 → inBounds (gameParams e0) pos →
    toggleFlag e0 pos h0 = Ok (res, h0') →
    reachable e h → frame h0' h → gameParams e = gameParams e0 →
    reachable (apply res e) h.

(** ** Checking a concrete state *)

#[global] Instance GameParams_eq_dec : EqDecision GameParams.
Proof. solve_decision. Defined.

Definition wfb (h : Heap) (f : Field) : bool :=
  bool_decide (length (grid f) = rows (params f))
  && forallb (fun r => bool_decide (length r = cols (params f))) (grid f)
  && forallb (fun pos =>
                match locAt f pos with
                | Some l => bool_decide (l < length h)%nat
                            && bool_decide (position (deref h l) = pos)
                | None => false
                end) (allPositions (params f)).

Definition adjacencyOkb (h : Heap) (f : Field) : bool :=
  forallb (fun pos =>
             match cellAt h f pos with
             | Some c => adjacentMines c =? Z.of_nat (minedSiblings h f pos)
             | None => true
             end) (allPositions (params f)).

Definition engineOkb (h : Heap) (e : GameEngine) : bool :=
  wfb h (field e) && adjacencyOkb h (field e)
  && bool_decide (gameParams e = params (field e))
  && (existsb (mineAt h (field e)) (allPositions (params (field e)))
      || (mines (gameParams e) <=? 0)).

(** Two stores show the same mines, numbers and positions in the field. *)
Definition sameCore (f : Field) (h h' : Heap) : Prop :=
  ∀ q l, locAt f q = Some l →
    position (deref h' l) = position (deref h l)
    ∧ isMine (deref h' l) = isMine (deref h l)
    ∧ adjacentMines (deref h' l) = adjacentMines (deref h l).

(** ** Concrete games used to exercise the statements *)

Definition demoParams : GameParams := {| cols := 3; rows := 3; mines := 1 |}.
Definition demoConfig : FactoryConfig := {| cfg_params := demoParams; cfg_data := None |}.
(** A random source that always answers 0: the mine goes to (0,0). *)
Definition demoRng : Rng := fun _ => 0%Q.
Definition origin00 : Position := {| col := 0; row := 0 |}.

(** A result that changes nothing: the four lists of changes are empty and
    the snapshot shows the cells the engine shows. *)
Definition noopResult (e : GameEngine) (h : Heap) (res : ActionResult) : Prop :=
  ActionChanges.revealedCells (actionChanges res) = []
  ∧ ActionChanges.flaggedCells (actionChanges res) = []
  ∧ ActionChanges.unflaggedCells (actionChanges res) = []
  ∧ ActionChanges.explodedCells (actionChanges res) = []
  ∧ snapshot_state (actionSnapshot res) = snapshot_state (gameSnapshot e h).

(** The row of the position lies outside the grid. *)
Definition rowOutside (p : GameParams) (pos : Position) : Prop :=
  row pos < 0 ∨ Z.of_nat (rows p) <= row pos.

(** The row lies inside the grid, the column outside. *)
Definition colOutside (p : GameParams) (pos : Position) : Prop :=
  0 <= row pos < Z.of_nat (rows p) ∧ (col pos < 0 ∨ Z.of_nat (cols p) <= col pos).

(** ** The solver *)

(** The entries of the probability map are well formed: one entry per key,
    each under the key of its position, a position of the grid, with value
    0 or 1. *)
Record probsOk (f : Field) (probs : Probabilities) : Prop := {
  po_nodup : NoDup (map fst probs);
  po_entry : ∀ k p, (k, p) ∈ probs →
      k = createKey (MineProbability.position p)
      ∧ inBounds (params f) (MineProbability.position p)
      ∧ (MineProbability.value p = 0%Q ∨ MineProbability.value p = 1%Q)
}.

(** The entries tell the truth about the field. *)
Definition probsSound (h : Heap) (f : Field) (probs : Probabilities) : Prop :=
  ∀ k p, (k, p) ∈ probs →
    (MineProbability.value p = 1%Q → mineAt h f (MineProbability.position p) = true)
    ∧ (MineProbability.value p = 0%Q → mineAt h f (MineProbability.position p) = false).

(** The revealed cells handed to the rules are cells of the field. *)
Definition cellsOf (h : Heap) (f : Field) (cells : list CellData) : Prop :=
  ∀ c, c ∈ cells → isRevealed c = true ∧ ∃ q, cellAt h f q = Some c.

(** One pass of a rule started with [(probs0, upd0)] and ended with
    [(probs, upd)]: entries were only added, and the flag is raised only if
    it was raised before or an entry was added. *)
Definition grew (probs0 : Probabilities) (upd0 : bool)
    (probs : Probabilities) (upd : bool) : Prop :=
  (∀ kp, kp ∈ probs0 → kp ∈ probs)
  ∧ (length probs0 ≤ length probs)%nat
  ∧ (upd = true → upd0 = true ∨ (length probs0 < length probs)%nat).

(** ** field-solver.ts: the enumeration pass

    [inferBySetTheory] and its helpers are methods of the class; [solve]
    does not call them (the call is commented out in the source). *)

(** A [Set] of keys keeps insertion order and holds each key once. *)
Definition setHas (k : Key) (s : list Key) : bool := bool_decide (k ∈ s).
Definition setAdd (k : Key) (s : list Key) : list Key :=
  if setHas k s then s else s ++ [k].

(** [this.field.getSiblings(pos).some(s => !s.isRevealed)] *)
Definition hasClosed (h : Heap) (f : Field) (pos : Position) : result bool :=
  siblings ← getSiblings f pos;
  Ok (existsb (fun s => negb (isRevealed (deref h s))) siblings).

(** The [while (queue.length > 0)] loop of [groupConnectedRegions];
    [queue.pop()] takes the last element of the array. *)
Fixpoint regionLoop (fuel : nat) (h : Heap) (f : Field) (queue : list CellData)
    (visited : list Key) (group : list CellData) : result (list Key * list CellData) :=
  match fuel with
  | O => Timeout
  | S fuel' =>
      match reverse queue with
      | [] => Ok (visited, group)
      | current :: rest =>
          let queue := reverse rest in
          let currentKey := createKey (position current) in
          if setHas currentKey visited then regionLoop fuel' h f queue visited group
          else
            let visited := setAdd currentKey visited in
            let group := group ++ [current] in
            siblings ← getSiblings f (position current);
            let neighbors :=
              filter (fun n => isRevealed n = true
                               ∧ setHas (createKey (position n)) visited = false)
                     (map (deref h) siblings) in
            pushed ← mapR (fun neighbor =>
                             nHasClosed ← hasClosed h f (position neighbor);
                             Ok (if nHasClosed : bool then [neighbor] else []))
                          neighbors;
            regionLoop fuel' h f (queue ++ concat pushed) visited group
      end
  end.

(** The [for (const cell of cells)] loop of [groupConnectedRegions]. *)
Fixpoint groupLoop (fuel : nat) (h : Heap) (f : Field) (cells : list CellData)
    (visited : list Key) (regions : list (list CellData))
    : result (list (list CellData)) :=
  match cells with
  | [] => Ok regions
  | cell :: cells' =>
      let key := createKey (position cell) in
      if setHas key visited then groupLoop fuel h f cells' visited regions
      else
        closedNear ← hasClosed h f (position cell);
        if negb closedNear then groupLoop fuel h f cells' visited regions
        else
          '(visited', group) ← regionLoop fuel h f [cell] visited [];
          groupLoop fuel h f cells' visited'
            (if (0 <? length group)%nat then regions ++ [group] else regions)
  end.

Definition groupConnectedRegions (fuel : nat) (h : Heap) (f : Field)
    (cells : list CellData) : result (list (list CellData)) :=
  groupLoop fuel h f cells [] [].

(** The [for (const cell of region)] loop of [inferBySetTheory]. *)
Fixpoint regionConstraints (h : Heap) (f : Field) (region : list CellData)
    (constraints : list Constraint) (variables : list Key)
    : result (list Constraint * list Key) :=
  match region with
  | [] => Ok (constraints, variables)
  | cell :: region' =>
      siblings ← getSiblings f (position cell);
      let closedSiblings := filter (fun s => isRevealed (deref h s) = false) siblings in
      let variableKeys := map (fun s => createKey (position (deref h s))) closedSiblings in
      regionConstraints h f region'
        (constraints ++ [{| constraint_cell := cell;
                            constraint_neighbors := variableKeys;
                            constraint_mines := adjacentMines cell |}])
        (foldl (fun vars key => setAdd key vars) variables variableKeys)
  end.

(** The body of the loop over the regions, after the constraints are
    collected: count, for each variable, the valid assignments that mine
    it. *)
Definition regionProbabilities (variableList : list Key) (constraints : list Constraint)
    (probabilities : list (Key * Q)) : list (Key * Q) :=
  let allAssignments := generateAllAssignments variableList in
  let validAssignments :=
    filter (fun assignment => satisfiesAllConstraints assignment constraints = true)
           allAssignments in
  if (length validAssignments =? 0)%nat then probabilities
  else
    let counts := foldl (fun counts key => mapSet key 0 counts) [] variableList in
    let counts :=
      foldl (fun counts assignment =>
               foldl (fun counts key =>
                        match mapGet key assignment with
                        | Some true => mapSet key (default 0 (mapGet key counts) + 1) counts
                        | _ => counts
                        end)
                     counts variableList)
            counts validAssignments in
    foldl (fun probabilities key =>
             mapSet key (Qdiv (inject_Z (default 0 (mapGet key counts)))
                              (inject_Z (Z.of_nat (length validAssignments))))
                    probabilities)
          probabilities variableList.

Fixpoint regionsLoop (h : Heap) (f : Field) (regions : list (list CellData))
    (probabilities : list (Key * Q)) : result (list (Key * Q)) :=
  match regions with
  | [] => Ok probabilities
  | region :: regions' =>
      '(constraints, variables) ← regionConstraints h f region [] [];
      regionsLoop h f regions' (regionProbabilities variables constraints probabilities)
  end.

(** [inferBySetTheory] *)
Definition inferBySetTheory (fuel : nat) (h : Heap) (f : Field) (cells : list CellData)
    : result (list MineProbability) :=
  regions ← groupConnectedRegions fuel h f cells;
  probabilities ← regionsLoop h f regions [];
  Ok (map (fun kv => {| MineProbability.position := parseKey (fst kv);
                        MineProbability.value := snd kv |})
          probabilities).

(** ** The solver the specification describes

    [solve] with the commented-out lines put back: after the two rules
    reach their fixed point, the enumeration pass fills in every position
    the rules left open. This definition follows the specification, not
    the code that runs. *)
Definition solveWithSetTheory (fuel : nat) (this : Solver) (h : Heap)
    : result (list MineProbability) :=
  let fieldState := getState h (solver_field this) in
  probabilities ← solveLoop fuel h (solver_field this)
                     (FieldState.revealedCells fieldState) [];
  inferred ← inferBySetTheory fuel h (solver_field this)
                (FieldState.revealedCells fieldState);
  Ok (mapValues
        (foldl (fun probabilities prob =>
                  let key := createKey (MineProbability.position prob) in
                  if mapHas key probabilities then probabilities
                  else mapSet key prob probabilities)
               probabilities inferred)).

(** ** Concrete boards *)

(** A row of three cells with one mine. *)
Definition rowParams : GameParams := {| cols := 3; rows := 1; mines := 1 |}.

Definition rowCell (c : Z) (mine revealed flagged : bool) (adj : Z) : CellData :=
  {| position := {| col := c; row := 0 |}; isMine := mine; isRevealed := revealed;
     isFlagged := flagged; adjacentMines := adj |}.

(** A lost game: the mine on the left was revealed; the cell in the middle
    shows its 1; the cell on the right is closed and safe. *)
Definition lostRow : FactoryConfig :=
  {| cfg_params := rowParams;
     cfg_data := Some [[rowCell 0 true true false 0; rowCell 1 false true false 1;
                        rowCell 2 false false false 0]] |}.

(** A game in progress: the cell in the middle shows 1 and either closed
    neighbour can hold the mine. *)
Definition ambiguousRow : FactoryConfig :=
  {| cfg_params := rowParams;
     cfg_data := Some [[rowCell 0 true false false 0; rowCell 1 false true false 1;
                        rowCell 2 false false false 0]] |}.

(** A game in progress that the rules settle: the cell on the right is
    revealed and empty, so the mine is on the left. *)
Definition settledRow : FactoryConfig :=
  {| cfg_params := rowParams;
     cfg_data := Some [[rowCell 0 true false false 0; rowCell 1 false true false 1;
                        rowCell 2 false true false 0]] |}.

(** A restored game that has not started: two cells, one mine, flagged. *)
Definition pairParams : GameParams := {| cols := 2; rows := 1; mines := 1 |}.
Definition flaggedPair : FactoryConfig :=
  {| cfg_params := pairParams;
     cfg_data := Some [[rowCell 0 true false true 0; rowCell 1 false false false 1]] |}.

(** No mine of the field is revealed, as a test. *)
Definition noExplodedb (h : Heap) (f : Field) : bool :=
  forallb (fun pos =>
             match cellAt h f pos with
             | Some c => negb (isExploded c)
             | None => true
             end) (allPositions (params f)).

(** The solver built from a configuration, with its store. *)
Definition solverOf (config : FactoryConfig) : Solver * Heap :=
  match newSolver 1 config [] demoRng with
  | Ok (s, h, _) => (s, h)
  | _ => ({| solver_field := {| params := cfg_params config; grid := []; isMined := false |} |},
          [])
  end.

(** What [solve] reports is within the grid and is 0 or 1. *)
Definition certainOnly (f : Field) (out : list MineProbability) : Prop :=
  ∀ p, p ∈ out →
    inBounds (params f) (MineProbability.position p)
    ∧ (MineProbability.value p = 0%Q ∨ MineProbability.value p = 1%Q).

(** What [solve] reports is true of the field. *)
Definition reportSound (h : Heap) (f : Field) (out : list MineProbability) : Prop :=
  ∀ p, p ∈ out →
    ((MineProbability.value p == 0)%Q → mineAt h f (MineProbability.position p) = false)
    ∧ ((MineProbability.value p == 1)%Q → mineAt h f (MineProbability.position p) = true).

(** ** A client of the engine

    A client previews an action and commits it at once. *)
Inductive Move :=
  | Reveal (pos : Position)
  | Flag (pos : Position).

Fixpoint play (fuel : nat) (moves : list Move) (e : GameEngine) (h : Heap) (rng : Rng)
    : result (GameEngine * Heap * Rng) :=
  match moves with
  | [] => Ok (e, h, rng)
  | Reveal pos :: moves' =>
      '(res, h', rng') ← revealCell fuel e pos h rng;
      play fuel moves' (apply res e) h' rng'
  | Flag pos :: moves' =>
      '(res, h') ← toggleFlag e pos h;
      play fuel moves' (apply res e) h' rng
  end.

(** The engine built from a configuration with the store it lives in, after
    the client's moves; the random source always answers 0. *)
Definition stateAfter (config : FactoryConfig) (moves : list Move) : GameEngine * Heap :=
  match ('(e, h, rng) ← newGameEngine 1 config [] demoRng; play 100 moves e h rng) with
  | Ok (e, h, _) => (e, h)
  | _ => ({| mode := guessing;
             field := {| params := cfg_params config; grid := []; isMined := false |};
             gameParams := cfg_params config; status := Idle; flagsRemaining := 0 |}, [])
  end.

Definition at_ (c r : Z) : Position := {| col := c; row := r |}.

(** A client that commits late: on the 3 x 3 board, after the first reveal,
    it previews a flag on (2,2), then reveals the mine on (0,0) and commits
    that, and only then commits the flag.  The answer is the status the
    flag's snapshot announced and the status of the engine after its
    commit. *)
Definition lateFlagCommit : result (GameStatus * GameStatus) :=
  '(e0, h0, rng0) ← newGameEngine 1 demoConfig [] demoRng;
  '(res1, h1, rng1) ← revealCell 100 e0 (at_ 1 1) h0 rng0;
  let e1 := apply res1 e0 in
  '(resFlag, h2) ← toggleFlag e1 (at_ 2 2) h1;
  '(res2, h3, rng2) ← revealCell 100 e1 (at_ 0 0) h2 rng1;
  let e2 := apply res2 e1 in
  Ok (snapshot_status (actionSnapshot resFlag), status (apply resFlag e2)).

(** The first reveal of a restored game, on its flagged mine: the four lists
    of changes, the cells before and the cells of the snapshot. *)
Definition flaggedMineClick
    : result (list CellData * list CellData * list CellData * list CellData
              * list (list CellData) * list (list CellData)) :=
  '(e, h, rng) ← newGameEngine 1 flaggedPair [] demoRng;
  '(res, h', rng') ← revealCell 100 e (at_ 0 0) h rng;
  Ok (ActionChanges.revealedCells (actionChanges res),
      ActionChanges.flaggedCells (actionChanges res),
      ActionChanges.unflaggedCells (actionChanges res),
      ActionChanges.explodedCells (actionChanges res),
      FieldState.field (snapshot_state (gameSnapshot e h)),
      FieldState.field (snapshot_state (actionSnapshot res))).

Definition mkCell (pos : Position) (mine revealed flagged : bool) (adj : Z) : CellData :=
  {| position := pos; isMine := mine; isRevealed := revealed;
     isFlagged := flagged; adjacentMines := adj |}.

(** The 3 x 3 game with its mine on (0,0): just built; after the reveal of
    the centre, which shows 1; and after a flag on the mine as well. *)
Definition freshGame : GameEngine * Heap := stateAfter demoConfig [].
Definition openedGame : GameEngine * Heap := stateAfter demoConfig [Reveal (at_ 1 1)].
Definition flaggedGame : GameEngine * Heap :=
  stateAfter demoConfig [Reveal (at_ 1 1); Flag (at_ 0 0)].

(** ** The loop of [solve], round by round *)

(** One round of the [do ... while]: the rule of the certain mines, then the
    rule of the certain safe cells, each with its own flag, and whether
    either added an entry. *)
Definition solveRound (h : Heap) (f : Field) (cells : list CellData)
    (probabilities : Probabilities) : result (Probabilities * bool) :=
  '(probabilities1, certainMinesFound) ← inferCertainMines h f cells probabilities false;
  '(probabilities2, certainSafeFound) ←
     inferCertainSafeCells h f cells probabilities1 false;
  Ok (probabilities2, certainMinesFound || certainSafeFound).

(** The map after [n] rounds, each of which added an entry. *)
Fixpoint afterRounds (n : nat) (h : Heap) (f : Field) (cells : list CellData)
    (probabilities : Probabilities) : option Probabilities :=
  match n with
  | O => Some probabilities
  | S n' =>
      match solveRound h f cells probabilities with
      | Ok (probabilities', true) => afterRounds n' h f cells probabilities'
      | _ => None
      end
  end.

(** ** Games restored from data

    The constructor copies the cells of a description as they are,
    [adjacentMines] included. *)

(** Whether the description shows a mine at a position. *)
Definition dataMine (data : list (list CellData)) (pos : Position) : bool :=
  match dataAt data pos with
  | Some c => isMine c
  | None => false
  end.

(** The numbers of a description are right: every cell's [adjacentMines] is
    the number of mines the description shows among the cell's neighbours
    inside the grid. *)
Definition countsOk (p : GameParams) (data : list (list CellData)) : Prop :=
  ∀ pos c, dataAt data pos = Some c →
    adjacentMines c
    = Z.of_nat (length (filter (fun q => dataMine data q = true) (siblingPositions p pos))).

(** What is asked of a configuration: nothing when it has no data; with
    data, a description that fits the parameters and whose numbers are
    right. *)
Definition configOk (config : FactoryConfig) : Prop :=
  match cfg_data config with
  | None => True
  | Some data => wfData (cfg_params config) data ∧ countsOk (cfg_params config) data
  end.

Definition wfDatab (p : GameParams) (data : list (list CellData)) : bool :=
  bool_decide (length data = rows p)
  && forallb (fun r => bool_decide (length r = cols p)) data
  && forallb (fun pos =>
                match dataAt data pos with
                | Some c => bool_decide (position c = pos)
                | None => false
                end) (allPositions p).

Definition countsOkb (p : GameParams) (data : list (list CellData)) : bool :=
  forallb (fun pos =>
             match dataAt data pos with
             | Some c =>
                 adjacentMines c
                 =? Z.of_nat (length (filter (fun q => dataMine data q = true)
                                             (siblingPositions p pos)))
             | None => true
             end) (allPositions p).

Definition configOkb (config : FactoryConfig) : bool :=
  match cfg_data config with
  | None => true
  | Some data => wfDatab (cfg_params config) data && countsOkb (cfg_params config) data
  end.

(** The states of a game built from a configuration, with data or without:
    the constructor, then actions computed and results committed as in
    [reachable]. *)
Inductive reachableFrom (config : FactoryConfig) : GameEngine → Heap → Prop :=
| from_new fuel h rng e h' rng' :
    newGameEngine fuel config h rng = Ok (e, h', rng') →
    reachableFrom config e h'
| from_reveal fuel e pos h rng res h' rng' :
    reachableFrom config e h → inBounds (gameParams e) pos →
    (enoughFuel (gameParams e) ≤ fuel)%nat →
    revealCell fuel e pos h rng = Ok (res, h', rng') →
    reachableFrom config e h'
| from_toggle e pos h res h' :
    reachableFrom config e h → inBounds (gameParams e) pos →
    toggleFlag e pos h = Ok (res, h') →
    reachableFrom config e h'
| from_apply_reveal fuel e0 pos h0 rng res h0' rng' e h :
    reachableFrom config e0 h0 → inBounds (gameParams e0) pos →
    (enoughFuel (gameParams e0) ≤ fuel)%nat →
    revealCell fuel e0 pos h0 rng = Ok (res, h0', rng') →
    reachableFrom config e h → frame h0' h → gameParams e = gameParams e0 →
    reachableFrom config (apply res e) h
| from_apply_toggle e0 pos h0 res h0' e h :
    reachableFrom config e0 h0 → inBounds (gameParams e0) pos →
    toggleFlag e0 pos h0 = Ok (res, h0') →
    reachableFrom config e h → frame h0' h → gameParams e = gameParams e0 →
    reachableFrom config (apply res e) h.

(** The position a move of the client aims at. *)
Definition movePos (m : Move) : Position :=
  match m with
  | Reveal pos => pos
  | Flag pos => pos
  end.

(** A restored pair whose number is wrong: the mine on the left is not
    counted by the cell beside it. *)
Definition miscountedPair : FactoryConfig :=
  {| cfg_params := pairParams;
     cfg_data := Some [[rowCell 0 true false false 0; rowCell 1 false false false 0]] |}.

(** A game restored from a row of five whose numbers are right: a mine at
    each end, the 1 beside the left one revealed. *)
Definition restoredRow : FactoryConfig :=
  {| cfg_params := {| cols := 5; rows := 1; mines := 2 |};
     cfg_data := Some [[rowCell 0 true false false 0; rowCell 1 false true false 1;
                        rowCell 2 false false false 0; rowCell 3 false false false 1;
                        rowCell 4 true false false 0]] |}.

(** The restored row after the reveal of the other 1 and a flag on the mine
    beside it. *)
Definition restoredGame : GameEngine * Heap :=
  stateAfter restoredRow [Reveal (at_ 3 0); Flag (at_ 4 0)].

From Stdlib Require String Ascii DecimalString DecimalZ.
Import String.StringSyntax Ascii.AsciiSyntax.
Delimit Scope string_scope with string.
Delimit Scope char_scope with char.

(** ** utils.ts: the keys as the strings they are

    Elsewhere a key is the pair its string stands for.  Here [createKey]
    and [parseKey] work on the strings themselves.  Coordinates are whole
    numbers of magnitude below [2 ^ 53], which a template string prints in
    plain decimal digits and [Number] reads back exactly. *)
Module StringKeys.

(** [`${n}`] for a whole number [n]. *)
Definition showNumber (z : Z) : String.string :=
  DecimalString.NilEmpty.string_of_int (Z.to_int z).

(** [createKey] *)
Definition createKey (p : Position) : String.string :=
  String.append (showNumber (col p)) (String.append "-"%string (showNumber (row p))).

(** [key.split('-')] *)
Fixpoint split (s : String.string) : list String.string :=
  match s with
  | String.EmptyString => [String.EmptyString]
  | String.String c rest =>
      if Ascii.eqb c "-"%char then String.EmptyString :: split rest
      else match split rest with
           | x :: xs => String.String c x :: xs
           | [] => [String.String c String.EmptyString]
           end
  end.

(** [Number(s)] where [s] is empty (the answer is 0) or consists of decimal
    digits that spell a number below [2 ^ 53]; the model gives no answer for
    any other string. *)
Definition number (s : String.string) : option Z :=
  d ← DecimalString.NilEmpty.uint_of_string s;
  if Z.of_uint d <? 2 ^ 53 then Some (Z.of_uint d) else None.

(** [parseKey]: the first two pieces of the key, read as numbers; no answer
    where a piece is missing or [number] has none. *)
Definition parseKey (key : String.string) : option Position :=
  match split key with
  | c :: r :: _ => c' ← number c; r' ← number r; Some {| col := c'; row := r' |}
  | _ => None
  end.
End StringKeys.

(** ** utils.ts: the two set helpers

    A [Set] iterates in insertion order and holds each item once: a list
    without repeats.  [has] is membership, [new Set(array)] adds the items
    of the array one by one. *)
Section JsSet.
Context {K : Type} `{EqDecision K}.

Definition jsHas (x : K) (s : list K) : bool := bool_decide (x ∈ s).
Definition jsAdd (x : K) (s : list K) : list K := if jsHas x s then s else s ++ [x].
Definition newSet (items : list K) : list K := foldl (fun s x => jsAdd x s) [] items.

(** [isSubset] *)
Fixpoint isSubset (subA subB : list K) : bool :=
  match subA with
  | [] => true
  | item :: rest => if negb (jsHas item subB) then false else isSubset rest subB
  end.

(** [difference] *)
Definition difference (a b : list K) : list K :=
  newSet (filter (fun x => jsHas x b = false) a).
End JsSet.

(** ** Reading a field by positions *)

(** The cell at a position, a blank cell outside the grid. *)
Definition cellOr (h : Heap) (f : Field) (q : Position) : SimpleCell :=
  default (newCell q) (cellAt h f q).

(** The numbers of mined and of flagged cells of a field. *)
Definition mineCount (h : Heap) (f : Field) : nat :=
  length (FieldState.minedCells (getState h f)).
Definition flagCount (h : Heap) (f : Field) : nat :=
  length (FieldState.flaggedCells (getState h f)).

(** The engine's count of flags left agrees with the flags on its field. *)
Definition flagsOk (h : Heap) (e : GameEngine) : Prop :=
  flagsRemaining e = mines (gameParams e) - Z.of_nat (flagCount h (field e)).

Definition flagsOkb (h : Heap) (e : GameEngine) : bool :=
  flagsRemaining e =? mines (gameParams e) - Z.of_nat (flagCount h (field e)).

(** The blank field of the 3 x 3 game, before any mine is placed. *)
Definition blankField : Field * Heap := newField demoParams None [].

(** Every entry of the probability map speaks of a closed cell. *)
Definition probsClosed (h : Heap) (f : Field) (probs : Probabilities) : Prop :=
  ∀ k p, (k, p) ∈ probs → revealedAt h f (MineProbability.position p) = false.

(** A row of four that the rules solve: the 1 on the left pins the mine
    beside it, and the 1 on its other side then clears the last cell. *)
Definition solvableRow : FactoryConfig :=
  {| cfg_params := {| cols := 4; rows := 1; mines := 1 |};
     cfg_data := Some [[rowCell 0 false true false 1; rowCell 1 true false false 0;
                        rowCell 2 false true false 1; rowCell 3 false false false 0]] |}.

(** The number whose bits, lowest first, are the values [val] gives to the
    variables. *)
Fixpoint encode (val : Key → bool) (variables : list Key) : Z :=
  match variables with
  | [] => 0
  | v :: rest => 2 * encode val rest + Z.b2z (val v)
  end.

(** A position strictly inside the grid. *)
Definition interior (p : GameParams) (pos : Position) : Prop :=
  0 < col pos < Z.of_nat (cols p) - 1 ∧ 0 < row pos < Z.of_nat (rows p) - 1.

(** A board of one cell that is a mine. *)
Definition fullConfig : FactoryConfig :=
  {| cfg_params := {| cols := 1; rows := 1; mines := 1 |}; cfg_data := None |}.
Definition fullGame : GameEngine * Heap := stateAfter fullConfig [].

(** * Grids, references and the store *)

Lemma bind_Ok {A B} (m : result A) (k : A → result B) b :
  m ≫= k = Ok b ↔ ∃ a, m = Ok a ∧ k a = Ok b.
Proof.
  destruct m; simpl; split; try (intros [a [? ?]]; congruence); try discriminate.
  - eauto.
  - intros [a' [[= ->] ?]]. done.
Qed.

Lemma expect_Ok {A} (o : option A) a : expect o = Ok a ↔ o = Some a.
Proof. destruct o; simpl; split; congruence. Qed.

Lemma mapR_Ok {A B} (k : A → result B) l bs :
  mapR k l = Ok bs ↔ Forall2 (fun a b => k a = Ok b) l bs.
Proof.
  revert bs. induction l as [|a l IH]; intros bs; simpl.
  - split; [intros [= <-]; constructor | intros H; inversion H; done].
  - rewrite bind_Ok. split.
    + intros (b & Hb & H). apply bind_Ok in H as (bs' & Hbs & [= <-]).
      constructor; [done | by apply IH].
    + intros H. inversion H as [|? b ? bs' Hb Hbs]; subst.
      exists b. split; [done|]. apply bind_Ok. exists bs'. split; [by apply IH | done].
Qed.

Lemma isInBoundary_spec p pos : isInBoundary p pos = true ↔ inBounds p pos.
Proof. unfold isInBoundary, inBounds. rewrite !andb_true_iff. lia. Qed.

Lemma nthZ_Some {A} (l : list A) i x :
  nthZ l i = Some x ↔ 0 <= i ∧ l !! Z.to_nat i = Some x.
Proof.
  unfold nthZ. destruct (Z.ltb_spec i 0); split; try discriminate; try lia; intuition.
Qed.

Lemma nthZ_is_Some {A} (l : list A) i :
  is_Some (nthZ l i) ↔ 0 <= i < Z.of_nat (length l).
Proof.
  unfold nthZ. destruct (Z.ltb_spec i 0).
  - split; [intros [? [=]] | lia].
  - rewrite lookup_lt_is_Some. lia.
Qed.

Lemma nthZ_of_nat {A} (l : list A) (n : nat) : nthZ l (Z.of_nat n) = l !! n.
Proof.
  unfold nthZ. destruct (Z.ltb_spec (Z.of_nat n) 0); [lia|]. by rewrite Nat2Z.id.
Qed.

Lemma locAt_Some f pos l :
  locAt f pos = Some l ↔ ∃ r, nthZ (grid f) (row pos) = Some r ∧ nthZ r (col pos) = Some l.
Proof.
  unfold locAt. destruct (nthZ (grid f) (row pos)) as [r|]; simpl.
  - split; [eauto | intros (r' & [= <-] & ?); done].
  - split; [discriminate | intros (r' & [=] & _)].
Qed.

Lemma getCell_Some f pos l : getCell f pos = Ok (Some l) ↔ locAt f pos = Some l.
Proof.
  unfold getCell, locAt. destruct (nthZ (grid f) (row pos)) as [r|]; simpl.
  - split; congruence.
  - split; discriminate.
Qed.

Lemma getCell_expect f pos l :
  (c ← getCell f pos; expect c) = Ok l ↔ locAt f pos = Some l.
Proof.
  rewrite bind_Ok. split.
  - intros (c & Hc & He). apply expect_Ok in He as ->. by apply getCell_Some.
  - intros H. exists (Some l). split; [by apply getCell_Some | done].
Qed.

Section WellFormed.
Context (h : Heap) (f : Field) (Hwf : wf h f).

Lemma locAt_is_Some pos : is_Some (locAt f pos) ↔ inBounds (params f) pos.
Proof using Hwf.
  unfold inBounds. split.
  - intros [l Hl]. apply locAt_Some in Hl as (r & Hr & Hl).
    assert (is_Some (nthZ (grid f) (row pos))) as Hr' by eauto.
    assert (is_Some (nthZ r (col pos))) as Hl' by eauto.
    apply nthZ_is_Some in Hr', Hl'.
    apply nthZ_Some in Hr as [_ Hr]. apply list_elem_of_lookup_2 in Hr.
    rewrite (wf_cols _ _ Hwf _ Hr) in Hl'. rewrite (wf_rows _ _ Hwf) in Hr'. lia.
  - intros [Hr Hc].
    destruct (nthZ (grid f) (row pos)) as [r|] eqn:Er.
    + assert (is_Some (nthZ r (col pos))) as [l Hl].
      { apply nthZ_is_Some. apply nthZ_Some in Er as [_ Er].
        apply list_elem_of_lookup_2 in Er. rewrite (wf_cols _ _ Hwf _ Er). lia. }
      exists l. apply locAt_Some. eauto.
    + assert (is_Some (nthZ (grid f) (row pos))) as [? ?]; [|congruence].
      apply nthZ_is_Some. rewrite (wf_rows _ _ Hwf). lia.
Qed.

Lemma locAt_inBounds pos l : locAt f pos = Some l → inBounds (params f) pos.
Proof using Hwf. intros H. apply locAt_is_Some. eauto. Qed.

Lemma locAt_inj p q l : locAt f p = Some l → locAt f q = Some l → p = q.
Proof using Hwf.
  intros Hp Hq. apply (wf_cell _ _ Hwf) in Hp as [_ <-].
  by apply (wf_cell _ _ Hwf) in Hq as [_ <-].
Qed.

Lemma locAt_position pos l : locAt f pos = Some l → position (deref h l) = pos.
Proof using Hwf. intros H. by apply (wf_cell _ _ Hwf) in H as [_ ?]. Qed.

Lemma locAt_lt pos l : locAt f pos = Some l → (l < length h)%nat.
Proof using Hwf. intros H. by apply (wf_cell _ _ Hwf) in H as [? _]. Qed.

Lemma cellAt_is_Some pos : is_Some (cellAt h f pos) ↔ inBounds (params f) pos.
Proof using Hwf. unfold cellAt. rewrite fmap_is_Some. apply locAt_is_Some. Qed.

Lemma cellAt_position pos c : cellAt h f pos = Some c → position c = pos.
Proof using Hwf.
  unfold cellAt. destruct (locAt f pos) as [l|] eqn:El; [|discriminate].
  intros [= <-]. by apply locAt_position.
Qed.

Lemma getCell_inBounds pos :
  inBounds (params f) pos → ∃ l, getCell f pos = Ok (Some l) ∧ locAt f pos = Some l.
Proof using Hwf.
  intros Hb. apply locAt_is_Some in Hb as [l Hl]. exists l.
  split; [by apply getCell_Some | done].
Qed.
End WellFormed.

(** ** Neighbouring positions *)

Lemma elem_of_neighbours p q : q ∈ neighbours p ↔ adjacent p q.
Proof.
  unfold neighbours, adjacent. simpl. rewrite !elem_of_cons, elem_of_nil.
  destruct p as [pc pr], q as [qc qr]. simpl. split.
  - intros H. repeat destruct H as [H|H]; try done; injection H as -> ->;
      (split; [intros [=]; lia | lia]).
  - intros (Hne & Hc & Hr).
    assert (qc = pc + -1 ∨ qc = pc + 0 ∨ qc = pc + 1) as Hc' by lia.
    assert (qr = pr + -1 ∨ qr = pr + 0 ∨ qr = pr + 1) as Hr' by lia.
    destruct Hc' as [-> | [-> | ->]], Hr' as [-> | [-> | ->]]; auto 10.
    exfalso. apply Hne. f_equal; lia.
Qed.

Lemma NoDup_neighbours p : NoDup (neighbours p).
Proof.
  unfold neighbours. simpl.
  repeat (apply NoDup_cons; split;
          [rewrite ?elem_of_cons, elem_of_nil; intros H;
           repeat destruct H as [H|H]; try done; injection H; lia |]).
  apply NoDup_nil_2.
Qed.

Lemma adjacent_sym p q : adjacent p q → adjacent q p.
Proof. unfold adjacent. intros (? & ? & ?). repeat split; try lia. congruence. Qed.

Lemma elem_of_siblingPositions p pos q :
  q ∈ siblingPositions p pos ↔ adjacent pos q ∧ inBounds p q.
Proof.
  unfold siblingPositions. rewrite list_elem_of_filter, elem_of_neighbours, isInBoundary_spec.
  tauto.
Qed.

Lemma NoDup_siblingPositions p pos : NoDup (siblingPositions p pos).
Proof. apply NoDup_filter, NoDup_neighbours. Qed.

Lemma siblingPositions_sym p a b :
  inBounds p a → b ∈ siblingPositions p a → a ∈ siblingPositions p b.
Proof.
  rewrite !elem_of_siblingPositions. intros Ha [Hadj _]. split; [by apply adjacent_sym | done].
Qed.

(** ** Reading and writing through references *)

Lemma deref_lookup (h : Heap) l : (l < length h)%nat → h !! l = Some (deref h l).
Proof. intros. by apply list_lookup_lookup_total_lt. Qed.

Lemma length_modify fn h l : length (modify fn h l) = length h.
Proof. apply length_alter. Qed.

Lemma deref_modify fn (h : Heap) l l' :
  (l < length h)%nat →
  deref (modify fn h l) l' = if decide (l' = l) then fn (deref h l') else deref h l'.
Proof.
  intros Hl. unfold deref, modify. rewrite list_lookup_total_alter.
  repeat case_decide; subst; try done; try lia; naive_solver.
Qed.

Lemma deref_modify_ne fn (h : Heap) l l' : l' ≠ l → deref (modify fn h l) l' = deref h l'.
Proof. intros. unfold deref, modify. by rewrite list_lookup_total_alter_ne. Qed.

Lemma length_foldl_modify fn ls (h : Heap) : length (foldl (modify fn) h ls) = length h.
Proof.
  revert h. induction ls as [|l ls IH]; intros h; simpl; [done|].
  by rewrite IH, length_modify.
Qed.

Lemma deref_foldl_modify fn ls (h : Heap) l' :
  NoDup ls → (∀ l, l ∈ ls → (l < length h)%nat) →
  deref (foldl (modify fn) h ls) l'
  = if decide (l' ∈ ls) then fn (deref h l') else deref h l'.
Proof.
  revert h. induction ls as [|l ls IH]; intros h Hnd Hlt; cbn [foldl].
  - destruct (decide (l' ∈ [])) as [H|H]; [by apply elem_of_nil in H | done].
  - apply NoDup_cons in Hnd as [Hl Hnd].
    rewrite IH; [|done|].
    2:{ intros l0 H0. rewrite length_modify. apply Hlt. rewrite elem_of_cons. by right. }
    rewrite deref_modify by (apply Hlt; rewrite elem_of_cons; by left).
    destruct (decide (l' = l)) as [->|Hne].
    + rewrite (decide_False (P := l ∈ ls)) by done.
      rewrite (decide_True (P := l ∈ l :: ls)) by (rewrite elem_of_cons; by left). done.
    + destruct (decide (l' ∈ ls)) as [Hin|Hin].
      * rewrite (decide_True (P := l' ∈ l :: ls)) by (rewrite elem_of_cons; by right). done.
      * rewrite (decide_False (P := l' ∈ l :: ls)); [done|].
        rewrite elem_of_cons. naive_solver.
Qed.

Lemma NoDup_omap_inj {A B} (g : A → option B) (l : list A) :
  NoDup l →
  (∀ x y z, x ∈ l → y ∈ l → g x = Some z → g y = Some z → x = y) →
  NoDup (omap g l).
Proof.
  induction l as [|a l IH]; intros Hnd Hinj; simpl; [constructor|].
  apply NoDup_cons in Hnd as [Ha Hnd].
  assert (NoDup (omap g l)) as IH'.
  { apply IH; [done|]. intros x y z Hx Hy. apply Hinj; rewrite elem_of_cons; by right. }
  destruct (g a) as [b|] eqn:Eb; [|done].
  apply NoDup_cons. split; [|done].
  intros (x & Hx & Hgx)%list_elem_of_omap.
  assert (a = x) as ->; [|done].
  apply (Hinj a x b); [rewrite elem_of_cons; by left | rewrite elem_of_cons; by right | done | done].
Qed.

Section Siblings.
Context (h : Heap) (f : Field) (Hwf : wf h f).

Lemma getSiblings_wf pos : getSiblings f pos = Ok (siblingLocs f pos).
Proof using Hwf.
  unfold getSiblings, siblingLocs. apply mapR_Ok.
  assert (Forall (inBounds (params f)) (siblingPositions (params f) pos)) as Hall.
  { apply Forall_forall. intros q Hq. by apply elem_of_siblingPositions in Hq as [_ ?]. }
  induction Hall as [|q qs Hq _ IH]; simpl; [constructor|].
  apply (locAt_is_Some _ _ Hwf) in Hq as [l Hl]. rewrite Hl. simpl.
  constructor; [by apply getCell_expect | done].
Qed.

Lemma elem_of_siblingLocs pos q l :
  locAt f q = Some l → l ∈ siblingLocs f pos ↔ q ∈ siblingPositions (params f) pos.
Proof using Hwf.
  intros Hl. unfold siblingLocs. rewrite list_elem_of_omap. split.
  - intros (q' & Hq' & Hl'). by rewrite (locAt_inj _ _ Hwf q q' l).
  - intros Hq. eauto.
Qed.

Lemma siblingLocs_locAt pos l :
  l ∈ siblingLocs f pos → ∃ q, q ∈ siblingPositions (params f) pos ∧ locAt f q = Some l.
Proof. unfold siblingLocs. by rewrite list_elem_of_omap. Qed.

Lemma NoDup_siblingLocs pos : NoDup (siblingLocs f pos).
Proof using Hwf.
  apply NoDup_omap_inj; [apply NoDup_siblingPositions|].
  intros x y z _ _. apply (locAt_inj _ _ Hwf).
Qed.

Lemma siblingLocs_lt pos l : l ∈ siblingLocs f pos → (l < length h)%nat.
Proof using Hwf. intros (q & _ & Hl)%siblingLocs_locAt. by eapply locAt_lt. Qed.

Lemma siblingLocs_fmap pos :
  Forall2 (fun q l => locAt f q = Some l) (siblingPositions (params f) pos)
          (siblingLocs f pos).
Proof using Hwf.
  unfold siblingLocs.
  assert (Forall (inBounds (params f)) (siblingPositions (params f) pos)) as Hall.
  { apply Forall_forall. intros q Hq. by apply elem_of_siblingPositions in Hq as [_ ?]. }
  induction Hall as [|q qs Hq _ IH]; simpl; [constructor|].
  apply (locAt_is_Some _ _ Hwf) in Hq as [l Hl]. rewrite Hl. simpl. by constructor.
Qed.
End Siblings.

(** ** Updates of a well-formed field *)

Lemma updates_wf f T h h' :
  (∀ q c, position (T q c) = position c) → wf h f → updates f T h h' → wf h' f.
Proof.
  intros HT Hwf [Hlen Hcell _]. split; [apply Hwf | apply Hwf |].
  intros pos l Hl. rewrite Hlen, (Hcell _ _ Hl), HT. by apply Hwf.
Qed.

Lemma updates_cellAt f T h h' q :
  updates f T h h' → cellAt h' f q = T q <$> cellAt h f q.
Proof.
  intros [_ Hcell _]. unfold cellAt. destruct (locAt f q) as [l|] eqn:El; simpl; [|done].
  by rewrite (Hcell _ _ El).
Qed.

Lemma updates_refl f h : updates f (fun _ c => c) h h.
Proof. by split. Qed.

Lemma updates_trans f T1 T2 h1 h2 h3 :
  updates f T1 h1 h2 → updates f T2 h2 h3 →
  updates f (fun q c => T2 q (T1 q c)) h1 h3.
Proof.
  intros [L1 C1 O1] [L2 C2 O2]. split; [congruence| |].
  - intros q l Hl. by rewrite (C2 _ _ Hl), (C1 _ _ Hl).
  - intros l Hl. by rewrite (O2 _ Hl), (O1 _ Hl).
Qed.

Lemma updates_ext f T T' h h' :
  (∀ q c, T q c = T' q c) → updates f T h h' → updates f T' h h'.
Proof.
  intros HT [L C O]. split; [done| |done]. intros q l Hl. by rewrite (C _ _ Hl), HT.
Qed.

Lemma updates_modify f h pos l fn :
  wf h f → locAt f pos = Some l →
  updates f (fun q c => if bool_decide (q = pos) then fn c else c) h (modify fn h l).
Proof.
  intros Hwf Hl. split; [apply length_modify| |].
  - intros q l' Hl'. rewrite deref_modify by (by eapply locAt_lt).
    case_decide as E; case_bool_decide as E'; subst; try done.
    + exfalso. apply E'. by eapply locAt_inj.
    + congruence.
  - intros l' Hl'. apply deref_modify_ne. intros ->. by apply (Hl' pos).
Qed.

Lemma updates_foldl_siblings f h pos fn :
  wf h f →
  updates f (fun q c => if bool_decide (q ∈ siblingPositions (params f) pos)
                        then fn c else c)
          h (foldl (modify fn) h (siblingLocs f pos)).
Proof.
  intros Hwf. split; [apply length_foldl_modify| |].
  - intros q l Hl.
    rewrite deref_foldl_modify;
      [|by eapply NoDup_siblingLocs | intros; by eapply siblingLocs_lt].
    case_decide as E; case_bool_decide as E'; try done.
    + exfalso. apply E'. by eapply elem_of_siblingLocs.
    + exfalso. apply E. by eapply elem_of_siblingLocs.
  - intros l Hl.
    rewrite deref_foldl_modify;
      [|by eapply NoDup_siblingLocs | intros; by eapply siblingLocs_lt].
    rewrite decide_False; [done|].
    intros (q & _ & Hq)%siblingLocs_locAt. by apply (Hl q).
Qed.

(** An update of a field allocated after [h0] leaves [h0] alone. *)
Lemma frame_refl h : frame h h.
Proof. by split. Qed.

Lemma frame_trans h1 h2 h3 : frame h1 h2 → frame h2 h3 → frame h1 h3.
Proof.
  intros [L1 D1] [L2 D2]. split; [lia|]. intros l Hl. rewrite D2 by lia. by apply D1.
Qed.

Lemma frame_app h x : frame h (h ++ x).
Proof.
  split; [rewrite length_app; lia|]. intros l Hl. unfold deref.
  by rewrite lookup_total_app_l.
Qed.

Lemma frame_updates h0 f T h h' :
  owned (length h0) f → frame h0 h → updates f T h h' → frame h0 h'.
Proof.
  intros Hown [L D] [UL _ UO]. split; [lia|]. intros l Hl.
  rewrite UO; [by apply D|]. intros q Hq. apply Hown in Hq. lia.
Qed.

Lemma frame_wf h h' f : wf h f → frame h h' → wf h' f.
Proof.
  intros Hwf [L D]. split; [apply Hwf | apply Hwf|].
  intros pos l Hl. destruct (wf_cell _ _ Hwf _ _ Hl) as [Hlt Hpos].
  split; [lia|]. by rewrite D.
Qed.

Lemma frame_cellAt h h' f pos : wf h f → frame h h' → cellAt h' f pos = cellAt h f pos.
Proof.
  intros Hwf [L D]. unfold cellAt. destruct (locAt f pos) as [l|] eqn:El; simpl; [|done].
  f_equal. apply D. by eapply locAt_lt.
Qed.

Lemma position_setIsMine b c : position (setIsMine b c) = position c.
Proof. done. Qed.
Lemma position_setIsRevealed b c : position (setIsRevealed b c) = position c.
Proof. done. Qed.
Lemma position_setIsFlagged b c : position (setIsFlagged b c) = position c.
Proof. done. Qed.
Lemma position_addAdjacent d c : position (addAdjacent d c) = position c.
Proof. done. Qed.

Lemma position_mineT p b d pos q c : position (mineT p b d pos q c) = position c.
Proof. unfold mineT. by repeat case_bool_decide. Qed.

(** ** Mining and unmining a cell *)

Lemma mineCell_gen_spec (b : bool) (d : Z) h f pos :
  wf h f → inBounds (params f) pos →
  ∃ h', (c ← getCell f pos; l ← expect c;
         let h1 := modify (setIsMine b) h l in
         sibs ← getSiblings f pos;
         Ok (foldl (modify (addAdjacent d)) h1 sibs)) = Ok h'
        ∧ updates f (mineT (params f) b d pos) h h' ∧ wf h' f.
Proof.
  intros Hwf Hb. destruct (getCell_inBounds _ _ Hwf _ Hb) as (l & Hg & Hl).
  rewrite Hg. simpl.
  pose proof (updates_modify f h pos l (setIsMine b) Hwf Hl) as U1.
  assert (wf (modify (setIsMine b) h l) f) as Hwf1.
  { eapply updates_wf; [|done|done]. intros; cbv beta. by case_bool_decide. }
  rewrite (getSiblings_wf _ _ Hwf1). simpl.
  eexists. split; [done|].
  pose proof (updates_foldl_siblings f _ pos (addAdjacent d) Hwf1) as U2.
  pose proof (updates_trans _ _ _ _ _ _ U1 U2) as U.
  split.
  - eapply updates_ext; [|done]. intros q c. unfold mineT. by repeat case_bool_decide.
  - eapply updates_wf; [|exact Hwf|exact U]. intros; cbv beta. by repeat case_bool_decide.
Qed.

Lemma mineCell_spec h f pos :
  wf h f → inBounds (params f) pos →
  ∃ h', mineCell h f pos = Ok h' ∧ updates f (mineT (params f) true 1 pos) h h' ∧ wf h' f.
Proof. apply (mineCell_gen_spec true 1). Qed.

Lemma unMineCell_spec h f pos :
  wf h f → inBounds (params f) pos →
  ∃ h', unMineCell h f pos = Ok h'
        ∧ updates f (mineT (params f) false (-1) pos) h h' ∧ wf h' f.
Proof. apply (mineCell_gen_spec false (-1)). Qed.

(** * Allocation of grids *)

Lemma allocGrid_fst h data : (allocGrid h data).1 = h ++ concat data.
Proof.
  revert h. induction data as [|r rs IH]; intros h; simpl.
  - by rewrite app_nil_r.
  - specialize (IH (h ++ r)). destruct (allocGrid (h ++ r) rs) as [h2 g]. simpl in *.
    by rewrite IH, <- app_assoc.
Qed.

Lemma allocGrid_shape h data :
  Forall2 (fun refs r => length refs = length r) (allocGrid h data).2 data.
Proof.
  revert h. induction data as [|r rs IH]; intros h; simpl; [constructor|].
  specialize (IH (h ++ r)). destruct (allocGrid (h ++ r) rs) as [h2 g]. simpl in *.
  constructor; [apply length_seq | done].
Qed.

Lemma allocGrid_lookup h data r rw c cell :
  data !! r = Some rw → rw !! c = Some cell →
  ∃ refs l, (allocGrid h data).2 !! r = Some refs ∧ refs !! c = Some l
            ∧ (length h ≤ l)%nat ∧ (allocGrid h data).1 !! l = Some cell.
Proof.
  revert h r. induction data as [|r0 rs IH]; intros h r Hr Hc; [done|].
  simpl. pose proof (allocGrid_fst (h ++ r0) rs) as Hfst.
  destruct r as [|r]; simpl in Hr.
  - injection Hr as ->.
    destruct (allocGrid (h ++ rw) rs) as [h2 g]. simpl in *.
    exists (seq (length h) (length rw)), (length h + c)%nat.
    assert (c < length rw)%nat by (by eapply lookup_lt_Some).
    split; [done|]. split; [by apply lookup_seq_lt|]. split; [lia|].
    subst h2. rewrite <- app_assoc. rewrite lookup_app_r by lia.
    replace (length h + c - length h)%nat with c by lia.
    by apply lookup_app_l_Some.
  - destruct (IH (h ++ r0) r Hr Hc) as (refs & l & H1 & H2 & H3 & H4).
    destruct (allocGrid (h ++ r0) rs) as [h2 g]. simpl in *.
    exists refs, l. rewrite length_app in H3. repeat split; try done. lia.
Qed.

Lemma dataAt_Some data pos c :
  dataAt data pos = Some c ↔
  0 <= row pos ∧ 0 <= col pos ∧
  ∃ rw, data !! Z.to_nat (row pos) = Some rw ∧ rw !! Z.to_nat (col pos) = Some c.
Proof.
  unfold dataAt. split.
  - destruct (nthZ data (row pos)) as [rw|] eqn:E; simpl; [|done].
    intros H. apply nthZ_Some in E as [? ?], H as [? ?]. eauto.
  - intros (Hr & Hc & rw & H1 & H2).
    assert (nthZ data (row pos) = Some rw) as -> by (by apply nthZ_Some).
    simpl. by apply nthZ_Some.
Qed.

Lemma locAt_Some' f pos l :
  locAt f pos = Some l ↔
  0 <= row pos ∧ 0 <= col pos ∧
  ∃ rw, grid f !! Z.to_nat (row pos) = Some rw ∧ rw !! Z.to_nat (col pos) = Some l.
Proof.
  unfold locAt. split.
  - destruct (nthZ (grid f) (row pos)) as [rw|] eqn:E; simpl; [|done].
    intros H. apply nthZ_Some in E as [? ?], H as [? ?]. eauto.
  - intros (Hr & Hc & rw & H1 & H2).
    assert (nthZ (grid f) (row pos) = Some rw) as -> by (by apply nthZ_Some).
    simpl. by apply nthZ_Some.
Qed.

(** The field built from a description: its slots show the described
    cells, which are all new. *)
Lemma newField_data p data h f h' :
  newField p (Some data) h = (f, h') →
  params f = p ∧ h' = h ++ concat data ∧
  isMined f = existsb (fun r => existsb (fun l => isMine (deref h' l)) r) (grid f) ∧
  (∀ pos, cellAt h' f pos = dataAt data pos) ∧
  (∀ pos l, locAt f pos = Some l → (length h ≤ l < length h')%nat).
Proof.
  unfold newField, fieldCreateGrid.
  pose proof (allocGrid_fst h data) as Hfst.
  pose proof (allocGrid_shape h data) as Hshape.
  pose proof (allocGrid_lookup h data) as Hlook.
  destruct (allocGrid h data) as [h2 g]. simpl in *. intros [= <- <-]. simpl.
  split; [done|]. split; [done|]. split; [done|].
  assert (∀ pos l, locAt {| params := p; grid := g; isMined :=
             existsb (fun r => existsb (fun l => isMine (deref h2 l)) r) g |} pos = Some l →
            ∃ c, dataAt data pos = Some c ∧ h2 !! l = Some c ∧ (length h ≤ l)%nat) as Hloc.
  { intros pos l (Hr & Hc & refs & H1 & H2)%locAt_Some'. simpl in H1.
    destruct (Forall2_lookup_l _ _ _ _ _ Hshape H1) as (rw & Hrw & Hlen).
    assert (is_Some (rw !! Z.to_nat (col pos))) as [c Hcell].
    { apply lookup_lt_is_Some. rewrite <- Hlen. by eapply lookup_lt_Some. }
    destruct (Hlook _ _ _ _ Hrw Hcell) as (refs' & l' & E1 & E2 & E3 & E4).
    assert (refs' = refs) as -> by congruence. assert (l' = l) as -> by congruence.
    exists c. split; [|done]. apply dataAt_Some. eauto 10. }
  split.
  - intros pos. unfold cellAt.
    destruct (locAt _ pos) as [l|] eqn:El; simpl.
    + destruct (Hloc _ _ El) as (c & -> & Hc & _). f_equal.
      unfold deref. by apply list_lookup_total_correct.
    + symmetry. destruct (dataAt data pos) as [c|] eqn:Ed; [|done].
      apply dataAt_Some in Ed as (Hr & Hc & rw & H1 & H2).
      destruct (Hlook _ _ _ _ H1 H2) as (refs' & l' & E1 & E2 & E3 & E4).
      assert (locAt {| params := p; grid := g; isMined :=
                existsb (fun r => existsb (fun l => isMine (deref h2 l)) r) g |} pos
              = Some l') as El'; [|congruence].
      apply locAt_Some'. eauto 10.
  - intros pos l El. destruct (Hloc _ _ El) as (c & _ & Hc & Hge).
    split; [done|]. by eapply lookup_lt_Some.
Qed.

Lemma newField_wf p data h f h' :
  wfData p data → newField p (Some data) h = (f, h') → wf h' f.
Proof.
  intros Hd Hnew. pose proof (newField_data _ _ _ _ _ Hnew) as (Hp & Hh & _ & Hcell & Hloc).
  unfold newField, fieldCreateGrid in Hnew.
  pose proof (allocGrid_shape h data) as Hshape.
  destruct (allocGrid h data) as [h2 g]. injection Hnew as <- <-. simpl in *.
  split; simpl.
  - rewrite (Forall2_length _ _ _ Hshape). apply Hd.
  - intros r Hr. apply list_elem_of_lookup in Hr as [i Hi].
    destruct (Forall2_lookup_l _ _ _ _ _ Hshape Hi) as (rw & Hrw & ->).
    apply Hd. by eapply list_elem_of_lookup_2.
  - intros pos l El. split; [by apply (Hloc _ _ El)|].
    specialize (Hcell pos). unfold cellAt in Hcell. rewrite El in Hcell. simpl in Hcell.
    by apply (wfd_cell _ _ Hd).
Qed.

(** ** Fresh grids *)

Lemma createGrid_lookup {T} (rs cs : nat) (cb : Position → T) (r c : nat) :
  (r < rs)%nat → (c < cs)%nat →
  ∃ rw, createGrid rs cs cb !! r = Some rw
        ∧ rw !! c = Some (cb {| row := Z.of_nat r; col := Z.of_nat c |}).
Proof.
  intros Hr Hc. unfold createGrid.
  change (map ?g ?l) with (g <$> l). eexists. split.
  - rewrite list_lookup_fmap, lookup_seq_lt by done. simpl. reflexivity.
  - change (map ?g ?l) with (g <$> l).
    rewrite list_lookup_fmap, lookup_seq_lt by done. done.
Qed.

Lemma createGrid_wfData p : wfData p (createGrid (rows p) (cols p) newCell).
Proof.
  split.
  - unfold createGrid. by rewrite length_map, length_seq.
  - intros r Hr. unfold createGrid in Hr. apply list_elem_of_In, in_map_iff in Hr as (i & <- & _).
    by rewrite length_map, length_seq.
  - intros pos c (Hr & Hc & rw & H1 & H2)%dataAt_Some.
    assert (Z.to_nat (row pos) < rows p)%nat as Hr'.
    { apply lookup_lt_Some in H1. unfold createGrid in H1.
      by rewrite length_map, length_seq in H1. }
    assert (Z.to_nat (col pos) < cols p)%nat as Hc'.
    { destruct (createGrid_lookup (rows p) (cols p) newCell (Z.to_nat (row pos)) 0)
        as (rw' & E1 & _); [done| |].
      - apply lookup_lt_Some in H2. destruct (cols p); [|lia].
        unfold createGrid in H1. change (map ?g ?l) with (g <$> l) in H1.
        rewrite list_lookup_fmap in H1. simpl in H1.
        destruct (seq 0 (rows p) !! Z.to_nat (row pos)); simpl in H1; [|done].
        injection H1 as <-. simpl in H2. lia.
      - apply lookup_lt_Some in H2.
        assert (rw' = rw) as -> by congruence.
        unfold createGrid in H1. change (map ?g ?l) with (g <$> l) in H1.
        rewrite list_lookup_fmap in H1.
        destruct (seq 0 (rows p) !! Z.to_nat (row pos)); simpl in H1; [|done].
        injection H1 as <-. by rewrite length_map, length_seq in H2. }
    destruct (createGrid_lookup (rows p) (cols p) newCell _ _ Hr' Hc') as (rw' & E1 & E2).
    assert (rw' = rw) as -> by congruence.
    rewrite E2 in H2. injection H2 as <-. simpl.
    destruct pos as [pc pr]. simpl in *. f_equal; lia.
Qed.

Lemma createGrid_dataAt p pos :
  inBounds p pos → dataAt (createGrid (rows p) (cols p) newCell) pos = Some (newCell pos).
Proof.
  intros [Hr Hc]. apply dataAt_Some.
  destruct (createGrid_lookup (rows p) (cols p) newCell (Z.to_nat (row pos))
              (Z.to_nat (col pos))) as (rw & E1 & E2); [lia|lia|].
  split; [lia|]. split; [lia|]. exists rw. split; [done|].
  rewrite E2. do 2 f_equal. destruct pos; simpl in *. f_equal; lia.
Qed.

(** * The adjacency invariant under mining and unmining *)

Lemma length_filter_add {A} `{EqDecision A} (P P' : A → Prop)
    `{∀ x, Decision (P x)} `{∀ x, Decision (P' x)} (l : list A) (a : A) :
  NoDup l → (∀ x, x ∈ l → (P' x ↔ P x ∨ x = a)) → ¬ P a →
  length (filter P' l) = (length (filter P l) + (if decide (a ∈ l) then 1 else 0))%nat.
Proof.
  intros Hnd Hiff Ha. induction l as [|x l IH].
  - rewrite !filter_nil. destruct (decide (a ∈ [])) as [E|E]; [by apply elem_of_nil in E | done].
  - apply NoDup_cons in Hnd as [Hx Hnd].
    assert (∀ y, y ∈ l → P' y ↔ P y ∨ y = a) as Hiff'.
    { intros y Hy. apply Hiff. rewrite elem_of_cons. by right. }
    specialize (IH Hnd Hiff').
    assert (P' x ↔ P x ∨ x = a) as Hx' by (apply Hiff; rewrite elem_of_cons; by left).
    rewrite !filter_cons.
    destruct (decide (x = a)) as [->|Hne].
    + rewrite (decide_True (P := a ∈ a :: l)) by (rewrite elem_of_cons; by left).
      rewrite (decide_False (P := a ∈ l)) in IH by done.
      destruct (decide (P' a)) as [_|N]; [|exfalso; apply N, Hx'; by right].
      destruct (decide (P a)); [done|]. simpl. lia.
    + destruct (decide (a ∈ l)) as [Hin|Hin].
      * rewrite (decide_True (P := a ∈ x :: l)) by (rewrite elem_of_cons; by right).
        destruct (decide (P' x)), (decide (P x)); simpl; try lia; exfalso; naive_solver.
      * rewrite (decide_False (P := a ∈ x :: l)) by (rewrite elem_of_cons; naive_solver).
        destruct (decide (P' x)), (decide (P x)); simpl; try lia; exfalso; naive_solver.
Qed.

Lemma isMine_mineT p b d pos q c :
  isMine (mineT p b d pos q c) = if bool_decide (q = pos) then b else isMine c.
Proof. unfold mineT. by repeat case_bool_decide. Qed.

Lemma adjacentMines_mineT p b d pos q c :
  adjacentMines (mineT p b d pos q c)
  = adjacentMines c + (if bool_decide (q ∈ siblingPositions p pos) then d else 0).
Proof. unfold mineT. repeat case_bool_decide; simpl; lia. Qed.

Lemma isRevealed_mineT p b d pos q c : isRevealed (mineT p b d pos q c) = isRevealed c.
Proof. unfold mineT. by repeat case_bool_decide. Qed.

Lemma isFlagged_mineT p b d pos q c : isFlagged (mineT p b d pos q c) = isFlagged c.
Proof. unfold mineT. by repeat case_bool_decide. Qed.

Lemma mineAt_updates f T h h' q :
  updates f T h h' →
  mineAt h' f q = match cellAt h f q with Some c => isMine (T q c) | None => false end.
Proof.
  intros U. unfold mineAt. rewrite (updates_cellAt _ _ _ _ _ U).
  by destruct (cellAt h f q).
Qed.

Lemma mineAt_mineT f b d pos h h' q :
  wf h f → updates f (mineT (params f) b d pos) h h' → inBounds (params f) q →
  mineAt h' f q = if bool_decide (q = pos) then b else mineAt h f q.
Proof.
  intros Hwf U Hq. rewrite (mineAt_updates _ _ _ _ _ U). unfold mineAt.
  apply (cellAt_is_Some _ _ Hwf) in Hq as [c Hc]. rewrite Hc. apply isMine_mineT.
Qed.

Lemma mineAt_outside h f q : wf h f → ¬ inBounds (params f) q → mineAt h f q = false.
Proof.
  intros Hwf Hq. unfold mineAt. destruct (cellAt h f q) as [c|] eqn:E; [|done].
  exfalso. apply Hq. apply (cellAt_is_Some _ _ Hwf). eauto.
Qed.

(** Mining a cell that is not a mine keeps the invariant. *)
Lemma adjacencyOk_mine f pos h h' :
  wf h f → adjacencyOk h f → inBounds (params f) pos → mineAt h f pos = false →
  updates f (mineT (params f) true 1 pos) h h' → adjacencyOk h' f.
Proof.
  intros Hwf Hadj Hpos Hnot U q c' Hc'.
  rewrite (updates_cellAt _ _ _ _ _ U) in Hc'.
  destruct (cellAt h f q) as [c|] eqn:Ec; [|done]. injection Hc' as <-.
  assert (inBounds (params f) q) as Hq by (apply (cellAt_is_Some _ _ Hwf); eauto).
  rewrite adjacentMines_mineT, (Hadj _ _ Ec). unfold minedSiblings.
  rewrite (length_filter_add (fun x => mineAt h f x = true) (fun x => mineAt h' f x = true)
             _ pos).
  - case_bool_decide as E1; destruct (decide (pos ∈ siblingPositions (params f) q)) as [E2|E2];
      try lia; exfalso.
    + apply E2. by apply siblingPositions_sym.
    + apply E1. by apply siblingPositions_sym.
  - apply NoDup_siblingPositions.
  - intros x [_ Hx]%elem_of_siblingPositions.
    rewrite (mineAt_mineT _ _ _ _ _ _ _ Hwf U Hx). case_bool_decide; naive_solver.
  - by rewrite Hnot.
Qed.

(** Unmining a mine keeps the invariant. *)
Lemma adjacencyOk_unmine f pos h h' :
  wf h f → adjacencyOk h f → inBounds (params f) pos → mineAt h f pos = true →
  updates f (mineT (params f) false (-1) pos) h h' → adjacencyOk h' f.
Proof.
  intros Hwf Hadj Hpos Hmine U q c' Hc'.
  rewrite (updates_cellAt _ _ _ _ _ U) in Hc'.
  destruct (cellAt h f q) as [c|] eqn:Ec; [|done]. injection Hc' as <-.
  assert (inBounds (params f) q) as Hq by (apply (cellAt_is_Some _ _ Hwf); eauto).
  rewrite adjacentMines_mineT, (Hadj _ _ Ec). unfold minedSiblings.
  rewrite (length_filter_add (fun x => mineAt h' f x = true) (fun x => mineAt h f x = true)
             _ pos).
  - case_bool_decide as E1; destruct (decide (pos ∈ siblingPositions (params f) q)) as [E2|E2];
      try lia; exfalso.
    + apply E2. by apply siblingPositions_sym.
    + apply E1. by apply siblingPositions_sym.
  - apply NoDup_siblingPositions.
  - intros x [_ Hx]%elem_of_siblingPositions.
    rewrite (mineAt_mineT _ _ _ _ _ _ _ Hwf U Hx). case_bool_decide; subst.
    + rewrite Hmine. naive_solver.
    + naive_solver.
  - rewrite (mineAt_mineT _ _ _ _ _ _ _ Hwf U Hpos). by rewrite bool_decide_true.
Qed.

Lemma mineCell_inBounds h f pos h' : wf h f → mineCell h f pos = Ok h' → inBounds (params f) pos.
Proof.
  intros Hwf H. unfold mineCell in H. apply bind_Ok in H as (c & Hc & H).
  apply bind_Ok in H as (l & Hl & _). apply expect_Ok in Hl as ->.
  apply getCell_Some in Hc. by eapply locAt_inBounds.
Qed.

Lemma unMineCell_inBounds h f pos h' :
  wf h f → unMineCell h f pos = Ok h' → inBounds (params f) pos.
Proof.
  intros Hwf H. unfold unMineCell in H. apply bind_Ok in H as (c & Hc & H).
  apply bind_Ok in H as (l & Hl & _). apply expect_Ok in Hl as ->.
  apply getCell_Some in Hc. by eapply locAt_inBounds.
Qed.

(** [relocateMine] from a mine to a cell that is not one. *)
Lemma relocateMine_spec h f from to :
  wf h f → adjacencyOk h f → inBounds (params f) from → inBounds (params f) to →
  mineAt h f from = true → mineAt h f to = false →
  ∃ h', relocateMine h f from to = Ok h' ∧ wf h' f ∧ adjacencyOk h' f
        ∧ updates f (fun q c => mineT (params f) true 1 to q
                                  (mineT (params f) false (-1) from q c)) h h'.
Proof.
  intros Hwf Hadj Hfrom Hto Hm Hn. unfold relocateMine.
  destruct (unMineCell_spec _ _ _ Hwf Hfrom) as (h1 & -> & U1 & Hwf1). simpl.
  destruct (mineCell_spec _ _ _ Hwf1 Hto) as (h2 & -> & U2 & Hwf2).
  exists h2. split; [done|]. split; [done|].
  pose proof (adjacencyOk_unmine _ _ _ _ Hwf Hadj Hfrom Hm U1) as Hadj1.
  split; [|by eapply updates_trans].
  eapply adjacencyOk_mine; [exact Hwf1|done|done| |done].
  rewrite (mineAt_mineT _ _ _ _ _ _ _ Hwf U1 Hto).
  case_bool_decide; [done|done].
Qed.

(** * Mine placement *)

Lemma createKey_inj p q : createKey p = createKey q → p = q.
Proof. destruct p, q. unfold createKey. simpl. by intros [= -> ->]. Qed.

Lemma parseKey_createKey p : parseKey (createKey p) = p.
Proof. by destruct p. Qed.

Lemma wf_setFieldMined b h f : wf h (setFieldMined b f) ↔ wf h f.
Proof. split; intros [H1 H2 H3]; by split. Qed.

Lemma sameMarks_refl f h : sameMarks f h h.
Proof. by intros q l _. Qed.

Lemma sameMarks_trans f h1 h2 h3 : sameMarks f h1 h2 → sameMarks f h2 h3 → sameMarks f h1 h3.
Proof.
  intros H1 H2 q l Hl. destruct (H1 _ _ Hl) as [A1 B1], (H2 _ _ Hl) as [A2 B2].
  split; congruence.
Qed.

Lemma sameMarks_mineT f b d pos h h' :
  updates f (mineT (params f) b d pos) h h' → sameMarks f h h'.
Proof.
  intros [_ U _] q l Hl. rewrite (U _ _ Hl).
  by rewrite isRevealed_mineT, isFlagged_mineT.
Qed.

Lemma minesAre_mine h f keys pos h' :
  wf h f → minesAre h f keys → inBounds (params f) pos → createKey pos ∉ keys →
  updates f (mineT (params f) true 1 pos) h h' →
  minesAre h' f (createKey pos :: keys).
Proof.
  intros Hwf [Hnd Hin Hm] Hpos Hnot U. split.
  - by apply NoDup_cons.
  - intros k [->|Hk]%elem_of_cons; [by rewrite parseKey_createKey | by apply Hin].
  - intros q Hq. rewrite (mineAt_mineT _ _ _ _ _ _ _ Hwf U Hq), elem_of_cons.
    case_bool_decide as E.
    + subst. naive_solver.
    + rewrite (Hm _ Hq). split; [by right|].
      intros [E'|?]; [|done]. by apply createKey_inj in E'.
Qed.

Lemma touchesOnly_refl f h : touchesOnly f h h.
Proof. by split. Qed.

Lemma touchesOnly_trans f h1 h2 h3 :
  touchesOnly f h1 h2 → touchesOnly f h2 h3 → touchesOnly f h1 h3.
Proof.
  intros [L1 O1] [L2 O2]. split; [congruence|]. intros l Hl. by rewrite O2, O1.
Qed.

Lemma updates_touchesOnly f T h h' : updates f T h h' → touchesOnly f h h'.
Proof. intros [L _ O]. by split. Qed.

Lemma frame_touchesOnly h0 f h h' :
  owned (length h0) f → frame h0 h → touchesOnly f h h' → frame h0 h'.
Proof.
  intros Hown [L D] [UL UO]. split; [lia|]. intros l Hl.
  rewrite UO; [by apply D|]. intros q Hq. apply Hown in Hq. lia.
Qed.

Lemma placeLoop_spec fuel f avoidSet placed h rng h' rng' :
  wf h f → adjacencyOk h f → minesAre h f avoidSet →
  placed = Z.of_nat (length avoidSet) →
  placeLoop fuel f avoidSet placed h rng = Ok (h', rng') →
  wf h' f ∧ adjacencyOk h' f ∧ sameMarks f h h' ∧ touchesOnly f h h' ∧
  ∃ keys, minesAre h' f keys ∧ Z.of_nat (length keys) = Z.max placed (mines (params f)).
Proof.
  revert avoidSet placed h rng.
  induction fuel as [|fuel IH]; intros avoidSet placed h rng Hwf Hadj Hm Hpl; simpl.
  - destruct (Z.ltb_spec placed (mines (params f))); [done|].
    intros [= <- <-]. split_and!; try done; try apply touchesOnly_refl.
    exists avoidSet. split; [done|lia].
  - destruct (Z.ltb_spec placed (mines (params f))) as [Hlt|Hge].
    2:{ intros [= <- <-]. split_and!; try done; try apply touchesOnly_refl.
        exists avoidSet. split; [done|lia]. }
    set (pos := {| col := scaled (rng 0%nat) (cols (params f));
                   row := scaled (rng 1%nat) (rows (params f)) |}).
    case_bool_decide as Hhas.
    + intros H. destruct (IH _ _ _ _ Hwf Hadj Hm Hpl H) as (? & ? & ? & ? & keys & ? & ?).
      split_and!; try done. exists keys. split; [done|lia].
    + intros H. apply bind_Ok in H as (h1 & Hmine & H).
      pose proof (mineCell_inBounds _ _ _ _ Hwf Hmine) as Hpos.
      destruct (mineCell_spec _ _ _ Hwf Hpos) as (h1' & E & U & Hwf1).
      assert (h1' = h1) as -> by congruence.
      assert (mineAt h f pos = false) as Hnot.
      { destruct (mineAt h f pos) eqn:E'; [|done].
        exfalso. apply Hhas. by apply (ma_mine _ _ _ Hm). }
      pose proof (adjacencyOk_mine _ _ _ _ Hwf Hadj Hpos Hnot U) as Hadj1.
      pose proof (minesAre_mine _ _ _ _ _ Hwf Hm Hpos Hhas U) as Hm1.
      assert (placed + 1 = Z.of_nat (length (createKey pos :: avoidSet))) as Hpl1
          by (simpl; lia).
      destruct (IH _ _ _ _ Hwf1 Hadj1 Hm1 Hpl1 H) as (? & ? & Hs & Hlen & keys & ? & ?).
      split_and!; try done.
      * eapply sameMarks_trans; [|exact Hs]. by eapply sameMarks_mineT.
      * eapply touchesOnly_trans; [by eapply updates_touchesOnly | done].
      * exists keys. split; [done|lia].
Qed.

Lemma minesAre_nil h f : wf h f → noMines h f → minesAre h f [].
Proof.
  intros Hwf Hno. split; [constructor | intros k Hk; by apply elem_of_nil in Hk |].
  intros q _. rewrite Hno, elem_of_nil. naive_solver.
Qed.

Lemma adjacencyOk_setFieldMined b h f : adjacencyOk h (setFieldMined b f) ↔ adjacencyOk h f.
Proof. done. Qed.

(** [placeMines] on a field without mines. *)
Lemma placeMines_spec fuel f h rng f' h' rng' :
  wf h f → adjacencyOk h f → noMines h f →
  placeMines fuel f h rng = Ok (f', h', rng') →
  grid f' = grid f ∧ params f' = params f ∧
  wf h' f' ∧ adjacencyOk h' f' ∧ sameMarks f h h' ∧ touchesOnly f h h' ∧
  ∃ keys, minesAre h' f' keys
          ∧ (isMined f = false → Z.of_nat (length keys) = Z.max 0 (mines (params f))).
Proof.
  intros Hwf Hadj Hno. unfold placeMines. destruct (isMined f) eqn:Em.
  - intros [= <- <- <-]. split_and!; try done; try apply touchesOnly_refl.
    exists []. split; [|done].
    by apply minesAre_nil.
  - intros H. apply bind_Ok in H as ([h1 rng1] & Hloop & [= <- <- <-]).
    assert (wf h (setFieldMined true f)) as Hwf0 by (by apply wf_setFieldMined).
    assert (minesAre h (setFieldMined true f) []) as Hm0 by (by apply minesAre_nil).
    destruct (placeLoop_spec fuel (setFieldMined true f) [] 0 h rng h1 rng1
                Hwf0 Hadj Hm0 eq_refl Hloop)
      as (Hwf' & Hadj' & Hs & Hlen & keys & Hk & Hn).
    split_and!; try done. exists keys. split; [done|]. done.
Qed.

(** * Constructing and cloning fields *)

Lemma filter_none {A} (P : A → Prop) `{∀ x, Decision (P x)} (l : list A) :
  (∀ x, x ∈ l → ¬ P x) → filter P l = [].
Proof.
  induction l as [|a l IH]; intros Hl; [done|].
  rewrite filter_cons_False by (apply Hl; rewrite elem_of_cons; by left).
  apply IH. intros x Hx. apply Hl. rewrite elem_of_cons. by right.
Qed.

Lemma nthZ_map {A B} (g : A → B) (l : list A) i : nthZ (map g l) i = g <$> nthZ l i.
Proof.
  unfold nthZ. destruct (i <? 0); [done|].
  change (map g l) with (g <$> l). apply list_lookup_fmap.
Qed.

Lemma dataAt_getData h f pos : dataAt (getData h f) pos = cellAt h f pos.
Proof.
  unfold dataAt, getData, cellAt, locAt. rewrite nthZ_map.
  destruct (nthZ (grid f) (row pos)) as [r|]; simpl; [|done]. apply nthZ_map.
Qed.

Lemma wfData_getData h f : wf h f → wfData (params f) (getData h f).
Proof.
  intros Hwf. split.
  - unfold getData. rewrite length_map. apply Hwf.
  - intros r Hr. unfold getData in Hr.
    apply list_elem_of_In, in_map_iff in Hr as (r' & <- & Hr').
    rewrite length_map. apply Hwf. by apply list_elem_of_In.
  - intros pos c. rewrite dataAt_getData. by apply cellAt_position.
Qed.

Lemma elem_of_grid f l :
  (∃ r, r ∈ grid f ∧ l ∈ r) ↔ ∃ pos, locAt f pos = Some l.
Proof.
  split.
  - intros (r & [i Hi]%list_elem_of_lookup & [j Hj]%list_elem_of_lookup).
    exists {| row := Z.of_nat i; col := Z.of_nat j |}. apply locAt_Some'. simpl.
    split; [lia|]. split; [lia|]. exists r. by rewrite !Nat2Z.id.
  - intros (pos & (_ & _ & r & Hr & Hl)%locAt_Some').
    exists r. split; by eapply list_elem_of_lookup_2.
Qed.

Lemma anyMine_true h f :
  existsb (fun r => existsb (fun l => isMine (deref h l)) r) (grid f) = true
  ↔ ∃ pos, mineAt h f pos = true.
Proof.
  rewrite existsb_exists. split.
  - intros (r & Hr & (l & Hl & Hm)%existsb_exists).
    destruct (proj1 (elem_of_grid f l)) as [pos Hpos].
    { exists r. split; by apply list_elem_of_In. }
    exists pos. unfold mineAt, cellAt. by rewrite Hpos.
  - intros (pos & Hm). unfold mineAt, cellAt in Hm.
    destruct (locAt f pos) as [l|] eqn:El; [|done]. simpl in Hm.
    destruct (proj2 (elem_of_grid f l)) as (r & Hr & Hl); [eauto|].
    exists r. split; [by apply list_elem_of_In|].
    apply existsb_exists. exists l. split; [by apply list_elem_of_In | done].
Qed.

Lemma anyMine_false h f :
  existsb (fun r => existsb (fun l => isMine (deref h l)) r) (grid f) = false
  ↔ noMines h f.
Proof.
  unfold noMines. split.
  - intros H pos. destruct (mineAt h f pos) eqn:E; [|done].
    assert (∃ pos, mineAt h f pos = true) as H' by eauto.
    apply anyMine_true in H'. congruence.
  - intros H. destruct (existsb _ _) eqn:E; [|done].
    apply anyMine_true in E as [pos E]. by rewrite H in E.
Qed.

Lemma adjacencyOk_ext h f h' f' :
  params f' = params f → (∀ pos, cellAt h' f' pos = cellAt h f pos) →
  adjacencyOk h f → adjacencyOk h' f'.
Proof.
  intros Hp Hc Hadj pos c E. rewrite Hc in E. rewrite (Hadj _ _ E).
  unfold minedSiblings, mineAt. rewrite Hp. f_equal. f_equal.
  apply list_filter_iff. intros q. by rewrite Hc.
Qed.

Lemma mineAt_ext h f h' f' pos :
  cellAt h' f' pos = cellAt h f pos → mineAt h' f' pos = mineAt h f pos.
Proof. unfold mineAt. by intros ->. Qed.

(** The constructor over a description that fits the parameters. *)
Lemma newField_spec p data h f h' :
  wfData p data → newField p (Some data) h = (f, h') →
  params f = p ∧ wf h' f ∧ frame h h' ∧ owned (length h) f ∧
  (∀ pos, cellAt h' f pos = dataAt data pos) ∧
  (isMined f = false ↔ noMines h' f).
Proof.
  intros Hd Hnew. pose proof (newField_wf _ _ _ _ _ Hd Hnew) as Hwf.
  destruct (newField_data _ _ _ _ _ Hnew) as (Hp & Hh & Hm & Hcell & Hloc).
  split_and!; try done.
  - subst h'. apply frame_app.
  - intros pos l Hl. by apply Hloc in Hl as [? _].
  - rewrite Hm. apply anyMine_false.
Qed.

(** [cloneSelf]: a field over new cells that shows what the original shows. *)
Lemma cloneSelf_spec h f f' h' :
  wf h f → cloneSelf h f = (f', h') →
  params f' = params f ∧ wf h' f' ∧ frame h h' ∧ owned (length h) f' ∧
  (∀ pos, cellAt h' f' pos = cellAt h f pos) ∧
  (isMined f' = false ↔ noMines h' f').
Proof.
  intros Hwf Hc. unfold cloneSelf in Hc.
  destruct (newField_spec _ _ _ _ _ (wfData_getData _ _ Hwf) Hc)
    as (Hp & Hwf' & Hfr & Hown & Hcell & Hm).
  split_and!; try done. intros pos. by rewrite Hcell, dataAt_getData.
Qed.

(** A field built without a description: no mine, no mark, no number. *)
Lemma newField_fresh p h f h' :
  newField p None h = (f, h') →
  params f = p ∧ wf h' f ∧ frame h h' ∧ owned (length h) f ∧
  (∀ pos, inBounds p pos → cellAt h' f pos = Some (newCell pos)) ∧
  isMined f = false ∧ noMines h' f ∧ adjacencyOk h' f.
Proof.
  intros Hnew.
  change (newField p None h) with
    (newField p (Some (createGrid (rows p) (cols p) newCell)) h) in Hnew.
  destruct (newField_spec _ _ _ _ _ (createGrid_wfData p) Hnew)
    as (Hp & Hwf & Hfr & Hown & Hcell & Hm).
  assert (∀ pos, inBounds p pos → cellAt h' f pos = Some (newCell pos)) as Hnewc.
  { intros pos Hpos. rewrite Hcell. by apply createGrid_dataAt. }
  assert (noMines h' f) as Hno.
  { intros pos. unfold mineAt. destruct (cellAt h' f pos) as [c|] eqn:E; [|done].
    assert (inBounds p pos) as Hb.
    { rewrite <- Hp. apply (cellAt_is_Some _ _ Hwf). eauto. }
    rewrite (Hnewc _ Hb) in E. by injection E as <-. }
  split_and!; try done.
  - by apply Hm.
  - intros pos c E.
    assert (inBounds p pos) as Hb.
    { rewrite <- Hp. apply (cellAt_is_Some _ _ Hwf). eauto. }
    rewrite (Hnewc _ Hb) in E. injection E as <-. simpl.
    unfold minedSiblings.
    rewrite filter_none; [done|]. intros q _. by rewrite Hno.
Qed.

(** * The reveal area *)

Lemma elem_of_allPositions p q : q ∈ allPositions p ↔ inBounds p q.
Proof.
  unfold allPositions, createGrid, inBounds. rewrite list_elem_of_In, in_concat. split.
  - intros (r & (i & <- & Hi%in_seq)%in_map_iff & (j & <- & Hj%in_seq)%in_map_iff).
    simpl. lia.
  - intros [Hr Hc].
    exists (map (fun c => id {| row := Z.of_nat (Z.to_nat (row q)); col := Z.of_nat c |})
              (seq 0 (cols p))).
    split.
    + apply in_map_iff. exists (Z.to_nat (row q)). split; [done|]. apply in_seq. lia.
    + apply in_map_iff. exists (Z.to_nat (col q)). split; [|apply in_seq; lia].
      destruct q; unfold id; simpl in *. f_equal; lia.
Qed.

Lemma length_concat_const {A} (ls : list (list A)) n :
  (∀ l, l ∈ ls → length l = n) → length (concat ls) = (length ls * n)%nat.
Proof.
  induction ls as [|l ls IH]; intros H; simpl; [done|].
  rewrite length_app, IH, (H l); [lia| |].
  - rewrite elem_of_cons. by left.
  - intros l' Hl'. apply H. rewrite elem_of_cons. by right.
Qed.

Lemma length_allPositions p : length (allPositions p) = (rows p * cols p)%nat.
Proof.
  unfold allPositions, createGrid.
  rewrite (length_concat_const _ (cols p)).
  - by rewrite length_map, length_seq.
  - intros l (i & <- & _)%list_elem_of_In%in_map_iff. by rewrite length_map, length_seq.
Qed.

Lemma unvisited_le p visited : (unvisited p visited ≤ rows p * cols p)%nat.
Proof. unfold unvisited. rewrite <- length_allPositions. apply length_filter. Qed.

Lemma length_filter_mono_lt {A} (P Q : A → Prop) `{∀ x, Decision (P x)}
    `{∀ x, Decision (Q x)} (l : list A) (a : A) :
  (∀ x, Q x → P x) → a ∈ l → P a → ¬ Q a →
  (length (filter Q l) < length (filter P l))%nat.
Proof.
  intros HQP. induction l as [|x l IH]; intros Ha HP HQ; [by apply elem_of_nil in Ha|].
  assert (length (filter Q l) ≤ length (filter P l))%nat as Hle.
  { clear -HQP. induction l as [|y l IH]; [done|]. rewrite !filter_cons.
    destruct (decide (Q y)) as [q|q], (decide (P y)) as [p|p]; simpl; try lia.
    exfalso. by apply p, HQP. }
  rewrite !filter_cons. apply elem_of_cons in Ha as [<-|Ha].
  - rewrite decide_False, decide_True by done. simpl. lia.
  - specialize (IH Ha HP HQ).
    destruct (decide (Q x)) as [q|q], (decide (P x)) as [p|p]; simpl; try lia.
    exfalso. by apply p, HQP.
Qed.

Lemma unvisited_cons p visited pos :
  inBounds p pos → pos ∉ visited →
  (unvisited p (pos :: visited) < unvisited p visited)%nat.
Proof.
  intros Hb Hv. unfold unvisited. apply (length_filter_mono_lt _ _ _ pos).
  - intros x Hx Hx'. apply Hx. rewrite elem_of_cons. by right.
  - by apply elem_of_allPositions.
  - done.
  - intros H. apply H. rewrite elem_of_cons. by left.
Qed.

Lemma length_siblingPositions p pos : (length (siblingPositions p pos) ≤ 8)%nat.
Proof. unfold siblingPositions. etrans; [apply length_filter|]. done. Qed.

Section Area.
Context (h : Heap) (f : Field) (Hwf : wf h f).

Lemma gridLoc_position l q : locAt f q = Some l → position (deref h l) = q.
Proof using Hwf. by apply locAt_position. Qed.

Lemma length_siblingLocs pos : (length (siblingLocs f pos) ≤ 8)%nat.
Proof using Hwf.
  rewrite <- (Forall2_length _ _ _ (siblingLocs_fmap _ _ Hwf pos)).
  apply length_siblingPositions.
Qed.

Lemma siblingLocs_gridLoc pos : Forall (gridLoc f) (siblingLocs f pos).
Proof.
  apply Forall_forall. intros l (q & _ & Hq)%siblingLocs_locAt. by exists q.
Qed.

Lemma visitedAt_inBounds visited pos :
  inBounds (params f) pos →
  visitedAt (params f) visited pos = Ok (bool_decide (pos ∈ visited)).
Proof.
  intros [Hr _]. unfold visitedAt.
  destruct (Z.ltb_spec (row pos) 0); [lia|].
  destruct (Z.leb_spec (Z.of_nat (rows (params f))) (row pos)); [lia|]. done.
Qed.

(** The loop finishes when given enough fuel. *)
Lemma areaLoop_total fuel queue visited res :
  Forall (gridLoc f) queue →
  (length queue + 9 * unvisited (params f) visited ≤ fuel)%nat →
  ∃ out, areaLoop fuel h f queue visited res = Ok out.
Proof using Hwf.
  revert queue visited res.
  induction fuel as [|fuel IH]; intros queue visited res Hq Hfuel.
  - destruct queue; simpl in *; [eauto | lia].
  - destruct queue as [|cell queue']; simpl; [eauto|].
    apply Forall_cons in Hq as [[pos Hpos] Hq].
    rewrite (gridLoc_position _ _ Hpos).
    pose proof (locAt_inBounds _ _ Hwf _ _ Hpos) as Hb.
    rewrite (visitedAt_inBounds _ _ Hb). simpl.
    case_bool_decide as Hv.
    + apply IH; [done|]. simpl in Hfuel. lia.
    + pose proof (unvisited_cons _ _ _ Hb Hv) as Hlt.
      destruct (isEmpty (deref h cell)).
      * rewrite (getSiblings_wf _ _ Hwf). simpl. apply IH.
        -- apply Forall_app. split; [done | apply siblingLocs_gridLoc].
        -- rewrite length_app. pose proof (length_siblingLocs pos).
           simpl in Hfuel. lia.
      * simpl. apply IH; [done|]. simpl in Hfuel. lia.
Qed.

Lemma siblingLocs_positions pos l :
  l ∈ siblingLocs f pos → position (deref h l) ∈ siblingPositions (params f) pos.
Proof using Hwf.
  intros (q & Hq & Hl)%siblingLocs_locAt. by rewrite (gridLoc_position _ _ Hl).
Qed.

Lemma siblingPositions_locs pos s :
  s ∈ siblingPositions (params f) pos →
  ∃ l, l ∈ siblingLocs f pos ∧ position (deref h l) = s.
Proof using Hwf.
  intros Hs. pose proof Hs as [_ Hb]%elem_of_siblingPositions.
  apply (locAt_is_Some _ _ Hwf) in Hb as [l Hl]. exists l.
  split; [by apply (elem_of_siblingLocs _ _ Hwf _ _ _ Hl) | by apply gridLoc_position].
Qed.

Lemma areaInv_skip origin cell queue visited res :
  position (deref h cell) ∈ visited →
  areaInv h f origin (cell :: queue) visited res → areaInv h f origin queue visited res.
Proof.
  intros Hv [Hq Hr Hvis Hnd Hsv Hsq Ho Hc]. split; try done.
  - by apply Forall_cons in Hq as [_ ?].
  - intros l Hl. apply Hsq. rewrite elem_of_cons. by right.
  - destruct Ho as [?|(l & [->|Hl]%elem_of_cons & E)]; [by left | | by eauto].
    left. by rewrite <- E.
  - intros e s He Hem Hs.
    destruct (Hc e s He Hem Hs) as [?|(l & [->|Hl]%elem_of_cons & E)];
      [by left | | by eauto].
    left. by rewrite <- E.
Qed.

Lemma areaInv_visit origin cell pos queue extra visited res :
  locAt f pos = Some cell → pos ∉ visited →
  Forall (gridLoc f) extra →
  (∀ l, l ∈ extra → reach h f origin (position (deref h l))) →
  (emptyAt h f pos → ∀ s, s ∈ siblingPositions (params f) pos →
     ∃ l, l ∈ extra ∧ position (deref h l) = s) →
  areaInv h f origin (cell :: queue) visited res →
  areaInv h f origin (queue ++ extra) (pos :: visited) (res ++ [cell]).
Proof using Hwf.
  intros Hpos Hv Hex Hexr Hexc [Hq Hr Hvis Hnd Hsv Hsq Ho Hc].
  pose proof (gridLoc_position _ _ Hpos) as HP.
  assert (reach h f origin pos) as Hreach.
  { rewrite <- HP. apply Hsq. rewrite elem_of_cons. by left. }
  apply Forall_cons in Hq as [Hcell Hq].
  split.
  - apply Forall_app. by split.
  - apply Forall_app. split; [done|]. by apply Forall_singleton.
  - rewrite map_app, Hvis, reverse_cons. simpl. by rewrite HP.
  - by apply NoDup_cons.
  - intros q [->|Hq']%elem_of_cons; [done | by apply Hsv].
  - intros l [Hl|Hl]%elem_of_app; [|by apply Hexr].
    apply Hsq. rewrite elem_of_cons. by right.
  - destruct Ho as [Ho|(l & [->|Hl]%elem_of_cons & E)].
    + left. rewrite elem_of_cons. by right.
    + left. rewrite elem_of_cons. left. congruence.
    + right. exists l. split; [|done]. rewrite elem_of_app. by left.
  - intros e s [->|He]%elem_of_cons Hem Hs.
    + right. destruct (Hexc Hem s Hs) as (l & Hl & E). exists l.
      split; [|done]. rewrite elem_of_app. by right.
    + destruct (Hc e s He Hem Hs) as [?|(l & [->|Hl]%elem_of_cons & E)].
      * left. rewrite elem_of_cons. by right.
      * left. rewrite elem_of_cons. left. congruence.
      * right. exists l. split; [|done]. rewrite elem_of_app. by left.
Qed.

(** The loop keeps the invariant until the queue is empty. *)
Lemma areaLoop_inv origin fuel queue visited res out :
  areaInv h f origin queue visited res →
  areaLoop fuel h f queue visited res = Ok out →
  ∃ visited', areaInv h f origin [] visited' out.
Proof using Hwf.
  revert queue visited res.
  induction fuel as [|fuel IH]; intros queue visited res Hinv.
  - destruct queue; simpl; [|done]. intros [= <-]. eauto.
  - destruct queue as [|cell queue']; simpl; [intros [= <-]; eauto|].
    pose proof (ai_queue _ _ _ _ _ _ Hinv) as Hq.
    apply Forall_cons in Hq as [[pos Hpos] Hq].
    rewrite (gridLoc_position _ _ Hpos).
    pose proof (locAt_inBounds _ _ Hwf _ _ Hpos) as Hb.
    rewrite (visitedAt_inBounds _ _ Hb). simpl.
    case_bool_decide as Hv.
    + apply IH. eapply areaInv_skip; [|done]. by rewrite (gridLoc_position _ _ Hpos).
    + destruct (isEmpty (deref h cell)) eqn:Eem.
      * rewrite (getSiblings_wf _ _ Hwf). simpl. apply IH.
        assert (reach h f origin pos) as Hreach.
        { rewrite <- (gridLoc_position _ _ Hpos). apply (ai_sound_q _ _ _ _ _ _ Hinv).
          rewrite elem_of_cons. by left. }
        assert (emptyAt h f pos) as Hem.
        { exists (deref h cell). unfold cellAt. by rewrite Hpos. }
        apply areaInv_visit; try done.
        -- apply siblingLocs_gridLoc.
        -- intros l Hl. eapply reach_step; [exact Hreach|done|].
           by apply siblingLocs_positions.
        -- intros _ s Hs. by apply siblingPositions_locs.
      * simpl. apply IH. rewrite <- (app_nil_r queue').
        apply areaInv_visit; try done.
        -- intros l Hl. by apply elem_of_nil in Hl.
        -- intros (c & Hc & Hce). unfold cellAt in Hc. rewrite Hpos in Hc.
           injection Hc as <-. congruence.
Qed.

Lemma areaInv_done origin visited out :
  areaInv h f origin [] visited out →
  NoDup out ∧ Forall (gridLoc f) out
  ∧ ∀ q l, locAt f q = Some l → l ∈ out ↔ reach h f origin q.
Proof using Hwf.
  intros [Hq Hr Hvis Hnd Hsv Hsq Ho Hc].
  assert (∀ q, reach h f origin q → q ∈ visited) as Hcomplete.
  { intros q Hq'. induction Hq' as [|e q _ IH Hem Hs].
    - destruct Ho as [?|(l & Hl & _)]; [done | by apply elem_of_nil in Hl].
    - destruct (Hc e q IH Hem Hs) as [?|(l & Hl & _)];
        [done | by apply elem_of_nil in Hl]. }
  split_and!; [|done|].
  - apply (NoDup_fmap_1 (fun l => position (deref h l))).
    change (NoDup (map (fun l => position (deref h l)) out)).
    rewrite Hvis. by rewrite reverse_Permutation.
  - intros q l Hl. split.
    + intros Hin. apply Hsv. apply elem_of_reverse. rewrite <- Hvis.
      apply list_elem_of_In, in_map_iff. exists l.
      split; [by apply gridLoc_position | by apply list_elem_of_In].
    + intros Hq'. apply Hcomplete in Hq'.
      apply elem_of_reverse in Hq'. rewrite <- Hvis in Hq'.
      apply list_elem_of_In, in_map_iff in Hq' as (l' & E & Hl').
      apply list_elem_of_In in Hl'.
      assert (gridLoc f l') as [q' Hq''].
      { rewrite Forall_forall in Hr. by apply Hr. }
      rewrite (gridLoc_position _ _ Hq'') in E. subst q'.
      by assert (l = l') as -> by congruence.
Qed.
End Area.

(** [getAreaToReveal] on a well-formed field, from a position of the grid. *)
Lemma getAreaToReveal_spec fuel h f origin :
  wf h f → inBounds (params f) origin → (enoughFuel (params f) ≤ fuel)%nat →
  ∃ target area,
    locAt f origin = Some target ∧
    getAreaToReveal fuel h f origin = Ok area ∧
    NoDup area ∧ Forall (gridLoc f) area ∧
    (emptyAt h f origin → ∀ q l, locAt f q = Some l → l ∈ area ↔ reach h f origin q) ∧
    (¬ emptyAt h f origin → area = [target]).
Proof.
  intros Hwf Hb Hfuel. destruct (getCell_inBounds _ _ Hwf _ Hb) as (target & Hg & Hl).
  exists target. unfold getAreaToReveal. rewrite Hg. simpl.
  assert (cellAt h f origin = Some (deref h target)) as Hcell.
  { unfold cellAt. by rewrite Hl. }
  destruct (isEmpty (deref h target)) eqn:Eem; simpl.
  - assert (isMine (deref h target) = false) as ->.
    { unfold isEmpty in Eem. by destruct (isMine (deref h target)). }
    assert (Forall (gridLoc f) [target]) as Hq.
    { apply Forall_singleton. by exists origin. }
    destruct (areaLoop_total h f Hwf fuel [target] [] [] Hq) as [area Harea].
    { simpl. pose proof (unvisited_le (params f) []). unfold enoughFuel in Hfuel. lia. }
    exists area. split; [done|]. split; [done|].
    assert (areaInv h f origin [target] [] []) as Hinv.
    { split; try done.
      - constructor.
      - intros q Hq'. by apply elem_of_nil in Hq'.
      - intros l ->%list_elem_of_singleton. rewrite (locAt_position _ _ Hwf _ _ Hl).
        constructor.
      - right. exists target. split; [by apply list_elem_of_singleton|].
        by apply (locAt_position _ _ Hwf).
      - intros e s He. by apply elem_of_nil in He. }
    destruct (areaLoop_inv h f Hwf origin _ _ _ _ _ Hinv Harea) as [visited' Hdone].
    destruct (areaInv_done h f Hwf _ _ _ Hdone) as (Hnd & Hgl & Hiff).
    split_and!; try done.
    intros Hne. exfalso. apply Hne. by exists (deref h target).
  - exists [target]. split_and!; try done.
    + apply NoDup_singleton.
    + apply Forall_singleton. by exists origin.
    + intros (c & Hc & Hce). congruence.
Qed.

(** * The reveal area as a region of empty cells and its border *)

Section Region.
Context (h : Heap) (f : Field) (Hwf : wf h f) (Hadj : adjacencyOk h f).

(** Around an empty cell there is no mine. *)
Lemma empty_sibling_safe e s :
  emptyAt h f e → s ∈ siblingPositions (params f) e → mineAt h f s = false.
Proof using Hadj.
  intros (c & Hc & Hem) Hs. destruct (mineAt h f s) eqn:E; [|done]. exfalso.
  pose proof (Hadj _ _ Hc) as Hn. unfold isEmpty in Hem.
  apply andb_true_iff in Hem as [_ Hz%Z.eqb_eq]. rewrite Hz in Hn.
  unfold minedSiblings in Hn.
  assert (filter (fun q => mineAt h f q = true) (siblingPositions (params f) e) = [])
    as Hnil.
  { destruct (filter _ _); [done | simpl in Hn; lia]. }
  by apply (filter_nil_not_elem_of _ _ s Hnil).
Qed.

Lemma emptyRegion_empty origin q : emptyRegion h f origin q → emptyAt h f q.
Proof. by intros [|]. Qed.

Lemma emptyRegion_reach origin q : emptyRegion h f origin q → reach h f origin q.
Proof.
  induction 1 as [|e q He IH Hs Hq]; [constructor|].
  eapply reach_step; [exact IH | by eapply emptyRegion_empty | done].
Qed.

Lemma reach_inBounds origin q :
  inBounds (params f) origin → reach h f origin q → inBounds (params f) q.
Proof.
  intros Hb. induction 1 as [|e q _ _ _ Hs]; [done|].
  by apply elem_of_siblingPositions in Hs as [_ ?].
Qed.

(** What the traversal reaches from an empty origin is the region of
    empty cells and the numbered cells on its border. *)
Lemma reach_region origin q :
  emptyAt h f origin →
  reach h f origin q ↔ emptyRegion h f origin q ∨ regionBorder h f origin q.
Proof using Hwf Hadj.
  intros Ho. split.
  - induction 1 as [|e q He IH Hem Hs]; [left; by constructor|].
    assert (emptyRegion h f origin e) as Hreg.
    { destruct IH as [?|[(c & Hc & _ & Hnz) _]]; [done|].
      destruct Hem as (c' & Hc' & Hem). rewrite Hc in Hc'. injection Hc' as <-.
      unfold isEmpty in Hem. apply andb_true_iff in Hem as [_ Hz%Z.eqb_eq]. done. }
    assert (inBounds (params f) q) as Hq by (by apply elem_of_siblingPositions in Hs as [_ ?]).
    apply (cellAt_is_Some _ _ Hwf) in Hq as [c Hc].
    destruct (isEmpty c) eqn:Ec.
    + left. eapply region_step; [exact Hreg|done|]. by exists c.
    + right. split; [|by exists e].
      pose proof (empty_sibling_safe _ _ Hem Hs) as Hsafe.
      unfold mineAt in Hsafe. rewrite Hc in Hsafe.
      exists c. split_and!; [done|done|].
      unfold isEmpty in Ec. rewrite Hsafe in Ec. simpl in Ec. by apply Z.eqb_neq.
  - intros [Hreg|[_ (e & He & Hs)]]; [by apply emptyRegion_reach|].
    eapply reach_step; [by apply emptyRegion_reach | by eapply emptyRegion_empty | done].
Qed.

(** Nothing the traversal reaches from a safe origin is a mine. *)
Lemma reach_safe origin q :
  mineAt h f origin = false → reach h f origin q → mineAt h f q = false.
Proof using Hadj.
  intros Ho. induction 1 as [|e q _ _ Hem Hs]; [done|]. by eapply empty_sibling_safe.
Qed.
End Region.

(** The traversal depends on the mines and the numbers only. *)
Lemma emptyAt_ext h f h' f' q :
  (∀ c', cellAt h' f' q = Some c' → ∃ c, cellAt h f q = Some c
      ∧ isMine c' = isMine c ∧ adjacentMines c' = adjacentMines c) →
  emptyAt h' f' q → emptyAt h f q.
Proof.
  intros H (c' & Hc' & Hem). destruct (H _ Hc') as (c & Hc & Hm & Ha).
  exists c. split; [done|]. unfold isEmpty in *. by rewrite <- Hm, <- Ha.
Qed.

(** * Opening an area *)

Lemma revealT_flags c : isRevealed (revealT c) = true ∧ isFlagged (revealT c) = false.
Proof. done. Qed.

Lemma openStep_spec (h : Heap) unf rev l :
  (l < length h)%nat →
  ∃ h1 unf1 rev1, openStep (h, unf, rev) l = (h1, unf1, rev1) ∧ length h1 = length h ∧
    ∀ l', deref h1 l' = if decide (l' = l) then revealT (deref h l') else deref h l'.
Proof.
  intros Hl. unfold openStep.
  destruct (isFlagged (deref h l)) eqn:Ef.
  - rewrite deref_modify, decide_True by done. simpl.
    destruct (isRevealed (deref h l)) eqn:Er; simpl.
    + do 3 eexists. split; [done|]. rewrite length_modify. split; [done|].
      intros l'. rewrite deref_modify by done. case_decide; [subst|done].
      unfold revealT. destruct (deref h l); simpl in *; by subst.
    + do 3 eexists. split; [done|]. rewrite !length_modify. split; [done|].
      intros l'. rewrite !deref_modify by (by rewrite ?length_modify).
      case_decide; [subst|done]. done.
  - destruct (isRevealed (deref h l)) eqn:Er; simpl.
    + do 3 eexists. split; [done|]. split; [done|].
      intros l'. case_decide; [subst|done].
      unfold revealT. destruct (deref h l); simpl in *; by subst.
    + do 3 eexists. split; [done|]. rewrite length_modify. split; [done|].
      intros l'. rewrite deref_modify by done. case_decide; [subst|done].
      unfold revealT. destruct (deref h l); simpl in *; by subst.
Qed.

Lemma foldl_openStep area (h : Heap) unf rev :
  NoDup area → (∀ l, l ∈ area → (l < length h)%nat) →
  ∃ h1 unf1 rev1, foldl openStep (h, unf, rev) area = (h1, unf1, rev1) ∧
    length h1 = length h ∧
    ∀ l', deref h1 l' = if decide (l' ∈ area) then revealT (deref h l') else deref h l'.
Proof.
  revert h unf rev. induction area as [|l area IH]; intros h unf rev Hnd Hlt.
  - exists h, unf, rev. split; [done|]. split; [done|]. intros l'.
    rewrite decide_False; [done|]. apply not_elem_of_nil.
  - apply NoDup_cons in Hnd as [Hl Hnd].
    destruct (openStep_spec h unf rev l) as (h1 & unf1 & rev1 & E1 & L1 & D1).
    { apply Hlt. rewrite elem_of_cons. by left. }
    destruct (IH h1 unf1 rev1 Hnd) as (h2 & unf2 & rev2 & E2 & L2 & D2).
    { intros l' Hl'. rewrite L1. apply Hlt. rewrite elem_of_cons. by right. }
    exists h2, unf2, rev2. cbn [foldl]. rewrite E1. split; [done|]. split; [congruence|].
    intros l'. rewrite D2, D1.
    destruct (decide (l' = l)) as [->|Hne].
    + rewrite (decide_False (P := l ∈ area)) by done.
      rewrite (decide_True (P := l ∈ l :: area)); [done|]. rewrite elem_of_cons. by left.
    + destruct (decide (l' ∈ area)).
      * rewrite (decide_True (P := l' ∈ l :: area)); [done|]. rewrite elem_of_cons. by right.
      * rewrite (decide_False (P := l' ∈ l :: area)); [done|].
        rewrite elem_of_cons. naive_solver.
Qed.

(** ** Facts that hold whenever cells were only opened *)

Lemma opens_refl f h : opens f h h.
Proof. split; [apply touchesOnly_refl|..]; try done. intros; by left. Qed.

Lemma opens_trans f h1 h2 h3 : opens f h1 h2 → opens f h2 h3 → opens f h1 h3.
Proof.
  intros [T1 C1 R1 F1 G1] [T2 C2 R2 F2 G2]. split.
  - by eapply touchesOnly_trans.
  - intros q l Hl. destruct (C1 _ _ Hl) as (? & ? & ?), (C2 _ _ Hl) as (? & ? & ?).
    split_and!; congruence.
  - intros q l Hl Hr. eapply R2; [done|]. by eapply R1.
  - intros q l Hl Hf. eapply F1; [done|]. by eapply F2.
  - intros q l Hl. destruct (G2 _ _ Hl) as [E|?]; [|by right].
    rewrite E. by apply (G1 _ _ Hl).
Qed.

Section Opens.
Context (f : Field) (h h' : Heap) (Hwf : wf h f) (Hop : opens f h h').

Lemma opens_wf : wf h' f.
Proof using Hwf Hop.
  split; [apply Hwf | apply Hwf |]. intros pos l Hl.
  destruct (op_touches _ _ _ Hop) as [L _]. rewrite L.
  destruct (op_core _ _ _ Hop _ _ Hl) as (-> & _ & _). by apply Hwf.
Qed.

Lemma opens_cellAt q c' :
  cellAt h' f q = Some c' →
  ∃ c, cellAt h f q = Some c ∧ isMine c' = isMine c
       ∧ adjacentMines c' = adjacentMines c.
Proof using Hop.
  unfold cellAt. destruct (locAt f q) as [l|] eqn:El; [|done]. simpl.
  intros [= <-]. exists (deref h l). split; [done|].
  by destruct (op_core _ _ _ Hop _ _ El) as (_ & ? & ?).
Qed.

Lemma opens_mineAt q : mineAt h' f q = mineAt h f q.
Proof using Hop.
  unfold mineAt, cellAt. destruct (locAt f q) as [l|] eqn:El; [|done]. simpl.
  by destruct (op_core _ _ _ Hop _ _ El) as (_ & ? & _).
Qed.

Lemma opens_adjacencyOk : adjacencyOk h f → adjacencyOk h' f.
Proof using Hop.
  intros Hadj q c' Hc'. destruct (opens_cellAt _ _ Hc') as (c & Hc & _ & ->).
  rewrite (Hadj _ _ Hc). unfold minedSiblings. do 2 f_equal.
  apply list_filter_iff. intros x. by rewrite opens_mineAt.
Qed.

Lemma opens_emptyAt q : emptyAt h' f q ↔ emptyAt h f q.
Proof using Hop.
  unfold emptyAt, cellAt. destruct (locAt f q) as [l|] eqn:El; simpl.
  - destruct (op_core _ _ _ Hop _ _ El) as (_ & Hm & Ha).
    split; intros (c & [= <-] & Hem); eexists; (split; [done|]);
      unfold isEmpty in *; by rewrite ?Hm, ?Ha in *.
  - split; intros (c & [=] & _).
Qed.

Lemma opens_reach origin q : reach h' f origin q ↔ reach h f origin q.
Proof using Hop.
  split; induction 1 as [|e q _ IH Hem Hs]; try constructor;
    (eapply reach_step; [exact IH| |done]); by apply opens_emptyAt.
Qed.

Lemma opens_frame h0 : owned (length h0) f → frame h0 h → frame h0 h'.
Proof using Hop. intros Ho Hf. eapply frame_touchesOnly; [done|done|apply Hop]. Qed.
End Opens.

(** ** [openArea] *)

Lemma reach_trans h f o e q :
  reach h f o e → emptyAt h f e → reach h f e q → reach h f o q.
Proof.
  intros Hoe Hem. induction 1 as [|e' q _ IH Hem' Hs]; [done|].
  eapply reach_step; [exact IH|done|done].
Qed.

Lemma reach_nonempty h f o q : ¬ emptyAt h f o → reach h f o q → q = o.
Proof.
  intros Hne. induction 1 as [|e q _ IH Hem Hs]; [done|]. subst e. by destruct Hne.
Qed.

Lemma getAreaToReveal_reach fuel h f origin :
  wf h f → inBounds (params f) origin → (enoughFuel (params f) ≤ fuel)%nat →
  ∃ target area,
    locAt f origin = Some target ∧
    getAreaToReveal fuel h f origin = Ok area ∧
    NoDup area ∧ Forall (gridLoc f) area ∧
    ∀ q l, locAt f q = Some l → l ∈ area ↔ reach h f origin q.
Proof.
  intros Hwf Hb Hfuel.
  destruct (getAreaToReveal_spec fuel h f origin Hwf Hb Hfuel)
    as (target & area & Hl & Hget & Hnd & Hgl & Hem & Hne).
  exists target, area. split_and!; try done.
  intros q l Hq.
  destruct (isEmpty (deref h target)) eqn:E.
  - apply Hem; [|done]. exists (deref h target). unfold cellAt. by rewrite Hl.
  - assert (¬ emptyAt h f origin) as Hn.
    { intros (c & Hc & Hce). unfold cellAt in Hc. rewrite Hl in Hc.
      injection Hc as <-. congruence. }
    rewrite (Hne Hn), list_elem_of_singleton. split.
    + intros ->. assert (q = origin) as -> by (by eapply locAt_inj). constructor.
    + intros ->%(reach_nonempty _ _ _ _ Hn). congruence.
Qed.

Lemma openArea_spec fuel h f pos :
  wf h f → inBounds (params f) pos → (enoughFuel (params f) ≤ fuel)%nat →
  ∃ h' unflagged revealed,
    openArea fuel pos f h = Ok (h', unflagged, revealed) ∧ opens f h h' ∧
    ∀ q l, locAt f q = Some l →
      (reach h f pos q → deref h' l = revealT (deref h l)) ∧
      (¬ reach h f pos q → deref h' l = deref h l).
Proof.
  intros Hwf Hb Hfuel.
  destruct (getAreaToReveal_reach fuel h f pos Hwf Hb Hfuel)
    as (target & area & Hl & Hget & Hnd & Hgl & Hreach).
  unfold openArea. rewrite Hget. simpl.
  destruct (foldl_openStep area h [] [] Hnd) as (h1 & unf & rev & E & L & D).
  { intros l Hin. rewrite Forall_forall in Hgl. destruct (Hgl _ Hin) as [q Hq].
    by eapply locAt_lt. }
  exists h1, unf, rev. rewrite E. split; [done|].
  assert (∀ q l, locAt f q = Some l →
            (reach h f pos q → deref h1 l = revealT (deref h l)) ∧
            (¬ reach h f pos q → deref h1 l = deref h l)) as Hcells.
  { intros q l Hq. rewrite D. split; intros Hr.
    - rewrite decide_True; [done|]. by apply (Hreach _ _ Hq).
    - rewrite decide_False; [done|]. by rewrite (Hreach _ _ Hq). }
  split; [|done]. split.
  - split; [done|]. intros l Hl'. rewrite D, decide_False; [done|].
    intros Hin. rewrite Forall_forall in Hgl. destruct (Hgl _ Hin) as [q Hq].
    by apply (Hl' q).
  - intros q l Hq. rewrite D. by case_decide.
  - intros q l Hq Hr. rewrite D. by case_decide.
  - intros q l Hq. rewrite D. case_decide; [|done]. simpl. by intros.
  - intros q l Hq. rewrite D. case_decide; [by right | by left].
Qed.

(** * Chording *)

Lemma reveal_opens h f pos l :
  wf h f → locAt f pos = Some l → opens f h (modify (setIsRevealed true) h l).
Proof.
  intros Hwf Hl. pose proof (locAt_lt _ _ Hwf _ _ Hl) as Hlt. split.
  - split; [apply length_modify|]. intros l' Hl'. apply deref_modify_ne.
    intros ->. by apply (Hl' pos).
  - intros q l' Hq. rewrite deref_modify by done. by case_decide.
  - intros q l' Hq Hr. rewrite deref_modify by done. by case_decide.
  - intros q l' Hq. rewrite deref_modify by done. by case_decide.
  - intros q l' Hq. rewrite deref_modify by done. case_decide; [by right | by left].
Qed.

Lemma reach_dec h f pos q :
  wf h f → inBounds (params f) pos → reach h f pos q ∨ ¬ reach h f pos q.
Proof.
  intros Hwf Hb.
  destruct (getAreaToReveal_reach (enoughFuel (params f)) h f pos Hwf Hb)
    as (target & area & _ & _ & _ & _ & Hreach); [done|].
  destruct (locAt f q) as [l|] eqn:El.
  - destruct (decide (l ∈ area)) as [Hin|Hin].
    + left. by apply (Hreach _ _ El).
    + right. by rewrite <- (Hreach _ _ El).
  - right. intros Hr. apply (reach_inBounds _ _ _ _ Hb) in Hr.
    apply (locAt_is_Some _ _ Hwf) in Hr as [l Hl]. congruence.
Qed.

Lemma chordInv_skip f h0 h done ex pos l :
  locAt f pos = Some l →
  isFlagged (deref h l) || isRevealed (deref h l) = true →
  chordInv f h0 h done ex → chordInv f h0 h (done ++ [pos]) ex.
Proof.
  intros Hl Hskip [Hop Hfl Hmi Hdo]. split; [done|done| |].
  - intros q l' Hq H1 H2 H3. destruct (Hmi _ _ Hq H1 H2 H3) as [? ?].
    split; [|done]. rewrite elem_of_app. by left.
  - intros q l' [Hq|Heq%list_elem_of_singleton]%elem_of_app Hq' Hun; [by eapply Hdo|].
    subst q. assert (l' = l) as -> by congruence.
    apply orb_true_iff in Hskip as [Hf|Hr]; [|done].
    apply (op_flagged _ _ _ Hop _ _ Hl) in Hf.
    unfold isUntouched in Hun. rewrite Hf in Hun. by destruct (isRevealed (deref h0 l)).
Qed.

Lemma chordInv_mine f h0 h done ex pos l :
  wf h0 f → locAt f pos = Some l →
  isRevealed (deref h l) = false → isMine (deref h l) = true →
  chordInv f h0 h done ex →
  chordInv f h0 (modify (setIsRevealed true) h l) (done ++ [pos])
           (ex ++ [deref (modify (setIsRevealed true) h l) l]).
Proof.
  intros Hwf0 Hl Hnr Hm [Hop Hfl Hmi Hdo].
  pose proof (opens_wf _ _ _ Hwf0 Hop) as Hwf.
  pose proof (reveal_opens _ _ _ _ Hwf Hl) as Hop1.
  pose proof (locAt_lt _ _ Hwf _ _ Hl) as Hlt.
  destruct (op_core _ _ _ Hop _ _ Hl) as (_ & Hm0 & _). rewrite Hm in Hm0.
  split.
  - by eapply opens_trans.
  - intros q l1 Hq H1 H2 H3 q' l' Hr Hq'.
    assert (l1 ≠ l) as Hne by (intros ->; congruence).
    rewrite deref_modify_ne in H3 by done.
    destruct (Hfl _ _ Hq H1 H2 H3 _ _ Hr Hq') as [R F].
    assert (l' ≠ l) as Hne' by (intros ->; congruence).
    by rewrite deref_modify_ne.
  - intros q l1 Hq H1 H2 H3. destruct (decide (l1 = l)) as [->|Hne].
    + assert (q = pos) as -> by (by eapply locAt_inj).
      split; [rewrite elem_of_app; right; by apply list_elem_of_singleton|].
      rewrite elem_of_app. right. apply list_elem_of_singleton.
      rewrite deref_modify, decide_True by done.
      destruct (op_changed _ _ _ Hop _ _ Hl) as [->|?]; [done|congruence].
    + rewrite deref_modify_ne in H3 by done.
      destruct (Hmi _ _ Hq H1 H2 H3) as [? ?]. split; rewrite elem_of_app; by left.
  - intros q l1 [Hq|Heq%list_elem_of_singleton]%elem_of_app Hq' Hun.
    + eapply (op_revealed _ _ _ Hop1); [done|]. by eapply Hdo.
    + subst q. assert (l1 = l) as -> by congruence. by rewrite deref_modify, decide_True.
Qed.

Lemma chordInv_flood f h0 h h1 done ex pos l :
  wf h0 f → adjacencyOk h0 f → locAt f pos = Some l →
  isMine (deref h l) = false →
  opens f h h1 →
  (∀ q l, locAt f q = Some l →
      (reach h f pos q → deref h1 l = revealT (deref h l)) ∧
      (¬ reach h f pos q → deref h1 l = deref h l)) →
  chordInv f h0 h done ex → chordInv f h0 h1 (done ++ [pos]) ex.
Proof.
  intros Hwf0 Hadj0 Hl Hm Hop1 Hcells [Hop Hfl Hmi Hdo].
  pose proof (opens_wf _ _ _ Hwf0 Hop) as Hwf.
  pose proof (opens_adjacencyOk _ _ _ Hop Hadj0) as Hadj.
  assert (mineAt h f pos = false) as Hsafe.
  { unfold mineAt, cellAt. by rewrite Hl. }
  pose proof (locAt_inBounds _ _ Hwf _ _ Hl) as Hb.
  split.
  - by eapply opens_trans.
  - intros q l1 Hq H1 H2 H3 q' l' Hr Hq'.
    destruct (Hcells _ _ Hq') as [Hin Hout].
    destruct (reach_dec h f pos q' Hwf Hb) as [Hr'|Hr'].
    { by rewrite (Hin Hr'). }
    rewrite (Hout Hr').
    destruct (isRevealed (deref h l1)) eqn:Er; [exact (Hfl _ _ Hq H1 H2 Er _ _ Hr Hq')|]. exfalso.
    destruct (Hcells _ _ Hq) as [_ Hout1].
    assert (reach h f pos q) as Hrq.
    { destruct (reach_dec h f pos q Hwf Hb) as [?|Hn]; [done|].
      rewrite (Hout1 Hn) in H3. congruence. }
    apply (opens_reach _ _ _ Hop) in Hr. apply Hr'.
    destruct (isEmpty (deref h l1)) eqn:Ee.
    + eapply reach_trans; [exact Hrq| |done]. exists (deref h l1).
      unfold cellAt. by rewrite Hq.
    + assert (q' = q) as ->; [|done]. eapply reach_nonempty; [|done].
      intros (c & Hc & Hce). unfold cellAt in Hc. rewrite Hq in Hc.
      injection Hc as <-. congruence.
  - intros q l1 Hq H1 H2 H3. destruct (Hcells _ _ Hq) as [Hin Hout].
    assert (¬ reach h f pos q) as Hn.
    { intros Hr. pose proof (reach_safe _ _ Hadj _ _ Hsafe Hr) as Hs.
      unfold mineAt, cellAt in Hs. rewrite Hq in Hs. simpl in Hs.
      destruct (op_core _ _ _ Hop _ _ Hq) as (_ & Hm1 & _). congruence. }
    rewrite (Hout Hn) in H3. destruct (Hmi _ _ Hq H1 H2 H3) as [? ?].
    split; [|done]. rewrite elem_of_app. by left.
  - intros q l1 [Hq|Heq%list_elem_of_singleton]%elem_of_app Hq' Hun.
    + eapply (op_revealed _ _ _ Hop1); [done|]. by eapply Hdo.
    + subst q. assert (l1 = l) as -> by congruence.
      destruct (Hcells _ _ Hl) as [Hin _]. rewrite Hin; [done|constructor].
Qed.

(** The loop over the siblings: it finishes, and keeps the invariant. *)
Lemma chordLoop_spec fuel f h0 :
  wf h0 f → adjacencyOk h0 f → (enoughFuel (params f) ≤ fuel)%nat →
  ∀ siblings positions done acc h,
    Forall2 (fun q l => locAt f q = Some l) positions siblings →
    chordInv f h0 h done (explodedCells acc) →
    ∃ acc' h',
      chordLoop fuel f siblings acc h = Ok (acc', h') ∧
      chordInv f h0 h' (done ++ positions) (explodedCells acc') ∧
      handledCells acc' = handledCells acc.
Proof.
  intros Hwf0 Hadj0 Hfuel siblings.
  induction siblings as [|l siblings IH]; intros positions done acc h Hpos Hinv.
  - inversion Hpos; subst. exists acc, h. rewrite app_nil_r. by split_and!.
  - inversion Hpos as [|pos ? positions' ? Hl Hpos']; subst. simpl.
    pose proof (opens_wf _ _ _ Hwf0 (ci_opens _ _ _ _ _ Hinv)) as Hwf.
    replace (done ++ pos :: positions') with ((done ++ [pos]) ++ positions')
      by (by rewrite <- app_assoc).
    destruct (isFlagged (deref h l) || isRevealed (deref h l)) eqn:Eskip.
    { apply IH; [done|]. by eapply chordInv_skip. }
    apply orb_false_iff in Eskip as [Ef Er]. rewrite Ef. simpl.
    destruct (isMine (deref h l)) eqn:Em; simpl.
    + edestruct IH as (acc' & h' & E & Hinv' & Hh); [exact Hpos'| |].
      2:{ exists acc', h'. split; [exact E|]. split; [exact Hinv'|]. by rewrite Hh. }
      simpl. by apply chordInv_mine.
    + rewrite (locAt_position _ _ Hwf _ _ Hl).
      destruct (openArea_spec fuel h f pos Hwf (locAt_inBounds _ _ Hwf _ _ Hl) Hfuel)
        as (h1 & unf & rev & -> & Hop1 & Hcells). simpl.
      edestruct IH as (acc' & h' & E & Hinv' & Hh); [exact Hpos'| |].
      2:{ exists acc', h'. split; [exact E|]. split; [exact Hinv'|]. by rewrite Hh. }
      simpl. by eapply chordInv_flood.
Qed.

(** * The engine: the phases of [revealCell] *)

Lemma revealCell_phases fuel this pos h rng :
  revealCell fuel this pos h rng =
  let '(f1, h1) := cloneSelf h (field this) in
  '(st, f2, h2, rng2) ← firstClick fuel pos (status this) f1 h1 rng;
  target ← getCell f2 pos;
  '(changes, h3) ← mainAction fuel pos st f2 target h2;
  Ok (revealResult this f2 target changes h3, h3, rng2).
Proof.
  unfold revealCell, firstClick, mainAction, revealResult.
  destruct (cloneSelf h (field this)) as [f1 h1]. reflexivity.
Qed.

Lemma sameView_refl h f : sameView h f h f.
Proof. by split. Qed.

Lemma sameView_trans h1 f1 h2 f2 h3 f3 :
  sameView h1 f1 h2 f2 → sameView h2 f2 h3 f3 → sameView h1 f1 h3 f3.
Proof. intros [P1 C1] [P2 C2]. split; [congruence|]. intros q. by rewrite C2, C1. Qed.

Lemma sameView_sym h1 f1 h2 f2 : sameView h1 f1 h2 f2 → sameView h2 f2 h1 f1.
Proof. intros [P1 C1]. split; [done|]. intros q. by rewrite C1. Qed.

Lemma sameView_adjacencyOk h f h' f' :
  sameView h f h' f' → adjacencyOk h f → adjacencyOk h' f'.
Proof. intros [Hp Hc]. by apply adjacencyOk_ext. Qed.

Lemma sameView_mineAt h f h' f' q : sameView h f h' f' → mineAt h' f' q = mineAt h f q.
Proof. intros [_ Hc]. unfold mineAt. by rewrite Hc. Qed.

Lemma sameView_noMines h f h' f' : sameView h f h' f' → noMines h f → noMines h' f'.
Proof. intros Hv Hn q. rewrite (sameView_mineAt _ _ _ _ _ Hv). apply Hn. Qed.

Lemma sameView_emptyAt h f h' f' q : sameView h f h' f' → emptyAt h' f' q ↔ emptyAt h f q.
Proof. intros [_ Hc]. unfold emptyAt. by rewrite Hc. Qed.

Lemma sameView_reach h f h' f' o q :
  sameView h f h' f' → reach h' f' o q ↔ reach h f o q.
Proof.
  intros Hv. pose proof Hv as [Hp _].
  split; induction 1 as [|e q _ IH Hem Hs]; try constructor.
  - eapply reach_step; [exact IH | by apply (sameView_emptyAt _ _ _ _ _ Hv) |].
    by rewrite <- Hp.
  - eapply reach_step; [exact IH | by apply (sameView_emptyAt _ _ _ _ _ Hv) |].
    by rewrite Hp.
Qed.

Lemma sameView_inBounds h f h' f' q :
  sameView h f h' f' → inBounds (params f') q ↔ inBounds (params f) q.
Proof. intros [-> _]. done. Qed.

(** The loop of [placeMines] does nothing when no mine is asked for. *)
Lemma placeLoop_none fuel f avoidSet placed h rng :
  mines (params f) <= placed → placeLoop fuel f avoidSet placed h rng = Ok (h, rng).
Proof.
  intros H. destruct fuel; simpl; destruct (Z.ltb_spec placed (mines (params f))); done || lia.
Qed.

Lemma getCellData_inBounds h f pos :
  wf h f → inBounds (params f) pos →
  ∃ l, locAt f pos = Some l ∧ getCell f pos = Ok (Some l)
       ∧ getCellData h f pos = Ok (deref h l).
Proof.
  intros Hwf Hb. destruct (getCell_inBounds _ _ Hwf _ Hb) as (l & Hg & Hl).
  exists l. split_and!; try done. unfold getCellData. by rewrite Hg.
Qed.

Lemma find_unmined h f :
  match find (fun l => negb (isMine (deref h l))) (concat (grid f)) with
  | Some l => (∃ q, locAt f q = Some l) ∧ isMine (deref h l) = false
  | None => ∀ q l, locAt f q = Some l → isMine (deref h l) = true
  end.
Proof.
  destruct (find _ _) as [l|] eqn:E.
  - apply find_some in E as [Hin Hm]. split; [|by apply negb_true_iff].
    apply in_concat in Hin as (r & Hr & Hl). apply elem_of_grid.
    exists r. split; by apply list_elem_of_In.
  - intros q l Hl. pose proof (find_none _ _ E l) as Hn. simpl in Hn.
    apply negb_false_iff. apply Hn.
    destruct (proj2 (elem_of_grid f l)) as (r & Hr & Hlr); [eauto|].
    apply in_concat. exists r. split; by apply list_elem_of_In.
Qed.

(** ** Step 1: the first click *)

Lemma firstClick_spec fuel pos st f1 h1 rng :
  wf h1 f1 → adjacencyOk h1 f1 →
  (isMined f1 = false ↔ noMines h1 f1) →
  (noMines h1 f1 → mines (params f1) <= 0) →
  inBounds (params f1) pos →
  ∃ st2 f2 h2,
    firstClick fuel pos st f1 h1 rng = Ok (st2, f2, h2, rng) ∧
    params f2 = params f1 ∧ (∀ q, locAt f2 q = locAt f1 q) ∧
    wf h2 f2 ∧ adjacencyOk h2 f2 ∧ touchesOnly f1 h1 h2 ∧ sameMarks f1 h1 h2 ∧
    (st ≠ Idle → st2 = st ∧ h2 = h1) ∧
    (st = Idle →
       (mineAt h1 f1 pos = false → st2 = Playing ∧ h2 = h1) ∧
       (mineAt h1 f1 pos = true →
          (st2 = Lost ∧ h2 = h1 ∧ ∀ q, inBounds (params f1) q → mineAt h1 f1 q = true)
          ∨ (st2 = Playing ∧ ∃ to, inBounds (params f1) to ∧ mineAt h1 f1 to = false
                ∧ updates f1 (relocT (params f1) pos to) h1 h2))).
Proof.
  intros Hwf Hadj Hmined Hseed Hb. unfold firstClick.
  case_bool_decide as Hst.
  2:{ exists st, f1, h1.
      split_and!; try done; try apply touchesOnly_refl; try apply sameMarks_refl. }
  (* the field the rest of the step works on *)
  assert (∃ f2, (if negb (isMined f1) then placeMines fuel f1 h1 rng
                 else Ok (f1, h1, rng)) = Ok (f2, h1, rng)
                ∧ params f2 = params f1 ∧ (∀ q, locAt f2 q = locAt f1 q) ∧ wf h1 f2)
    as (f2 & -> & Hp & Hloc & Hwf2).
  { destruct (isMined f1) eqn:Em; simpl.
    - exists f1. by split_and!.
    - exists (setFieldMined true f1). unfold placeMines. rewrite Em.
      rewrite placeLoop_none; [|simpl; apply Hseed; by apply Hmined].
      split_and!; try done. by apply wf_setFieldMined. }
  simpl.
  assert (adjacencyOk h1 f2) as Hadj2.
  { eapply adjacencyOk_ext; [exact Hp| |exact Hadj]. intros q. unfold cellAt. by rewrite Hloc. }
  assert (∀ q, mineAt h1 f2 q = mineAt h1 f1 q) as Hmine.
  { intros q. unfold mineAt, cellAt. by rewrite Hloc. }
  rewrite <- Hp in Hb.
  destruct (getCellData_inBounds _ _ _ Hwf2 Hb) as (l & Hl & _ & ->). simpl.
  assert (mineAt h1 f1 pos = isMine (deref h1 l)) as Hmpos.
  { rewrite <- Hmine. unfold mineAt, cellAt. by rewrite Hl. }
  destruct (isMine (deref h1 l)) eqn:Em.
  - pose proof (find_unmined h1 f2) as Hfind.
    destruct (find _ _) as [u|].
    + destruct Hfind as [[to Hto] Hu].
      rewrite (locAt_position _ _ Hwf2 _ _ Hto).
      pose proof (locAt_inBounds _ _ Hwf2 _ _ Hto) as Hbto.
      assert (mineAt h1 f2 to = false) as Hnot.
      { unfold mineAt, cellAt. by rewrite Hto. }
      destruct (relocateMine_spec h1 f2 pos to Hwf2 Hadj2 Hb Hbto) as (h2 & -> & Hwf' & Hadj' & U).
      { by rewrite Hmine. }
      { done. }
      simpl. exists Playing, f2, h2.
      assert (updates f1 (relocT (params f1) pos to) h1 h2) as U1.
      { destruct U as [UL UC UO]. unfold relocT. rewrite <- Hp. split; [done| |].
        - intros q l' Hq. apply UC. by rewrite Hloc.
        - intros l' Hl'. apply UO. intros q. rewrite Hloc. apply Hl'. }
      split_and!; try done.
      * by eapply updates_touchesOnly.
      * intros q l' Hq. rewrite (upd_cell _ _ _ _ U1 _ _ Hq). unfold relocT.
        by rewrite !isRevealed_mineT, !isFlagged_mineT.
      * intros _. split; [intros; congruence|]. intros _. right. split; [done|].
        exists to. split_and!; [by rewrite <- Hp | by rewrite <- Hmine | done].
    + exists Lost, f2, h1.
      split_and!; try done; try apply touchesOnly_refl; try apply sameMarks_refl.
      intros _. split; [intros; congruence|]. intros _. left. split_and!; try done.
        intros q Hq. rewrite <- Hp in Hq.
        apply (locAt_is_Some _ _ Hwf2) in Hq as [l' Hl'].
        rewrite <- Hmine. unfold mineAt, cellAt. rewrite Hl'. simpl. by eapply Hfind.
  - exists Playing, f2, h1.
    split_and!; try done; try apply touchesOnly_refl; try apply sameMarks_refl.
    intros _. split; [done|]. intros; congruence.
Qed.

(** ** Step 2: the action *)

Lemma Forall2_filter_length {A B} (R : A → B → Prop) (P : A → Prop) (Q : B → Prop)
    `{∀ x, Decision (P x)} `{∀ y, Decision (Q y)} (l : list A) (k : list B) :
  Forall2 R l k → (∀ x y, R x y → (P x ↔ Q y)) →
  length (filter P l) = length (filter Q k).
Proof.
  intros HF HPQ. induction HF as [|x y l k HR _ IH]; [done|].
  rewrite !filter_cons. pose proof (HPQ _ _ HR).
  destruct (decide (P x)), (decide (Q y)); simpl; try lia; tauto.
Qed.

Lemma flaggedSiblings_locs h f pos :
  wf h f →
  length (filter (fun sib => isFlagged (deref h sib) = true) (siblingLocs f pos))
  = flaggedSiblings h f pos.
Proof.
  intros Hwf. unfold flaggedSiblings. symmetry.
  eapply Forall2_filter_length; [by apply (siblingLocs_fmap h)|].
  intros q l Hl. unfold flaggedAt, cellAt. by rewrite Hl.
Qed.

Lemma chordInv_init f h : chordInv f h h [] [].
Proof.
  split.
  - apply opens_refl.
  - intros; congruence.
  - intros; congruence.
  - intros q l Hq. by apply elem_of_nil in Hq.
Qed.

Lemma handleRevealedClick_spec fuel h f pos t :
  wf h f → adjacencyOk h f → locAt f pos = Some t → (enoughFuel (params f) ≤ fuel)%nat →
  ∃ changes h',
    handleRevealedClick fuel t f h = Ok (changes, h') ∧
    (Z.of_nat (flaggedSiblings h f pos) ≠ adjacentMines (deref h t) →
       changes = noChanges ∧ h' = h) ∧
    (Z.of_nat (flaggedSiblings h f pos) = adjacentMines (deref h t) →
       chordInv f h h' (siblingPositions (params f) pos) (explodedCells changes)).
Proof.
  intros Hwf Hadj Hl Hfuel. unfold handleRevealedClick.
  rewrite (locAt_position _ _ Hwf _ _ Hl), (getSiblings_wf _ _ Hwf). simpl.
  rewrite (flaggedSiblings_locs _ _ _ Hwf).
  destruct (Z.eqb_spec (Z.of_nat (flaggedSiblings h f pos)) (adjacentMines (deref h t)))
    as [E|E].
  - edestruct (chordLoop_spec fuel f h Hwf Hadj Hfuel (siblingLocs f pos)
                 (siblingPositions (params f) pos) [])
      as (acc' & h' & -> & Hinv & _).
    + by apply (siblingLocs_fmap h).
    + simpl. apply chordInv_init.
    + exists acc', h'. split; [done|]. split; [done|]. intros _. done.
  - exists noChanges, h. split; [done|]. split; [done|]. intros; congruence.
Qed.

Lemma mainAction_idle fuel pos st f target h :
  st ≠ Playing → mainAction fuel pos st f target h = Ok (noChanges, h).
Proof. intros Hst. unfold mainAction. by rewrite bool_decide_false. Qed.

Lemma mainAction_flagged fuel pos f t h :
  isFlagged (deref h t) = true →
  mainAction fuel pos Playing f (Some t) h = Ok (noChanges, h).
Proof. intros Hf. unfold mainAction. simpl. by rewrite Hf. Qed.

Lemma mainAction_mine fuel pos f t h :
  isFlagged (deref h t) = false → isMine (deref h t) = true →
  mainAction fuel pos Playing f (Some t) h =
  Ok ({| unflaggedCells := []; revealedCells := [];
         handledCells := [deref h t]; explodedCells := [deref h t] |},
      modify (setIsRevealed true) h t).
Proof. intros Hf Hm. unfold mainAction. simpl. by rewrite Hf, Hm. Qed.

Lemma mainAction_chord fuel pos f t h :
  isFlagged (deref h t) = false → isMine (deref h t) = false →
  isRevealed (deref h t) = true →
  mainAction fuel pos Playing f (Some t) h = handleRevealedClick fuel t f h.
Proof. intros Hf Hm Hr. unfold mainAction. simpl. by rewrite Hf, Hm, Hr. Qed.

Lemma mainAction_open fuel pos f t h :
  isFlagged (deref h t) = false → isMine (deref h t) = false →
  isRevealed (deref h t) = false →
  mainAction fuel pos Playing f (Some t) h =
  ('(h', unflagged, revealed) ← openArea fuel pos f h;
   Ok ({| unflaggedCells := unflagged; revealedCells := revealed;
          handledCells := [deref h t]; explodedCells := [] |}, h')).
Proof. intros Hf Hm Hr. unfold mainAction. simpl. by rewrite Hf, Hm, Hr. Qed.

(** In every case the action finishes and only opens cells. *)
Lemma mainAction_opens fuel pos st f t h :
  wf h f → adjacencyOk h f → locAt f pos = Some t → (enoughFuel (params f) ≤ fuel)%nat →
  ∃ changes h', mainAction fuel pos st f (Some t) h = Ok (changes, h') ∧ opens f h h'.
Proof.
  intros Hwf Hadj Hl Hfuel.
  destruct (decide (st = Playing)) as [->|Hst].
  2:{ rewrite mainAction_idle by done. do 2 eexists. split; [done|]. apply opens_refl. }
  destruct (isFlagged (deref h t)) eqn:Ef.
  { rewrite mainAction_flagged by done. do 2 eexists. split; [done|]. apply opens_refl. }
  destruct (isMine (deref h t)) eqn:Em.
  { rewrite mainAction_mine by done. do 2 eexists. split; [done|]. by eapply reveal_opens. }
  destruct (isRevealed (deref h t)) eqn:Er.
  - rewrite mainAction_chord by done.
    destruct (handleRevealedClick_spec fuel h f pos t Hwf Hadj Hl Hfuel)
      as (changes & h' & -> & Hne & Heq).
    exists changes, h'. split; [done|].
    destruct (decide (Z.of_nat (flaggedSiblings h f pos) = adjacentMines (deref h t)))
      as [E|E].
    + by destruct (Heq E) as [? _ _ _].
    + destruct (Hne E) as [_ ->]. apply opens_refl.
  - rewrite mainAction_open by done.
    destruct (openArea_spec fuel h f pos Hwf (locAt_inBounds _ _ Hwf _ _ Hl) Hfuel)
      as (h' & unf & rev & -> & Hop & _).
    simpl. do 2 eexists. split; [done|]. done.
Qed.

(** ** [revealCell], phase by phase *)

Lemma owned_locAt base f f' : (∀ q, locAt f' q = locAt f q) → owned base f → owned base f'.
Proof. intros Hl Ho q l. rewrite Hl. apply Ho. Qed.

Lemma touchesOnly_locAt f f' h h' :
  (∀ q, locAt f' q = locAt f q) → touchesOnly f h h' → touchesOnly f' h h'.
Proof. intros Hl [L O]. split; [done|]. intros l Hn. apply O. intros q. rewrite <- Hl. apply Hn. Qed.

Lemma revealCell_run fuel e pos h rng :
  engineOk h e → inBounds (params (field e)) pos →
  (enoughFuel (params (field e)) ≤ fuel)%nat →
  ∃ f1 h1 st2 f2 h2 t changes h3,
    revealRun fuel e pos h rng f1 h1 st2 f2 h2 t changes h3.
Proof.
  intros [Hwf Hadj Hpar Hseed] Hb Hfuel.
  destruct (cloneSelf h (field e)) as [f1 h1] eqn:Ec.
  destruct (cloneSelf_spec _ _ _ _ Hwf Ec) as (Hp1 & Hwf1 & Hfr1 & Hown & Hcell & Hmined).
  assert (sameView h (field e) h1 f1) as Hview by (by split).
  pose proof (sameView_adjacencyOk _ _ _ _ Hview Hadj) as Hadj1.
  assert (noMines h1 f1 → mines (params f1) <= 0) as Hseed1.
  { intros Hn. rewrite Hp1, <- Hpar. apply Hseed.
    by apply (sameView_noMines _ _ _ _ (sameView_sym _ _ _ _ Hview)). }
  rewrite <- Hp1 in Hb, Hfuel.
  destruct (firstClick_spec fuel pos (status e) f1 h1 rng Hwf1 Hadj1 Hmined Hseed1 Hb)
    as (st2 & f2 & h2 & Hfirst & Hp2 & Hloc & Hwf2 & Hadj2 & Ht & Hm & Hlater & Hidle).
  assert (inBounds (params f2) pos) as Hb2 by (by rewrite Hp2).
  destruct (getCell_inBounds _ _ Hwf2 _ Hb2) as (t & Hg & Hl).
  assert (enoughFuel (params f2) ≤ fuel)%nat as Hfuel2 by (by rewrite Hp2).
  destruct (mainAction_opens fuel pos st2 f2 t h2 Hwf2 Hadj2 Hl Hfuel2)
    as (changes & h3 & Hmain & Hop).
  exists f1, h1, st2, f2, h2, t, changes, h3. split; try done.
  - intros Hi. by apply Hidle.
  - intros Hi. by apply Hidle.
  - rewrite revealCell_phases, Ec. rewrite Hfirst. simpl. rewrite Hg. simpl.
    by rewrite Hmain.
Qed.

Section RevealRun.
Context {fuel e pos h rng f1 h1 st2 f2 h2 t changes h3}
        (Hok : engineOk h e)
        (Hrun : revealRun fuel e pos h rng f1 h1 st2 f2 h2 t changes h3).

Lemma run_owned2 : owned (length h) f2.
Proof using Hrun. eapply owned_locAt; [apply Hrun | apply Hrun]. Qed.

Lemma run_frame2 : frame h h2.
Proof using Hrun.
  eapply frame_touchesOnly; [apply Hrun | apply Hrun | apply Hrun].
Qed.

Lemma run_frame : frame h h3.
Proof using Hrun.
  eapply frame_touchesOnly; [apply run_owned2 | apply run_frame2 |].
  apply (op_touches _ _ _ (rr_opens _ _ _ _ _ _ _ _ _ _ _ _ _ Hrun)).
Qed.

Lemma run_wf : wf h3 f2.
Proof using Hrun. eapply opens_wf; apply Hrun. Qed.

Lemma run_adjacencyOk : adjacencyOk h3 f2.
Proof using Hrun. eapply opens_adjacencyOk; apply Hrun. Qed.

Lemma run_params : params f2 = params (field e).
Proof using Hrun.
  rewrite (rr_params _ _ _ _ _ _ _ _ _ _ _ _ _ Hrun).
  apply (rr_view _ _ _ _ _ _ _ _ _ _ _ _ _ Hrun).
Qed.

(** A mine of the original field is still somewhere after the first click. *)
Lemma run_keeps_a_mine : noMines h3 f2 → noMines h (field e).
Proof using Hrun.
  intros Hn.
  assert (noMines h2 f2) as Hn2.
  { intros q. rewrite <- (opens_mineAt _ _ _ (rr_opens _ _ _ _ _ _ _ _ _ _ _ _ _ Hrun)).
    apply Hn. }
  assert (noMines h1 f1) as Hn1.
  { intros q. destruct (mineAt h1 f1 q) eqn:Eq; [|done]. exfalso.
    assert (∀ q, mineAt h2 f1 q = false) as Hn2'.
    { intros q'. specialize (Hn2 q'). unfold mineAt, cellAt in *.
      by rewrite <- (rr_locAt _ _ _ _ _ _ _ _ _ _ _ _ _ Hrun). }
    destruct (decide (status e = Idle)) as [Hi|Hi].
    - destruct (mineAt h1 f1 pos) eqn:Ep.
      + destruct (rr_mined _ _ _ _ _ _ _ _ _ _ _ _ _ Hrun Hi Ep)
          as [(_ & -> & _)|(_ & to & Hto & Hnot & U)]; [congruence|].
        specialize (Hn2' to).
        rewrite (mineAt_updates _ _ _ _ _ U) in Hn2'.
        apply (cellAt_is_Some _ _ (rr_wf1 _ _ _ _ _ _ _ _ _ _ _ _ _ Hrun)) in Hto
          as [c Hc].
        rewrite Hc in Hn2'. unfold relocT in Hn2'.
        rewrite isMine_mineT, bool_decide_true in Hn2' by done. done.
      + destruct (rr_safe _ _ _ _ _ _ _ _ _ _ _ _ _ Hrun Hi Ep) as [_ ->]. congruence.
    - destruct (rr_later _ _ _ _ _ _ _ _ _ _ _ _ _ Hrun Hi) as [_ ->]. congruence. }
  eapply sameView_noMines; [|exact Hn1].
  apply sameView_sym, Hrun.
Qed.

(** The engine after the commit of the result, at once or later. *)
Lemma run_engineOk e' h4 :
  frame h3 h4 → gameParams e' = gameParams e →
  engineOk h4 (apply (revealResult e f2 (Some t) changes h3) e').
Proof using Hok Hrun.
  intros Hfr He.
  assert (sameView h3 f2 h4 f2) as Hv.
  { split; [done|]. intros q. apply frame_cellAt; [apply run_wf | done]. }
  split; simpl.
  - eapply frame_wf; [apply run_wf | done].
  - eapply sameView_adjacencyOk; [exact Hv | apply run_adjacencyOk].
  - rewrite He, run_params. apply Hok.
  - intros Hn. rewrite He. apply Hok. apply run_keeps_a_mine.
    eapply sameView_noMines; [|exact Hn]. by apply sameView_sym.
Qed.

(** The engine as it was: nothing of it has changed. *)
Lemma run_engineOk_live : engineOk h3 e.
Proof using Hok Hrun.
  destruct Hok as [Hwf Hadj Hpar Hseed]. pose proof run_frame as Hfr.
  assert (sameView h (field e) h3 (field e)) as Hv.
  { split; [done|]. intros q. by apply frame_cellAt. }
  split; [by eapply frame_wf | by eapply sameView_adjacencyOk | done |].
  intros Hn. apply Hseed. eapply sameView_noMines; [|exact Hn]. by apply sameView_sym.
Qed.
End RevealRun.

(** * [toggleFlag] and the constructor *)

Lemma updates_core_adjacencyOk f T h h' :
  (∀ q c, isMine (T q c) = isMine c ∧ adjacentMines (T q c) = adjacentMines c) →
  updates f T h h' → adjacencyOk h f → adjacencyOk h' f.
Proof.
  intros HT U Hadj q c' Hc'. rewrite (updates_cellAt _ _ _ _ _ U) in Hc'.
  destruct (cellAt h f q) as [c|] eqn:Ec; [|done]. injection Hc' as <-.
  destruct (HT q c) as [_ ->]. rewrite (Hadj _ _ Ec). unfold minedSiblings.
  do 2 f_equal. apply list_filter_iff. intros x.
  rewrite (mineAt_updates _ _ _ _ _ U). unfold mineAt.
  destruct (cellAt h f x) as [cx|]; [|done]. by destruct (HT x cx) as [-> _].
Qed.

Lemma flagT_core b pos q c :
  position (flagT b pos q c) = position c ∧ isMine (flagT b pos q c) = isMine c
  ∧ adjacentMines (flagT b pos q c) = adjacentMines c
  ∧ isRevealed (flagT b pos q c) = isRevealed c.
Proof. unfold flagT. by case_bool_decide. Qed.

Lemma toggleFlag_run e pos h :
  engineOk h e → inBounds (params (field e)) pos →
  ∃ f1 h1 t flagged unflagged h2, toggleRun e pos h f1 h1 t flagged unflagged h2.
Proof.
  intros [Hwf Hadj Hpar Hseed] Hb.
  destruct (cloneSelf h (field e)) as [f1 h1] eqn:Ec.
  destruct (cloneSelf_spec _ _ _ _ Hwf Ec) as (Hp1 & Hwf1 & Hfr1 & Hown & Hcell & Hmined).
  assert (sameView h (field e) h1 f1) as Hview by (by split).
  pose proof (sameView_adjacencyOk _ _ _ _ Hview Hadj) as Hadj1.
  rewrite <- Hp1 in Hb.
  destruct (getCell_inBounds _ _ Hwf1 _ Hb) as (t & Hg & Hl).
  assert (∀ b, updates f1 (flagT b pos) h1 (modify (setIsFlagged b) h1 t)) as Hupd.
  { intros b. by apply updates_modify. }
  assert (∀ flagged unflagged h2,
            (let '(flagged', unflagged', h') :=
               if bool_decide (status e = Playing) && negb (isRevealed (deref h1 t)) then
                 if isFlagged (deref h1 t) then
                   ([], [deref h1 t], modify (setIsFlagged false) h1 t)
                 else if 0 <? flagsRemaining e then
                   ([deref h1 t], [], modify (setIsFlagged true) h1 t)
                 else ([], [], h1)
               else ([], [], h1) in
             (flagged', unflagged', h')) = (flagged, unflagged, h2) →
            toggleFlag e pos h
            = Ok (toggleResult e f1 (deref h1 t) flagged unflagged h2, h2)) as Hres.
  { intros flagged unflagged h2 E. unfold toggleFlag. rewrite Ec, Hg. simpl.
    destruct (if bool_decide (status e = Playing) && negb (isRevealed (deref h1 t))
              then _ else _) as [[fl un] h'].
    by injection E as -> -> ->. }
  destruct (decide (status e = Playing)) as [Hst|Hst].
  - rewrite bool_decide_true in Hres by done. simpl in Hres.
    destruct (isRevealed (deref h1 t)) eqn:Er; simpl in Hres.
    { exists f1, h1, t, [], [], h1. split; try done; [|by apply Hres].
      right. right. split_and!; auto. }
    destruct (isFlagged (deref h1 t)) eqn:Ef.
    { exists f1, h1, t, [], [deref h1 t], (modify (setIsFlagged false) h1 t).
      split; try done; [|by apply Hres]. left. by split_and!. }
    destruct (Z.ltb_spec 0 (flagsRemaining e)).
    { exists f1, h1, t, [deref h1 t], [], (modify (setIsFlagged true) h1 t).
      split; try done; [|by apply Hres]. right. left. by split_and!. }
    exists f1, h1, t, [], [], h1. split; try done; [|by apply Hres].
    right. right. split_and!; auto.
  - rewrite bool_decide_false in Hres by done. simpl in Hres.
    exists f1, h1, t, [], [], h1. split; try done; [|by apply Hres].
    right. right. split_and!; auto.
Qed.

Section ToggleRun.
Context {e pos h f1 h1 t flagged unflagged h2}
        (Hok : engineOk h e)
        (Hrun : toggleRun e pos h f1 h1 t flagged unflagged h2).

Lemma toggle_updates : ∃ T, updates f1 T h1 h2 ∧
  ∀ q c, position (T q c) = position c ∧ isMine (T q c) = isMine c
         ∧ adjacentMines (T q c) = adjacentMines c ∧ isRevealed (T q c) = isRevealed c.
Proof using Hrun.
  destruct (tr_cases _ _ _ _ _ _ _ _ _ Hrun)
    as [(_ & _ & _ & _ & _ & _ & U)|[(_ & _ & _ & _ & _ & _ & _ & U)|(_ & _ & _ & ->)]].
  - exists (flagT false pos). split; [done|]. apply flagT_core.
  - exists (flagT true pos). split; [done|]. apply flagT_core.
  - exists (fun _ c => c). split; [apply updates_refl | done].
Qed.

Lemma toggle_wf : wf h2 f1.
Proof using Hrun.
  destruct toggle_updates as (T & U & HT).
  eapply updates_wf; [|apply Hrun|exact U]. intros q c. by destruct (HT q c).
Qed.

Lemma toggle_adjacencyOk : adjacencyOk h2 f1.
Proof using Hrun.
  destruct toggle_updates as (T & U & HT).
  eapply updates_core_adjacencyOk; [|exact U|apply Hrun].
  intros q c. by destruct (HT q c) as (_ & ? & ? & _).
Qed.

Lemma toggle_frame : frame h h2.
Proof using Hrun.
  destruct toggle_updates as (T & U & _).
  eapply frame_updates; [apply Hrun | apply Hrun | exact U].
Qed.

Lemma toggle_mineAt q : mineAt h2 f1 q = mineAt h (field e) q.
Proof using Hrun.
  destruct toggle_updates as (T & U & HT).
  rewrite (mineAt_updates _ _ _ _ _ U).
  rewrite <- (sameView_mineAt _ _ _ _ q (tr_view _ _ _ _ _ _ _ _ _ Hrun)).
  unfold mineAt. destruct (cellAt h1 f1 q) as [c|]; [|done].
  by destruct (HT q c) as (_ & ? & _).
Qed.

Lemma toggle_engineOk e' h4 :
  frame h2 h4 → gameParams e' = gameParams e →
  engineOk h4 (apply (toggleResult e f1 (deref h1 t) flagged unflagged h2) e').
Proof using Hok Hrun.
  intros Hfr He.
  assert (sameView h2 f1 h4 f1) as Hv.
  { split; [done|]. intros q. apply frame_cellAt; [apply toggle_wf | done]. }
  split; simpl.
  - eapply frame_wf; [apply toggle_wf | done].
  - eapply sameView_adjacencyOk; [exact Hv | apply toggle_adjacencyOk].
  - rewrite He. destruct (tr_view _ _ _ _ _ _ _ _ _ Hrun) as [-> _]. apply Hok.
  - intros Hn. rewrite He. apply Hok. intros q. rewrite <- toggle_mineAt.
    rewrite <- (sameView_mineAt _ _ _ _ q Hv). apply Hn.
Qed.

Lemma toggle_engineOk_live : engineOk h2 e.
Proof using Hok Hrun.
  destruct Hok as [Hwf Hadj Hpar Hseed]. pose proof toggle_frame as Hfr.
  assert (sameView h (field e) h2 (field e)) as Hv.
  { split; [done|]. intros q. by apply frame_cellAt. }
  split; [by eapply frame_wf | by eapply sameView_adjacencyOk | done |].
  intros Hn. apply Hseed. eapply sameView_noMines; [|exact Hn]. by apply sameView_sym.
Qed.
End ToggleRun.

(** ** The constructor *)

Lemma minesAre_noMines h f keys : minesAre h f keys → noMines h f → keys = [].
Proof.
  intros [Hnd Hin Hm] Hn. destruct keys as [|k keys]; [done|]. exfalso.
  assert (k ∈ k :: keys) as Hk by (rewrite elem_of_cons; by left).
  pose proof (Hin _ Hk) as Hb.
  assert (createKey (parseKey k) = k) as E by (by destruct k).
  assert (mineAt h f (parseKey k) = true) as Hmk.
  { apply (Hm _ Hb). by rewrite E. }
  by rewrite Hn in Hmk.
Qed.

Lemma newGameEngine_fresh fuel p h rng e h' rng' :
  newGameEngine fuel {| cfg_params := p; cfg_data := None |} h rng = Ok (e, h', rng') →
  engineOk h' e ∧ status e = Idle ∧ gameParams e = p ∧ flagsRemaining e = mines p ∧
  frame h h' ∧ owned (length h) (field e) ∧
  (∀ q c, cellAt h' (field e) q = Some c → isRevealed c = false ∧ isFlagged c = false) ∧
  ∃ keys, minesAre h' (field e) keys ∧ Z.of_nat (length keys) = Z.max 0 (mines p).
Proof.
  unfold newGameEngine, createField. simpl.
  destruct (newField p None h) as [f0 h0] eqn:En.
  destruct (newField_fresh _ _ _ _ En) as (Hp & Hwf & Hfr & Hown & Hcell & Hm & Hno & Hadj).
  intros H. apply bind_Ok in H as ([[f h1] rng1] & Hplace & [= <- <- <-]).
  destruct (placeMines_spec _ _ _ _ _ _ _ Hwf Hadj Hno Hplace)
    as (Hg & Hp' & Hwf' & Hadj' & Hmarks & Ht & keys & Hkeys & Hlen).
  assert (∀ q, locAt f q = locAt f0 q) as Hloc.
  { intros q. unfold locAt. by rewrite Hg. }
  simpl. split_and!; try done.
  - split; simpl; [done|done|congruence|].
    intros Hn. rewrite (minesAre_noMines _ _ _ Hkeys Hn) in Hlen.
    specialize (Hlen Hm). simpl in Hlen. rewrite Hp in Hlen. lia.
  - eapply frame_touchesOnly; [exact Hown|exact Hfr|exact Ht].
  - eapply owned_locAt; [exact Hloc|exact Hown].
  - intros q c. unfold cellAt. rewrite Hloc.
    destruct (locAt f0 q) as [l|] eqn:El; [|done]. simpl. intros [= <-].
    destruct (Hmarks _ _ El) as [-> ->].
    assert (inBounds p q) as Hb by (rewrite <- Hp; by eapply locAt_inBounds).
    specialize (Hcell _ Hb). unfold cellAt in Hcell. rewrite El in Hcell.
    simpl in Hcell. by injection Hcell as ->.
  - exists keys. split; [done|]. rewrite <- Hp. by apply Hlen.
Qed.

(** * Reachable states *)

Lemma revealCell_result fuel e pos h rng res h' rng' :
  engineOk h e → inBounds (gameParams e) pos → (enoughFuel (gameParams e) ≤ fuel)%nat →
  revealCell fuel e pos h rng = Ok (res, h', rng') →
  ∃ f1 h1 st2 f2 h2 t changes,
    revealRun fuel e pos h rng f1 h1 st2 f2 h2 t changes h'
    ∧ res = revealResult e f2 (Some t) changes h' ∧ rng' = rng.
Proof.
  intros Hok Hb Hfuel Hres. rewrite (eo_params _ _ Hok) in Hb, Hfuel.
  destruct (revealCell_run fuel e pos h rng Hok Hb Hfuel)
    as (f1 & h1 & st2 & f2 & h2 & t & changes & h3 & Hrun).
  pose proof (rr_result _ _ _ _ _ _ _ _ _ _ _ _ _ Hrun) as E.
  rewrite Hres in E. injection E as -> -> ->.
  exists f1, h1, st2, f2, h2, t, changes. by split_and!.
Qed.

Lemma toggleFlag_result e pos h res h' :
  engineOk h e → inBounds (gameParams e) pos →
  toggleFlag e pos h = Ok (res, h') →
  ∃ f1 h1 t flagged unflagged,
    toggleRun e pos h f1 h1 t flagged unflagged h'
    ∧ res = toggleResult e f1 (deref h1 t) flagged unflagged h'.
Proof.
  intros Hok Hb Hres. rewrite (eo_params _ _ Hok) in Hb.
  destruct (toggleFlag_run e pos h Hok Hb) as (f1 & h1 & t & fl & un & h2 & Hrun).
  pose proof (tr_result _ _ _ _ _ _ _ _ _ Hrun) as E.
  rewrite Hres in E. injection E as -> ->.
  exists f1, h1, t, fl, un. by split.
Qed.

Lemma reachable_engineOk e h : reachable e h → engineOk h e.
Proof.
  induction 1 as [fuel p h rng e h' rng' Hnew
                 |fuel e pos h rng res h' rng' _ IH Hb Hfuel Hres
                 |e pos h res h' _ IH Hb Hres
                 |fuel e0 pos h0 rng res h0' rng' e h _ IH0 Hb Hfuel Hres _ IH Hfr Hpar
                 |e0 pos h0 res h0' e h _ IH0 Hb Hres _ IH Hfr Hpar].
  - by apply newGameEngine_fresh in Hnew as (? & _).
  - destruct (revealCell_result _ _ _ _ _ _ _ _ IH Hb Hfuel Hres)
      as (f1 & h1 & st2 & f2 & h2 & t & changes & Hrun & _ & _).
    by eapply run_engineOk_live.
  - destruct (toggleFlag_result _ _ _ _ _ IH Hb Hres)
      as (f1 & h1 & t & fl & un & Hrun & _).
    by eapply toggle_engineOk_live.
  - destruct (revealCell_result _ _ _ _ _ _ _ _ IH0 Hb Hfuel Hres)
      as (f1 & h1 & st2 & f2 & h2 & t & changes & Hrun & -> & _).
    by eapply run_engineOk.
  - destruct (toggleFlag_result _ _ _ _ _ IH0 Hb Hres)
      as (f1 & h1 & t & fl & un & Hrun & ->).
    by eapply toggle_engineOk.
Qed.

(** * Games restored from data *)

(** The numbers of a field that shows the cells of a description are right
    exactly when the numbers of the description are. *)
Lemma adjacencyOk_data p data h f :
  params f = p → (∀ pos, cellAt h f pos = dataAt data pos) →
  adjacencyOk h f ↔ countsOk p data.
Proof.
  intros Hp Hcell.
  assert (∀ pos, minedSiblings h f pos
                 = length (filter (fun q => dataMine data q = true)
                                  (siblingPositions p pos))) as Hcount.
  { intros pos. unfold minedSiblings. rewrite Hp. f_equal.
    apply list_filter_iff. intros q. unfold mineAt, dataMine. by rewrite Hcell. }
  unfold adjacencyOk, countsOk. split.
  - intros H pos c Hc. rewrite <- Hcount. apply H. by rewrite Hcell.
  - intros H pos c Hc. rewrite Hcount. apply H. by rewrite <- Hcell.
Qed.

(** The engine built from a description that fits the parameters and whose
    numbers are right. *)
Lemma newGameEngine_restored fuel p data h rng e h' rng' :
  wfData p data → countsOk p data →
  newGameEngine fuel {| cfg_params := p; cfg_data := Some data |} h rng = Ok (e, h', rng') →
  engineOk h' e.
Proof.
  intros Hd Hcounts. unfold newGameEngine, createField. simpl.
  destruct (newField p (Some data) h) as [f0 h0] eqn:En.
  destruct (newField_spec _ _ _ _ _ Hd En) as (Hp & Hwf & Hfr & Hown & Hcell & Hm).
  pose proof (proj2 (adjacencyOk_data p data h0 f0 Hp Hcell) Hcounts) as Hadj.
  intros H. apply bind_Ok in H as ([[f h1] rng1] & Hplace & [= <- <- <-]).
  destruct (isMined f0) eqn:Emined.
  - unfold placeMines in Hplace. rewrite Emined in Hplace. injection Hplace as <- <- <-.
    split; simpl; [done|done|congruence|].
    intros Hn. apply Hm in Hn. congruence.
  - assert (noMines h0 f0) as Hno by (by apply Hm).
    destruct (placeMines_spec _ _ _ _ _ _ _ Hwf Hadj Hno Hplace)
      as (Hg & Hp' & Hwf' & Hadj' & Hmarks & Ht & keys & Hkeys & Hlen).
    split; simpl; [done|done|congruence|].
    intros Hn. rewrite (minesAre_noMines _ _ _ Hkeys Hn) in Hlen.
    specialize (Hlen Emined). simpl in Hlen. rewrite Hp in Hlen. lia.
Qed.

Lemma newGameEngine_ok fuel config h rng e h' rng' :
  configOk config →
  newGameEngine fuel config h rng = Ok (e, h', rng') → engineOk h' e.
Proof.
  destruct config as [p [data|]]; unfold configOk; simpl.
  - intros [Hd Hc]. by apply newGameEngine_restored.
  - intros _ Hnew. by apply newGameEngine_fresh in Hnew as (? & _).
Qed.

Lemma reachableFrom_engineOk config e h :
  configOk config → reachableFrom config e h → engineOk h e.
Proof.
  intros Hcfg.
  induction 1 as [fuel h rng e h' rng' Hnew
                 |fuel e pos h rng res h' rng' _ IH Hb Hfuel Hres
                 |e pos h res h' _ IH Hb Hres
                 |fuel e0 pos h0 rng res h0' rng' e h _ IH0 Hb Hfuel Hres _ IH Hfr Hpar
                 |e0 pos h0 res h0' e h _ IH0 Hb Hres _ IH Hfr Hpar].
  - by eapply newGameEngine_ok.
  - destruct (revealCell_result _ _ _ _ _ _ _ _ IH Hb Hfuel Hres)
      as (f1 & h1 & st2 & f2 & h2 & t & changes & Hrun & _ & _).
    by eapply run_engineOk_live.
  - destruct (toggleFlag_result _ _ _ _ _ IH Hb Hres)
      as (f1 & h1 & t & fl & un & Hrun & _).
    by eapply toggle_engineOk_live.
  - destruct (revealCell_result _ _ _ _ _ _ _ _ IH0 Hb Hfuel Hres)
      as (f1 & h1 & st2 & f2 & h2 & t & changes & Hrun & -> & _).
    by eapply run_engineOk.
  - destruct (toggleFlag_result _ _ _ _ _ IH0 Hb Hres)
      as (f1 & h1 & t & fl & un & Hrun & ->).
    by eapply toggle_engineOk.
Qed.

(** The states of a game built without data are the reachable states. *)
Lemma reachable_reachableFrom e h :
  reachable e h ↔ ∃ p, reachableFrom {| cfg_params := p; cfg_data := None |} e h.
Proof.
  assert (∀ p, configOk {| cfg_params := p; cfg_data := None |}) as Hcfg by done.
  assert (∀ p e h, reachableFrom {| cfg_params := p; cfg_data := None |} e h →
                   gameParams e = p) as Hpar.
  { intros p e0 h0 Hr.
    induction Hr as [fuel h1 rng e1 h' rng' Hnew
                    | |
                    |fuel e0 pos h0 rng res h0' rng' e1 h1 Hr0 IH0 Hb Hfuel Hres _ IH Hfr Hp
                    |e0 pos h0 res h0' e1 h1 Hr0 IH0 Hb Hres _ IH Hfr Hp]; try done.
    - by apply newGameEngine_fresh in Hnew as (_ & _ & ? & _).
    - pose proof (reachableFrom_engineOk _ _ _ (Hcfg p) Hr0) as Hok0.
      destruct (revealCell_result _ _ _ _ _ _ _ _ Hok0 Hb Hfuel Hres)
        as (f1 & h2 & st2 & f2 & h3 & t & changes & Hrun & -> & _).
      exact IH.
    - pose proof (reachableFrom_engineOk _ _ _ (Hcfg p) Hr0) as Hok0.
      destruct (toggleFlag_result _ _ _ _ _ Hok0 Hb Hres)
        as (f1 & h2 & t & fl & un & Hrun & ->).
      exact IH. }
  split.
  - induction 1 as [fuel p h rng e h' rng' Hnew
                   |fuel e pos h rng res h' rng' _ [p IH] Hb Hfuel Hres
                   |e pos h res h' _ [p IH] Hb Hres
                   |fuel e0 pos h0 rng res h0' rng' e h _ [p0 IH0] Hb Hfuel Hres _ [p IH] Hfr Hp
                   |e0 pos h0 res h0' e h _ [p0 IH0] Hb Hres _ [p IH] Hfr Hp].
    + exists p. by eapply from_new.
    + exists p. exact (from_reveal _ fuel e pos h rng res h' rng' IH Hb Hfuel Hres).
    + exists p. exact (from_toggle _ e pos h res h' IH Hb Hres).
    + assert (p = p0) as -> by (rewrite <- (Hpar _ _ _ IH), <- (Hpar _ _ _ IH0); done).
      exists p0.
      exact (from_apply_reveal _ fuel e0 pos h0 rng res h0' rng' e h IH0 Hb Hfuel Hres IH Hfr Hp).
    + assert (p = p0) as -> by (rewrite <- (Hpar _ _ _ IH), <- (Hpar _ _ _ IH0); done).
      exists p0.
      exact (from_apply_toggle _ e0 pos h0 res h0' e h IH0 Hb Hres IH Hfr Hp).
  - intros [p Hr].
    induction Hr as [fuel h1 rng e1 h' rng' Hnew
                    |fuel e1 pos h1 rng res h' rng' _ IH Hb Hfuel Hres
                    |e1 pos h1 res h' _ IH Hb Hres
                    |fuel e0 pos h0 rng res h0' rng' e1 h1 _ IH0 Hb Hfuel Hres _ IH Hfr Hp
                    |e0 pos h0 res h0' e1 h1 _ IH0 Hb Hres _ IH Hfr Hp].
    + exact (reachable_new fuel p h1 rng e1 h' rng' Hnew).
    + exact (reachable_reveal fuel e1 pos h1 rng res h' rng' IH Hb Hfuel Hres).
    + exact (reachable_toggle e1 pos h1 res h' IH Hb Hres).
    + exact (reachable_apply_reveal fuel e0 pos h0 rng res h0' rng' e1 h1
               IH0 Hb Hfuel Hres IH Hfr Hp).
    + exact (reachable_apply_toggle e0 pos h0 res h0' e1 h1 IH0 Hb Hres IH Hfr Hp).
Qed.

(** The moves of a client that commits every result at once lead through
    states of the game. *)
Lemma play_reachableFrom config fuel moves :
  configOk config →
  ∀ e h rng e' h' rng',
    reachableFrom config e h →
    Forall (fun m => inBounds (gameParams e) (movePos m)) moves →
    (enoughFuel (gameParams e) ≤ fuel)%nat →
    play fuel moves e h rng = Ok (e', h', rng') →
    reachableFrom config e' h'.
Proof.
  intros Hcfg. induction moves as [|m moves IH]; intros e h rng e' h' rng' Hr Hall Hfuel Hplay.
  - simpl in Hplay. by injection Hplay as <- <- <-.
  - pose proof (reachableFrom_engineOk _ _ _ Hcfg Hr) as Hok.
    apply Forall_cons in Hall as [Hb Hall]. destruct m as [pos|pos]; simpl in Hplay, Hb.
    + apply bind_Ok in Hplay as ([[res h1] rng1] & Hres & Hplay).
      destruct (revealCell_result _ _ _ _ _ _ _ _ Hok Hb Hfuel Hres)
        as (f1 & h0 & st2 & f2 & h2 & t & changes & Hrun & Eres & _).
      assert (gameParams (apply res e) = gameParams e) as Hp by (by subst res).
      apply (IH (apply res e) h1 rng1 e' h' rng'); [|by rewrite Hp|by rewrite Hp|done].
      apply (from_apply_reveal _ fuel e pos h rng res h1 rng1 e h1); try done.
      by eapply from_reveal.
    + apply bind_Ok in Hplay as ([res h1] & Hres & Hplay).
      destruct (toggleFlag_result _ _ _ _ _ Hok Hb Hres)
        as (f1 & h0 & t & fl & un & Hrun & Eres).
      assert (gameParams (apply res e) = gameParams e) as Hp by (by subst res).
      apply (IH (apply res e) h1 rng e' h' rng'); [|by rewrite Hp|by rewrite Hp|done].
      apply (from_apply_toggle _ e pos h res h1 e h1); try done.
      by eapply from_toggle.
Qed.

Lemma stateAfter_reachableFrom config moves r :
  configOk config →
  Forall (fun m => inBounds (cfg_params config) (movePos m)) moves →
  (enoughFuel (cfg_params config) ≤ 100)%nat →
  ('(e, h, rng) ← newGameEngine 1 config [] demoRng; play 100 moves e h rng) = Ok r →
  reachableFrom config (stateAfter config moves).1 (stateAfter config moves).2.
Proof.
  intros Hcfg Hall Hfuel Hrun. unfold stateAfter. rewrite Hrun.
  destruct r as [[e' h'] rng']. simpl.
  apply bind_Ok in Hrun as ([[e h] rng] & Hnew & Hplay).
  assert (gameParams e = cfg_params config) as Hp.
  { unfold newGameEngine in Hnew. apply bind_Ok in Hnew as ([[f h1] rng1] & _ & Hnew).
    by injection Hnew as <- _ _. }
  apply (play_reachableFrom config 100 moves Hcfg e h rng e' h' rng'); try done.
  - by eapply from_new.
  - by rewrite Hp.
  - by rewrite Hp.
Qed.

(** * Snapshots, counting and checking *)

Lemma elem_of_getData h f c :
  c ∈ concat (getData h f) ↔ ∃ q, cellAt h f q = Some c.
Proof.
  unfold getData. rewrite list_elem_of_In, in_concat. split.
  - intros (r & (r' & <- & Hr')%in_map_iff & (l & <- & Hl)%in_map_iff).
    destruct (proj1 (elem_of_grid f l)) as [q Hq].
    { exists r'. split; by apply list_elem_of_In. }
    exists q. unfold cellAt. by rewrite Hq.
  - intros (q & Hq). unfold cellAt in Hq.
    destruct (locAt f q) as [l|] eqn:El; [|done]. injection Hq as <-.
    destruct (proj2 (elem_of_grid f l)) as (r & Hr & Hl); [eauto|].
    exists (map (deref h) r). split.
    + apply in_map_iff. exists r. split; [done | by apply list_elem_of_In].
    + apply in_map_iff. exists l. split; [done | by apply list_elem_of_In].
Qed.

Lemma filter_nil_iff {A} (P : A → Prop) `{∀ x, Decision (P x)} (l : list A) :
  filter P l = [] ↔ ∀ x, x ∈ l → ¬ P x.
Proof.
  split.
  - intros E x Hx HP. by apply (filter_nil_not_elem_of P l x).
  - apply filter_none.
Qed.

Lemma explodedCells_nil h f :
  FieldState.explodedCells (getState h f) = [] ↔ noExploded h f.
Proof.
  unfold getState, noExploded. simpl. rewrite filter_nil_iff. split.
  - intros H q c Hc. destruct (isExploded c) eqn:E; [|done].
    exfalso. apply (H c); [|done]. apply elem_of_getData. eauto.
  - intros H c [q Hq]%elem_of_getData. by rewrite (H _ _ Hq).
Qed.

Lemma determineStatus_Lost p st :
  determineStatus p st = Lost ↔ FieldState.explodedCells st ≠ [].
Proof.
  unfold determineStatus. destruct (FieldState.explodedCells st) as [|c l]; simpl.
  - split; [|done]. by destruct (_ =? _).
  - split; done.
Qed.

(** ** The positions of the grid are pairwise distinct *)

Lemma NoDup_allPositions p : NoDup (allPositions p).
Proof.
  unfold allPositions, createGrid.
  set (g := fun r : nat =>
              map (fun c : nat => id {| row := Z.of_nat r; col := Z.of_nat c |})
                  (seq 0 (cols p))).
  generalize 0%nat as a.
  induction (rows p) as [|n IH]; intros a; simpl; [constructor|].
  apply NoDup_app. split_and!.
  - unfold g. change (map ?k ?l) with (k <$> l).
    apply NoDup_fmap_2_strong; [|apply NoDup_seq].
    intros x y _ _ [=]. lia.
  - intros q (c & <- & _)%list_elem_of_In%in_map_iff
             (r & (i & <- & Hi%in_seq)%in_map_iff & (c' & E & _)%in_map_iff)%list_elem_of_In%in_concat.
    unfold id in E. injection E as E1 E2. lia.
  - apply IH.
Qed.

(** With fewer mines than cells some cell is not a mine. *)
Lemma some_cell_unmined h f keys :
  wf h f → minesAre h f keys → (length keys < rows (params f) * cols (params f))%nat →
  ∃ q, inBounds (params f) q ∧ mineAt h f q = false.
Proof.
  intros Hwf [Hnd Hin Hm] Hlt.
  destruct (decide (Forall (fun q => mineAt h f q = true) (allPositions (params f))))
    as [Hall|Hnot].
  - exfalso. rewrite Forall_forall in Hall.
    assert (createKey <$> allPositions (params f) ⊆+ keys) as Hsub.
    { apply NoDup_submseteq.
      - apply NoDup_fmap_2_strong; [|apply NoDup_allPositions].
        intros x y _ _. apply createKey_inj.
      - intros k (q & -> & Hq)%list_elem_of_fmap.
        apply (proj1 (Hm q (proj1 (elem_of_allPositions _ _) Hq))). by apply Hall. }
    apply submseteq_length in Hsub. rewrite length_fmap, length_allPositions in Hsub. lia.
  - apply not_Forall_Exists in Hnot; [|apply _].
    apply Exists_exists in Hnot as (q & Hq & Hnm).
    exists q. split; [by apply elem_of_allPositions|].
    destruct (mineAt h f q) eqn:E; [|done]. exfalso. by apply Hnm.
Qed.

(** ** The boolean checks are sound *)

Lemma wfb_sound h f : wfb h f = true → wf h f.
Proof.
  unfold wfb. rewrite !andb_true_iff, !forallb_forall.
  intros [[Hr%bool_decide_eq_true Hc] Hcell].
  assert (∀ r, r ∈ grid f → length r = cols (params f)) as Hc'.
  { intros r Hr'. apply list_elem_of_In in Hr'. by apply Hc, bool_decide_eq_true in Hr'. }
  split; [done|done|].
  intros pos l Hl.
  assert (inBounds (params f) pos) as Hb.
  { apply locAt_Some in Hl as (r & H1 & H2).
    assert (is_Some (nthZ (grid f) (row pos))) as H1' by eauto.
    assert (is_Some (nthZ r (col pos))) as H2' by eauto.
    apply nthZ_is_Some in H1', H2'.
    apply nthZ_Some in H1 as [_ H1]. apply list_elem_of_lookup_2 in H1.
    rewrite (Hc' _ H1) in H2'. rewrite Hr in H1'. split; lia. }
  apply elem_of_allPositions, list_elem_of_In, Hcell in Hb. rewrite Hl in Hb.
  apply andb_true_iff in Hb as [H1%bool_decide_eq_true H2%bool_decide_eq_true]. done.
Qed.

Lemma adjacencyOkb_sound h f : wf h f → adjacencyOkb h f = true → adjacencyOk h f.
Proof.
  unfold adjacencyOkb. rewrite forallb_forall. intros Hwf H pos c Hc.
  assert (inBounds (params f) pos) as Hb by (apply (cellAt_is_Some _ _ Hwf); eauto).
  apply elem_of_allPositions, list_elem_of_In, H in Hb. rewrite Hc in Hb. by apply Z.eqb_eq.
Qed.

Lemma wfDatab_sound p data : wfDatab p data = true → wfData p data.
Proof.
  unfold wfDatab. rewrite !andb_true_iff, !forallb_forall.
  intros [[Hr%bool_decide_eq_true Hc] Hcell].
  assert (∀ r, r ∈ data → length r = cols p) as Hc'.
  { intros r Hr'. apply list_elem_of_In in Hr'. by apply Hc, bool_decide_eq_true in Hr'. }
  split; [done|done|].
  intros pos c Hd.
  assert (inBounds p pos) as Hb.
  { apply dataAt_Some in Hd as (H0 & H1 & rw & H2 & H3).
    pose proof (lookup_lt_Some _ _ _ H2) as L2. pose proof (lookup_lt_Some _ _ _ H3) as L3.
    apply list_elem_of_lookup_2 in H2. rewrite (Hc' _ H2) in L3. rewrite Hr in L2.
    split; lia. }
  apply elem_of_allPositions, list_elem_of_In, Hcell in Hb. rewrite Hd in Hb.
  by apply bool_decide_eq_true in Hb.
Qed.

Lemma countsOkb_sound p data : wfData p data → countsOkb p data = true → countsOk p data.
Proof.
  unfold countsOkb. rewrite forallb_forall. intros Hwf H pos c Hd.
  assert (inBounds p pos) as Hb.
  { destruct Hwf as [Hr Hc _].
    apply dataAt_Some in Hd as (H0 & H1 & rw & H2 & H3).
    pose proof (lookup_lt_Some _ _ _ H2) as L2. pose proof (lookup_lt_Some _ _ _ H3) as L3.
    apply list_elem_of_lookup_2 in H2. rewrite (Hc _ H2) in L3. rewrite Hr in L2.
    split; lia. }
  apply elem_of_allPositions, list_elem_of_In, H in Hb. rewrite Hd in Hb. by apply Z.eqb_eq.
Qed.

Lemma configOkb_sound config : configOkb config = true → configOk config.
Proof.
  unfold configOkb, configOk. destruct (cfg_data config) as [data|]; [|done].
  intros [Hwf%wfDatab_sound Hc]%andb_true_iff. split; [done|]. by apply countsOkb_sound.
Qed.

Lemma engineOkb_sound h e : engineOkb h e = true → engineOk h e.
Proof.
  unfold engineOkb. rewrite !andb_true_iff.
  intros [[[Hwf%wfb_sound Hadj] Hp%bool_decide_eq_true] Hseed].
  split; [done | by apply adjacencyOkb_sound | done |].
  intros Hn. apply orb_true_iff in Hseed as [Hex|Hle]; [|by apply Z.leb_le].
  apply existsb_exists in Hex as (q & _ & Hq). by rewrite Hn in Hq.
Qed.

(** * First-move safety *)

Lemma isMine_relocT p from to q c :
  isMine (relocT p from to q c)
  = if bool_decide (q = to) then true else if bool_decide (q = from) then false else isMine c.
Proof. unfold relocT. by rewrite !isMine_mineT. Qed.

Lemma mineAt_locAt h f f' q : (∀ q, locAt f' q = locAt f q) → mineAt h f' q = mineAt h f q.
Proof. intros Hl. unfold mineAt, cellAt. by rewrite Hl. Qed.

Lemma cellAt_locAt h f f' q : (∀ q, locAt f' q = locAt f q) → cellAt h f' q = cellAt h f q.
Proof. intros Hl. unfold cellAt. by rewrite Hl. Qed.

(** Opening the area of a safe, closed cell reveals no mine. *)
Lemma openArea_noExploded fuel h f pos h' unflagged revealed :
  wf h f → adjacencyOk h f → inBounds (params f) pos →
  (enoughFuel (params f) ≤ fuel)%nat →
  mineAt h f pos = false → noExploded h f →
  openArea fuel pos f h = Ok (h', unflagged, revealed) →
  noExploded h' f ∧ revealedAt h' f pos = true.
Proof.
  intros Hwf Hadj Hb Hfuel Hsafe Hno Hopen.
  destruct (openArea_spec fuel h f pos Hwf Hb Hfuel) as (h1 & unf & rev & E & Hop & Hcells).
  rewrite Hopen in E. injection E as <- <- <-. split.
  - intros q c Hc. unfold cellAt in Hc.
    destruct (locAt f q) as [l|] eqn:El; [|done]. injection Hc as <-.
    destruct (Hcells _ _ El) as [Hin Hout].
    destruct (reach_dec h f pos q Hwf Hb) as [Hr|Hr].
    + rewrite (Hin Hr). unfold isExploded, revealT. simpl.
      pose proof (reach_safe _ _ Hadj _ _ Hsafe Hr) as Hs.
      unfold mineAt, cellAt in Hs. rewrite El in Hs. simpl in Hs. by rewrite Hs.
    + rewrite (Hout Hr). apply (Hno q). unfold cellAt. by rewrite El.
  - apply (locAt_is_Some _ _ Hwf) in Hb as [l Hl].
    unfold revealedAt, cellAt. rewrite Hl. simpl.
    destruct (Hcells _ _ Hl) as [Hin _]. rewrite Hin; [done|constructor].
Qed.

(** C1 — First-move safety.  On an engine just built over a fresh grid with
    fewer mines than cells, the first [revealCell] at any position of the
    grid returns a snapshot whose status is not [Lost]: the target is not a
    mine in the result and is revealed; when it was a mine, that mine now
    sits on a cell that was not one, and no other cell's mine changed. *)
Theorem first_reveal_never_lost fuel0 p h0 rng0 e h rng fuel pos :
  newGameEngine fuel0 {| cfg_params := p; cfg_data := None |} h0 rng0 = Ok (e, h, rng) →
  mines p < Z.of_nat (rows p * cols p) →
  inBounds p pos →
  (enoughFuel p ≤ fuel)%nat →
  ∃ res h',
    revealCell fuel e pos h rng = Ok (res, h', rng) ∧
    status e = Idle ∧
    snapshot_status (actionSnapshot res) ≠ Lost ∧
    mineAt h' (field (apply res e)) pos = false ∧
    revealedAt h' (field (apply res e)) pos = true ∧
    (mineAt h (field e) pos = false →
       ∀ q, mineAt h' (field (apply res e)) q = mineAt h (field e) q) ∧
    (mineAt h (field e) pos = true →
       ∃ to, inBounds p to ∧ mineAt h (field e) to = false
             ∧ mineAt h' (field (apply res e)) to = true
             ∧ ∀ q, q ≠ pos → q ≠ to →
                 mineAt h' (field (apply res e)) q = mineAt h (field e) q).
Proof.
  intros Hnew Hfew Hb Hfuel.
  destruct (newGameEngine_fresh _ _ _ _ _ _ _ Hnew)
    as (Hok & Hidle & Hgp & _ & _ & _ & Hclosed & keys & Hkeys & Hlen).
  assert (params (field e) = p) as Hp by (rewrite <- (eo_params _ _ Hok); done).
  destruct (revealCell_run fuel e pos h rng Hok) as
    (f1 & h1 & st2 & f2 & h2 & t & changes & h3 & Hrun); [by rewrite Hp..|].
  destruct Hrun as [Hclone Hview Hwf1 Hadj1 Hfr1 Hown Hfirst Hp2 Hloc Hwf2 Hadj2
                    Htouch Hmarks Hlater Hsafe Hmined Ht Hmain Hop Hres].
  destruct Hview as [Hp1 Hcell1].
  assert (params f1 = p) as Hq1 by congruence.
  assert (params f2 = p) as Hq2 by congruence.
  rewrite Hq1 in Hmined.
  assert (∀ q, mineAt h1 f1 q = mineAt h (field e) q) as Hm1.
  { intros q. unfold mineAt. by rewrite Hcell1. }
  (* some cell of the fresh field is not a mine *)
  destruct (some_cell_unmined h (field e) keys (eo_wf _ _ Hok) Hkeys) as (u & Hbu & Hu).
  { rewrite Hp. destruct Hb as [? ?]. nia. }
  rewrite Hp in Hbu.
  (* the field after the first click *)
  assert (st2 = Playing ∧ mineAt h2 f2 pos = false ∧
          (mineAt h (field e) pos = false → ∀ q, mineAt h2 f2 q = mineAt h (field e) q) ∧
          (mineAt h (field e) pos = true →
             ∃ to, inBounds p to ∧ mineAt h (field e) to = false ∧ mineAt h2 f2 to = true
                   ∧ ∀ q, q ≠ pos → q ≠ to → mineAt h2 f2 q = mineAt h (field e) q))
    as (-> & Hsafe2 & Hsame & Hmoved).
  { destruct (mineAt h1 f1 pos) eqn:Epos.
    - destruct (Hmined Hidle eq_refl) as [(_ & _ & Hall)|(-> & to & Hbto & Hnot & U)].
      { rewrite <- Hm1 in Hu. by rewrite (Hall _ Hbu) in Hu. }
      assert (∀ q, inBounds p q →
                mineAt h2 f2 q = if bool_decide (q = to) then true
                                 else if bool_decide (q = pos) then false
                                 else mineAt h1 f1 q) as Hm2.
      { intros q Hq. rewrite (mineAt_locAt _ _ _ _ Hloc), (mineAt_updates _ _ _ _ _ U).
        rewrite <- Hq1 in Hq.
        apply (cellAt_is_Some _ _ Hwf1) in Hq as [c Hc]. unfold mineAt. rewrite Hc.
        apply isMine_relocT. }
      assert (pos ≠ to) as Hne by (intros ->; congruence).
      split_and!; [done| |intros; congruence|].
      + rewrite (Hm2 pos Hb). rewrite bool_decide_false by done.
        by rewrite bool_decide_true.
      + intros _. exists to. rewrite <- Hm1.
        split_and!; [done|done| |].
        * rewrite (Hm2 _ Hbto). by rewrite bool_decide_true.
        * intros q Hn1 Hn2. destruct (decide (inBounds p q)) as [Hq|Hq].
          -- rewrite (Hm2 _ Hq), !bool_decide_false by done. apply Hm1.
          -- rewrite (mineAt_outside h2 f2 q Hwf2) by (by rewrite Hq2).
             by rewrite (mineAt_outside h (field e) q (eo_wf _ _ Hok)) by (by rewrite Hp).
    - destruct (Hsafe Hidle eq_refl) as [-> ->].
      assert (∀ q, mineAt h1 f2 q = mineAt h (field e) q) as Hm2.
      { intros q. by rewrite (mineAt_locAt _ _ _ _ Hloc). }
      split_and!; [done| |done|].
      + by rewrite Hm2, <- Hm1.
      + intros E. rewrite <- Hm1 in E. congruence. }
  (* no cell is marked yet *)
  assert (∀ q l, locAt f2 q = Some l →
            isRevealed (deref h2 l) = false ∧ isFlagged (deref h2 l) = false) as Hclosed2.
  { intros q l Hl. rewrite Hloc in Hl. destruct (Hmarks _ _ Hl) as [-> ->].
    apply (Hclosed q). rewrite <- Hcell1. unfold cellAt. by rewrite Hl. }
  destruct (Hclosed2 _ _ Ht) as [Hr Hf].
  assert (isMine (deref h2 t) = false) as Hm.
  { unfold mineAt, cellAt in Hsafe2. by rewrite Ht in Hsafe2. }
  rewrite mainAction_open in Hmain by done.
  apply bind_Ok in Hmain as ([[h' unf] rev] & Hopen & [= <- <-]).
  assert (inBounds (params f2) pos) as Hb2 by (by rewrite Hq2).
  assert (enoughFuel (params f2) ≤ fuel)%nat as Hfuel2 by (by rewrite Hq2).
  assert (noExploded h2 f2) as Hno2.
  { intros q c Hc. unfold cellAt in Hc. destruct (locAt f2 q) as [l|] eqn:El; [|done].
    injection Hc as <-. destruct (Hclosed2 _ _ El) as [E _]. unfold isExploded.
    rewrite E. apply andb_false_r. }
  destruct (openArea_noExploded _ _ _ _ _ _ _ Hwf2 Hadj2 Hb2 Hfuel2 Hsafe2 Hno2 Hopen)
    as [Hno3 Hrev3].
  eexists _, h'. split; [exact Hres|]. simpl.
  split_and!; try done.
  - intros E. apply determineStatus_Lost in E. apply E. by apply explodedCells_nil.
  - by rewrite (opens_mineAt _ _ _ Hop).
  - intros E q. rewrite (opens_mineAt _ _ _ Hop). by apply Hsame.
  - intros E. destruct (Hmoved E) as (to & ? & ? & ? & Hq). exists to.
    split_and!; try done.
    + by rewrite (opens_mineAt _ _ _ Hop).
    + intros q ? ?. rewrite (opens_mineAt _ _ _ Hop). by apply Hq.
Qed.

(** * Win and loss *)

Lemma revealCell_inv fuel e pos h rng res h' rng' :
  revealCell fuel e pos h rng = Ok (res, h', rng') →
  ∃ f2 target changes, res = revealResult e f2 target changes h'.
Proof.
  rewrite revealCell_phases. destruct (cloneSelf h (field e)) as [f1 h1].
  intros H. apply bind_Ok in H as ([[[st2 f2] h2] rng2] & _ & H).
  apply bind_Ok in H as (target & _ & H).
  apply bind_Ok in H as ([changes h3] & _ & [= <- <- <-]). eauto.
Qed.

Lemma length_filter_pos {A} (P : A → Prop) `{∀ x, Decision (P x)} (l : list A) :
  (0 < length (filter P l))%nat ↔ ∃ x, x ∈ l ∧ P x.
Proof.
  split.
  - destruct (filter P l) as [|x k] eqn:E; simpl; [lia|]. intros _.
    assert (x ∈ filter P l) as Hx by (rewrite E, elem_of_cons; by left).
    apply list_elem_of_filter in Hx as [? ?]. eauto.
  - intros (x & Hx & HP).
    assert (x ∈ filter P l) as Hin by (by apply list_elem_of_filter).
    destruct (filter P l); [by apply elem_of_nil in Hin | simpl; lia].
Qed.

(** C2 — Win/loss determination.  The status of the snapshot returned by
    [revealCell] is [Lost] exactly when the snapshot holds a revealed mine;
    it is [Won] exactly when it holds none and the number of revealed cells
    is [rows * cols - mines]; it is [Playing] in the remaining case.  On a
    1 x 1 grid without mines the first reveal of (0,0) yields [Won]. *)
Theorem status_follows_snapshot :
  (∀ fuel e pos h rng res h' rng',
     revealCell fuel e pos h rng = Ok (res, h', rng') →
     let snap := actionSnapshot res in
     let cells := concat (FieldState.field (snapshot_state snap)) in
     let exploded := ∃ c, c ∈ cells ∧ isMine c = true ∧ isRevealed c = true in
     let allOpen :=
       Z.of_nat (length (filter (fun c => isRevealed c = true) cells))
       = Z.of_nat (cols (gameParams e)) * Z.of_nat (rows (gameParams e))
         - mines (gameParams e) in
     (snapshot_status snap = Lost ↔ exploded)
     ∧ (snapshot_status snap = Won ↔ ¬ exploded ∧ allOpen)
     ∧ (snapshot_status snap = Playing ↔ ¬ exploded ∧ ¬ allOpen))
  ∧ (∀ fuel0 fuel rng0,
       ∃ e h res h',
         newGameEngine fuel0 {| cfg_params := {| cols := 1; rows := 1; mines := 0 |};
                                cfg_data := None |} [] rng0 = Ok (e, h, rng0)
         ∧ status e = Idle
         ∧ revealCell (S (S fuel)) e origin00 h rng0 = Ok (res, h', rng0)
         ∧ snapshot_status (actionSnapshot res) = Won).
Proof.
  split.
  - intros fuel e pos h rng res h' rng' Hres.
    destruct (revealCell_inv _ _ _ _ _ _ _ _ Hres) as (f2 & target & changes & ->).
    simpl. unfold determineStatus. simpl.
    set (cells := concat (getData h' f2)).
    assert ((0 < length (filter (fun c => isExploded c = true) cells))%nat
            ↔ ∃ c, c ∈ cells ∧ isMine c = true ∧ isRevealed c = true) as Hex.
    { rewrite length_filter_pos. unfold isExploded.
      split; intros (c & Hc & Hm); exists c; (split; [done|]); by apply andb_true_iff. }
    destruct (Z.ltb_spec 0 (Z.of_nat (length (filter (fun c => isExploded c = true) cells))))
      as [Hlt|Hge].
    + assert (∃ c, c ∈ cells ∧ isMine c = true ∧ isRevealed c = true) as He
        by (apply Hex; lia).
      split_and!; split; try done; intros [Hn _]; by destruct Hn.
    + assert (¬ ∃ c, c ∈ cells ∧ isMine c = true ∧ isRevealed c = true) as He
        by (rewrite <- Hex; lia).
      destruct (Z.eqb_spec (Z.of_nat (length (filter (fun c => isRevealed c = true) cells)))
                  (Z.of_nat (cols (gameParams e)) * Z.of_nat (rows (gameParams e))
                   - mines (gameParams e))) as [Heq|Hne].
      * split_and!; split; try done; intros [_ Hn]; by destruct Hn.
      * split_and!; split; try done. intros [_ ?]. done.
  - intros fuel0 fuel rng0.
    exists {| mode := guessing;
              field := {| params := {| cols := 1; rows := 1; mines := 0 |};
                          grid := [[0%nat]]; isMined := true |};
              gameParams := {| cols := 1; rows := 1; mines := 0 |};
              status := Idle; flagsRemaining := 0 |}, [newCell origin00].
    do 2 eexists.
    split; [destruct fuel0; reflexivity|]. split; [reflexivity|].
    split; [vm_compute; reflexivity|].
    vm_compute. reflexivity.
Qed.

(** * The reveal area *)

Lemma isEmpty_sameCore f h h2 q l :
  sameCore f h h2 → locAt f q = Some l → isEmpty (deref h2 l) = isEmpty (deref h l).
Proof. intros Hc Hl. destruct (Hc _ _ Hl) as (_ & Hm & Ha). unfold isEmpty. by rewrite Hm, Ha. Qed.

Lemma areaLoop_sameCore f h h2 fuel queue visited res :
  wf h f → sameCore f h h2 → Forall (gridLoc f) queue →
  areaLoop fuel h2 f queue visited res = areaLoop fuel h f queue visited res.
Proof.
  intros Hwf Hc. revert queue visited res.
  induction fuel as [|fuel IH]; intros queue visited res Hq; [done|].
  destruct queue as [|cell queue]; [done|]. simpl.
  apply Forall_cons in Hq as [[q Hl] Hq].
  destruct (Hc _ _ Hl) as (-> & _ & _). rewrite (isEmpty_sameCore _ _ _ _ _ Hc Hl).
  destruct (visitedAt _ _ _) as [v| |]; simpl; try done.
  destruct v; [by apply IH|].
  destruct (isEmpty (deref h cell)).
  - rewrite (locAt_position _ _ Hwf _ _ Hl), (getSiblings_wf _ _ Hwf). simpl. apply IH.
    apply Forall_app. split; [done | apply siblingLocs_gridLoc].
  - simpl. by apply IH.
Qed.

Lemma getAreaToReveal_sameCore f h h2 fuel origin :
  wf h f → sameCore f h h2 →
  getAreaToReveal fuel h2 f origin = getAreaToReveal fuel h f origin.
Proof.
  intros Hwf Hc. unfold getAreaToReveal.
  destruct (getCell f origin) as [[target|]| |] eqn:Eg; simpl; try done.
  apply getCell_Some in Eg.
  destruct (Hc _ _ Eg) as (_ & -> & _). rewrite (isEmpty_sameCore _ _ _ _ _ Hc Eg).
  destruct (negb (isEmpty (deref h target)) || isMine (deref h target)); [done|].
  apply areaLoop_sameCore; [done|done|]. apply Forall_singleton. by exists origin.
Qed.

(** C4 — Flood-fill totality.  On a well-formed field that satisfies the
    adjacency invariant, [getAreaToReveal] from a position of the grid
    returns, each cell once: when the origin is empty, exactly the cells of
    the connected region of empty cells around the origin and the numbered
    cells on its border; when the origin is a mine or a numbered cell, the
    origin alone.  The reveal and flag marks play no part: a store that
    shows the same mines and numbers gives the same area. *)
Theorem getAreaToReveal_exact fuel h f origin :
  wf h f → adjacencyOk h f → inBounds (params f) origin →
  (enoughFuel (params f) ≤ fuel)%nat →
  ∃ target area,
    locAt f origin = Some target ∧
    getAreaToReveal fuel h f origin = Ok area ∧
    NoDup area ∧ Forall (gridLoc f) area ∧
    (emptyAt h f origin →
       ∀ q l, locAt f q = Some l →
         l ∈ area ↔ emptyRegion h f origin q ∨ regionBorder h f origin q) ∧
    (¬ emptyAt h f origin → area = [target]) ∧
    (∀ h2, sameCore f h h2 → getAreaToReveal fuel h2 f origin = Ok area).
Proof.
  intros Hwf Hadj Hb Hfuel.
  destruct (getAreaToReveal_spec fuel h f origin Hwf Hb Hfuel)
    as (target & area & Hl & Hget & Hnd & Hgl & Hem & Hne).
  exists target, area. split_and!; try done.
  - intros Ho q l Hq. rewrite (Hem Ho _ _ Hq). by apply reach_region.
  - intros h2 Hc. by rewrite (getAreaToReveal_sameCore _ _ _ _ _ Hwf Hc).
Qed.

(** * The adjacency invariant *)

(** C7 (amended) — Adjacency invariant.  Every cell's [adjacentMines] is the
    number of mines among its neighbours inside the grid: on a field built
    without data; on a field built from data that fits the grid exactly
    when the numbers of the data are right, since the constructor copies
    them as they are; after [mineCell] on a cell that is not a mine and
    [unMineCell] on a mine, which add one to, or take one from, the count
    of each neighbour and compute nothing anew; after [placeMines] on a
    field without mines; after [relocateMine] from a mine to a cell that is
    not one; and so in every state of a game built without data, or from
    data that fits the grid and whose numbers are right, whatever
    [revealCell] and [toggleFlag] results were computed or committed. *)
Theorem adjacency_invariant :
  (∀ p h f h', newField p None h = (f, h') → wf h' f ∧ adjacencyOk h' f)
  ∧ (∀ p data h f h', wfData p data → newField p (Some data) h = (f, h') →
       wf h' f ∧ (adjacencyOk h' f ↔ countsOk p data))
  ∧ (∀ h f pos h', wf h f → adjacencyOk h f → mineAt h f pos = false →
       mineCell h f pos = Ok h' →
       wf h' f ∧ adjacencyOk h' f ∧ updates f (mineT (params f) true 1 pos) h h')
  ∧ (∀ h f pos h', wf h f → adjacencyOk h f → mineAt h f pos = true →
       unMineCell h f pos = Ok h' →
       wf h' f ∧ adjacencyOk h' f ∧ updates f (mineT (params f) false (-1) pos) h h')
  ∧ (∀ fuel h f rng f' h' rng', wf h f → adjacencyOk h f → noMines h f →
       placeMines fuel f h rng = Ok (f', h', rng') → wf h' f' ∧ adjacencyOk h' f')
  ∧ (∀ h f from to h', wf h f → adjacencyOk h f →
       mineAt h f from = true → mineAt h f to = false →
       relocateMine h f from to = Ok h' → wf h' f ∧ adjacencyOk h' f)
  ∧ (∀ e h, reachable e h → wf h (field e) ∧ adjacencyOk h (field e))
  ∧ (∀ config e h, configOk config → reachableFrom config e h →
       wf h (field e) ∧ adjacencyOk h (field e)).
Proof.
  split_and!.
  - intros p h f h' Hnew. by destruct (newField_fresh _ _ _ _ Hnew) as (_ & ? & _ & _ & _ & _ & _ & ?).
  - intros p data h f h' Hd Hnew.
    destruct (newField_spec _ _ _ _ _ Hd Hnew) as (Hp & Hwf & _ & _ & Hcell & _).
    split; [done|]. by apply adjacencyOk_data.
  - intros h f pos h' Hwf Hadj Hm Hmine.
    pose proof (mineCell_inBounds _ _ _ _ Hwf Hmine) as Hb.
    destruct (mineCell_spec _ _ _ Hwf Hb) as (h1 & E & U & Hwf1).
    assert (h1 = h') as -> by congruence. split_and!; [done| |done].
    exact (adjacencyOk_mine _ _ _ _ Hwf Hadj Hb Hm U).
  - intros h f pos h' Hwf Hadj Hm Hmine.
    pose proof (unMineCell_inBounds _ _ _ _ Hwf Hmine) as Hb.
    destruct (unMineCell_spec _ _ _ Hwf Hb) as (h1 & E & U & Hwf1).
    assert (h1 = h') as -> by congruence. split_and!; [done| |done].
    exact (adjacencyOk_unmine _ _ _ _ Hwf Hadj Hb Hm U).
  - intros fuel h f rng f' h' rng' Hwf Hadj Hno Hplace.
    by destruct (placeMines_spec _ _ _ _ _ _ _ Hwf Hadj Hno Hplace) as (_ & _ & ? & ? & _).
  - intros h f from to h' Hwf Hadj Hfrom Hto Hrel.
    assert (inBounds (params f) from ∧ inBounds (params f) to) as [Hb1 Hb2].
    { unfold relocateMine in Hrel. apply bind_Ok in Hrel as (h1 & H1 & H2).
      pose proof (unMineCell_inBounds _ _ _ _ Hwf H1) as Hb1. split; [done|].
      destruct (unMineCell_spec _ _ _ Hwf Hb1) as (h1' & E & U & Hwf1).
      assert (h1' = h1) as -> by congruence. by eapply mineCell_inBounds. }
    destruct (relocateMine_spec _ _ _ _ Hwf Hadj Hb1 Hb2 Hfrom Hto) as (h1 & E & ? & ? & _).
    assert (h1 = h') as -> by congruence. done.
  - intros e h Hr. apply reachable_engineOk in Hr. split; apply Hr.
  - intros config e h Hcfg Hr. apply (reachableFrom_engineOk _ _ _ Hcfg) in Hr.
    split; apply Hr.
Qed.

(** * Chording *)

Lemma sameView_locAt h f h1 f1 f2 :
  sameView h f h1 f1 → params f2 = params f1 → (∀ q, locAt f2 q = locAt f1 q) →
  sameView h f h1 f2.
Proof.
  intros [Hp Hc] Hp2 Hl. split; [congruence|]. intros q. rewrite <- Hc.
  by apply cellAt_locAt.
Qed.

Lemma sameView_flaggedSiblings h f h' f' pos :
  sameView h f h' f' → flaggedSiblings h' f' pos = flaggedSiblings h f pos.
Proof.
  intros [Hp Hc]. unfold flaggedSiblings, flaggedAt. rewrite Hp. f_equal.
  apply list_filter_iff. intros q. by rewrite Hc.
Qed.

Section RunLater.
Context {fuel e pos h rng f1 h1 st2 f2 h2 t changes h3}
        (Hrun : revealRun fuel e pos h rng f1 h1 st2 f2 h2 t changes h3)
        (Hst : status e ≠ Idle).

(** After the first action nothing happens in step 1. *)
Lemma run_later_view : st2 = status e ∧ h2 = h1 ∧ sameView h (field e) h2 f2.
Proof using Hrun Hst.
  destruct (rr_later _ _ _ _ _ _ _ _ _ _ _ _ _ Hrun Hst) as [-> ->].
  split_and!; try done.
  eapply sameView_locAt; [apply Hrun | apply Hrun | apply Hrun].
Qed.
End RunLater.

(** C3 — Chording.  Let the status be [Playing] and the target a revealed,
    unflagged cell that is not a mine.  If as many neighbours are flagged as
    the target's number says, then after [revealCell] every neighbour that
    was neither flagged nor revealed is revealed; a mined one is listed,
    revealed, among the exploded cells; for one that is not a mine, every
    cell of its reveal area ([getAreaToReveal] from it) is revealed and
    unflagged.  If the two numbers differ, no cell changes and the four
    lists of changes are empty. *)
Theorem chording_opens_neighbours fuel e pos h rng c :
  engineOk h e → status e = Playing →
  (enoughFuel (gameParams e) ≤ fuel)%nat →
  cellAt h (field e) pos = Some c →
  isRevealed c = true → isFlagged c = false → isMine c = false →
  ∃ res h',
    revealCell fuel e pos h rng = Ok (res, h', rng) ∧
    (Z.of_nat (flaggedSiblings h (field e) pos) = adjacentMines c →
       ∀ s cs, s ∈ siblingPositions (params (field e)) pos →
         cellAt h (field e) s = Some cs →
         isFlagged cs = false → isRevealed cs = false →
         revealedAt h' (field (apply res e)) s = true
         ∧ (isMine cs = true →
              setIsRevealed true cs ∈ ActionChanges.explodedCells (actionChanges res))
         ∧ (isMine cs = false →
              ∀ area, getAreaToReveal fuel h (field e) s = Ok area →
                ∀ q l, locAt (field e) q = Some l → l ∈ area →
                  revealedAt h' (field (apply res e)) q = true
                  ∧ flaggedAt h' (field (apply res e)) q = false)) ∧
    (Z.of_nat (flaggedSiblings h (field e) pos) ≠ adjacentMines c →
       (∀ q, cellAt h' (field (apply res e)) q = cellAt h (field e) q)
       ∧ ActionChanges.revealedCells (actionChanges res) = []
       ∧ ActionChanges.flaggedCells (actionChanges res) = []
       ∧ ActionChanges.unflaggedCells (actionChanges res) = []
       ∧ ActionChanges.explodedCells (actionChanges res) = []).
Proof.
  intros Hok Hst Hfuel Hc Hrev Hflag Hmine.
  pose proof (eo_wf _ _ Hok) as Hwf.
  assert (inBounds (params (field e)) pos) as Hb by (apply (cellAt_is_Some _ _ Hwf); eauto).
  rewrite (eo_params _ _ Hok) in Hfuel.
  destruct (revealCell_run fuel e pos h rng Hok Hb Hfuel)
    as (f1 & h1 & st2 & f2 & h2 & t & changes & h3 & Hrun).
  assert (status e ≠ Idle) as Hni by (rewrite Hst; done).
  destruct (run_later_view Hrun Hni) as (-> & -> & Hview).
  destruct Hrun as [_ _ _ _ _ _ _ Hp2 _ Hwf2 Hadj2 _ _ _ _ _ Ht Hmain _ Hres].
  destruct Hview as [Hp Hcell].
  assert (deref h1 t = c) as Ec.
  { specialize (Hcell pos). unfold cellAt in Hcell at 1. rewrite Ht, Hc in Hcell.
    by injection Hcell. }
  rewrite Hst in Hmain. rewrite mainAction_chord in Hmain by (by rewrite Ec).
  assert (enoughFuel (params f2) ≤ fuel)%nat as Hfuel2 by (by rewrite Hp).
  destruct (handleRevealedClick_spec fuel h1 f2 pos t Hwf2 Hadj2 Ht Hfuel2)
    as (changes' & h3' & E & Hne & Heq).
  rewrite Hmain in E. injection E as <- <-.
  rewrite (sameView_flaggedSiblings h (field e) h1 f2) in Hne, Heq by (by split).
  rewrite Ec in Hne, Heq.
  exists (revealResult e f2 (Some t) changes h3), h3. split; [done|]. simpl. split.
  - intros Hmatch s cs Hs Hcs Hsf Hsr.
    destruct (Heq Hmatch) as [Hop Hfl Hmi Hdo].
    rewrite <- Hcell in Hcs. unfold cellAt in Hcs.
    destruct (locAt f2 s) as [ls|] eqn:Els; [|done]. injection Hcs as Hcs.
    assert (isRevealed (deref h3 ls) = true) as Hrs.
    { eapply Hdo; [by rewrite Hp|done|]. unfold isUntouched. by rewrite Hcs, Hsf, Hsr. }
    split_and!.
    + unfold revealedAt, cellAt. by rewrite Els.
    + intros Hm. rewrite <- Hcs. eapply Hmi; [done| | |done]; by rewrite Hcs.
    + intros Hm area Harea q l Hl Hin.
      assert (inBounds (params (field e)) s) as Hbs.
      { by apply elem_of_siblingPositions in Hs as [_ ?]. }
      destruct (getAreaToReveal_reach fuel h (field e) s Hwf Hbs Hfuel)
        as (ts & area' & _ & Harea' & _ & _ & Hreach).
      assert (area' = area) as -> by congruence.
      apply (Hreach _ _ Hl) in Hin.
      apply (sameView_reach h (field e) h1 f2) in Hin; [|by split].
      assert (is_Some (locAt f2 q)) as [l2 Hl2].
      { apply (locAt_is_Some _ _ Hwf2). rewrite Hp.
        apply (locAt_is_Some _ _ Hwf). eauto. }
      destruct (Hfl s ls Els) with (q' := q) (l' := l2) as [R F]; try done;
        try (by rewrite Hcs).
      unfold revealedAt, flaggedAt, cellAt. by rewrite Hl2.
  - intros Hmis. destruct (Hne Hmis) as [-> ->]. split; [|done].
    intros q. apply Hcell.
Qed.

(** * Transactional isolation *)

Lemma getData_frame h h' f : wf h f → frame h h' → getData h' f = getData h f.
Proof.
  intros Hwf [_ D]. unfold getData. apply map_ext_in. intros r Hr.
  apply map_ext_in. intros l Hl. apply D.
  destruct (proj1 (elem_of_grid f l)) as [q Hq].
  { exists r. split; by apply list_elem_of_In. }
  by eapply locAt_lt.
Qed.

Lemma getState_frame h h' f : wf h f → frame h h' → getState h' f = getState h f.
Proof. intros Hwf Hfr. unfold getState. by rewrite (getData_frame _ _ _ Hwf Hfr). Qed.

(** C5 (amended) — Transactional isolation.  [revealCell] and [toggleFlag]
    return a result and leave the engine alone: every cell that existed
    before the call is unchanged in the store, so [gameSnapshot] reads the
    same field and status after the call as before it.  The commit of a
    [revealCell] result, at once or later, replaces field, status and
    flagsRemaining together with the precomputed values: [gameSnapshot] then
    equals the result's [actionSnapshot].  The commit of a [toggleFlag]
    result replaces field and flagsRemaining with the precomputed values and
    keeps the status the engine has at that moment; [gameSnapshot] equals
    the [actionSnapshot] when that status is still the one of the preview. *)
Theorem actions_isolated_until_commit :
  (∀ fuel e pos h rng res h' rng',
     engineOk h e → inBounds (gameParams e) pos → (enoughFuel (gameParams e) ≤ fuel)%nat →
     revealCell fuel e pos h rng = Ok (res, h', rng') →
     frame h h' ∧ gameSnapshot e h' = gameSnapshot e h ∧
     ∀ live h'', frame h' h'' → gameParams live = gameParams e →
       gameSnapshot (apply res live) h'' = actionSnapshot res ∧
       flagsRemaining (apply res live)
       = mines (gameParams e)
         - Z.of_nat (length (FieldState.flaggedCells (snapshot_state (actionSnapshot res)))))
  ∧ (∀ e pos h res h',
       engineOk h e → inBounds (gameParams e) pos →
       toggleFlag e pos h = Ok (res, h') →
       frame h h' ∧ gameSnapshot e h' = gameSnapshot e h ∧
       snapshot_status (actionSnapshot res) = status e ∧
       ∀ live h'', frame h' h'' → gameParams live = gameParams e →
         snapshot_state (gameSnapshot (apply res live) h'')
         = snapshot_state (actionSnapshot res) ∧
         status (apply res live) = status live ∧
         flagsRemaining (apply res live)
         = mines (gameParams e)
           - Z.of_nat (length (FieldState.flaggedCells
                                 (snapshot_state (actionSnapshot res)))) ∧
         (status live = status e → gameSnapshot (apply res live) h'' = actionSnapshot res)).
Proof.
  split.
  - intros fuel e pos h rng res h' rng' Hok Hb Hfuel Hres.
    destruct (revealCell_result _ _ _ _ _ _ _ _ Hok Hb Hfuel Hres)
      as (f1 & h1 & st2 & f2 & h2 & t & changes & Hrun & -> & ->).
    pose proof (run_frame Hrun) as Hfr.
    split_and!; [done| |].
    + unfold gameSnapshot. by rewrite (getState_frame _ _ _ (eo_wf _ _ Hok) Hfr).
    + intros live h'' Hfr' Hpar. unfold gameSnapshot. simpl.
      rewrite (getState_frame _ _ _ (run_wf Hrun) Hfr'). rewrite Hpar. done.
  - intros e pos h res h' Hok Hb Hres.
    destruct (toggleFlag_result _ _ _ _ _ Hok Hb Hres)
      as (f1 & h1 & t & fl & un & Hrun & ->).
    pose proof (toggle_frame Hrun) as Hfr.
    split_and!; [done| |done|].
    + unfold gameSnapshot. by rewrite (getState_frame _ _ _ (eo_wf _ _ Hok) Hfr).
    + intros live h'' Hfr' Hpar. unfold gameSnapshot. simpl.
      rewrite (getState_frame _ _ _ (toggle_wf Hrun) Hfr'). rewrite Hpar.
      split_and!; try done. by intros ->.
Qed.

(** * Illegal actions *)

Lemma grid_ext {A} (d1 d2 : list (list A)) :
  length d1 = length d2 →
  (∀ i r1 r2, d1 !! i = Some r1 → d2 !! i = Some r2 →
     length r1 = length r2 ∧ ∀ j, r1 !! j = r2 !! j) →
  d1 = d2.
Proof.
  intros Hlen Hrows. apply list_eq. intros i.
  destruct (d1 !! i) as [r1|] eqn:E1, (d2 !! i) as [r2|] eqn:E2.
  - f_equal. destruct (Hrows _ _ _ E1 E2) as [_ Hj]. by apply list_eq.
  - apply lookup_lt_Some in E1. apply lookup_ge_None in E2. lia.
  - apply lookup_lt_Some in E2. apply lookup_ge_None in E1. lia.
  - done.
Qed.

Lemma getData_sameView h f h' f' :
  wf h f → wf h' f' → sameView h f h' f' → getData h' f' = getData h f.
Proof.
  intros Hwf Hwf' [Hp Hc].
  pose proof (wfData_getData _ _ Hwf) as [R1 C1 _].
  pose proof (wfData_getData _ _ Hwf') as [R2 C2 _].
  apply grid_ext; [congruence|].
  intros i r1 r2 E1 E2. split.
  - rewrite (C2 r1), (C1 r2), Hp; [done| |]; by eapply list_elem_of_lookup_2.
  - intros j. specialize (Hc {| row := Z.of_nat i; col := Z.of_nat j |}).
    rewrite <- !dataAt_getData in Hc. unfold dataAt in Hc. simpl in Hc.
    rewrite !nthZ_of_nat, E1, E2 in Hc. simpl in Hc. by rewrite !nthZ_of_nat in Hc.
Qed.

Lemma getState_sameView h f h' f' :
  wf h f → wf h' f' → sameView h f h' f' → getState h' f' = getState h f.
Proof. intros ? ? ?. unfold getState. by rewrite (getData_sameView h f h' f'). Qed.

(** A run in which neither step touched the store is a no-op. *)
Lemma run_noop fuel e pos h rng f1 h1 st2 f2 t :
  engineOk h e →
  revealRun fuel e pos h rng f1 h1 st2 f2 h1 t noChanges h1 →
  noopResult e h (revealResult e f2 (Some t) noChanges h1).
Proof.
  intros Hok Hrun. unfold noopResult. simpl. split_and!; try done.
  apply getState_sameView; [apply Hok | apply Hrun|].
  eapply sameView_locAt; [apply Hrun | apply Hrun | apply Hrun].
Qed.

(** C6 (amended) — Illegal actions are silent no-ops.  In a state of the
    engine that satisfies its invariants, at a position of the grid:
    revealing a flagged cell (other than a flagged mine while the status is
    still [Idle]), chording with a number of flagged neighbours that differs
    from the target's number, and revealing anything when the status is
    [Won] or [Lost]; flagging with no flag left, toggling the flag of a
    revealed cell, and toggling anything when the status is [Won] or [Lost]:
    each returns a result, throws nothing, lists no change and shows in its
    snapshot the cells of the snapshot before the action. *)
Theorem illegal_actions_are_noops fuel e pos h rng c :
  engineOk h e → (enoughFuel (gameParams e) ≤ fuel)%nat →
  cellAt h (field e) pos = Some c →
  ((isFlagged c = true ∧ (status e = Idle → isMine c = false))
   ∨ (isFlagged c = false ∧ isMine c = false ∧ isRevealed c = true
      ∧ Z.of_nat (flaggedSiblings h (field e) pos) ≠ adjacentMines c)
   ∨ status e = Won ∨ status e = Lost →
   ∃ res h', revealCell fuel e pos h rng = Ok (res, h', rng) ∧ noopResult e h res)
  ∧ ((isFlagged c = false ∧ flagsRemaining e <= 0)
     ∨ isRevealed c = true ∨ status e = Won ∨ status e = Lost →
     ∃ res h', toggleFlag e pos h = Ok (res, h') ∧ noopResult e h res).
Proof.
  intros Hok Hfuel Hc.
  pose proof (eo_wf _ _ Hok) as Hwf.
  assert (inBounds (params (field e)) pos) as Hb by (apply (cellAt_is_Some _ _ Hwf); eauto).
  rewrite (eo_params _ _ Hok) in Hfuel.
  split.
  - intros Hcase.
    destruct (revealCell_run fuel e pos h rng Hok Hb Hfuel)
      as (f1 & h1 & st2 & f2 & h2 & t & changes & h3 & Hrun).
    assert (sameView h (field e) h1 f2) as Hview.
    { eapply sameView_locAt; [apply Hrun | apply Hrun | apply Hrun]. }
    assert (deref h1 t = c) as Ec.
    { destruct Hview as [_ Hcell]. specialize (Hcell pos). unfold cellAt in Hcell at 1.
      rewrite (rr_target _ _ _ _ _ _ _ _ _ _ _ _ _ Hrun), Hc in Hcell. by injection Hcell. }
    assert (mineAt h1 f1 pos = isMine c) as Em.
    { rewrite (sameView_mineAt _ _ _ _ pos (rr_view _ _ _ _ _ _ _ _ _ _ _ _ _ Hrun)).
      unfold mineAt. by rewrite Hc. }
    (* step 1 leaves the store alone *)
    assert (h2 = h1 ∧ (st2 = Playing ∨ (st2 = status e ∧ (st2 = Won ∨ st2 = Lost))))
      as [-> Hst2].
    { destruct (decide (status e = Idle)) as [Hi|Hi].
      - assert (isMine c = false) as Hnm.
        { destruct Hcase as [[_ H]|[(_ & H & _)|[H|H]]]; [by apply H|done|congruence..]. }
        rewrite Hnm in Em.
        destruct (rr_safe _ _ _ _ _ _ _ _ _ _ _ _ _ Hrun Hi Em) as [-> ->]. auto.
      - destruct (rr_later _ _ _ _ _ _ _ _ _ _ _ _ _ Hrun Hi) as [-> ->]. split; [done|].
        destruct (status e); try done; auto. }
    (* step 2 does nothing *)
    assert (changes = noChanges ∧ h3 = h1) as [-> ->].
    { pose proof (rr_main _ _ _ _ _ _ _ _ _ _ _ _ _ Hrun) as Hmain.
      destruct Hst2 as [->|[_ Hterm]].
      2:{ rewrite mainAction_idle in Hmain by (destruct Hterm as [-> | ->]; done).
          by injection Hmain as <- <-. }
      destruct Hcase as [[Hf _]|[(Hf & Hm & Hr & Hmis)|Hterm]].
      - rewrite mainAction_flagged in Hmain by (by rewrite Ec). by injection Hmain as <- <-.
      - rewrite mainAction_chord in Hmain by (by rewrite Ec).
        destruct (handleRevealedClick_spec fuel h1 f2 pos t) as (ch & h' & E & Hne & _);
          [apply Hrun | apply Hrun | apply Hrun | |].
        { rewrite (rr_params _ _ _ _ _ _ _ _ _ _ _ _ _ Hrun).
          by destruct (rr_view _ _ _ _ _ _ _ _ _ _ _ _ _ Hrun) as [-> _]. }
        rewrite Hmain in E. injection E as <- <-.
        rewrite (sameView_flaggedSiblings _ _ _ _ _ Hview), Ec in Hne.
        by destruct (Hne Hmis) as [-> ->].
      - (* the status is terminal, so step 1 cannot have set it to Playing
           unless it was so before *)
        destruct (decide (status e = Idle)) as [Hi|Hi]; [destruct Hterm; congruence|].
        destruct (rr_later _ _ _ _ _ _ _ _ _ _ _ _ _ Hrun Hi) as [Hs _].
        destruct Hterm; congruence. }
    eexists _, h1. split; [apply Hrun|]. by eapply run_noop.
  - intros Hcase.
    destruct (toggleFlag_run e pos h Hok Hb) as (f1 & h1 & t & fl & un & h2 & Hrun).
    assert (deref h1 t = c) as Ec.
    { destruct (tr_view _ _ _ _ _ _ _ _ _ Hrun) as [_ Hcell]. specialize (Hcell pos).
      unfold cellAt in Hcell at 1.
      rewrite (tr_target _ _ _ _ _ _ _ _ _ Hrun), Hc in Hcell. by injection Hcell. }
    assert (fl = [] ∧ un = [] ∧ h2 = h1) as (-> & -> & ->).
    { destruct (tr_cases _ _ _ _ _ _ _ _ _ Hrun)
        as [(Hs & Hr & Hf & _)|[(Hs & Hr & Hf & Hfr & _)|(_ & ? & ? & ?)]]; [| |done];
        exfalso; rewrite Ec in *;
        destruct Hcase as [[? ?]|[?|[?|?]]]; congruence || lia. }
    eexists _, h1. split; [apply Hrun|]. unfold noopResult. simpl. split_and!; try done.
    apply getState_sameView; [done | apply Hrun | apply Hrun].
Qed.

(** * Bounds of grid accesses *)

Lemma getCell_rowOutside h f pos : wf h f → rowOutside (params f) pos → getCell f pos = Throw.
Proof.
  intros Hwf Hout. unfold getCell.
  destruct (nthZ (grid f) (row pos)) as [r|] eqn:E; [|done]. exfalso.
  assert (is_Some (nthZ (grid f) (row pos))) as Hs by eauto.
  apply nthZ_is_Some in Hs. rewrite (wf_rows _ _ Hwf) in Hs. unfold rowOutside in Hout. lia.
Qed.

Lemma getCell_colOutside h f pos :
  wf h f → colOutside (params f) pos → getCell f pos = Ok None.
Proof.
  intros Hwf [Hr Hc]. unfold getCell.
  destruct (nthZ (grid f) (row pos)) as [r|] eqn:E.
  - f_equal. destruct (nthZ r (col pos)) as [l|] eqn:El; [|done]. exfalso.
    assert (is_Some (nthZ r (col pos))) as Hs by eauto.
    apply nthZ_is_Some in Hs. apply nthZ_Some in E as [_ E].
    apply list_elem_of_lookup_2 in E. rewrite (wf_cols _ _ Hwf _ E) in Hs. lia.
  - exfalso. assert (is_Some (nthZ (grid f) (row pos))) as [? ?]; [|congruence].
    apply nthZ_is_Some. rewrite (wf_rows _ _ Hwf). lia.
Qed.

(** Step 1 of [revealCell] reaches its read of the target cell. *)
Lemma firstClick_throws fuel pos st f1 h1 rng :
  wf h1 f1 → (isMined f1 = false ↔ noMines h1 f1) →
  (noMines h1 f1 → mines (params f1) <= 0) →
  (∀ f, params f = params f1 → (∀ q, locAt f q = locAt f1 q) → wf h1 f →
     getCell f pos = Throw) →
  (firstClick fuel pos st f1 h1 rng = Throw ∧ st = Idle)
  ∨ (firstClick fuel pos st f1 h1 rng = Ok (st, f1, h1, rng) ∧ st ≠ Idle).
Proof.
  intros Hwf Hmined Hseed Hthrow. unfold firstClick.
  case_bool_decide as Hst; [left|right; by split]. split; [|done].
  destruct (isMined f1) eqn:Em; simpl.
  - unfold getCellData. by rewrite (Hthrow f1).
  - unfold placeMines. rewrite Em.
    rewrite placeLoop_none; [|simpl; apply Hseed; by apply Hmined]. simpl.
    unfold getCellData. rewrite (Hthrow (setFieldMined true f1)); try done.
    by apply wf_setFieldMined.
Qed.

(** C10 — Bounds safety of grid access.  On a well-formed field, for a
    position with [0 <= row < rows] and [0 <= col < cols]: [getCell] finds
    a cell, [getSiblings] (for any position at all) returns cells of the
    grid only, and [getAreaToReveal], [revealCell] and [toggleFlag] return
    normally, so no access falls outside the grid.  The operations check
    nothing themselves: with the row outside the grid [getCell],
    [getAreaToReveal], [revealCell] and [toggleFlag] throw, and with only
    the column outside [getCell] yields [undefined] and [toggleFlag]
    throws. *)
Theorem grid_access_in_bounds :
  (∀ h f pos, wf h f → inBounds (params f) pos →
     ∃ l, getCell f pos = Ok (Some l) ∧ (l < length h)%nat ∧ position (deref h l) = pos)
  ∧ (∀ h f pos, wf h f →
       ∃ ls, getSiblings f pos = Ok ls ∧ Forall (gridLoc f) ls)
  ∧ (∀ fuel h f pos, wf h f → inBounds (params f) pos →
       (enoughFuel (params f) ≤ fuel)%nat →
       ∃ area, getAreaToReveal fuel h f pos = Ok area ∧ Forall (gridLoc f) area)
  ∧ (∀ fuel e pos h rng, engineOk h e → inBounds (gameParams e) pos →
       (enoughFuel (gameParams e) ≤ fuel)%nat →
       ∃ res h', revealCell fuel e pos h rng = Ok (res, h', rng))
  ∧ (∀ e pos h, engineOk h e → inBounds (gameParams e) pos →
       ∃ res h', toggleFlag e pos h = Ok (res, h'))
  ∧ (∀ fuel h f pos, wf h f → rowOutside (params f) pos →
       getCell f pos = Throw ∧ getAreaToReveal fuel h f pos = Throw)
  ∧ (∀ fuel e pos h rng, engineOk h e → rowOutside (gameParams e) pos →
       revealCell fuel e pos h rng = Throw ∧ toggleFlag e pos h = Throw)
  ∧ (∀ e pos h, engineOk h e → colOutside (gameParams e) pos →
       getCell (field e) pos = Ok None ∧ toggleFlag e pos h = Throw).
Proof.
  split_and!.
  - intros h f pos Hwf Hb. destruct (getCell_inBounds _ _ Hwf _ Hb) as (l & Hg & Hl).
    exists l. split; [done|]. by apply (wf_cell _ _ Hwf).
  - intros h f pos Hwf. exists (siblingLocs f pos).
    split; [by apply (getSiblings_wf h) | apply siblingLocs_gridLoc].
  - intros fuel h f pos Hwf Hb Hfuel.
    destruct (getAreaToReveal_spec fuel h f pos Hwf Hb Hfuel)
      as (target & area & _ & Hget & _ & Hgl & _). eauto.
  - intros fuel e pos h rng Hok Hb Hfuel. rewrite (eo_params _ _ Hok) in Hb, Hfuel.
    destruct (revealCell_run fuel e pos h rng Hok Hb Hfuel)
      as (f1 & h1 & st2 & f2 & h2 & t & changes & h3 & Hrun).
    do 2 eexists. apply Hrun.
  - intros e pos h Hok Hb. rewrite (eo_params _ _ Hok) in Hb.
    destruct (toggleFlag_run e pos h Hok Hb) as (f1 & h1 & t & fl & un & h2 & Hrun).
    do 2 eexists. apply Hrun.
  - intros fuel h f pos Hwf Hout. pose proof (getCell_rowOutside _ _ _ Hwf Hout) as Hg.
    split; [done|]. unfold getAreaToReveal. by rewrite Hg.
  - intros fuel e pos h rng [Hwf Hadj Hpar Hseed] Hout. rewrite Hpar in Hout.
    destruct (cloneSelf h (field e)) as [f1 h1] eqn:Ec.
    destruct (cloneSelf_spec _ _ _ _ Hwf Ec) as (Hp1 & Hwf1 & _ & _ & Hcell & Hmined).
    assert (getCell f1 pos = Throw) as Hg1.
    { apply (getCell_rowOutside h1); [done | by rewrite Hp1]. }
    split.
    + rewrite revealCell_phases, Ec.
      destruct (firstClick_throws fuel pos (status e) f1 h1 rng Hwf1 Hmined)
        as [[-> _]|[-> _]]; try done.
      * intros Hn. rewrite Hp1, <- Hpar. apply Hseed. intros q.
        specialize (Hn q). unfold mineAt in *. by rewrite <- Hcell.
      * intros f Hp _ Hwff. apply (getCell_rowOutside h1); [done|]. by rewrite Hp, Hp1.
      * simpl. by rewrite Hg1.
    + unfold toggleFlag. rewrite Ec. by rewrite Hg1.
  - intros e pos h [Hwf Hadj Hpar Hseed] Hout. rewrite Hpar in Hout.
    split; [by apply (getCell_colOutside h)|].
    destruct (cloneSelf h (field e)) as [f1 h1] eqn:Ec.
    destruct (cloneSelf_spec _ _ _ _ Hwf Ec) as (Hp1 & Hwf1 & _).
    unfold toggleFlag. rewrite Ec.
    rewrite (getCell_colOutside h1 f1 pos Hwf1); [done|]. by rewrite Hp1.
Qed.

(** * The solver *)

(** ** The ordered map *)

Lemma mapGet_Some {V} (k : Key) (m : list (Key * V)) v : mapGet k m = Some v → (k, v) ∈ m.
Proof.
  unfold mapGet. destruct (find _ m) as [[k' v']|] eqn:E; [|done]. simpl. intros [= <-].
  apply find_some in E as [Hin Hk]. simpl in Hk. apply bool_decide_eq_true in Hk as <-.
  by apply list_elem_of_In.
Qed.

Lemma mapGet_None {V} (k : Key) (m : list (Key * V)) : mapGet k m = None ↔ k ∉ map fst m.
Proof.
  unfold mapGet. split.
  - destruct (find _ m) as [kv|] eqn:E; [done|]. intros _ Hin.
    apply list_elem_of_In, in_map_iff in Hin as ([k' v'] & Hk & Hin). simpl in Hk. subst.
    pose proof (find_none _ _ E _ Hin) as Hn. simpl in Hn.
    by rewrite bool_decide_true in Hn.
  - intros Hn. destruct (find _ m) as [[k' v']|] eqn:E; [|done]. exfalso.
    apply find_some in E as [Hin Hk]. simpl in Hk. apply bool_decide_eq_true in Hk as <-.
    apply Hn. apply list_elem_of_In, in_map_iff. by exists (k', v').
Qed.

Lemma mapHas_false {V} (k : Key) (m : list (Key * V)) : mapHas k m = false ↔ k ∉ map fst m.
Proof.
  unfold mapHas. rewrite <- mapGet_None. rewrite bool_decide_eq_false.
  destruct (mapGet k m) as [v|] eqn:E.
  - split; [intros H; destruct H; eauto | done].
  - split; [done | intros _ [? [=]]].
Qed.

Lemma mapSet_new {V} (k : Key) (v : V) (m : list (Key * V)) :
  k ∉ map fst m → mapSet k v m = m ++ [(k, v)].
Proof.
  induction m as [|[k' v'] m IH]; intros Hn; simpl; [done|].
  rewrite bool_decide_false.
  - rewrite IH; [done|]. intros Hin. apply Hn. simpl. rewrite elem_of_cons. by right.
  - simpl. intros ->. apply Hn. simpl. rewrite elem_of_cons. by left.
Qed.

Lemma mapGet_unique {V} (k : Key) (m : list (Key * V)) v v' :
  NoDup (map fst m) → (k, v) ∈ m → mapGet k m = Some v' → v' = v.
Proof.
  induction m as [|[k0 v0] m IH]; intros Hnd Hin Hget; [by apply elem_of_nil in Hin|].
  simpl in Hnd. apply NoDup_cons in Hnd as [Hk0 Hnd].
  unfold mapGet in Hget. simpl in Hget.
  apply elem_of_cons in Hin as [[= -> ->]|Hin].
  - rewrite bool_decide_true in Hget by done. simpl in Hget. congruence.
  - case_bool_decide as E; simpl in E.
    + subst k0. exfalso. apply Hk0. apply list_elem_of_In, in_map_iff.
      exists (k, v). split; [done | by apply list_elem_of_In].
    + by apply IH.
Qed.

(** ** Counting *)

Lemma filter_length_le {A} (P Q : A → Prop) `{∀ x, Decision (P x)} `{∀ x, Decision (Q x)}
    (l : list A) :
  (∀ x, x ∈ l → P x → Q x) → (length (filter P l) ≤ length (filter Q l))%nat.
Proof.
  induction l as [|a l IH]; intros HPQ; [done|]. rewrite !filter_cons.
  assert (length (filter P l) ≤ length (filter Q l))%nat as IH'.
  { apply IH. intros x Hx. apply HPQ. rewrite elem_of_cons. by right. }
  destruct (decide (P a)) as [p|p], (decide (Q a)) as [q|q]; simpl; try lia.
  exfalso. apply q, HPQ; [rewrite elem_of_cons; by left | done].
Qed.

Lemma filter_length_eq_all {A} (P Q : A → Prop) `{∀ x, Decision (P x)}
    `{∀ x, Decision (Q x)} (l : list A) :
  (∀ x, x ∈ l → P x → Q x) → length (filter P l) = length (filter Q l) →
  ∀ x, x ∈ l → Q x → P x.
Proof.
  induction l as [|a l IH]; intros HPQ Hlen x Hx HQ; [by apply elem_of_nil in Hx|].
  assert (∀ y, y ∈ l → P y → Q y) as HPQ'.
  { intros y Hy. apply HPQ. rewrite elem_of_cons. by right. }
  pose proof (filter_length_le P Q l HPQ') as Hle.
  rewrite !filter_cons in Hlen.
  destruct (decide (P a)) as [p|p], (decide (Q a)) as [q|q]; simpl in Hlen.
  - apply elem_of_cons in Hx as [->|Hx]; [done|]. apply IH; try done. lia.
  - exfalso. apply q, HPQ; [rewrite elem_of_cons; by left | done].
  - lia.
  - apply elem_of_cons in Hx as [->|Hx]; [done|]. by apply IH.
Qed.

Lemma filter_ext_elem {A} (P Q : A → Prop) `{∀ x, Decision (P x)} `{∀ x, Decision (Q x)}
    (l : list A) :
  (∀ x, x ∈ l → P x ↔ Q x) → filter P l = filter Q l.
Proof.
  induction l as [|a l IH]; intros HPQ; [done|]. rewrite !filter_cons.
  rewrite IH by (intros x Hx; apply HPQ; rewrite elem_of_cons; by right).
  assert (P a ↔ Q a) as Ha by (apply HPQ; rewrite elem_of_cons; by left).
  destruct (decide (P a)), (decide (Q a)); try done; tauto.
Qed.

Lemma filter_length_compl {A} (P : A → Prop) `{∀ x, Decision (P x)} (l : list A) :
  (length (filter P l) + length (filter (fun x => ¬ P x) l) = length l)%nat.
Proof.
  induction l as [|a l IH]; [done|]. rewrite !filter_cons.
  destruct (decide (P a)), (decide (¬ P a)); simpl; try lia; tauto.
Qed.

(** ** The two rules *)

Lemma grew_refl probs upd : grew probs upd probs upd.
Proof. split_and!; auto. Qed.

Lemma grew_snoc probs0 upd0 probs upd kp :
  grew probs0 upd0 probs upd → grew probs0 upd0 (probs ++ [kp]) true.
Proof.
  intros (Hsub & Hlen & Hupd). split_and!.
  - intros x Hx. rewrite elem_of_app. left. by apply Hsub.
  - rewrite length_app. simpl. lia.
  - intros _. right. rewrite length_app. simpl. lia.
Qed.

Lemma probsOk_snoc f probs pos v :
  probsOk f probs → createKey pos ∉ map fst probs → inBounds (params f) pos →
  (v = 0%Q ∨ v = 1%Q) →
  probsOk f (probs ++ [(createKey pos,
                        {| MineProbability.value := v; MineProbability.position := pos |})]).
Proof.
  intros [Hnd Hent] Hnew Hb Hv. split.
  - rewrite map_app. simpl. apply NoDup_app. split_and!; [done| |apply NoDup_singleton].
    intros k Hk ->%list_elem_of_singleton. done.
  - intros k p [Hin|[= -> ->]%list_elem_of_singleton]%elem_of_app; [by apply Hent|]. done.
Qed.

Lemma hasValue_true v h (probs : Probabilities) s :
  hasValue v h probs s = true →
  ∃ p, (createKey (position (deref h s)), p) ∈ probs
       ∧ Qeq_bool (MineProbability.value p) v = true.
Proof.
  unfold hasValue. destruct (mapGet _ probs) as [p|] eqn:E; [|done].
  intros Hv. exists p. split; [by apply mapGet_Some | done].
Qed.

Lemma hasValue_false_new v h (probs : Probabilities) s :
  createKey (position (deref h s)) ∉ map fst probs → hasValue v h probs s = false.
Proof. intros Hn. unfold hasValue. by rewrite (proj2 (mapGet_None _ _) Hn). Qed.

Section Rules.
Context (h : Heap) (f : Field) (Hwf : wf h f).

Lemma mineAt_gridLoc q l : locAt f q = Some l → mineAt h f q = isMine (deref h l).
Proof. intros Hl. unfold mineAt, cellAt. by rewrite Hl. Qed.

(** The loop that marks the closed siblings. *)
Lemma markClosed_spec v closed start probs0 upd0 :
  (v = 0%Q ∨ v = 1%Q) → Forall (gridLoc f) closed →
  ∀ probs upd,
    probsOk f probs → grew probs0 upd0 probs upd →
    (∀ kp, kp ∈ start → kp ∈ probs) →
    ∃ probs' upd',
      markClosed v h closed (probs, upd) = (probs', upd') ∧
      probsOk f probs' ∧ grew probs0 upd0 probs' upd' ∧
      (probsSound h f probs →
       (∀ sib, sib ∈ closed → createKey (position (deref h sib)) ∉ map fst start →
          (v = 1%Q → isMine (deref h sib) = true)
          ∧ (v = 0%Q → isMine (deref h sib) = false)) →
       probsSound h f probs').
Proof using Hwf.
  intros Hv Hcl. induction Hcl as [|sib closed [q Hq] _ IH]; intros probs upd Hok Hg Hst.
  - exists probs, upd. by split_and!.
  - unfold markClosed. cbn [foldl].
    pose proof (locAt_position _ _ Hwf _ _ Hq) as Hpos.
    destruct (mapHas (createKey (position (deref h sib))) probs) eqn:Ehas.
    + destruct (IH probs upd Hok Hg Hst) as (probs' & upd' & E & Hok' & Hg' & Hs').
      exists probs', upd'. split; [exact E|]. split_and!; try done.
      intros Hs Hrule. apply Hs'; [done|]. intros s Hs0. apply Hrule.
      rewrite elem_of_cons. by right.
    + apply mapHas_false in Ehas. rewrite (mapSet_new _ _ _ Ehas).
      set (entry := (createKey (position (deref h sib)),
                     {| MineProbability.value := v;
                        MineProbability.position := position (deref h sib) |})).
      assert (probsOk f (probs ++ [entry])) as Hok1.
      { apply probsOk_snoc; try done. rewrite Hpos. by eapply locAt_inBounds. }
      destruct (IH (probs ++ [entry]) true Hok1 (grew_snoc _ _ _ _ entry Hg))
        as (probs' & upd' & E & Hok' & Hg' & Hs').
      { intros kp Hkp. rewrite elem_of_app. left. by apply Hst. }
      exists probs', upd'. split; [exact E|]. split_and!; try done.
      intros Hs Hrule. apply Hs'.
      * intros k p [Hin|[= -> ->]%list_elem_of_singleton]%elem_of_app;
          [by apply (Hs k p)|].
        simpl. rewrite Hpos, (mineAt_gridLoc _ _ Hq).
        apply Hrule; [rewrite elem_of_cons; by left|].
        intros Hin. apply Ehas.
        apply list_elem_of_In, in_map_iff in Hin as (kp & Hk & Hin).
        apply list_elem_of_In, in_map_iff. exists kp. split; [done|].
        by apply list_elem_of_In, Hst, list_elem_of_In.
      * intros s Hs0. apply Hrule. rewrite elem_of_cons. by right.
Qed.

(** An entry with value [v] under the key of a sibling speaks of it. *)
Lemma hasValue_sound v probs q l :
  (v = 0%Q ∨ v = 1%Q) → probsOk f probs → probsSound h f probs →
  locAt f q = Some l → hasValue v h probs l = true →
  (v = 1%Q → isMine (deref h l) = true) ∧ (v = 0%Q → isMine (deref h l) = false).
Proof using Hwf.
  intros Hv Hok Hs Hl (p & Hin & Heq)%hasValue_true.
  destruct (po_entry _ _ Hok _ _ Hin) as (Hk & _ & Hval).
  apply createKey_inj in Hk. rewrite (locAt_position _ _ Hwf _ _ Hl) in Hk.
  destruct (Hs _ _ Hin) as [H1 H0]. rewrite <- Hk, (mineAt_gridLoc _ _ Hl) in H1, H0.
  destruct Hv as [-> | ->], Hval as [E|E]; rewrite E in Heq; try done;
    (split; intros Hc; [by (discriminate Hc || apply H1) | by (discriminate Hc || apply H0)]).
Qed.

Lemma closed_gridLoc pos :
  Forall (gridLoc f)
    (filter (fun s => isRevealed (deref h s) = false) (siblingLocs f pos)).
Proof.
  apply Forall_forall. intros l [_ Hl]%list_elem_of_filter.
  pose proof (siblingLocs_gridLoc f pos) as Hall. rewrite Forall_forall in Hall.
  by apply Hall.
Qed.

(** The number of a cell counts the mines among its sibling references. *)
Lemma adjacency_locs q c :
  adjacencyOk h f → cellAt h f q = Some c →
  adjacentMines c
  = Z.of_nat (length (filter (fun s => isMine (deref h s) = true) (siblingLocs f q))).
Proof using Hwf.
  intros Hadj Hc. rewrite (Hadj _ _ Hc). unfold minedSiblings. f_equal.
  eapply Forall2_filter_length; [by apply (siblingLocs_fmap h)|].
  intros x y Hxy. by rewrite (mineAt_gridLoc _ _ Hxy).
Qed.

(** Certain-mine rule: when the number equals the count of closed
    siblings not known to be safe, each of those is a mine. *)
Lemma certainMines_rule q c probs :
  adjacencyOk h f → noExploded h f → probsOk f probs → probsSound h f probs →
  cellAt h f q = Some c →
  let closed := filter (fun s => isRevealed (deref h s) = false) (siblingLocs f q) in
  let knownSafe := filter (fun s => hasValue 0 h probs s = true) closed in
  adjacentMines c = Z.of_nat (length closed) - Z.of_nat (length knownSafe) →
  ∀ sib, sib ∈ closed → createKey (position (deref h sib)) ∉ map fst probs →
    isMine (deref h sib) = true.
Proof using Hwf.
  intros Hadj Hno Hok Hs Hc closed knownSafe Hrule sib Hsib Hnew.
  pose proof (closed_gridLoc q) as Hgl. rewrite Forall_forall in Hgl.
  apply (filter_length_eq_all (fun s => isMine (deref h s) = true)
           (fun s => ¬ hasValue 0 h probs s = true) closed); try done.
  - intros x Hx Hm Hv. destruct (Hgl _ Hx) as [qx Hqx].
    destruct (hasValue_sound 0 probs qx x) as [_ H0]; auto. rewrite H0 in Hm; done.
  - pose proof (filter_length_compl (fun s => hasValue 0 h probs s = true) closed) as Hcompl.
    fold knownSafe in Hcompl.
    assert (length (filter (fun s => isMine (deref h s) = true) closed)
            = length (filter (fun s => isMine (deref h s) = true) (siblingLocs f q)))
      as Hmined.
    { unfold closed. rewrite list_filter_filter. f_equal. apply filter_ext_elem.
      intros x Hx. split; [by intros [? _]|]. intros Hm. split; [done|].
      destruct (isRevealed (deref h x)) eqn:Er; [|done]. exfalso.
      (* a revealed mine among the siblings would be an exploded cell *)
      apply siblingLocs_locAt in Hx as (qx & _ & Hqx).
      assert (cellAt h f qx = Some (deref h x)) as Hcx by (unfold cellAt; by rewrite Hqx).
      apply Hno in Hcx. unfold isExploded in Hcx. by rewrite Hm, Er in Hcx. }
    rewrite (adjacency_locs _ _ Hadj Hc) in Hrule. lia.
  - by rewrite (hasValue_false_new 0 h probs sib Hnew).
Qed.

(** Certain-safe rule: when the siblings known to be mines are as many
    as the number says, every other closed sibling is safe. *)
Lemma certainSafe_rule q c probs :
  adjacencyOk h f → probsOk f probs → probsSound h f probs →
  cellAt h f q = Some c →
  let closed := filter (fun s => isRevealed (deref h s) = false) (siblingLocs f q) in
  let knownMines := filter (fun s => hasValue 1 h probs s = true) closed in
  Z.of_nat (length knownMines) = adjacentMines c →
  ∀ sib, sib ∈ closed → createKey (position (deref h sib)) ∉ map fst probs →
    isMine (deref h sib) = false.
Proof using Hwf.
  intros Hadj Hok Hs Hc closed knownMines Hrule sib Hsib Hnew.
  pose proof (closed_gridLoc q) as Hgl. rewrite Forall_forall in Hgl.
  destruct (isMine (deref h sib)) eqn:Em; [|done]. exfalso.
  assert (hasValue 1 h probs sib = true) as Hv.
  { apply (filter_length_eq_all (fun s => hasValue 1 h probs s = true)
             (fun s => isMine (deref h s) = true) closed); try done.
    - intros x Hx Hv. destruct (Hgl _ Hx) as [qx Hqx].
      destruct (hasValue_sound 1 probs qx x) as [H1 _]; auto.
    - assert (length (filter (fun s => isMine (deref h s) = true) closed)
              ≤ length (filter (fun s => isMine (deref h s) = true) (siblingLocs f q)))%nat
        as Hle.
      { unfold closed. rewrite list_filter_filter. apply filter_length_le.
        by intros x _ [? _]. }
      assert (length knownMines
              ≤ length (filter (fun s => isMine (deref h s) = true) closed))%nat as Hle'.
      { apply filter_length_le. intros x Hx Hv. destruct (Hgl _ Hx) as [qx Hqx].
        destruct (hasValue_sound 1 probs qx x) as [H1 _]; auto. }
      rewrite (adjacency_locs _ _ Hadj Hc) in Hrule. fold knownMines. lia. }
  by rewrite (hasValue_false_new 1 h probs sib Hnew) in Hv.
Qed.

Lemma inferCertainMines_spec probs0 upd0 cells :
  cellsOf h f cells →
  ∀ probs upd,
    probsOk f probs → grew probs0 upd0 probs upd →
    ∃ probs' upd',
      inferCertainMines h f cells probs upd = Ok (probs', upd') ∧
      probsOk f probs' ∧ grew probs0 upd0 probs' upd' ∧
      (adjacencyOk h f → noExploded h f → probsSound h f probs → probsSound h f probs').
Proof using Hwf.
  induction cells as [|cell cells IH]; intros Hcells probs upd Hok Hg.
  - exists probs, upd. by split_and!.
  - assert (cellsOf h f cells) as Hcells'.
    { intros c Hc. apply Hcells. rewrite elem_of_cons. by right. }
    destruct (Hcells cell) as [Hrev [q Hq]]; [rewrite elem_of_cons; by left|].
    simpl. destruct (isEmpty cell || isMine cell) eqn:Eskip; [by apply IH|].
    rewrite (cellAt_position _ _ Hwf _ _ Hq), (getSiblings_wf _ _ Hwf). simpl.
    set (closed := filter (fun s => isRevealed (deref h s) = false) (siblingLocs f q)).
    destruct (length closed =? 0)%nat; [by apply IH|].
    destruct (Z.eqb_spec (adjacentMines cell)
                (Z.of_nat (length closed)
                 - Z.of_nat (length (filter (fun s => hasValue 0 h probs s = true) closed))))
      as [Hrule|_]; [|by apply IH].
    destruct (markClosed_spec 1 closed probs probs0 upd0 (or_intror eq_refl)
                (closed_gridLoc q) probs upd Hok Hg)
      as (probs1 & upd1 & -> & Hok1 & Hg1 & Hs1); [done|].
    destruct (IH Hcells' probs1 upd1 Hok1 Hg1) as (probs' & upd' & E & Hok' & Hg' & Hs').
    exists probs', upd'. split; [done|]. split_and!; try done.
    intros Hadj Hno Hs. apply Hs'; try done. apply Hs1; [done|].
    intros sib Hsib Hnew. split; [|discriminate]. intros _.
    by eapply (certainMines_rule q cell probs).
Qed.

Lemma inferCertainSafeCells_spec probs0 upd0 cells :
  cellsOf h f cells →
  ∀ probs upd,
    probsOk f probs → grew probs0 upd0 probs upd →
    ∃ probs' upd',
      inferCertainSafeCells h f cells probs upd = Ok (probs', upd') ∧
      probsOk f probs' ∧ grew probs0 upd0 probs' upd' ∧
      (adjacencyOk h f → probsSound h f probs → probsSound h f probs').
Proof using Hwf.
  induction cells as [|cell cells IH]; intros Hcells probs upd Hok Hg.
  - exists probs, upd. by split_and!.
  - assert (cellsOf h f cells) as Hcells'.
    { intros c Hc. apply Hcells. rewrite elem_of_cons. by right. }
    destruct (Hcells cell) as [Hrev [q Hq]]; [rewrite elem_of_cons; by left|].
    simpl. destruct (isEmpty cell || isMine cell) eqn:Eskip; [by apply IH|].
    rewrite (cellAt_position _ _ Hwf _ _ Hq), (getSiblings_wf _ _ Hwf). simpl.
    set (closed := filter (fun s => isRevealed (deref h s) = false) (siblingLocs f q)).
    destruct (length closed =? 0)%nat; [by apply IH|].
    destruct (Z.eqb_spec
                (Z.of_nat (length (filter (fun s => hasValue 1 h probs s = true) closed)))
                (adjacentMines cell)) as [Hrule|_]; [|by apply IH].
    destruct (markClosed_spec 0 closed probs probs0 upd0 (or_introl eq_refl)
                (closed_gridLoc q) probs upd Hok Hg)
      as (probs1 & upd1 & -> & Hok1 & Hg1 & Hs1); [done|].
    destruct (IH Hcells' probs1 upd1 Hok1 Hg1) as (probs' & upd' & E & Hok' & Hg' & Hs').
    exists probs', upd'. split; [done|]. split_and!; try done.
    intros Hadj Hs. apply Hs'; try done. apply Hs1; [done|].
    intros sib Hsib Hnew. split; [discriminate|]. intros _.
    by eapply (certainSafe_rule q cell probs).
Qed.

(** A well-formed map has at most one entry per position of the grid. *)
Lemma probsOk_length probs :
  probsOk f probs → (length probs ≤ rows (params f) * cols (params f))%nat.
Proof.
  intros [Hnd Hent]. rewrite <- (length_map fst), <- length_allPositions.
  rewrite <- (length_fmap createKey (allPositions (params f))).
  apply submseteq_length, NoDup_submseteq; [done|].
  intros k (kp & <- & Hin)%list_elem_of_In%in_map_iff. destruct kp as [k p].
  apply list_elem_of_In in Hin. destruct (Hent _ _ Hin) as (-> & Hb & _). simpl.
  apply list_elem_of_fmap. exists (MineProbability.position p).
  split; [done | by apply elem_of_allPositions].
Qed.

(** The passes stop: each pass that reports a change has added an entry. *)
Lemma solveLoop_spec fuel cells :
  cellsOf h f cells →
  ∀ probs,
    probsOk f probs →
    (rows (params f) * cols (params f) - length probs < fuel)%nat →
    ∃ probs',
      solveLoop fuel h f cells probs = Ok probs' ∧ probsOk f probs' ∧
      (adjacencyOk h f → noExploded h f → probsSound h f probs → probsSound h f probs').
Proof using Hwf.
  intros Hcells. induction fuel as [|fuel IH]; intros probs Hok Hfuel; [lia|].
  simpl.
  destruct (inferCertainMines_spec probs false cells Hcells probs false Hok
              (grew_refl _ _)) as (probs1 & m & -> & Hok1 & Hg1 & Hs1).
  simpl.
  destruct (inferCertainSafeCells_spec probs false cells Hcells probs1 m Hok1 Hg1)
    as (probs2 & s & E & Hok2 & Hg2 & Hs2).
  (* the second rule starts with its own flag *)
  destruct (inferCertainSafeCells_spec probs1 false cells Hcells probs1 false Hok1
              (grew_refl _ _)) as (probs2' & s' & -> & Hok2' & Hg2' & Hs2').
  simpl. destruct Hg1 as (_ & Hl1 & Hu1), Hg2' as (_ & Hl2 & Hu2).
  destruct (m || s') eqn:Ech.
  - destruct (IH probs2' Hok2') as (probs' & -> & Hok' & Hs').
    + pose proof (probsOk_length _ Hok2').
      apply orb_true_iff in Ech as [->| ->].
      * destruct (Hu1 eq_refl) as [?|?]; [done|lia].
      * destruct (Hu2 eq_refl) as [?|?]; [done|lia].
    + exists probs'. split_and!; try done. intros Hadj Hno Hs.
      apply Hs'; try done. apply Hs2'; [done|]. by apply Hs1.
  - exists probs2'. split_and!; try done. intros Hadj Hno Hs.
    apply Hs2'; [done|]. by apply Hs1.
Qed.
End Rules.

Lemma noExplodedb_sound h f : wf h f → noExplodedb h f = true → noExploded h f.
Proof.
  unfold noExplodedb. rewrite forallb_forall. intros Hwf H pos c Hc.
  assert (inBounds (params f) pos) as Hb by (apply (cellAt_is_Some _ _ Hwf); eauto).
  apply elem_of_allPositions, list_elem_of_In, H in Hb. rewrite Hc in Hb.
  by apply negb_true_iff.
Qed.

Lemma cellsOf_revealed h f : cellsOf h f (FieldState.revealedCells (getState h f)).
Proof.
  intros c Hc. simpl in Hc. apply list_elem_of_filter in Hc as [Hrev Hc].
  split; [done|]. by apply elem_of_getData.
Qed.

(** [solve] returns; it reports only 0 and 1; what it reports is true when
    the numbers of the field are right and no mine is revealed. *)
Lemma solve_spec fuel s h :
  wf h (solver_field s) →
  (rows (params (solver_field s)) * cols (params (solver_field s)) < fuel)%nat →
  ∃ out, solve fuel s h = Ok out ∧ certainOnly (solver_field s) out ∧
    (adjacencyOk h (solver_field s) → noExploded h (solver_field s) →
     reportSound h (solver_field s) out).
Proof.
  intros Hwf Hfuel. unfold solve.
  assert (probsOk (solver_field s) []) as Hok0.
  { split; [constructor|]. intros k p Hin. by apply elem_of_nil in Hin. }
  destruct (solveLoop_spec h (solver_field s) Hwf fuel _ (cellsOf_revealed _ _) [] Hok0)
    as (probs & -> & Hok & Hs); [simpl; lia|].
  exists (mapValues probs). split; [done|].
  assert (∀ p, p ∈ mapValues probs → ∃ k, (k, p) ∈ probs) as Hin.
  { intros p (kp & <- & Hkp)%list_elem_of_In%in_map_iff. destruct kp as [k p'].
    exists k. by apply list_elem_of_In. }
  split.
  - intros p [k Hk]%Hin. by destruct (po_entry _ _ Hok _ _ Hk) as (_ & ? & ?).
  - intros Hadj Hno p [k Hk]%Hin.
    destruct (po_entry _ _ Hok _ _ Hk) as (_ & _ & Hv).
    destruct (Hs Hadj Hno) with (k := k) (p := p) as [H1 H0]; [|done|].
    { intros ? ? Hnil. by apply elem_of_nil in Hnil. }
    split; intros Hq; destruct Hv as [E|E]; rewrite E in Hq; auto; discriminate Hq.
Qed.

(** [1 << n] is [2 ^ n] up to 30 variables, so the enumeration makes that
    many assignments. *)
Lemma shl32_small n : 0 <= n <= 30 → shl32 1 n = 2 ^ n.
Proof.
  intros Hn. unfold shl32. change (toInt32 1) with 1.
  rewrite Z.mod_small by lia. rewrite Z.shiftl_1_l. unfold toInt32.
  assert (0 < 2 ^ n) by (apply Z.pow_pos_nonneg; lia).
  assert (2 ^ n < 2 ^ 31) by (apply Z.pow_lt_mono_r; lia).
  assert (2 ^ 31 < 2 ^ 32) by (apply Z.pow_lt_mono_r; lia).
  rewrite Z.mod_small by lia. cbv zeta.
  destruct (Z.ltb_spec (2 ^ n) (2 ^ 31)); [done | lia].
Qed.

Lemma length_generateAllAssignments variables :
  length (generateAllAssignments variables)
  = Z.to_nat (shl32 1 (Z.of_nat (length variables))).
Proof. unfold generateAllAssignments. cbv zeta. by rewrite length_map, length_seq. Qed.

Lemma toInt32_small z : 0 <= z < 2 ^ 31 → toInt32 z = z.
Proof.
  intros Hz. unfold toInt32. assert (2 ^ 31 < 2 ^ 32) by (apply Z.pow_lt_mono_r; lia).
  rewrite Z.mod_small by lia. cbv zeta. destruct (Z.ltb_spec z (2 ^ 31)); [done | lia].
Qed.

(** [(i >> j) & 1] is the bit [j] of [i]. *)
Lemma bit32 i j :
  0 <= i < 2 ^ 31 → 0 <= j < 32 → (and32 (sar32 i j) 1 =? 1) = Z.testbit i j.
Proof.
  intros Hi Hj. unfold and32, sar32.
  rewrite (toInt32_small i Hi), (Z.mod_small j 32) by lia.
  assert (0 <= Z.shiftr i j < 2 ^ 31) as Hs.
  { split; [apply Z.shiftr_nonneg; lia|].
    rewrite Z.shiftr_div_pow2 by lia.
    apply Z.le_lt_trans with i; [|lia].
    apply Z.div_le_upper_bound; [apply Z.pow_pos_nonneg; lia|].
    assert (0 < 2 ^ j) by (apply Z.pow_pos_nonneg; lia). nia. }
  rewrite (toInt32_small _ Hs). change (toInt32 1) with 1.
  change 1 with (Z.ones 1) at 1. rewrite Z.land_ones by lia.
  change (2 ^ 1) with 2. rewrite <- Z.bit0_mod, Z.shiftr_spec by lia. rewrite Z.add_0_l.
  assert (0 <= Z.b2z (Z.testbit i j) < 2 ^ 31) as Hb by (destruct (Z.testbit i j); simpl; lia).
  rewrite (toInt32_small _ Hb). by destruct (Z.testbit i j).
Qed.

Lemma fst_imap {A B} (g : nat → A → B) (l : list A) :
  map fst (imap (fun j v => (v, g j v)) l) = l.
Proof.
  revert g. induction l as [|v l IH]; intros g; [done|]. simpl. f_equal. apply IH.
Qed.

(** The inner loop builds the assignment of number [i]: the variables in
    their order, each with its bit. *)
Lemma assignment_loop (variables : list Key) i m :
  NoDup variables → 0 <= i < 2 ^ 31 → (length variables ≤ 30)%nat →
  (m ≤ length variables)%nat →
  foldl (fun assignment j =>
           let bit := and32 (sar32 i (Z.of_nat j)) 1 in
           match variables !! j with
           | Some v => mapSet v (bit =? 1) assignment
           | None => assignment
           end) [] (seq 0 m)
  = imap (fun j v => (v, Z.testbit i (Z.of_nat j))) (take m variables).
Proof.
  intros Hnd Hi Hlen. induction m as [|m IH]; intros Hm; [by rewrite take_0|].
  rewrite seq_S, foldl_app, IH by lia. simpl.
  destruct (lookup_lt_is_Some_2 variables m) as [v Hv]; [lia|]. rewrite Hv.
  rewrite bit32 by lia. rewrite (take_S_r _ _ _ Hv), imap_app. simpl.
  rewrite length_take, Nat.min_l, Nat.add_0_r by lia.
  apply mapSet_new. rewrite fst_imap. intros Hin.
  apply list_elem_of_lookup in Hin as [j Hj].
  apply lookup_take_Some in Hj as [Hj Hlt].
  pose proof (NoDup_lookup _ _ _ _ Hnd Hj Hv). lia.
Qed.

Lemma encode_bounds val variables :
  0 <= encode val variables < 2 ^ Z.of_nat (length variables).
Proof.
  induction variables as [|v vs IH]; [simpl; lia|].
  cbn [encode length]. rewrite Nat2Z.inj_succ, Z.pow_succ_r by lia.
  destruct (val v); simpl; lia.
Qed.

Lemma encode_bits val variables :
  imap (fun j v => (v, Z.testbit (encode val variables) (Z.of_nat j))) variables
  = map (fun v => (v, val v)) variables.
Proof.
  induction variables as [|v vs IH]; [done|]. cbn [encode imap map]. f_equal.
  - f_equal. apply Z.testbit_0_r.
  - rewrite <- IH. apply imap_ext. intros j w _. unfold compose. f_equal.
    rewrite Nat2Z.inj_succ. apply Z.testbit_succ_r. lia.
Qed.

(** The assignment of number [i], for up to 30 distinct variables. *)
Lemma generateAllAssignments_lookup (variables : list Key) (i : nat) :
  NoDup variables → (length variables ≤ 30)%nat →
  Z.of_nat i < 2 ^ Z.of_nat (length variables) →
  generateAllAssignments variables !! i
  = Some (imap (fun j v => (v, Z.testbit (Z.of_nat i) (Z.of_nat j))) variables).
Proof.
  intros Hnd Hlen Hi.
  assert (2 ^ Z.of_nat (length variables) <= 2 ^ 30) as Hpow
    by (apply Z.pow_le_mono_r; lia).
  assert (2 ^ 30 < 2 ^ 31) as Hlt by (apply Z.pow_lt_mono_r; lia).
  unfold generateAllAssignments. cbv zeta.
  rewrite shl32_small by lia.
  change (map ?g ?l) with (g <$> l). rewrite list_lookup_fmap.
  rewrite lookup_seq_lt by lia. cbn [fmap option_fmap option_map Nat.add]. f_equal.
  pose proof (assignment_loop variables (Z.of_nat i) (length variables)
                Hnd ltac:(lia) Hlen ltac:(lia)) as Hloop.
  cbv zeta in Hloop. rewrite Hloop. by rewrite firstn_all.
Qed.

(** ** The loop of [solve] stops at a fixed point of the rules *)

Lemma markClosed_raised v h closed probs :
  ∀ probs' upd', markClosed v h closed (probs, true) = (probs', upd') → upd' = true.
Proof.
  revert probs. induction closed as [|sib closed IH]; intros probs probs' upd'.
  - by intros [= _ <-].
  - unfold markClosed. cbn [foldl].
    destruct (mapHas (createKey (position (deref h sib))) probs); apply IH.
Qed.

Lemma markClosed_unchanged v h closed probs upd probs' :
  markClosed v h closed (probs, upd) = (probs', false) → probs' = probs ∧ upd = false.
Proof.
  revert probs upd. induction closed as [|sib closed IH]; intros probs upd.
  - by intros [= <- <-].
  - unfold markClosed. cbn [foldl].
    destruct (mapHas (createKey (position (deref h sib))) probs); [apply IH|].
    intros E. by apply markClosed_raised in E.
Qed.

(** A pass of a rule that reports no change has left the map as it was. *)
Lemma inferCertainMines_unchanged h f cells :
  ∀ probs upd probs',
    inferCertainMines h f cells probs upd = Ok (probs', false) →
    probs' = probs ∧ upd = false.
Proof.
  induction cells as [|cell cells IH]; intros probs upd probs'.
  - by intros [= <- <-].
  - simpl. destruct (isEmpty cell || isMine cell); [apply IH|].
    intros (siblings & _ & E)%bind_Ok. revert E.
    destruct (length _ =? 0)%nat; [apply IH|].
    destruct (_ =? _); [|apply IH].
    destruct (markClosed 1 h _ (probs, upd)) as [probs1 upd1] eqn:Em.
    intros [-> ->]%IH. by apply markClosed_unchanged in Em.
Qed.

Lemma inferCertainSafeCells_unchanged h f cells :
  ∀ probs upd probs',
    inferCertainSafeCells h f cells probs upd = Ok (probs', false) →
    probs' = probs ∧ upd = false.
Proof.
  induction cells as [|cell cells IH]; intros probs upd probs'.
  - by intros [= <- <-].
  - simpl. destruct (isEmpty cell || isMine cell); [apply IH|].
    intros (siblings & _ & E)%bind_Ok. revert E.
    destruct (length _ =? 0)%nat; [apply IH|].
    destruct (_ =? _); [|apply IH].
    destruct (markClosed 0 h _ (probs, upd)) as [probs1 upd1] eqn:Em.
    intros [-> ->]%IH. by apply markClosed_unchanged in Em.
Qed.

(** The loop runs the rounds that add an entry, at most one for each cell
    the map still lacks, and stops at a map that neither rule changes. *)
Lemma solveLoop_rounds h f fuel cells :
  wf h f → cellsOf h f cells →
  ∀ probs0,
    probsOk f probs0 →
    (rows (params f) * cols (params f) - length probs0 < fuel)%nat →
    ∃ n probs,
      (n ≤ rows (params f) * cols (params f) - length probs0)%nat
      ∧ afterRounds n h f cells probs0 = Some probs
      ∧ inferCertainMines h f cells probs false = Ok (probs, false)
      ∧ inferCertainSafeCells h f cells probs false = Ok (probs, false)
      ∧ solveLoop fuel h f cells probs0 = Ok probs
      ∧ probsOk f probs.
Proof.
  intros Hwf Hcells. induction fuel as [|fuel IH]; intros probs0 Hok Hfuel; [lia|].
  destruct (inferCertainMines_spec h f Hwf probs0 false cells Hcells probs0 false Hok
              (grew_refl _ _)) as (probs1 & m & E1 & Hok1 & Hg1 & _).
  destruct (inferCertainSafeCells_spec h f Hwf probs1 false cells Hcells probs1 false Hok1
              (grew_refl _ _)) as (probs2 & s & E2 & Hok2 & Hg2 & _).
  assert (solveRound h f cells probs0 = Ok (probs2, m || s)) as Eround.
  { unfold solveRound. rewrite E1. simpl. rewrite E2. done. }
  cbn [solveLoop]. rewrite E1. simpl. rewrite E2. simpl.
  destruct Hg1 as (_ & Hl1 & Hu1), Hg2 as (_ & Hl2 & Hu2).
  pose proof (probsOk_length f _ Hok2) as Hmax.
  destruct (m || s) eqn:Ech.
  - assert (length probs0 < length probs2)%nat as Hlt.
    { apply orb_true_iff in Ech as [->| ->].
      - destruct (Hu1 eq_refl) as [?|?]; [done|lia].
      - destruct (Hu2 eq_refl) as [?|?]; [done|lia]. }
    destruct (IH probs2 Hok2) as (n & probs & Hn & Hafter & F1 & F2 & Eloop & Hok');
      [lia|].
    exists (S n), probs. split_and!; try done; [lia|].
    cbn [afterRounds]. rewrite Eround. exact Hafter.
  - apply orb_false_iff in Ech as [-> ->].
    destruct (inferCertainMines_unchanged _ _ _ _ _ _ E1) as [-> _].
    destruct (inferCertainSafeCells_unchanged _ _ _ _ _ _ E2) as [-> _].
    exists 0%nat, probs0. split_and!; try done. lia.
Qed.


(** * The solver *)

(** C8 (amended) — Solver soundness.  On a well-formed field whose numbers
    are right (every [adjacentMines] is the number of mined neighbours) and
    on which no mine is revealed, [solve] returns, and every position it
    reports with value 0 is not a mine and every position it reports with
    value 1 is a mine.  A revealed mine is not among the closed neighbours
    the rules count, so without the last condition the rules can
    misclassify. *)
Theorem solver_sound_when_no_mine_revealed fuel s h :
  wf h (solver_field s) →
  adjacencyOk h (solver_field s) →
  noExploded h (solver_field s) →
  (rows (params (solver_field s)) * cols (params (solver_field s)) < fuel)%nat →
  ∃ out, solve fuel s h = Ok out ∧ reportSound h (solver_field s) out.
Proof.
  intros Hwf Hadj Hno Hfuel.
  destruct (solve_spec fuel s h Hwf Hfuel) as (out & Hsolve & _ & Hsound).
  exists out. split; [done | by apply Hsound].
Qed.

(** The rules settle the row whose right cell is revealed and empty: the
    mine is reported on the left, where it is. *)
Lemma solver_sound_when_no_mine_revealed_witness :
  ∃ out, solve 4 (solverOf settledRow).1 (solverOf settledRow).2 = Ok out
         ∧ reportSound (solverOf settledRow).2 (solver_field (solverOf settledRow).1) out.
Proof.
  assert (wf (solverOf settledRow).2 (solver_field (solverOf settledRow).1)) as Hwf
    by (apply wfb_sound; vm_compute; reflexivity).
  apply (solver_sound_when_no_mine_revealed 4 (solverOf settledRow).1 (solverOf settledRow).2).
  - exact Hwf.
  - apply adjacencyOkb_sound; [exact Hwf | vm_compute; reflexivity].
  - apply noExplodedb_sound; [exact Hwf | vm_compute; reflexivity].
  - vm_compute. lia.
Defined.

(** C8, as stated, fails: the solver built over a lost game, in which the
    mine on the left is revealed and the numbers are right, reports the safe
    closed cell on the right as a mine. *)
Lemma solver_misreports_beside_revealed_mine :
  ∃ s h,
    newSolver 1 lostRow [] demoRng = Ok (s, h, demoRng)
    ∧ wf h (solver_field s) ∧ adjacencyOk h (solver_field s)
    ∧ solve 4 s h = Ok [{| MineProbability.value := 1;
                           MineProbability.position := at_ 2 0 |}]
    ∧ mineAt h (solver_field s) (at_ 2 0) = false.
Proof.
  exists (solverOf lostRow).1, (solverOf lostRow).2.
  assert (wf (solverOf lostRow).2 (solver_field (solverOf lostRow).1)) as Hwf
    by (apply wfb_sound; vm_compute; reflexivity).
  split_and!.
  - vm_compute. reflexivity.
  - exact Hwf.
  - apply adjacencyOkb_sound; [exact Hwf | vm_compute; reflexivity].
  - vm_compute. reflexivity.
  - vm_compute. reflexivity.
Qed.

(** C9 (amended) — What [solve] does: the two rules, round after round, and
    nothing else.  On a well-formed field [solve] returns the values of the
    map that the rounds of the certain-mine and the certain-safe rule build
    from the empty map: every round but the last adds an entry, there are
    at most as many such rounds as the grid has cells, and the map returned
    is one that neither rule changes any more.  Its values are all 0 or 1;
    no assignment is enumerated and nothing fails.  The enumeration helper
    [generateAllAssignments] has no ceiling: for up to 30 variables it
    builds [2 ^ n] assignments, for distinct variables every way of giving
    them truth values, and for 31 variables, where [1 << 31] is negative,
    it builds none. *)
Theorem solve_applies_only_certain_rules :
  (∀ fuel s h,
     wf h (solver_field s) →
     (rows (params (solver_field s)) * cols (params (solver_field s)) < fuel)%nat →
     ∃ n probs,
       (n ≤ rows (params (solver_field s)) * cols (params (solver_field s)))%nat
       ∧ afterRounds n h (solver_field s)
           (FieldState.revealedCells (getState h (solver_field s))) [] = Some probs
       ∧ inferCertainMines h (solver_field s)
           (FieldState.revealedCells (getState h (solver_field s))) probs false
         = Ok (probs, false)
       ∧ inferCertainSafeCells h (solver_field s)
           (FieldState.revealedCells (getState h (solver_field s))) probs false
         = Ok (probs, false)
       ∧ solve fuel s h = Ok (mapValues probs)
       ∧ certainOnly (solver_field s) (mapValues probs))
  ∧ (∀ variables, (length variables ≤ 30)%nat →
       Z.of_nat (length (generateAllAssignments variables))
       = 2 ^ Z.of_nat (length variables))
  ∧ (∀ variables, NoDup variables → (length variables ≤ 30)%nat →
       ∀ val : Key → bool,
         map (fun v => (v, val v)) variables ∈ generateAllAssignments variables)
  ∧ (∀ variables, length variables = 31%nat → generateAllAssignments variables = []).
Proof.
  split_and!.
  - intros fuel s h Hwf Hfuel.
    assert (probsOk (solver_field s) []) as Hok0.
    { split; [constructor|]. intros k p Hin. by apply elem_of_nil in Hin. }
    destruct (solveLoop_rounds h (solver_field s) fuel _ Hwf (cellsOf_revealed _ _) [] Hok0)
      as (n & probs & Hn & Hafter & F1 & F2 & Eloop & Hok); [simpl; lia|].
    exists n, probs. split_and!; try done.
    + simpl in Hn. lia.
    + unfold solve. cbv zeta. by rewrite Eloop.
    + intros p (kp & <- & Hkp)%list_elem_of_In%in_map_iff. destruct kp as [k p'].
      apply list_elem_of_In in Hkp.
      by destruct (po_entry _ _ Hok _ _ Hkp) as (_ & ? & ?).
  - intros variables Hlen. rewrite length_generateAllAssignments.
    rewrite shl32_small by lia. rewrite Z2Nat.id; [done|].
    apply Z.pow_nonneg. lia.
  - intros variables Hnd Hlen val. pose proof (encode_bounds val variables) as Hb.
    apply list_elem_of_lookup. exists (Z.to_nat (encode val variables)).
    rewrite generateAllAssignments_lookup by (try done; lia).
    rewrite Z2Nat.id by lia. by rewrite encode_bits.
  - intros variables Hlen. unfold generateAllAssignments. cbv zeta. rewrite Hlen.
    change (Z.to_nat (shl32 1 (Z.of_nat 31))) with 0%nat. done.
Qed.

(** On the row of four the rules need one round that adds entries: the 1
    on the left pins the mine, the other 1 then clears the last cell, and
    [solve] reports both. *)
Lemma solve_applies_only_certain_rules_witness :
  (∃ n probs,
     (n ≤ rows (params (solver_field (solverOf solvableRow).1))
          * cols (params (solver_field (solverOf solvableRow).1)))%nat
     ∧ afterRounds n (solverOf solvableRow).2 (solver_field (solverOf solvableRow).1)
         (FieldState.revealedCells
            (getState (solverOf solvableRow).2 (solver_field (solverOf solvableRow).1))) []
       = Some probs
     ∧ inferCertainMines (solverOf solvableRow).2 (solver_field (solverOf solvableRow).1)
         (FieldState.revealedCells
            (getState (solverOf solvableRow).2 (solver_field (solverOf solvableRow).1)))
         probs false
       = Ok (probs, false)
     ∧ inferCertainSafeCells (solverOf solvableRow).2 (solver_field (solverOf solvableRow).1)
         (FieldState.revealedCells
            (getState (solverOf solvableRow).2 (solver_field (solverOf solvableRow).1)))
         probs false
       = Ok (probs, false)
     ∧ solve 5 (solverOf solvableRow).1 (solverOf solvableRow).2 = Ok (mapValues probs)
     ∧ certainOnly (solver_field (solverOf solvableRow).1) (mapValues probs))
  ∧ solve 5 (solverOf solvableRow).1 (solverOf solvableRow).2
    = Ok [{| MineProbability.value := 1; MineProbability.position := at_ 1 0 |};
          {| MineProbability.value := 0; MineProbability.position := at_ 3 0 |}].
Proof.
  split.
  - apply (proj1 solve_applies_only_certain_rules
             5%nat (solverOf solvableRow).1 (solverOf solvableRow).2).
    + apply wfb_sound. vm_compute. reflexivity.
    + vm_compute. lia.
  - vm_compute. reflexivity.
Defined.

(** C9, as stated, fails: on the row whose mine can be on either side of
    the revealed 1, the rules settle nothing and [solve] reports nothing,
    where the enumeration over the two closed cells would report one half
    for each. *)
Lemma solve_skips_enumeration :
  ∃ s h,
    newSolver 1 ambiguousRow [] demoRng = Ok (s, h, demoRng)
    ∧ solve 4 s h = Ok []
    ∧ solveWithSetTheory 4 s h
      = Ok [{| MineProbability.value := 1 # 2; MineProbability.position := at_ 0 0 |};
            {| MineProbability.value := 1 # 2; MineProbability.position := at_ 2 0 |}].
Proof.
  exists (solverOf ambiguousRow).1, (solverOf ambiguousRow).2.
  split_and!; vm_compute; reflexivity.
Qed.

(** * The statements at work on concrete games *)

Local Ltac compute_eq := vm_compute; reflexivity.
Local Ltac in_list := apply list_elem_of_In; vm_compute; repeat (first [left; reflexivity | right]).

Lemma freshGame_ok : engineOk freshGame.2 freshGame.1.
Proof. apply engineOkb_sound. compute_eq. Qed.

Lemma openedGame_ok : engineOk openedGame.2 openedGame.1.
Proof. apply engineOkb_sound. compute_eq. Qed.

Lemma flaggedGame_ok : engineOk flaggedGame.2 flaggedGame.1.
Proof. apply engineOkb_sound. compute_eq. Qed.

Lemma inBounds_demo c r : 0 <= c < 3 → 0 <= r < 3 → inBounds demoParams (at_ c r).
Proof. intros Hc Hr. split; simpl; lia. Qed.

(** The first reveal lands on the mine: it returns, does not lose, and the
    target is no mine afterwards. *)
Lemma first_reveal_never_lost_witness :
  ∃ res h',
    revealCell 100 freshGame.1 (at_ 0 0) freshGame.2 demoRng = Ok (res, h', demoRng)
    ∧ mineAt freshGame.2 (field freshGame.1) (at_ 0 0) = true
    ∧ snapshot_status (actionSnapshot res) ≠ Lost
    ∧ mineAt h' (field (apply res freshGame.1)) (at_ 0 0) = false.
Proof.
  destruct (first_reveal_never_lost 1 demoParams [] demoRng freshGame.1 freshGame.2 demoRng
              100 (at_ 0 0))
    as (res & h' & Hres & _ & Hst & Hm & _).
  - compute_eq.
  - simpl. lia.
  - apply inBounds_demo; lia.
  - vm_compute. lia.
  - exists res, h'. split_and!; [exact Hres | compute_eq | exact Hst | exact Hm].
Defined.

(** The reveal of the centre of the fresh game returns a snapshot that is
    [Lost] exactly when it holds a revealed mine. *)
Lemma status_follows_snapshot_witness :
  ∃ res h' rng',
    revealCell 100 freshGame.1 (at_ 1 1) freshGame.2 demoRng = Ok (res, h', rng')
    ∧ (snapshot_status (actionSnapshot res) = Lost
       ↔ ∃ c, c ∈ concat (FieldState.field (snapshot_state (actionSnapshot res)))
              ∧ isMine c = true ∧ isRevealed c = true).
Proof.
  destruct (revealCell 100 freshGame.1 (at_ 1 1) freshGame.2 demoRng)
    as [[[res h'] rng']| |] eqn:E.
  - exists res, h', rng'. split; [reflexivity|].
    exact (proj1 (proj1 status_follows_snapshot _ _ _ _ _ _ _ _ E)).
  - vm_compute in E. discriminate E.
  - vm_compute in E. discriminate E.
Defined.

(** With the mine flagged, the reveal of the centre opens the other
    neighbours, the far corner among them. *)
Lemma chording_opens_neighbours_witness :
  ∃ res h',
    revealCell 100 flaggedGame.1 (at_ 1 1) flaggedGame.2 demoRng = Ok (res, h', demoRng)
    ∧ revealedAt flaggedGame.2 (field flaggedGame.1) (at_ 2 2) = false
    ∧ revealedAt h' (field (apply res flaggedGame.1)) (at_ 2 2) = true.
Proof.
  destruct (chording_opens_neighbours 100 flaggedGame.1 (at_ 1 1) flaggedGame.2 demoRng
              (mkCell (at_ 1 1) false true false 1))
    as (res & h' & Hres & Hmatch & _).
  - exact flaggedGame_ok.
  - compute_eq.
  - vm_compute. lia.
  - compute_eq.
  - reflexivity.
  - reflexivity.
  - reflexivity.
  - exists res, h'. split_and!; [exact Hres | compute_eq |].
    destruct (Hmatch ltac:(compute_eq) (at_ 2 2) (mkCell (at_ 2 2) false false false 0))
      as [Hrev _]; [in_list | compute_eq | reflexivity | reflexivity | exact Hrev].
Defined.

(** The area around the far corner of the fresh game is found, each cell
    once. *)
Lemma getAreaToReveal_exact_witness :
  ∃ target area,
    locAt (field freshGame.1) (at_ 2 2) = Some target
    ∧ getAreaToReveal 100 freshGame.2 (field freshGame.1) (at_ 2 2) = Ok area
    ∧ NoDup area.
Proof.
  destruct (getAreaToReveal_exact 100 freshGame.2 (field freshGame.1) (at_ 2 2))
    as (target & area & Ht & Ha & Hnd & _).
  - exact (eo_wf _ _ freshGame_ok).
  - exact (eo_adj _ _ freshGame_ok).
  - apply inBounds_demo; lia.
  - vm_compute. lia.
  - exists target, area. split_and!; [exact Ht | exact Ha | exact Hnd].
Defined.

(** The reveal of the centre leaves the fresh game as it was; committed, it
    makes the engine show the snapshot it announced. *)
Lemma actions_isolated_until_commit_witness :
  ∃ res h' rng',
    revealCell 100 freshGame.1 (at_ 1 1) freshGame.2 demoRng = Ok (res, h', rng')
    ∧ gameSnapshot freshGame.1 h' = gameSnapshot freshGame.1 freshGame.2
    ∧ gameSnapshot (apply res freshGame.1) h' = actionSnapshot res.
Proof.
  destruct (revealCell 100 freshGame.1 (at_ 1 1) freshGame.2 demoRng)
    as [[[res h'] rng']| |] eqn:E.
  - exists res, h', rng'. split; [reflexivity|].
    destruct (proj1 actions_isolated_until_commit 100%nat freshGame.1 (at_ 1 1) freshGame.2
                demoRng res h' rng')
      as (_ & Hsame & Hcommit).
    + exact freshGame_ok.
    + apply inBounds_demo; lia.
    + vm_compute. lia.
    + exact E.
    + split; [exact Hsame|].
      exact (proj1 (Hcommit freshGame.1 h' (frame_refl h') eq_refl)).
  - vm_compute in E. discriminate E.
  - vm_compute in E. discriminate E.
Defined.

(** C5, as stated, fails for [toggleFlag]: the commit of a flag keeps the
    status of the engine.  A flag previewed while the game was [Playing]
    announces [Playing]; committed after the game was lost, it leaves the
    engine [Lost]. *)
Lemma late_flag_commit_keeps_status : lateFlagCommit = Ok (Playing, Lost).
Proof. compute_eq. Qed.

(** The reveal of the flagged mine of the game in progress changes
    nothing. *)
Lemma illegal_actions_are_noops_witness :
  ∃ res h',
    revealCell 100 flaggedGame.1 (at_ 0 0) flaggedGame.2 demoRng = Ok (res, h', demoRng)
    ∧ noopResult flaggedGame.1 flaggedGame.2 res.
Proof.
  destruct (illegal_actions_are_noops 100 flaggedGame.1 (at_ 0 0) flaggedGame.2 demoRng
              (mkCell (at_ 0 0) true false true 0)) as [Hreveal _].
  - exact flaggedGame_ok.
  - vm_compute. lia.
  - compute_eq.
  - apply Hreveal. left. split; [reflexivity|].
    intros Hidle. vm_compute in Hidle. discriminate Hidle.
Defined.

(** C6, as stated, fails: in a restored game, whose status is [Idle], the
    first reveal on the flagged mine lists no change, yet the mine has moved
    to the other cell and both numbers have changed in its snapshot. *)
Lemma flagged_mine_moves_on_first_click :
  flaggedMineClick
  = Ok ([], [], [], [],
        [[rowCell 0 true false true 0; rowCell 1 false false false 1]],
        [[rowCell 0 false false true 1; rowCell 1 true false false 0]]).
Proof. compute_eq. Qed.

(** The row of five is restored from data whose numbers are right; after a
    reveal and a flag, both committed, the numbers are right still. *)
Lemma adjacency_invariant_witness :
  wf restoredGame.2 (field restoredGame.1)
  ∧ adjacencyOk restoredGame.2 (field restoredGame.1).
Proof.
  apply (proj2 (proj2 (proj2 (proj2 (proj2 (proj2 (proj2 adjacency_invariant))))))
           restoredRow).
  - apply configOkb_sound. compute_eq.
  - destruct ('(e, h, rng) ← newGameEngine 1 restoredRow [] demoRng;
              play 100 [Reveal (at_ 3 0); Flag (at_ 4 0)] e h rng) as [r| |] eqn:E.
    + apply (stateAfter_reachableFrom restoredRow [Reveal (at_ 3 0); Flag (at_ 4 0)] r).
      * apply configOkb_sound. compute_eq.
      * repeat constructor; simpl; lia.
      * vm_compute. lia.
      * exact E.
    + vm_compute in E. discriminate E.
    + vm_compute in E. discriminate E.
Defined.

(** C7, as stated, fails: the engine built from the pair whose number is
    wrong shows, right after construction, a cell with [adjacentMines] 0
    beside a mine. *)
Lemma restored_numbers_are_not_checked :
  ∃ e h,
    newGameEngine 0 miscountedPair [] demoRng = Ok (e, h, demoRng)
    ∧ cellAt h (field e) (at_ 0 0) = Some (rowCell 0 true false false 0)
    ∧ cellAt h (field e) (at_ 1 0) = Some (rowCell 1 false false false 0)
    ∧ minedSiblings h (field e) (at_ 1 0) = 1%nat.
Proof.
  eexists _, _. split_and!; [compute_eq|compute_eq|compute_eq|compute_eq].
Qed.

(** [getCell] finds the far corner of the fresh game. *)
Lemma grid_access_in_bounds_witness :
  ∃ l, getCell (field freshGame.1) (at_ 2 2) = Ok (Some l)
       ∧ (l < length freshGame.2)%nat
       ∧ position (deref freshGame.2 l) = at_ 2 2.
Proof.
  apply (proj1 grid_access_in_bounds).
  - exact (eo_wf _ _ freshGame_ok).
  - apply inBounds_demo; lia.
Defined.

(** * Further properties of the code *)

(** ** utils.ts *)

(** X1 — [createGrid] builds [rows] rows of [cols] entries; the entry in row [r]
    and column [c] is the callback's answer for that position. *)
Theorem createGrid_shape {T} (rows cols : nat) (cb : Position → T) :
  length (createGrid rows cols cb) = rows
  ∧ (∀ rw, rw ∈ createGrid rows cols cb → length rw = cols)
  ∧ (∀ r c, (r < rows)%nat → (c < cols)%nat →
       ∃ rw, createGrid rows cols cb !! r = Some rw
             ∧ rw !! c = Some (cb {| row := Z.of_nat r; col := Z.of_nat c |}))
  ∧ (∀ r, (rows ≤ r)%nat → createGrid rows cols cb !! r = None).
Proof.
  split_and!.
  - unfold createGrid. by rewrite length_map, length_seq.
  - intros rw (r & <- & _)%list_elem_of_In%in_map_iff.
    by rewrite length_map, length_seq.
  - intros r c Hr Hc. by apply createGrid_lookup.
  - intros r Hr. apply lookup_ge_None_2. unfold createGrid.
    by rewrite length_map, length_seq.
Qed.

Section JsSetFacts.
Context {K : Type} `{EqDecision K}.

Lemma jsHas_true (x : K) s : jsHas x s = true ↔ x ∈ s.
Proof. unfold jsHas. apply bool_decide_eq_true. Qed.

Lemma jsHas_false (x : K) s : jsHas x s = false ↔ x ∉ s.
Proof. unfold jsHas. apply bool_decide_eq_false. Qed.

Lemma isSubset_spec (a b : list K) : isSubset a b = true ↔ ∀ x, x ∈ a → x ∈ b.
Proof.
  induction a as [|x a IH]; simpl.
  - split; [|done]. intros _ x Hx. by apply elem_of_nil in Hx.
  - destruct (jsHas x b) eqn:E; simpl.
    + rewrite IH. apply jsHas_true in E. split.
      * intros Ha y [->|Hy]%elem_of_cons; auto.
      * intros Ha y Hy. apply Ha. rewrite elem_of_cons. by right.
    + apply jsHas_false in E. split; [done|]. intros Ha. exfalso. apply E, Ha.
      rewrite elem_of_cons. by left.
Qed.

(** [new Set(items)] keeps the first copy of each item, in order. *)
Lemma newSet_from (s items : list K) :
  NoDup s → NoDup items → (∀ x, x ∈ items → x ∉ s) →
  foldl (fun s x => jsAdd x s) s items = s ++ items.
Proof.
  revert s. induction items as [|x items IH]; intros s Hs Hi Hdisj; simpl.
  - by rewrite app_nil_r.
  - apply NoDup_cons in Hi as [Hx Hi].
    assert (jsAdd x s = s ++ [x]) as ->.
    { unfold jsAdd. destruct (jsHas x s) eqn:E; [|done]. apply jsHas_true in E.
      exfalso. apply (Hdisj x); [rewrite elem_of_cons; by left | done]. }
    rewrite IH.
    + by rewrite <- app_assoc.
    + apply NoDup_app. split_and!; [done| |apply NoDup_singleton].
      intros y Hy Hyx%list_elem_of_singleton. subst y.
      apply (Hdisj x); [rewrite elem_of_cons; by left | done].
    + done.
    + intros y Hy [Hys|Hyx%list_elem_of_singleton]%elem_of_app; [|by subst y].
      apply (Hdisj y); [rewrite elem_of_cons; by right | done].
Qed.

Lemma newSet_NoDup (items : list K) : NoDup items → newSet items = items.
Proof.
  intros Hnd. unfold newSet. rewrite newSet_from; [done|constructor|done|].
  intros x _ Hx. by apply elem_of_nil in Hx.
Qed.

Lemma difference_filter (a b : list K) :
  NoDup a → difference a b = filter (fun x => x ∉ b) a.
Proof.
  intros Ha. unfold difference. rewrite newSet_NoDup by (by apply NoDup_filter).
  apply filter_ext_elem. intros x _. apply jsHas_false.
Qed.
End JsSetFacts.

(** X2 — [isSubset] answers whether every item of the first set is in the second;
    [difference] keeps, in their order, the items of the first set that the
    second lacks.  Hence the difference is a subset of the first set, shares
    nothing with the second, and is empty exactly when the first set is a
    subset of the second. *)
Theorem set_helpers_agree {K : Type} `{EqDecision K} (a b : list K) :
  NoDup a →
  (isSubset a b = true ↔ ∀ x, x ∈ a → x ∈ b)
  ∧ (∀ x, x ∈ difference a b ↔ x ∈ a ∧ x ∉ b)
  ∧ NoDup (difference a b)
  ∧ difference a b `sublist_of` a
  ∧ isSubset (difference a b) a = true
  ∧ (isSubset a b = true ↔ difference a b = []).
Proof.
  intros Ha. rewrite (difference_filter a b Ha). split_and!.
  - apply isSubset_spec.
  - intros x. rewrite list_elem_of_filter. tauto.
  - by apply NoDup_filter.
  - apply sublist_filter.
  - apply isSubset_spec. intros x Hx. by apply list_elem_of_filter in Hx as [_ ?].
  - rewrite isSubset_spec, filter_nil_iff. split.
    + intros Hsub x Hx Hnb. by apply Hnb, Hsub.
    + intros Hnone x Hx. destruct (decide (x ∈ b)) as [|Hnb]; [done|].
      by destruct (Hnone x Hx).
Qed.

(** The keys of three cells against the keys of two. *)
Lemma set_helpers_agree_witness :
  (∀ x, x ∈ difference [(0, 0); (1, 0); (2, 0)] [(1, 0); (5, 5)]
        ↔ x ∈ [(0, 0); (1, 0); (2, 0)] ∧ x ∉ [(1, 0); (5, 5)])
  ∧ difference [(0, 0); (1, 0); (2, 0)] [(1, 0); (5, 5)] = [(0, 0); (2, 0)].
Proof.
  split; [|vm_compute; reflexivity].
  apply (set_helpers_agree (K := Z * Z) [(0, 0); (1, 0); (2, 0)] [(1, 0); (5, 5)]).
  apply (bool_decide_unpack _). vm_compute. exact I.
Defined.

(** ** Cells by position *)

Lemma filter_fmap {A B} (g : A → B) (P : B → Prop) `{∀ y, Decision (P y)} (l : list A) :
  filter P (g <$> l) = g <$> filter (fun x => P (g x)) l.
Proof.
  induction l as [|x l IH]; [done|]. rewrite fmap_cons, !filter_cons, IH.
  by destruct (decide (P (g x))).
Qed.

Lemma createGrid_ext {T} rs cs (cb cb' : Position → T) :
  (∀ q, cb q = cb' q) → createGrid rs cs cb = createGrid rs cs cb'.
Proof.
  intros Hext. unfold createGrid. apply map_ext. intros r. apply map_ext. intros c. apply Hext.
Qed.

Lemma createGrid_map {T U} rs cs (cb : Position → T) (g : T → U) :
  createGrid rs cs (fun q => g (cb q)) = map (map g) (createGrid rs cs cb).
Proof.
  unfold createGrid. rewrite map_map. apply map_ext. intros r. by rewrite map_map.
Qed.

Lemma concat_createGrid {T} p (cb : Position → T) :
  concat (createGrid (rows p) (cols p) cb) = cb <$> allPositions p.
Proof.
  unfold allPositions. change (cb <$> ?l) with (map cb l). rewrite concat_map.
  by rewrite <- (createGrid_map _ _ id cb).
Qed.

Lemma wfData_createGrid p data :
  wfData p data →
  data = createGrid (rows p) (cols p) (fun q => default (newCell q) (dataAt data q)).
Proof.
  intros [Hr Hc Hcell]. apply grid_ext.
  - unfold createGrid. by rewrite length_map, length_seq.
  - intros i r1 r2 H1 H2.
    assert (i < rows p)%nat as Hi by (rewrite <- Hr; by eapply lookup_lt_Some).
    assert (length r1 = cols p) as Hl1 by (eapply Hc, list_elem_of_lookup_2, H1).
    assert (length r2 = cols p) as Hl2.
    { apply list_elem_of_lookup_2, list_elem_of_In, in_map_iff in H2 as (r & <- & _).
      by rewrite length_map, length_seq. }
    split; [congruence|]. intros j.
    destruct (decide (j < cols p)%nat) as [Hj|Hj].
    + destruct (createGrid_lookup (rows p) (cols p)
                  (fun q => default (newCell q) (dataAt data q)) i j Hi Hj)
        as (rw & Hrw & Hcj).
      assert (rw = r2) as -> by congruence. rewrite Hcj.
      destruct (lookup_lt_is_Some_2 r1 j) as [c Hcell1]; [lia|].
      rewrite Hcell1. f_equal.
      assert (dataAt data {| row := Z.of_nat i; col := Z.of_nat j |} = Some c) as ->; [|done].
      apply dataAt_Some. simpl. split_and!; [lia..|].
      exists r1. by rewrite !Nat2Z.id.
    + rewrite !lookup_ge_None_2; [done|lia..].
Qed.

(** The cells of a well-formed field, flattened, are the cells at its
    positions, row by row. *)
Lemma cells_positions h f :
  wf h f → concat (getData h f) = cellOr h f <$> allPositions (params f).
Proof.
  intros Hwf. rewrite <- concat_createGrid.
  rewrite (wfData_createGrid _ _ (wfData_getData _ _ Hwf)) at 1. f_equal.
  apply createGrid_ext. intros q. unfold cellOr. by rewrite dataAt_getData.
Qed.

Lemma count_positions (P : SimpleCell → Prop) `{∀ c, Decision (P c)} h f :
  wf h f →
  length (filter P (concat (getData h f)))
  = length (filter (fun q => P (cellOr h f q)) (allPositions (params f))).
Proof. intros Hwf. by rewrite (cells_positions _ _ Hwf), filter_fmap, length_fmap. Qed.

Lemma isMine_cellOr h f q : isMine (cellOr h f q) = mineAt h f q.
Proof. unfold cellOr, mineAt. by destruct (cellAt h f q). Qed.

Lemma isFlagged_cellOr h f q : isFlagged (cellOr h f q) = flaggedAt h f q.
Proof. unfold cellOr, flaggedAt. by destruct (cellAt h f q). Qed.

Lemma isRevealed_cellOr h f q : isRevealed (cellOr h f q) = revealedAt h f q.
Proof. unfold cellOr, revealedAt. by destruct (cellAt h f q). Qed.

Lemma mineCount_positions h f :
  wf h f → mineCount h f = length (minedPositions h f).
Proof.
  intros Hwf. unfold mineCount, minedPositions. simpl. rewrite (count_positions _ _ _ Hwf).
  f_equal. apply filter_ext_elem. intros q _. by rewrite isMine_cellOr.
Qed.

Lemma flagCount_positions h f :
  wf h f →
  flagCount h f = length (filter (fun q => flaggedAt h f q = true) (allPositions (params f))).
Proof.
  intros Hwf. unfold flagCount. simpl. rewrite (count_positions _ _ _ Hwf).
  f_equal. apply filter_ext_elem. intros q _. by rewrite isFlagged_cellOr.
Qed.

(** The list of mined keys has one key per mined cell. *)
Lemma minesAre_count h f keys : wf h f → minesAre h f keys → mineCount h f = length keys.
Proof.
  intros Hwf [Hnd Hin Hm]. rewrite (mineCount_positions _ _ Hwf).
  rewrite <- (length_fmap createKey). apply Permutation_length, NoDup_Permutation.
  - apply NoDup_fmap_2_strong; [|apply NoDup_filter, NoDup_allPositions].
    intros x y _ _. apply createKey_inj.
  - done.
  - intros k. rewrite list_elem_of_fmap. split.
    + intros (q & -> & Hq). apply list_elem_of_filter in Hq as [Hmine Hq].
      apply Hm; [by apply elem_of_allPositions | done].
    + intros Hk. exists (parseKey k). split; [by destruct k|].
      apply list_elem_of_filter. split; [|by apply elem_of_allPositions, Hin].
      apply Hm; [by apply Hin | by destruct k].
Qed.

(** ** base-field.ts: [getState] *)

(** X4 — The six lists of [getState] are cut from the flattened field, in its
    order.  A cell is exploded exactly when it is mined and revealed; the
    mines are the flagged mines and the mines not found; the flags are the
    flagged mines and the wrong flags: so flags and mines not found are as
    many as wrong flags and mines. *)
Theorem getState_lists h f :
  let st := getState h f in
  let flat := concat (FieldState.field st) in
  FieldState.minedCells st `sublist_of` flat
  ∧ FieldState.flaggedCells st `sublist_of` flat
  ∧ FieldState.revealedCells st `sublist_of` flat
  ∧ FieldState.explodedCells st
    = filter (fun c => isRevealed c = true) (FieldState.minedCells st)
  ∧ FieldState.notFoundMines st
    = filter (fun c => isFlagged c = false) (FieldState.minedCells st)
  ∧ FieldState.errorFlags st
    = filter (fun c => isMine c = false) (FieldState.flaggedCells st)
  ∧ (length (FieldState.flaggedCells st) + length (FieldState.notFoundMines st)
     = length (FieldState.errorFlags st) + length (FieldState.minedCells st))%nat.
Proof.
  simpl. set (flat := concat (getData h f)).
  assert (∀ (P Q : SimpleCell → Prop) `{∀ c, Decision (P c)} `{∀ c, Decision (Q c)}
            (R : SimpleCell → Prop) `{∀ c, Decision (R c)},
            (∀ c, R c ↔ Q c ∧ P c) → filter R flat = filter Q (filter P flat)) as Hcut.
  { intros P Q ? ? R ? HR. rewrite list_filter_filter. apply filter_ext_elem.
    intros c _. apply HR. }
  split_and!; try apply sublist_filter.
  - apply Hcut. intros c. unfold isExploded. rewrite andb_true_iff. tauto.
  - apply Hcut. intros c. unfold notFoundMine. rewrite andb_true_iff, negb_true_iff. tauto.
  - apply Hcut. intros c. unfold isMissed. rewrite andb_true_iff, negb_true_iff. tauto.
  - pose proof (filter_length_compl (fun c => isMine c = true)
                  (filter (fun c => isFlagged c = true) flat)) as H1.
    pose proof (filter_length_compl (fun c => isFlagged c = true)
                  (filter (fun c => isMine c = true) flat)) as H2.
    rewrite !list_filter_filter in H1, H2.
    assert (filter (fun c => notFoundMine c = true) flat
            = filter (fun c => ¬ isFlagged c = true ∧ isMine c = true) flat) as ->.
    { apply filter_ext_elem. intros c _. unfold notFoundMine.
      rewrite andb_true_iff, negb_true_iff. destruct (isFlagged c); naive_solver. }
    assert (filter (fun c => isMissed c = true) flat
            = filter (fun c => ¬ isMine c = true ∧ isFlagged c = true) flat) as ->.
    { apply filter_ext_elem. intros c _. unfold isMissed.
      rewrite andb_true_iff, negb_true_iff. destruct (isMine c); naive_solver. }
    assert (filter (fun c => isMine c = true ∧ isFlagged c = true) flat
            = filter (fun c => isFlagged c = true ∧ isMine c = true) flat) as E.
    { apply filter_ext_elem. intros c _. tauto. }
    rewrite E in H1. lia.
Qed.

(** ** square-field.ts: [placeMines] *)

Lemma mineCount_le h f : wf h f → (mineCount h f ≤ rows (params f) * cols (params f))%nat.
Proof.
  intros Hwf. rewrite (mineCount_positions _ _ Hwf), <- length_allPositions.
  apply length_filter.
Qed.

(** X5 — [placeMines] on a field that holds no mine yet: when it returns, the
    field holds exactly [mines] mines (none for a negative number), and is
    marked as mined; no cell was revealed or flagged.  It can return only
    if the mines fit the grid: with more mines than cells the loop never
    ends normally. *)
Theorem placeMines_places_all fuel f h rng f' h' rng' :
  wf h f → adjacencyOk h f → noMines h f → isMined f = false →
  placeMines fuel f h rng = Ok (f', h', rng') →
  isMined f' = true ∧ grid f' = grid f
  ∧ Z.of_nat (mineCount h' f') = Z.max 0 (mines (params f))
  ∧ mines (params f) <= Z.of_nat (rows (params f) * cols (params f))
  ∧ sameMarks f h h'.
Proof.
  intros Hwf Hadj Hno Hm Hplace.
  destruct (placeMines_spec _ _ _ _ _ _ _ Hwf Hadj Hno Hplace)
    as (Hg & Hp & Hwf' & _ & Hmarks & _ & keys & Hkeys & Hlen).
  specialize (Hlen Hm).
  pose proof (minesAre_count _ _ _ Hwf' Hkeys) as Hcount.
  pose proof (mineCount_le _ _ Hwf') as Hle. rewrite Hp in Hle.
  split_and!; try done; [|lia..].
  unfold placeMines in Hplace. rewrite Hm in Hplace.
  apply bind_Ok in Hplace as ([h1 rng1] & _ & [= <- _ _]). done.
Qed.

(** One mine on the blank 3 x 3 field. *)
Lemma placeMines_places_all_witness :
  ∃ f' h' rng',
    placeMines 1 blankField.1 blankField.2 demoRng = Ok (f', h', rng')
    ∧ isMined f' = true ∧ Z.of_nat (mineCount h' f') = 1.
Proof.
  assert (wf blankField.2 blankField.1) as Hwf by (apply wfb_sound; vm_compute; reflexivity).
  destruct (placeMines 1 blankField.1 blankField.2 demoRng) as [[[f' h'] rng']| |] eqn:E.
  - exists f', h', rng'. split; [reflexivity|].
    destruct (placeMines_places_all 1 blankField.1 blankField.2 demoRng f' h' rng')
      as (Hm & _ & Hcount & _).
    + exact Hwf.
    + apply adjacencyOkb_sound; [exact Hwf | vm_compute; reflexivity].
    + apply anyMine_false. vm_compute. reflexivity.
    + reflexivity.
    + exact E.
    + split; [exact Hm | exact Hcount].
  - vm_compute in E. discriminate E.
  - vm_compute in E. discriminate E.
Defined.

(** ** Restoring a field from data *)

Lemma deref_app_seq (h r x : Heap) :
  map (deref (h ++ r ++ x)) (seq (length h) (length r)) = r.
Proof.
  revert h. induction r as [|a r IH]; intros h; [done|]. simpl. f_equal.
  - unfold deref. rewrite list_lookup_total_middle; done.
  - specialize (IH (h ++ [a])). rewrite length_app in IH. simpl in IH.
    rewrite Nat.add_1_r, <- app_assoc in IH. exact IH.
Qed.

Lemma allocGrid_getData h data :
  map (map (deref (allocGrid h data).1)) (allocGrid h data).2 = data.
Proof.
  revert h. induction data as [|r rs IH]; intros h; [done|]. simpl.
  specialize (IH (h ++ r)). pose proof (allocGrid_fst (h ++ r) rs) as Hfst.
  destruct (allocGrid (h ++ r) rs) as [h2 g] eqn:E. simpl in *. subst h2.
  f_equal; [|exact IH]. rewrite <- app_assoc. apply deref_app_seq.
Qed.

Lemma existsb_map {A B} (g : A → B) (P : B → bool) (l : list A) :
  existsb P (map g l) = existsb (fun x => P (g x)) l.
Proof. induction l as [|x l IH]; [done|]. simpl. by rewrite IH. Qed.

Lemma newField_getData p data h f h' :
  newField p (Some data) h = (f, h') →
  getData h' f = data ∧ isMined f = existsb (fun r => existsb isMine r) data.
Proof.
  unfold newField. simpl. pose proof (allocGrid_getData h data) as Hd.
  destruct (allocGrid h data) as [h2 g]. simpl in Hd. intros [= <- <-].
  unfold getData. simpl. split; [done|].
  rewrite <- Hd. rewrite existsb_map. clear Hd.
  induction g as [|r g IH]; [done|]. simpl. by rewrite IH, existsb_map.
Qed.

(** X6 — An engine built from the data of a game that holds a mine shows that
    data again: the constructor copies every cell as described and places
    no further mine.  It always starts [Idle], with as many flags left as
    the game has mines, whatever the data shows as flagged or revealed. *)
Theorem restored_game_shows_its_data fuel p data h rng :
  existsb (fun r => existsb isMine r) data = true →
  ∃ e h',
    newGameEngine fuel {| cfg_params := p; cfg_data := Some data |} h rng = Ok (e, h', rng)
    ∧ FieldState.field (snapshot_state (gameSnapshot e h')) = data
    ∧ status e = Idle ∧ flagsRemaining e = mines p ∧ frame h h'.
Proof.
  intros Hmine. unfold newGameEngine, createField. simpl.
  destruct (newField p (Some data) h) as [f h'] eqn:E.
  destruct (newField_getData _ _ _ _ _ E) as [Hd Hm].
  destruct (newField_data _ _ _ _ _ E) as (_ & Hh & _).
  unfold placeMines. rewrite Hm, Hmine. simpl.
  eexists _, h'. split; [reflexivity|]. simpl. split_and!; try done.
  subst h'. apply frame_app.
Qed.

(** The row whose mine is flagged comes back as described. *)
Lemma restored_game_shows_its_data_witness :
  ∃ e h',
    newGameEngine 0 flaggedPair [] demoRng = Ok (e, h', demoRng)
    ∧ FieldState.field (snapshot_state (gameSnapshot e h'))
      = [[rowCell 0 true false true 0; rowCell 1 false false false 1]]
    ∧ status e = Idle ∧ flagsRemaining e = 1 ∧ frame [] h'.
Proof.
  apply (restored_game_shows_its_data 0 pairParams
           [[rowCell 0 true false true 0; rowCell 1 false false false 1]] [] demoRng).
  reflexivity.
Defined.

(** ** square-field.ts: [cloneSelf] *)

Lemma getData_ext h1 h2 f :
  (∀ l, gridLoc f l → deref h2 l = deref h1 l) → getData h2 f = getData h1 f.
Proof.
  intros Hext. unfold getData. apply map_ext_in. intros r Hr. apply map_ext_in.
  intros l Hl. apply Hext. apply elem_of_grid. exists r.
  split; by apply list_elem_of_In.
Qed.

(** X7 — The clone shows the cells of the original and shares none with it: a
    write to a cell of the clone leaves the original as it is, and a write
    to a cell of the original leaves the clone as it is. *)
Theorem cloneSelf_shares_no_cell h f f' h' :
  wf h f → cloneSelf h f = (f', h') →
  getData h' f' = getData h f
  ∧ getData h' f = getData h f
  ∧ (∀ l fn, gridLoc f' l → getData (modify fn h' l) f = getData h f)
  ∧ (∀ l fn, gridLoc f l → getData (modify fn h' l) f' = getData h' f').
Proof.
  intros Hwf Hclone.
  destruct (cloneSelf_spec _ _ _ _ Hwf Hclone) as (Hp & Hwf' & Hfr & Hown & Hcell & _).
  pose proof (getData_frame _ _ _ Hwf Hfr) as Hsame.
  split_and!.
  - by apply getData_sameView.
  - done.
  - intros l fn [q Hq] . rewrite <- Hsame. apply getData_ext.
    intros l0 [q0 Hq0]. apply deref_modify_ne.
    pose proof (locAt_lt _ _ Hwf _ _ Hq0). pose proof (Hown _ _ Hq). lia.
  - intros l fn [q Hq]. apply getData_ext.
    intros l0 [q0 Hq0]. apply deref_modify_ne.
    pose proof (locAt_lt _ _ Hwf _ _ Hq). pose proof (Hown _ _ Hq0). lia.
Qed.

(** The clone of the blank 3 x 3 field. *)
Lemma cloneSelf_shares_no_cell_witness :
  getData (cloneSelf blankField.2 blankField.1).2 (cloneSelf blankField.2 blankField.1).1
  = getData blankField.2 blankField.1
  ∧ ∀ l fn, gridLoc (cloneSelf blankField.2 blankField.1).1 l →
      getData (modify fn (cloneSelf blankField.2 blankField.1).2 l) blankField.1
      = getData blankField.2 blankField.1.
Proof.
  destruct (cloneSelf_shares_no_cell blankField.2 blankField.1
              (cloneSelf blankField.2 blankField.1).1 (cloneSelf blankField.2 blankField.1).2)
    as (H1 & _ & H3 & _).
  - apply wfb_sound. vm_compute. reflexivity.
  - by destruct (cloneSelf blankField.2 blankField.1).
  - split; [exact H1 | exact H3].
Defined.

(** ** square-field.ts: [getSiblings] *)

Lemma isInBoundary_inBounds p q : isInBoundary p q = true ↔ inBounds p q.
Proof.
  unfold isInBoundary, inBounds. rewrite !andb_true_iff, !Z.geb_le, !Z.ltb_lt. lia.
Qed.

(** X8 — On a well-formed field [getSiblings] returns, each once, the cells of
    the grid one king's move away from the position, the position itself
    left out: at most eight, all eight for a position strictly inside the
    grid; and a cell is a sibling of its siblings. *)
Theorem getSiblings_are_the_neighbours h f pos :
  wf h f →
  ∃ ls,
    getSiblings f pos = Ok ls
    ∧ NoDup ls ∧ (length ls ≤ 8)%nat
    ∧ (∀ q l, locAt f q = Some l → l ∈ ls ↔ adjacent pos q)
    ∧ (∀ l, l ∈ ls → gridLoc f l)
    ∧ (interior (params f) pos → length ls = 8%nat)
    ∧ (∀ q l lp, locAt f pos = Some lp → locAt f q = Some l → l ∈ ls →
         ∃ ls', getSiblings f q = Ok ls' ∧ lp ∈ ls').
Proof.
  intros Hwf. exists (siblingLocs f pos).
  split; [by apply (getSiblings_wf h)|]. split_and!.
  - by apply (NoDup_siblingLocs h).
  - by apply (length_siblingLocs h).
  - intros q l Hl. rewrite (elem_of_siblingLocs h f Hwf pos q l Hl).
    rewrite elem_of_siblingPositions. split; [by intros [? _]|]. intros Ha.
    split; [done|]. apply (locAt_is_Some _ _ Hwf). eauto.
  - intros l Hl. pose proof (siblingLocs_gridLoc f pos) as Hg.
    rewrite Forall_forall in Hg. by apply Hg.
  - intros [Hc Hr].
    rewrite <- (Forall2_length _ _ _ (siblingLocs_fmap h f Hwf pos)).
    unfold siblingPositions.
    assert (filter (fun q => isInBoundary (params f) q = true) (neighbours pos)
            = neighbours pos) as ->.
    { assert (Forall (fun q => isInBoundary (params f) q = true) (neighbours pos)) as Hall.
      { apply Forall_forall. intros q Hq%elem_of_neighbours.
        apply isInBoundary_inBounds. destruct Hq as (_ & ? & ?). split; lia. }
      clear -Hall. induction Hall as [|q l Hq _ IH]; [done|].
      by rewrite filter_cons_True, IH. }
    reflexivity.
  - intros q l lp Hlp Hl Hin. exists (siblingLocs f q).
    split; [by apply (getSiblings_wf h)|].
    apply (elem_of_siblingLocs h f Hwf pos q l Hl) in Hin.
    apply (elem_of_siblingLocs h f Hwf q pos lp Hlp).
    apply siblingPositions_sym; [|done]. apply (locAt_is_Some _ _ Hwf). eauto.
Qed.

(** The centre of the blank 3 x 3 field has all eight siblings. *)
Lemma getSiblings_are_the_neighbours_witness :
  ∃ ls, getSiblings blankField.1 (at_ 1 1) = Ok ls ∧ NoDup ls ∧ length ls = 8%nat.
Proof.
  destruct (getSiblings_are_the_neighbours blankField.2 blankField.1 (at_ 1 1))
    as (ls & Hls & Hnd & _ & _ & _ & Hint & _).
  - apply wfb_sound. vm_compute. reflexivity.
  - exists ls. split_and!; [exact Hls | exact Hnd |].
    apply Hint. vm_compute. repeat split; reflexivity.
Defined.

(** ** game-engine.ts: what the counts of an engine keep *)

Lemma flagCount_frame h h' f : wf h f → frame h h' → flagCount h' f = flagCount h f.
Proof. intros Hwf Hfr. unfold flagCount. by rewrite (getState_frame _ _ _ Hwf Hfr). Qed.

Lemma mineCount_frame h h' f : wf h f → frame h h' → mineCount h' f = mineCount h f.
Proof. intros Hwf Hfr. unfold mineCount. by rewrite (getState_frame _ _ _ Hwf Hfr). Qed.

Lemma mineCount_mineAt h f h' f' :
  wf h f → wf h' f' → params f' = params f → (∀ q, mineAt h' f' q = mineAt h f q) →
  mineCount h' f' = mineCount h f.
Proof.
  intros Hwf Hwf' Hp Hm. rewrite !mineCount_positions by done. unfold minedPositions.
  rewrite Hp. f_equal. apply filter_ext_elem. intros q _. by rewrite Hm.
Qed.

(** Moving one mine from a mined position to one that is not keeps the
    number of mines. *)
Lemma mineCount_moved h f h' from to :
  wf h f → wf h' f → inBounds (params f) from → inBounds (params f) to →
  mineAt h f from = true → mineAt h f to = false →
  (∀ q, inBounds (params f) q →
     mineAt h' f q = if bool_decide (q = to) then true
                     else if bool_decide (q = from) then false else mineAt h f q) →
  mineCount h' f = mineCount h f.
Proof.
  intros Hwf Hwf' Hfrom Hto Hmf Hmt Hmove.
  rewrite !mineCount_positions by done. unfold minedPositions.
  pose proof (NoDup_allPositions (params f)) as Hnd.
  set (l := allPositions (params f)) in *.
  assert (from ∈ l) as Hfl by (by apply elem_of_allPositions).
  assert (to ∈ l) as Htl by (by apply elem_of_allPositions).
  pose (R := fun q => mineAt h f q = true ∧ q ≠ from).
  assert (length (filter (fun q => mineAt h f q = true) l) = S (length (filter R l))) as H1.
  { rewrite (length_filter_add R (fun q => mineAt h f q = true) l from Hnd).
    - rewrite decide_True by done. lia.
    - intros q Hq. unfold R. destruct (decide (q = from)) as [->|]; naive_solver.
    - unfold R. intros [_ ?]. done. }
  assert (length (filter (fun q => mineAt h' f q = true) l) = S (length (filter R l))) as H2.
  { rewrite (length_filter_add R (fun q => mineAt h' f q = true) l to Hnd).
    - rewrite decide_True by done. lia.
    - intros q Hq. apply elem_of_allPositions in Hq. rewrite (Hmove q Hq). unfold R.
      repeat case_bool_decide; subst; naive_solver.
    - unfold R. intros [? _]. congruence. }
  by rewrite H1, H2.
Qed.

(** Changing the flag of one position. *)
Lemma flagCount_flipped h f h' pos b :
  wf h f → wf h' f → inBounds (params f) pos → flaggedAt h f pos = negb b →
  (∀ q, flaggedAt h' f q = if bool_decide (q = pos) then b else flaggedAt h f q) →
  if b then flagCount h' f = S (flagCount h f) else S (flagCount h' f) = flagCount h f.
Proof.
  intros Hwf Hwf' Hpos Hold Hflip. rewrite !flagCount_positions by done.
  pose proof (NoDup_allPositions (params f)) as Hnd.
  set (l := allPositions (params f)) in *.
  assert (pos ∈ l) as Hpl by (by apply elem_of_allPositions).
  destruct b; simpl in Hold.
  - rewrite (length_filter_add (fun q => flaggedAt h f q = true)
               (fun q => flaggedAt h' f q = true) l pos Hnd).
    + rewrite decide_True by done. lia.
    + intros q _. rewrite Hflip. case_bool_decide; subst; naive_solver.
    + congruence.
  - rewrite (length_filter_add (fun q => flaggedAt h' f q = true)
               (fun q => flaggedAt h f q = true) l pos Hnd).
    + rewrite decide_True by done. lia.
    + intros q _. rewrite Hflip. case_bool_decide; subst; [|naive_solver].
      split; [by right | intros _; by rewrite Hold].
    + rewrite Hflip, bool_decide_true by done. congruence.
Qed.

Section RevealCounts.
Context {fuel e pos h rng f1 h1 st2 f2 h2 t changes h3}
        (Hok : engineOk h e)
        (Hrun : revealRun fuel e pos h rng f1 h1 st2 f2 h2 t changes h3).

(** [revealCell] sets no flag. *)
Lemma run_flaggedAt q : flaggedAt h3 f2 q = true → flaggedAt h (field e) q = true.
Proof using Hrun.
  destruct (rr_view _ _ _ _ _ _ _ _ _ _ _ _ _ Hrun) as [_ Hcell].
  unfold flaggedAt. rewrite <- (Hcell q). unfold cellAt.
  rewrite <- (rr_locAt _ _ _ _ _ _ _ _ _ _ _ _ _ Hrun q).
  destruct (locAt f2 q) as [l|] eqn:El; [|done]. simpl. intros Hfl.
  apply (op_flagged _ _ _ (rr_opens _ _ _ _ _ _ _ _ _ _ _ _ _ Hrun) _ _ El) in Hfl.
  rewrite (rr_locAt _ _ _ _ _ _ _ _ _ _ _ _ _ Hrun q) in El.
  by destruct (rr_marks _ _ _ _ _ _ _ _ _ _ _ _ _ Hrun _ _ El) as [_ <-].
Qed.

Lemma run_flagCount : (flagCount h3 f2 ≤ flagCount h (field e))%nat.
Proof using Hok Hrun.
  rewrite (flagCount_positions _ _ (run_wf Hrun)), (flagCount_positions _ _ (eo_wf _ _ Hok)).
  rewrite (run_params Hrun). apply filter_length_le. intros q _. apply run_flaggedAt.
Qed.

(** The first click moves a mine at most; the action moves none. *)
Lemma run_mineCount : mineCount h3 f2 = mineCount h (field e).
Proof using Hok Hrun.
  pose proof (rr_wf1 _ _ _ _ _ _ _ _ _ _ _ _ _ Hrun) as Hwf1.
  pose proof (rr_wf2 _ _ _ _ _ _ _ _ _ _ _ _ _ Hrun) as Hwf2.
  pose proof (rr_locAt _ _ _ _ _ _ _ _ _ _ _ _ _ Hrun) as Hloc.
  pose proof (rr_params _ _ _ _ _ _ _ _ _ _ _ _ _ Hrun) as Hp2.
  pose proof (rr_view _ _ _ _ _ _ _ _ _ _ _ _ _ Hrun) as Hview.
  assert (wf h2 f1) as Hwf21.
  { destruct Hwf2 as [A B C]. split.
    - rewrite <- Hp2. rewrite <- A. destruct Hwf1 as [A1 _ _].
      rewrite A1. rewrite <- Hp2. by rewrite <- A.
    - intros r Hr. apply (wf_cols _ _ Hwf1) in Hr. done.
    - intros q l Hl. rewrite <- Hloc in Hl. by apply C. }
  transitivity (mineCount h2 f2).
  { apply mineCount_mineAt; [done | apply (run_wf Hrun) | done |].
    intros q. apply (opens_mineAt _ _ _ (rr_opens _ _ _ _ _ _ _ _ _ _ _ _ _ Hrun)). }
  transitivity (mineCount h2 f1).
  { apply mineCount_mineAt; [done..|]. intros q. by apply mineAt_locAt. }
  transitivity (mineCount h1 f1).
  2:{ apply mineCount_mineAt; [apply Hok | done | apply Hview |].
      intros q. by apply sameView_mineAt. }
  assert (inBounds (params f1) pos) as Hb.
  { apply (locAt_is_Some _ _ Hwf1). rewrite <- Hloc.
    rewrite (rr_target _ _ _ _ _ _ _ _ _ _ _ _ _ Hrun). eauto. }
  destruct (decide (status e = Idle)) as [Hi|Hi].
  - destruct (mineAt h1 f1 pos) eqn:Ep.
    + destruct (rr_mined _ _ _ _ _ _ _ _ _ _ _ _ _ Hrun Hi Ep)
        as [(_ & -> & _)|(_ & to & Hto & Hnot & U)]; [done|].
      apply (mineCount_moved h1 f1 h2 pos to); try done.
      intros q Hq. rewrite (mineAt_updates _ _ _ _ _ U).
      apply (cellAt_is_Some _ _ Hwf1) in Hq as [c Hc]. rewrite Hc, isMine_relocT.
      repeat case_bool_decide; try done. unfold mineAt. by rewrite Hc.
    + by destruct (rr_safe _ _ _ _ _ _ _ _ _ _ _ _ _ Hrun Hi Ep) as [_ ->].
  - by destruct (rr_later _ _ _ _ _ _ _ _ _ _ _ _ _ Hrun Hi) as [_ ->].
Qed.
End RevealCounts.

Section ToggleCounts.
Context {e pos h f1 h1 t flagged unflagged h2}
        (Hok : engineOk h e)
        (Hrun : toggleRun e pos h f1 h1 t flagged unflagged h2).

Lemma toggle_mineCount : mineCount h2 f1 = mineCount h (field e).
Proof using Hok Hrun.
  apply mineCount_mineAt; [apply Hok | apply (toggle_wf Hrun) | apply Hrun |].
  intros q. apply (toggle_mineAt Hrun).
Qed.

Lemma toggle_flagCount1 : flagCount h1 f1 = flagCount h (field e).
Proof using Hok Hrun.
  unfold flagCount.
  by rewrite (getState_sameView _ _ _ _ (eo_wf _ _ Hok) (tr_wf1 _ _ _ _ _ _ _ _ _ Hrun)
                (tr_view _ _ _ _ _ _ _ _ _ Hrun)).
Qed.

Lemma toggle_inBounds : inBounds (params f1) pos.
Proof using Hrun.
  apply (locAt_is_Some _ _ (tr_wf1 _ _ _ _ _ _ _ _ _ Hrun)).
  rewrite (tr_target _ _ _ _ _ _ _ _ _ Hrun). eauto.
Qed.

Lemma toggle_flaggedAt b :
  updates f1 (flagT b pos) h1 h2 →
  ∀ q, flaggedAt h2 f1 q = if bool_decide (q = pos) then b else flaggedAt h1 f1 q.
Proof using Hrun.
  intros U q. unfold flaggedAt. rewrite (updates_cellAt _ _ _ _ q U).
  case_bool_decide as Hq.
  - subst q. unfold cellAt. rewrite (tr_target _ _ _ _ _ _ _ _ _ Hrun). simpl.
    unfold flagT. by rewrite bool_decide_true.
  - destruct (cellAt h1 f1 q) as [c|]; [|done]. simpl. unfold flagT.
    by rewrite bool_decide_false.
Qed.

(** The flag count after the toggle: one less, one more (which the engine
    allows only with a flag left), or the same. *)
Lemma toggle_flagCount :
  (S (flagCount h2 f1) = flagCount h (field e))
  ∨ (flagCount h2 f1 = S (flagCount h (field e)) ∧ 0 < flagsRemaining e)
  ∨ flagCount h2 f1 = flagCount h (field e).
Proof using Hok Hrun.
  rewrite <- toggle_flagCount1.
  pose proof (tr_wf1 _ _ _ _ _ _ _ _ _ Hrun) as Hwf1.
  assert (flaggedAt h1 f1 pos = isFlagged (deref h1 t)) as Hat.
  { unfold flaggedAt, cellAt. by rewrite (tr_target _ _ _ _ _ _ _ _ _ Hrun). }
  destruct (tr_cases _ _ _ _ _ _ _ _ _ Hrun)
    as [(_ & _ & Hf & _ & _ & _ & U)|[(_ & _ & Hf & Hleft & _ & _ & _ & U)|(_ & _ & _ & ->)]].
  - left. apply (flagCount_flipped h1 f1 h2 pos false); try done.
    + apply (toggle_wf Hrun).
    + apply toggle_inBounds.
    + by rewrite Hat, Hf.
    + by apply toggle_flaggedAt.
  - right. left. split; [|done].
    apply (flagCount_flipped h1 f1 h2 pos true); try done.
    + apply (toggle_wf Hrun).
    + apply toggle_inBounds.
    + by rewrite Hat, Hf.
    + by apply toggle_flaggedAt.
  - by right; right.
Qed.
End ToggleCounts.

(** What every reachable state keeps, besides [engineOk]. *)
Lemma reachable_counts e h :
  reachable e h →
  engineOk h e ∧ flagsOk h e
  ∧ (0 <= mines (gameParams e) → 0 <= flagsRemaining e)
  ∧ Z.of_nat (mineCount h (field e)) = Z.max 0 (mines (gameParams e)).
Proof.
  induction 1 as [fuel p h rng e h' rng' Hnew
                 |fuel e pos h rng res h' rng' _ IH Hb Hfuel Hres
                 |e pos h res h' _ IH Hb Hres
                 |fuel e0 pos h0 rng res h0' rng' e h _ IH0 Hb Hfuel Hres _ IH Hfr Hpar
                 |e0 pos h0 res h0' e h _ IH0 Hb Hres _ IH Hfr Hpar].
  - apply newGameEngine_fresh in Hnew
      as (Hok & _ & Hp & Hflags & _ & _ & Hblank & keys & Hkeys & Hlen).
    assert (flagCount h' (field e) = 0%nat) as Hzero.
    { unfold flagCount. simpl. rewrite filter_none; [done|].
      intros c [q Hq]%elem_of_getData. destruct (Hblank _ _ Hq) as [_ Hf]. congruence. }
    split_and!; [done| | |].
    + unfold flagsOk. rewrite Hzero, Hflags, Hp. lia.
    + rewrite Hflags, Hp. done.
    + rewrite (minesAre_count _ _ _ (eo_wf _ _ Hok) Hkeys), Hp. done.
  - destruct IH as (Hok & Hfl & Hnn & Hmc).
    destruct (revealCell_result _ _ _ _ _ _ _ _ Hok Hb Hfuel Hres)
      as (f1 & h1 & st2 & f2 & h2 & t & changes & Hrun & _ & _).
    pose proof (run_frame Hrun) as Hframe.
    split_and!; [by eapply run_engineOk_live| |done|].
    + unfold flagsOk. by rewrite (flagCount_frame _ _ _ (eo_wf _ _ Hok) Hframe).
    + by rewrite (mineCount_frame _ _ _ (eo_wf _ _ Hok) Hframe).
  - destruct IH as (Hok & Hfl & Hnn & Hmc).
    destruct (toggleFlag_result _ _ _ _ _ Hok Hb Hres)
      as (f1 & h1 & t & fl & un & Hrun & _).
    pose proof (toggle_frame Hrun) as Hframe.
    split_and!; [by eapply toggle_engineOk_live| |done|].
    + unfold flagsOk. by rewrite (flagCount_frame _ _ _ (eo_wf _ _ Hok) Hframe).
    + by rewrite (mineCount_frame _ _ _ (eo_wf _ _ Hok) Hframe).
  - destruct IH0 as (Hok0 & Hfl0 & Hnn0 & Hmc0). destruct IH as (Hok & _).
    destruct (revealCell_result _ _ _ _ _ _ _ _ Hok0 Hb Hfuel Hres)
      as (f1 & h1 & st2 & f2 & h2 & t & changes & Hrun & -> & _).
    pose proof (run_flagCount Hok0 Hrun) as Hle.
    pose proof (run_mineCount Hok0 Hrun) as Hmines.
    pose proof (flagCount_frame _ _ _ (run_wf Hrun) Hfr) as Hfc.
    pose proof (run_engineOk Hok0 Hrun e h Hfr Hpar) as Hok'.
    split; [exact Hok'|]. clear Hok'.
    unfold flagsOk in *. simpl. unfold getFlagsRemaining. fold (flagCount h0' f2).
    rewrite Hfc, (mineCount_frame _ _ _ (run_wf Hrun) Hfr), Hmines, Hpar.
    split_and!; [done | lia | done].
  - destruct IH0 as (Hok0 & Hfl0 & Hnn0 & Hmc0). destruct IH as (Hok & _).
    destruct (toggleFlag_result _ _ _ _ _ Hok0 Hb Hres)
      as (f1 & h1 & t & fl & un & Hrun & ->).
    pose proof (toggle_flagCount Hok0 Hrun) as Hcases.
    pose proof (toggle_mineCount Hok0 Hrun) as Hmines.
    pose proof (flagCount_frame _ _ _ (toggle_wf Hrun) Hfr) as Hfc.
    pose proof (toggle_engineOk Hok0 Hrun e h Hfr Hpar) as Hok'.
    split; [exact Hok'|]. clear Hok'.
    unfold flagsOk in *. simpl. unfold getFlagsRemaining. fold (flagCount h0' f1).
    rewrite Hfc, (mineCount_frame _ _ _ (toggle_wf Hrun) Hfr), Hmines, Hpar.
    split_and!; [done | lia | done].
Qed.

(** X9 — The flags left are the mines of the game less the flags on the field,
    in every state an engine built without data can reach, whichever
    results were computed and committed, in whichever order; and the engine
    never lets more flags be set than the game has mines. *)
Theorem flags_left_match_the_field e h :
  reachable e h →
  flagsRemaining e = mines (gameParams e) - Z.of_nat (flagCount h (field e))
  ∧ (0 <= mines (gameParams e) → 0 <= flagsRemaining e).
Proof. intros Hr. by destruct (reachable_counts e h Hr) as (_ & ? & ? & _). Qed.

(** The fresh 3 x 3 game has its one flag left. *)
Lemma flags_left_match_the_field_witness :
  flagsRemaining freshGame.1
  = mines (gameParams freshGame.1) - Z.of_nat (flagCount freshGame.2 (field freshGame.1))
  ∧ (0 <= mines (gameParams freshGame.1) → 0 <= flagsRemaining freshGame.1).
Proof.
  apply (flags_left_match_the_field freshGame.1 freshGame.2).
  apply (reachable_new 1 demoParams [] demoRng freshGame.1 freshGame.2 demoRng).
  vm_compute. reflexivity.
Defined.

(** X10 — The number of mines on the field of an engine built without data is the
    number the game was given (none for a negative number) in every state
    it can reach: the first click moves a mine, and nothing else touches
    one. *)
Theorem mine_count_is_kept e h :
  reachable e h →
  Z.of_nat (mineCount h (field e)) = Z.max 0 (mines (gameParams e)).
Proof. intros Hr. by destruct (reachable_counts e h Hr) as (_ & _ & _ & ?). Qed.

(** The fresh 3 x 3 game holds its one mine. *)
Lemma mine_count_is_kept_witness :
  Z.of_nat (mineCount freshGame.2 (field freshGame.1)) = Z.max 0 (mines (gameParams freshGame.1)).
Proof.
  apply (mine_count_is_kept freshGame.1 freshGame.2).
  apply (reachable_new 1 demoParams [] demoRng freshGame.1 freshGame.2 demoRng).
  vm_compute. reflexivity.
Defined.

(** ** game-engine.ts: [toggleFlag] on a closed cell of a game in progress *)

Lemma setIsFlagged_same c : setIsFlagged (isFlagged c) c = c.
Proof. by destruct c. Qed.

Lemma toggleFlag_effect e pos h c :
  engineOk h e → flagsOk h e → status e = Playing →
  cellAt h (field e) pos = Some c → isRevealed c = false →
  (isFlagged c = true ∨ 0 < flagsRemaining e) →
  ∃ res h',
    toggleFlag e pos h = Ok (res, h')
    ∧ (∀ q, cellAt h' (field (apply res e)) q
            = flagT (negb (isFlagged c)) pos q <$> cellAt h (field e) q)
    ∧ ActionChanges.flaggedCells (actionChanges res) = (if isFlagged c then [] else [c])
    ∧ ActionChanges.unflaggedCells (actionChanges res) = (if isFlagged c then [c] else [])
    ∧ flagsRemaining (apply res e)
      = (if isFlagged c then flagsRemaining e + 1 else flagsRemaining e - 1)
    ∧ status (apply res e) = Playing
    ∧ engineOk h' (apply res e) ∧ flagsOk h' (apply res e)
    ∧ gameParams (apply res e) = gameParams e.
Proof.
  intros Hok Hfl Hst Hc Hrev Hcan.
  pose proof (eo_wf _ _ Hok) as Hwf.
  assert (inBounds (params (field e)) pos) as Hb by (apply (cellAt_is_Some _ _ Hwf); eauto).
  destruct (toggleFlag_run e pos h Hok Hb) as (f1 & h1 & t & fl & un & h2 & Hrun).
  pose proof (tr_view _ _ _ _ _ _ _ _ _ Hrun) as [Hp Hcell].
  pose proof (tr_wf1 _ _ _ _ _ _ _ _ _ Hrun) as Hwf1.
  assert (deref h1 t = c) as Ec.
  { specialize (Hcell pos). unfold cellAt in Hcell at 1.
    rewrite (tr_target _ _ _ _ _ _ _ _ _ Hrun), Hc in Hcell. by injection Hcell. }
  assert (flaggedAt h1 f1 pos = isFlagged c) as Hat.
  { unfold flaggedAt, cellAt. rewrite (tr_target _ _ _ _ _ _ _ _ _ Hrun). simpl.
    by rewrite Ec. }
  pose proof (toggle_flagCount1 Hok Hrun) as Hcount1.
  pose proof (toggle_engineOk Hok Hrun e h2 (frame_refl h2) eq_refl) as Hok'.
  pose proof (toggle_wf Hrun) as Hwf2.
  pose proof (toggle_inBounds Hrun) as Hb1.
  pose proof (toggle_flaggedAt Hrun) as Hflags.
  unfold flagsOk in Hfl. rewrite <- Hcount1 in Hfl.
  exists (toggleResult e f1 (deref h1 t) fl un h2), h2.
  split; [apply Hrun|].
  assert (fl = (if isFlagged c then [] else [c]) ∧ un = (if isFlagged c then [c] else [])
          ∧ updates f1 (flagT (negb (isFlagged c)) pos) h1 h2) as (-> & -> & U).
  { destruct (tr_cases _ _ _ _ _ _ _ _ _ Hrun)
      as [(_ & _ & Hf & -> & -> & _ & U)
         |[(_ & _ & Hf & _ & -> & -> & _ & U)|([?|[Hr|[Hf Hz]]] & _)]];
      rewrite ?Ec in *; try congruence.
    - by rewrite Hf.
    - by rewrite Hf.
    - destruct Hcan; [congruence|lia]. }
  assert (Z.of_nat (flagCount h2 f1)
          = if isFlagged c then Z.of_nat (flagCount h1 f1) - 1
            else Z.of_nat (flagCount h1 f1) + 1) as Hcount.
  { pose proof (flagCount_flipped h1 f1 h2 pos (negb (isFlagged c)) Hwf1 Hwf2 Hb1) as Hflip.
    rewrite negb_involutive in Hflip. specialize (Hflip Hat (Hflags _ U)).
    destruct (isFlagged c); simpl in Hflip; lia. }
  simpl. split_and!; try done.
  - intros q. rewrite <- Hcell. by apply updates_cellAt.
  - unfold getFlagsRemaining. fold (flagCount h2 f1). destruct (isFlagged c); lia.
Qed.

(** X11 — On a closed cell of a game in progress [toggleFlag] flips that cell's
    flag and nothing else, lists the cell as it was under the flags set or
    the flags cleared, and moves the count of flags left by one; setting a
    flag needs a flag left, clearing one does not. *)
Theorem toggleFlag_flips_one_flag e pos h c :
  engineOk h e → flagsOk h e → status e = Playing →
  cellAt h (field e) pos = Some c → isRevealed c = false →
  (isFlagged c = true ∨ 0 < flagsRemaining e) →
  ∃ res h',
    toggleFlag e pos h = Ok (res, h')
    ∧ (∀ q, cellAt h' (field (apply res e)) q
            = flagT (negb (isFlagged c)) pos q <$> cellAt h (field e) q)
    ∧ ActionChanges.flaggedCells (actionChanges res) = (if isFlagged c then [] else [c])
    ∧ ActionChanges.unflaggedCells (actionChanges res) = (if isFlagged c then [c] else [])
    ∧ flagsRemaining (apply res e)
      = (if isFlagged c then flagsRemaining e + 1 else flagsRemaining e - 1)
    ∧ status (apply res e) = Playing.
Proof.
  intros Hok Hfl Hst Hc Hrev Hcan.
  destruct (toggleFlag_effect e pos h c Hok Hfl Hst Hc Hrev Hcan)
    as (res & h' & H1 & H2 & H3 & H4 & H5 & H6 & _).
  exists res, h'. by split_and!.
Qed.

Lemma openedGame_flagsOk : flagsOk openedGame.2 openedGame.1.
Proof. apply Z.eqb_eq. vm_compute. reflexivity. Qed.

(** A flag on the corner of the opened 3 x 3 game takes the one flag left. *)
Lemma toggleFlag_flips_one_flag_witness :
  ∃ res h',
    toggleFlag openedGame.1 (at_ 2 2) openedGame.2 = Ok (res, h')
    ∧ flaggedAt h' (field (apply res openedGame.1)) (at_ 2 2) = true
    ∧ flagsRemaining (apply res openedGame.1) = 0.
Proof.
  destruct (toggleFlag_flips_one_flag openedGame.1 (at_ 2 2) openedGame.2
              (mkCell (at_ 2 2) false false false 0))
    as (res & h' & Hres & Hcells & _ & _ & Hleft & _).
  - exact openedGame_ok.
  - exact openedGame_flagsOk.
  - vm_compute. reflexivity.
  - vm_compute. reflexivity.
  - reflexivity.
  - right. vm_compute. reflexivity.
  - exists res, h'. split_and!; [exact Hres | | exact Hleft].
    unfold flaggedAt. rewrite (Hcells (at_ 2 2)).
    replace (cellAt openedGame.2 (field openedGame.1) (at_ 2 2))
      with (Some (mkCell (at_ 2 2) false false false 0)) by (vm_compute; reflexivity).
    reflexivity.
Defined.

(** A toggle the engine refuses: the commit of its result shows the cells
    and the count of flags left as they were. *)
Lemma toggleFlag_refused e pos h c :
  engineOk h e → flagsOk h e →
  cellAt h (field e) pos = Some c →
  (status e ≠ Playing ∨ isRevealed c = true
   ∨ (isFlagged c = false ∧ flagsRemaining e <= 0)) →
  ∃ res h',
    toggleFlag e pos h = Ok (res, h')
    ∧ (∀ q, cellAt h' (field (apply res e)) q = cellAt h (field e) q)
    ∧ flagsRemaining (apply res e) = flagsRemaining e
    ∧ status (apply res e) = status e
    ∧ engineOk h' (apply res e) ∧ flagsOk h' (apply res e)
    ∧ gameParams (apply res e) = gameParams e.
Proof.
  intros Hok Hfl Hc Hno.
  pose proof (eo_wf _ _ Hok) as Hwf.
  assert (inBounds (params (field e)) pos) as Hb by (apply (cellAt_is_Some _ _ Hwf); eauto).
  destruct (toggleFlag_run e pos h Hok Hb) as (f1 & h1 & t & fl & un & h2 & Hrun).
  pose proof (tr_view _ _ _ _ _ _ _ _ _ Hrun) as [Hp Hcell].
  assert (deref h1 t = c) as Ec.
  { specialize (Hcell pos). unfold cellAt in Hcell at 1.
    rewrite (tr_target _ _ _ _ _ _ _ _ _ Hrun), Hc in Hcell. by injection Hcell. }
  pose proof (toggle_flagCount1 Hok Hrun) as Hcount1.
  pose proof (toggle_engineOk Hok Hrun e h2 (frame_refl h2) eq_refl) as Hok'.
  assert (fl = [] ∧ un = [] ∧ h2 = h1) as (-> & -> & ->).
  { destruct (tr_cases _ _ _ _ _ _ _ _ _ Hrun)
      as [(Hs & Hr & Hf & _)|[(Hs & Hr & Hf & Hleft & _)|(_ & ? & ? & ?)]];
      rewrite ?Ec in *; [| |done].
    - destruct Hno as [?|[?|[? _]]]; congruence.
    - destruct Hno as [?|[?|[_ ?]]]; [congruence|congruence|lia]. }
  exists (toggleResult e f1 (deref h1 t) [] [] h1), h1.
  split; [apply Hrun|].
  assert (flagsRemaining (apply (toggleResult e f1 (deref h1 t) [] [] h1) e)
          = flagsRemaining e) as Hleft.
  { simpl. unfold getFlagsRemaining. fold (flagCount h1 f1). rewrite Hcount1.
    symmetry. exact Hfl. }
  split_and!; done.
Qed.

(** X12 — Two toggles on the same cell, each committed at once, bring the field,
    the count of flags left and the status back to what they were, whatever
    the status and the cell, as long as the count of flags left is not
    negative and agrees with the flags on the field (as it does in every
    state of a game built without data): a flag set is cleared again, a
    flag cleared is set again, and a toggle the engine refuses is refused
    twice. *)
Theorem toggleFlag_twice_restores e pos h :
  engineOk h e → flagsOk h e → 0 <= flagsRemaining e →
  inBounds (gameParams e) pos →
  ∃ res1 h1 res2 h2,
    toggleFlag e pos h = Ok (res1, h1)
    ∧ toggleFlag (apply res1 e) pos h1 = Ok (res2, h2)
    ∧ getData h2 (field (apply res2 (apply res1 e))) = getData h (field e)
    ∧ flagsRemaining (apply res2 (apply res1 e)) = flagsRemaining e
    ∧ status (apply res2 (apply res1 e)) = status e.
Proof.
  intros Hok Hfl Hnn Hb. rewrite (eo_params _ _ Hok) in Hb.
  destruct (proj2 (cellAt_is_Some _ _ (eo_wf _ _ Hok) pos) Hb) as [c Hc].
  destruct (decide (status e = Playing ∧ isRevealed c = false
                    ∧ (isFlagged c = true ∨ 0 < flagsRemaining e)))
    as [(Hst & Hrev & Hcan)|Hno].
  - (* the flag is flipped, and flipped back *)
    destruct (toggleFlag_effect e pos h c Hok Hfl Hst Hc Hrev Hcan)
      as (res1 & h1 & E1 & Hcells1 & _ & _ & Hleft1 & Hst1 & Hok1 & Hfl1 & Hp1).
    set (c1 := setIsFlagged (negb (isFlagged c)) c).
    assert (cellAt h1 (field (apply res1 e)) pos = Some c1) as Hc1.
    { rewrite Hcells1, Hc. simpl. unfold flagT. by rewrite bool_decide_true. }
    destruct (toggleFlag_effect (apply res1 e) pos h1 c1 Hok1 Hfl1 Hst1 Hc1)
      as (res2 & h2 & E2 & Hcells2 & _ & _ & Hleft2 & Hst2 & Hok2 & _ & Hp2).
    { by destruct c. }
    { rewrite Hleft1. unfold c1. destruct c as [? ? ? [] ?]; simpl in *.
      - right. lia.
      - by left. }
    exists res1, h1, res2, h2. split_and!; try done.
    + apply getData_sameView; [apply Hok | apply Hok2 |]. split.
      * rewrite <- (eo_params _ _ Hok2), <- (eo_params _ _ Hok). congruence.
      * intros q. rewrite Hcells2, Hcells1.
        destruct (cellAt h (field e) q) as [cq|] eqn:Eq; [|done]. simpl. f_equal.
        unfold flagT. case_bool_decide as Hq; [|done]. subst q.
        assert (cq = c) as -> by congruence.
        unfold c1. destruct c as [? ? ? [] ?]; done.
    + rewrite Hleft2, Hleft1. unfold c1. destruct c as [? ? ? [] ?]; simpl; lia.
    + congruence.
  - (* the toggle is refused, twice *)
    assert (status e ≠ Playing ∨ isRevealed c = true
            ∨ (isFlagged c = false ∧ flagsRemaining e <= 0)) as Hcase.
    { destruct (decide (status e = Playing)) as [Hst|]; [|by left].
      destruct (isRevealed c) eqn:Hrev; [by right; left|].
      destruct (isFlagged c) eqn:Hf; [exfalso; apply Hno; auto|].
      right. right. split; [done|].
      destruct (decide (0 < flagsRemaining e)); [|lia]. exfalso. apply Hno. auto. }
    destruct (toggleFlag_refused e pos h c Hok Hfl Hc Hcase)
      as (res1 & h1 & E1 & Hcells1 & Hleft1 & Hst1 & Hok1 & Hfl1 & Hp1).
    assert (cellAt h1 (field (apply res1 e)) pos = Some c) as Hc1 by (by rewrite Hcells1).
    destruct (toggleFlag_refused (apply res1 e) pos h1 c Hok1 Hfl1 Hc1)
      as (res2 & h2 & E2 & Hcells2 & Hleft2 & Hst2 & Hok2 & _ & Hp2).
    { by rewrite Hst1, Hleft1. }
    exists res1, h1, res2, h2. split_and!; try done; [|congruence|congruence].
    apply getData_sameView; [apply Hok | apply Hok2 |]. split.
    + rewrite <- (eo_params _ _ Hok2), <- (eo_params _ _ Hok). congruence.
    + intros q. by rewrite Hcells2, Hcells1.
Qed.

(** The corner of the opened 3 x 3 game, flagged and unflagged again. *)
Lemma toggleFlag_twice_restores_witness :
  ∃ res1 h1 res2 h2,
    toggleFlag openedGame.1 (at_ 2 2) openedGame.2 = Ok (res1, h1)
    ∧ toggleFlag (apply res1 openedGame.1) (at_ 2 2) h1 = Ok (res2, h2)
    ∧ getData h2 (field (apply res2 (apply res1 openedGame.1)))
      = getData openedGame.2 (field openedGame.1)
    ∧ flagsRemaining (apply res2 (apply res1 openedGame.1)) = flagsRemaining openedGame.1
    ∧ status (apply res2 (apply res1 openedGame.1)) = status openedGame.1.
Proof.
  apply (toggleFlag_twice_restores openedGame.1 (at_ 2 2) openedGame.2).
  - exact openedGame_ok.
  - exact openedGame_flagsOk.
  - vm_compute. discriminate.
  - apply inBounds_demo; lia.
Defined.

(** ** game-engine.ts: [revealCell] on a closed cell of a game in progress *)

Section RevealPlaying.
Context {fuel e pos h rng f1 h1 st2 f2 h2 t changes h3 c}
        (Hok : engineOk h e)
        (Hrun : revealRun fuel e pos h rng f1 h1 st2 f2 h2 t changes h3)
        (Hst : status e = Playing)
        (Hc : cellAt h (field e) pos = Some c).

Lemma playing_view : st2 = Playing ∧ h2 = h1 ∧ sameView h (field e) h1 f2 ∧ deref h1 t = c.
Proof using Hrun Hst Hc.
  assert (status e ≠ Idle) as Hni by (rewrite Hst; done).
  destruct (run_later_view Hrun Hni) as (-> & -> & Hview).
  split_and!; try done. destruct Hview as [_ Hcell]. specialize (Hcell pos).
  unfold cellAt in Hcell at 1.
  rewrite (rr_target _ _ _ _ _ _ _ _ _ _ _ _ _ Hrun), Hc in Hcell. by injection Hcell.
Qed.
End RevealPlaying.

(** X14 — In a game in progress, [revealCell] on an unflagged mine reveals that
    cell and no other, lists it (as it was) as handled and exploded, and
    returns the status [Lost]. *)
Theorem reveal_mine_explodes fuel e pos h rng c :
  engineOk h e → status e = Playing → (enoughFuel (gameParams e) ≤ fuel)%nat →
  cellAt h (field e) pos = Some c → isMine c = true → isFlagged c = false →
  ∃ res h',
    revealCell fuel e pos h rng = Ok (res, h', rng)
    ∧ snapshot_status (actionSnapshot res) = Lost
    ∧ ActionChanges.explodedCells (actionChanges res) = [c]
    ∧ ActionChanges.handledCells (actionChanges res) = [c]
    ∧ ActionChanges.revealedCells (actionChanges res) = []
    ∧ ActionChanges.unflaggedCells (actionChanges res) = []
    ∧ ∀ q, cellAt h' (field (apply res e)) q
           = (fun cq => if bool_decide (q = pos) then setIsRevealed true cq else cq)
               <$> cellAt h (field e) q.
Proof.
  intros Hok Hst Hfuel Hc Hmine Hflag.
  pose proof (eo_wf _ _ Hok) as Hwf.
  assert (inBounds (params (field e)) pos) as Hb by (apply (cellAt_is_Some _ _ Hwf); eauto).
  rewrite (eo_params _ _ Hok) in Hfuel.
  destruct (revealCell_run fuel e pos h rng Hok Hb Hfuel)
    as (f1 & h1 & st2 & f2 & h2 & t & changes & h3 & Hrun).
  destruct (playing_view Hrun Hst Hc) as (-> & -> & [Hp Hcell] & Ec).
  pose proof (rr_main _ _ _ _ _ _ _ _ _ _ _ _ _ Hrun) as Hmain.
  rewrite mainAction_mine in Hmain by (by rewrite Ec).
  injection Hmain as <- <-.
  pose proof (updates_modify f2 h1 pos t (setIsRevealed true)
                (rr_wf2 _ _ _ _ _ _ _ _ _ _ _ _ _ Hrun)
                (rr_target _ _ _ _ _ _ _ _ _ _ _ _ _ Hrun)) as U.
  assert (∀ q, cellAt (modify (setIsRevealed true) h1 t) f2 q
               = (fun cq => if bool_decide (q = pos) then setIsRevealed true cq else cq)
                   <$> cellAt h (field e) q) as Hcells.
  { intros q. rewrite <- Hcell. by rewrite (updates_cellAt _ _ _ _ q U). }
  eexists _, _. split; [apply Hrun|]. simpl. rewrite ?Ec. split_and!; try done.
  apply determineStatus_Lost. intros Hnil.
  assert (setIsRevealed true c ∈ FieldState.explodedCells
            (getState (modify (setIsRevealed true) h1 t) f2)) as Hin.
  { simpl. apply list_elem_of_filter. split.
    - unfold isExploded. simpl. by rewrite Hmine.
    - apply elem_of_getData. exists pos. rewrite Hcells, Hc. simpl.
      by rewrite bool_decide_true. }
  rewrite Hnil in Hin. by apply elem_of_nil in Hin.
Qed.

(** The opened 3 x 3 game is lost by a reveal on its mine. *)
Lemma reveal_mine_explodes_witness :
  ∃ res h',
    revealCell 100 openedGame.1 (at_ 0 0) openedGame.2 demoRng = Ok (res, h', demoRng)
    ∧ snapshot_status (actionSnapshot res) = Lost
    ∧ ActionChanges.explodedCells (actionChanges res) = [mkCell (at_ 0 0) true false false 0].
Proof.
  destruct (reveal_mine_explodes 100 openedGame.1 (at_ 0 0) openedGame.2 demoRng
              (mkCell (at_ 0 0) true false false 0))
    as (res & h' & Hres & Hlost & Hexp & _).
  - exact openedGame_ok.
  - vm_compute. reflexivity.
  - vm_compute. lia.
  - vm_compute. reflexivity.
  - reflexivity.
  - reflexivity.
  - exists res, h'. split_and!; [exact Hres | exact Hlost | exact Hexp].
Defined.

(** X15 — In a game in progress without a revealed mine, [revealCell] on a closed,
    unflagged cell that is no mine opens the cells of its reveal area
    (revealed, flag cleared) and leaves every other cell as it is; no mine
    is revealed, so the status returned is not [Lost]. *)
Theorem reveal_safe_cell_opens_its_area fuel e pos h rng c :
  engineOk h e → status e = Playing → noExploded h (field e) →
  (enoughFuel (gameParams e) ≤ fuel)%nat →
  cellAt h (field e) pos = Some c →
  isMine c = false → isRevealed c = false → isFlagged c = false →
  ∃ res h' area,
    revealCell fuel e pos h rng = Ok (res, h', rng)
    ∧ getAreaToReveal fuel h (field e) pos = Ok area
    ∧ (∀ q l, locAt (field e) q = Some l →
         cellAt h' (field (apply res e)) q
         = Some (if bool_decide (l ∈ area) then revealT (deref h l) else deref h l))
    ∧ snapshot_status (actionSnapshot res) ≠ Lost
    ∧ ActionChanges.explodedCells (actionChanges res) = []
    ∧ ActionChanges.handledCells (actionChanges res) = [c].
Proof.
  intros Hok Hst Hno Hfuel Hc Hmine Hrev Hflag.
  pose proof (eo_wf _ _ Hok) as Hwf.
  assert (inBounds (params (field e)) pos) as Hb by (apply (cellAt_is_Some _ _ Hwf); eauto).
  rewrite (eo_params _ _ Hok) in Hfuel.
  destruct (revealCell_run fuel e pos h rng Hok Hb Hfuel)
    as (f1 & h1 & st2 & f2 & h2 & t & changes & h3 & Hrun).
  destruct (playing_view Hrun Hst Hc) as (-> & -> & Hview & Ec).
  pose proof Hview as [Hp Hcell].
  pose proof (rr_wf2 _ _ _ _ _ _ _ _ _ _ _ _ _ Hrun) as Hwf2.
  pose proof (rr_adj2 _ _ _ _ _ _ _ _ _ _ _ _ _ Hrun) as Hadj2.
  assert (inBounds (params f2) pos) as Hb2 by (by rewrite Hp).
  assert (enoughFuel (params f2) ≤ fuel)%nat as Hfuel2 by (by rewrite Hp).
  pose proof (rr_main _ _ _ _ _ _ _ _ _ _ _ _ _ Hrun) as Hmain.
  rewrite mainAction_open in Hmain by (by rewrite Ec).
  destruct (openArea_spec fuel h1 f2 pos Hwf2 Hb2 Hfuel2)
    as (h' & unflagged & revealed & Hopen & Hops & Hcells).
  rewrite Hopen in Hmain. simpl in Hmain. injection Hmain as <- <-.
  destruct (getAreaToReveal_reach fuel h (field e) pos Hwf Hb Hfuel)
    as (target & area & _ & Harea & _ & _ & Hreach).
  assert (noExploded h1 f2) as Hno2.
  { intros q cq Hq. rewrite Hcell in Hq. by apply (Hno q). }
  assert (mineAt h1 f2 pos = false) as Hm2.
  { rewrite (sameView_mineAt _ _ _ _ pos Hview). unfold mineAt. by rewrite Hc. }
  destruct (openArea_noExploded fuel h1 f2 pos h' unflagged revealed
              Hwf2 Hadj2 Hb2 Hfuel2 Hm2 Hno2 Hopen) as [Hno3 _].
  eexists _, _, area. split; [apply Hrun|]. simpl. rewrite Ec.
  split_and!; try done.
  - intros q l Hl.
    assert (is_Some (locAt f2 q)) as [l2 Hl2].
    { apply (locAt_is_Some _ _ Hwf2). rewrite Hp. apply (locAt_is_Some _ _ Hwf). eauto. }
    assert (deref h1 l2 = deref h l) as Hsame.
    { specialize (Hcell q). unfold cellAt in Hcell. rewrite Hl, Hl2 in Hcell.
      by injection Hcell. }
    unfold cellAt. rewrite Hl2. simpl. f_equal.
    destruct (Hcells q l2 Hl2) as [Hin Hout]. case_bool_decide as Ha.
    + rewrite Hin, Hsame; [done|].
      apply (sameView_reach _ _ _ _ _ _ Hview). by apply (Hreach q l Hl).
    + rewrite Hout, Hsame; [done|]. intros Hr. apply Ha, (Hreach q l Hl).
      by apply (sameView_reach _ _ _ _ _ _ Hview).
  - intros Hlost. apply determineStatus_Lost in Hlost. by apply Hlost, explodedCells_nil.
Qed.

Lemma flaggedGame_noExploded : noExploded flaggedGame.2 (field flaggedGame.1).
Proof.
  apply noExplodedb_sound; [apply flaggedGame_ok | vm_compute; reflexivity].
Qed.

(** A reveal on the far corner of the 3 x 3 game whose mine is flagged
    opens the corner and does not lose. *)
Lemma reveal_safe_cell_opens_its_area_witness :
  ∃ res h' area,
    revealCell 100 flaggedGame.1 (at_ 2 2) flaggedGame.2 demoRng = Ok (res, h', demoRng)
    ∧ getAreaToReveal 100 flaggedGame.2 (field flaggedGame.1) (at_ 2 2) = Ok area
    ∧ snapshot_status (actionSnapshot res) ≠ Lost.
Proof.
  destruct (reveal_safe_cell_opens_its_area 100 flaggedGame.1 (at_ 2 2) flaggedGame.2 demoRng
              (mkCell (at_ 2 2) false false false 0))
    as (res & h' & area & Hres & Harea & _ & Hst & _).
  - exact flaggedGame_ok.
  - vm_compute. reflexivity.
  - exact flaggedGame_noExploded.
  - vm_compute. lia.
  - vm_compute. reflexivity.
  - reflexivity.
  - reflexivity.
  - reflexivity.
  - exists res, h', area. split_and!; [exact Hres | exact Harea | exact Hst].
Defined.

(** X17 — What no action does: [toggleFlag] never moves a mine, changes a number
    or reveals or closes a cell; [revealCell] never closes a revealed cell
    and never sets a flag, and once the game has left [Idle] it never moves
    a mine or changes a number. *)
Theorem actions_keep_what_is_settled :
  (∀ fuel e pos h rng res h' rng',
     engineOk h e → inBounds (gameParams e) pos → (enoughFuel (gameParams e) ≤ fuel)%nat →
     revealCell fuel e pos h rng = Ok (res, h', rng') →
     ∀ q c, cellAt h (field e) q = Some c →
       ∃ c', cellAt h' (field (apply res e)) q = Some c'
             ∧ (isRevealed c = true → isRevealed c' = true)
             ∧ (isFlagged c' = true → isFlagged c = true)
             ∧ (status e ≠ Idle →
                  isMine c' = isMine c ∧ adjacentMines c' = adjacentMines c))
  ∧ (∀ e pos h res h',
       engineOk h e → inBounds (gameParams e) pos →
       toggleFlag e pos h = Ok (res, h') →
       ∀ q c, cellAt h (field e) q = Some c →
         ∃ c', cellAt h' (field (apply res e)) q = Some c'
               ∧ isMine c' = isMine c ∧ adjacentMines c' = adjacentMines c
               ∧ isRevealed c' = isRevealed c).
Proof.
  split.
  - intros fuel e pos h rng res h' rng' Hok Hb Hfuel Hres q c Hc.
    destruct (revealCell_result _ _ _ _ _ _ _ _ Hok Hb Hfuel Hres)
      as (f1 & h1 & st2 & f2 & h2 & t & changes & Hrun & -> & _).
    simpl.
    destruct (rr_view _ _ _ _ _ _ _ _ _ _ _ _ _ Hrun) as [Hp1 Hcell].
    pose proof (rr_locAt _ _ _ _ _ _ _ _ _ _ _ _ _ Hrun q) as Hloc.
    rewrite <- Hcell in Hc. unfold cellAt in Hc |- *. rewrite Hloc.
    destruct (locAt f1 q) as [l|] eqn:El; [|done]. simpl in Hc. injection Hc as Hc.
    assert (locAt f2 q = Some l) as El2 by congruence.
    destruct (rr_marks _ _ _ _ _ _ _ _ _ _ _ _ _ Hrun _ _ El) as [Hr12 Hf12].
    pose proof (rr_opens _ _ _ _ _ _ _ _ _ _ _ _ _ Hrun) as Hop.
    exists (deref h' l). simpl. split_and!; [done| | |].
    + intros Hr. apply (op_revealed _ _ _ Hop _ _ El2). rewrite Hr12. by rewrite Hc.
    + intros Hf. apply (op_flagged _ _ _ Hop _ _ El2) in Hf. rewrite Hf12 in Hf.
      by rewrite Hc in Hf.
    + intros Hni. destruct (rr_later _ _ _ _ _ _ _ _ _ _ _ _ _ Hrun Hni) as [_ ->].
      destruct (op_core _ _ _ Hop _ _ El2) as (_ & Hm & Ha). rewrite Hc in Hm, Ha. done.
  - intros e pos h res h' Hok Hb Hres q c Hc.
    destruct (toggleFlag_result _ _ _ _ _ Hok Hb Hres)
      as (f1 & h1 & t & fl & un & Hrun & ->).
    simpl. destruct (toggle_updates Hrun) as (T & U & HT).
    destruct (tr_view _ _ _ _ _ _ _ _ _ Hrun) as [_ Hcell].
    rewrite (updates_cellAt _ _ _ _ q U), Hcell, Hc. simpl.
    exists (T q c). destruct (HT q c) as (_ & ? & ? & ?). done.
Qed.

(** The reveal of the mine of the opened 3 x 3 game keeps the revealed
    centre revealed. *)
Lemma actions_keep_what_is_settled_witness :
  ∃ res h' rng' c',
    revealCell 100 openedGame.1 (at_ 0 0) openedGame.2 demoRng = Ok (res, h', rng')
    ∧ cellAt h' (field (apply res openedGame.1)) (at_ 1 1) = Some c'
    ∧ isRevealed c' = true.
Proof.
  destruct (revealCell 100 openedGame.1 (at_ 0 0) openedGame.2 demoRng)
    as [[[res h'] rng']| |] eqn:E.
  - destruct (proj1 actions_keep_what_is_settled 100%nat openedGame.1 (at_ 0 0) openedGame.2
                demoRng res h' rng' openedGame_ok) with (q := at_ 1 1)
                (c := mkCell (at_ 1 1) false true false 1)
      as (c' & Hc' & Hrev & _).
    + apply inBounds_demo; lia.
    + vm_compute. lia.
    + exact E.
    + vm_compute. reflexivity.
    + exists res, h', rng', c'. split_and!; [reflexivity | exact Hc' | by apply Hrev].
  - vm_compute in E. discriminate E.
  - vm_compute in E. discriminate E.
Defined.

(** ** game-engine.ts: two edges of the first moves *)

Lemma filter_length_all {A} (P : A → Prop) `{∀ x, Decision (P x)} (l : list A) :
  length (filter P l) = length l → ∀ x, x ∈ l → P x.
Proof.
  intros Hlen x Hx. pose proof (filter_length_compl P l) as Hc.
  assert (filter (fun x => ¬ P x) l = []) as Hnil.
  { destruct (filter (fun x => ¬ P x) l); [done | simpl in Hc; lia]. }
  destruct (decide (P x)) as [|Hn]; [done|].
  exfalso. by apply (proj1 (filter_nil_iff _ l) Hnil x Hx).
Qed.

(** X13 — Before the first reveal no flag can be set: while the status is [Idle]
    [toggleFlag] returns a result that lists no change and shows the cells
    as they are, and its commit leaves the status [Idle]. *)
Theorem toggleFlag_waits_for_the_first_reveal e pos h :
  engineOk h e → status e = Idle → inBounds (gameParams e) pos →
  ∃ res h',
    toggleFlag e pos h = Ok (res, h')
    ∧ noopResult e h res
    ∧ status (apply res e) = Idle
    ∧ getData h' (field (apply res e)) = getData h (field e).
Proof.
  intros Hok Hst Hb. rewrite (eo_params _ _ Hok) in Hb.
  destruct (toggleFlag_run e pos h Hok Hb) as (f1 & h1 & t & fl & un & h2 & Hrun).
  assert (fl = [] ∧ un = [] ∧ h2 = h1) as (-> & -> & ->).
  { destruct (tr_cases _ _ _ _ _ _ _ _ _ Hrun)
      as [(Hs & _)|[(Hs & _)|(_ & ? & ? & ?)]]; [congruence|congruence|done]. }
  eexists _, h1. split; [apply Hrun|]. simpl.
  assert (getState h1 f1 = getState h (field e)) as Hsame.
  { apply getState_sameView; [apply Hok | apply Hrun | apply Hrun]. }
  split_and!.
  - unfold noopResult. simpl. split_and!; try reflexivity. exact Hsame.
  - exact Hst.
  - apply getData_sameView; [apply Hok | apply Hrun | apply Hrun].
Qed.

(** No flag on the fresh 3 x 3 game. *)
Lemma toggleFlag_waits_for_the_first_reveal_witness :
  ∃ res h',
    toggleFlag freshGame.1 (at_ 2 2) freshGame.2 = Ok (res, h')
    ∧ noopResult freshGame.1 freshGame.2 res
    ∧ status (apply res freshGame.1) = Idle.
Proof.
  destruct (toggleFlag_waits_for_the_first_reveal freshGame.1 (at_ 2 2) freshGame.2)
    as (res & h' & H1 & H2 & H3 & _).
  - exact freshGame_ok.
  - vm_compute. reflexivity.
  - apply inBounds_demo; lia.
  - exists res, h'. split_and!; [exact H1 | exact H2 | exact H3].
Defined.

(** X16 — On a board that is all mines the first reveal finds no cell to move the
    mine to: nothing is revealed and no change is listed, and since no cell
    is left to reveal the status returned is [Won]. *)
Theorem first_reveal_on_a_full_board_wins fuel0 p h0 rng0 e h rng fuel pos :
  newGameEngine fuel0 {| cfg_params := p; cfg_data := None |} h0 rng0 = Ok (e, h, rng) →
  mines p = Z.of_nat (rows p * cols p) →
  inBounds p pos → (enoughFuel p ≤ fuel)%nat →
  ∃ res h',
    revealCell fuel e pos h rng = Ok (res, h', rng)
    ∧ snapshot_status (actionSnapshot res) = Won
    ∧ noopResult e h res.
Proof.
  intros Hnew Hfull Hb Hfuel.
  destruct (newGameEngine_fresh _ _ _ _ _ _ _ Hnew)
    as (Hok & Hst & Hp & _ & _ & _ & Hblank & keys & Hkeys & Hlen).
  pose proof (eo_wf _ _ Hok) as Hwf.
  assert (params (field e) = p) as Hpf by (rewrite <- (eo_params _ _ Hok); done).
  assert (∀ q, inBounds p q → mineAt h (field e) q = true) as Hall.
  { intros q Hq. apply elem_of_allPositions in Hq. rewrite <- Hpf in Hq.
    apply (filter_length_all (fun q => mineAt h (field e) q = true) _) in Hq; [done|].
    fold (minedPositions h (field e)).
    rewrite <- (mineCount_positions _ _ Hwf), (minesAre_count _ _ _ Hwf Hkeys).
    rewrite length_allPositions, Hpf. lia. }
  rewrite <- Hpf in Hb, Hfuel.
  destruct (revealCell_run fuel e pos h rng Hok Hb Hfuel)
    as (f1 & h1 & st2 & f2 & h2 & t & changes & h3 & Hrun).
  pose proof (rr_view _ _ _ _ _ _ _ _ _ _ _ _ _ Hrun) as Hview.
  assert (mineAt h1 f1 pos = true) as Hm1.
  { rewrite (sameView_mineAt _ _ _ _ pos Hview). apply Hall. by rewrite <- Hpf. }
  assert (st2 = Lost ∧ h2 = h1) as [-> ->].
  { destruct (rr_mined _ _ _ _ _ _ _ _ _ _ _ _ _ Hrun Hst Hm1)
      as [(? & ? & _)|(_ & to & Hto & Hnot & _)]; [done|]. exfalso.
    rewrite (sameView_mineAt _ _ _ _ to Hview) in Hnot.
    rewrite Hall in Hnot; [done|]. rewrite <- Hpf.
    by apply (sameView_inBounds _ _ _ _ to Hview). }
  pose proof (rr_main _ _ _ _ _ _ _ _ _ _ _ _ _ Hrun) as Hmain.
  rewrite mainAction_idle in Hmain by done. injection Hmain as <- <-.
  pose proof (run_noop fuel e pos h rng f1 h1 Lost f2 t Hok Hrun) as Hnoop.
  eexists _, h1. split; [apply Hrun|]. split; [|exact Hnoop].
  destruct Hnoop as (_ & _ & _ & _ & Hstate). simpl in Hstate |- *. rewrite Hstate.
  unfold determineStatus. simpl.
  assert (∀ c, c ∈ concat (getData h (field e)) → isRevealed c = false) as Hclosed.
  { intros c [q Hq]%elem_of_getData. by destruct (Hblank q c Hq). }
  rewrite (filter_none (fun c => isExploded c = true)).
  2:{ intros c Hc. unfold isExploded. rewrite (Hclosed c Hc), andb_false_r. done. }
  rewrite (filter_none (fun c => isRevealed c = true)).
  2:{ intros c Hc. rewrite (Hclosed c Hc). done. }
  simpl. rewrite Hp, Hfull.
  replace (Z.of_nat (cols p) * Z.of_nat (rows p) - Z.of_nat (rows p * cols p)) with 0 by lia.
  reflexivity.
Qed.

(** The board of one cell, a mine, is won by its first reveal. *)
Lemma first_reveal_on_a_full_board_wins_witness :
  ∃ res h',
    revealCell 100 fullGame.1 (at_ 0 0) fullGame.2 demoRng = Ok (res, h', demoRng)
    ∧ snapshot_status (actionSnapshot res) = Won
    ∧ noopResult fullGame.1 fullGame.2 res.
Proof.
  apply (first_reveal_on_a_full_board_wins 1 {| cols := 1; rows := 1; mines := 1 |} []
           demoRng fullGame.1 fullGame.2 demoRng 100 (at_ 0 0)).
  - vm_compute. reflexivity.
  - reflexivity.
  - split; simpl; lia.
  - vm_compute. lia.
Defined.

(** ** field-solver.ts: what [solve] reports *)

Section Closed.
Context (h : Heap) (f : Field) (Hwf : wf h f).

Lemma markClosed_closed v closed acc :
  Forall (fun s => gridLoc f s ∧ isRevealed (deref h s) = false) closed →
  probsClosed h f acc.1 → probsClosed h f (markClosed v h closed acc).1.
Proof using Hwf.
  unfold markClosed. revert acc.
  induction closed as [|sib closed IH]; intros [probs upd] Hcl Hacc; [done|].
  apply Forall_cons in Hcl as [[[q Hq] Hrev] Hcl]. cbn [foldl].
  apply IH; [done|].
  destruct (mapHas (createKey (position (deref h sib))) probs) eqn:Ehas; [done|].
  apply mapHas_false in Ehas. rewrite (mapSet_new _ _ _ Ehas). simpl.
  intros k p [Hin|[= -> ->]%list_elem_of_singleton]%elem_of_app; [by apply (Hacc k p)|].
  simpl. rewrite (locAt_position _ _ Hwf _ _ Hq).
  unfold revealedAt, cellAt. by rewrite Hq.
Qed.

Lemma closed_siblings pos :
  Forall (fun s => gridLoc f s ∧ isRevealed (deref h s) = false)
    (filter (fun s => isRevealed (deref h s) = false) (siblingLocs f pos)).
Proof using Hwf.
  apply Forall_forall. intros s [Hrev Hs]%list_elem_of_filter. split; [|done].
  pose proof (siblingLocs_gridLoc f pos) as Hg. rewrite Forall_forall in Hg. by apply Hg.
Qed.

Lemma inferCertainMines_closed cells :
  ∀ probs upd probs' upd',
    inferCertainMines h f cells probs upd = Ok (probs', upd') →
    probsClosed h f probs → probsClosed h f probs'.
Proof using Hwf.
  induction cells as [|cell cells IH]; intros probs upd probs' upd' E Hcl.
  - by injection E as <- _.
  - simpl in E. destruct (isEmpty cell || isMine cell); [by eapply IH|].
    rewrite (getSiblings_wf _ _ Hwf) in E. simpl in E.
    destruct (length _ =? 0)%nat; [by eapply IH|].
    destruct (_ =? _); [|by eapply IH].
    destruct (markClosed 1 h _ (probs, upd)) as [probs1 upd1] eqn:Em.
    eapply IH; [exact E|].
    change probs1 with (probs1, upd1).1. rewrite <- Em.
    apply markClosed_closed; [apply closed_siblings | done].
Qed.

Lemma inferCertainSafeCells_closed cells :
  ∀ probs upd probs' upd',
    inferCertainSafeCells h f cells probs upd = Ok (probs', upd') →
    probsClosed h f probs → probsClosed h f probs'.
Proof using Hwf.
  induction cells as [|cell cells IH]; intros probs upd probs' upd' E Hcl.
  - by injection E as <- _.
  - simpl in E. destruct (isEmpty cell || isMine cell); [by eapply IH|].
    rewrite (getSiblings_wf _ _ Hwf) in E. simpl in E.
    destruct (length _ =? 0)%nat; [by eapply IH|].
    destruct (_ =? _); [|by eapply IH].
    destruct (markClosed 0 h _ (probs, upd)) as [probs1 upd1] eqn:Em.
    eapply IH; [exact E|].
    change probs1 with (probs1, upd1).1. rewrite <- Em.
    apply markClosed_closed; [apply closed_siblings | done].
Qed.

Lemma solveLoop_closed fuel cells :
  ∀ probs probs',
    solveLoop fuel h f cells probs = Ok probs' →
    probsClosed h f probs → probsClosed h f probs'.
Proof using Hwf.
  induction fuel as [|fuel IH]; intros probs probs' E Hcl; [done|].
  simpl in E. apply bind_Ok in E as ([probs1 m] & E1 & E).
  apply bind_Ok in E as ([probs2 s] & E2 & E).
  pose proof (inferCertainMines_closed _ _ _ _ _ E1 Hcl) as Hcl1.
  pose proof (inferCertainSafeCells_closed _ _ _ _ _ E2 Hcl1) as Hcl2.
  destruct (m || s); [by eapply IH | by injection E as <-].
Qed.
End Closed.

Lemma solve_report fuel s h :
  wf h (solver_field s) →
  (rows (params (solver_field s)) * cols (params (solver_field s)) < fuel)%nat →
  ∃ probs,
    solve fuel s h = Ok (mapValues probs)
    ∧ probsOk (solver_field s) probs ∧ probsClosed h (solver_field s) probs
    ∧ (adjacencyOk h (solver_field s) → noExploded h (solver_field s) →
       probsSound h (solver_field s) probs).
Proof.
  intros Hwf Hfuel. unfold solve.
  assert (probsOk (solver_field s) []) as Hok0.
  { split; [constructor|]. intros k p Hin. by apply elem_of_nil in Hin. }
  destruct (solveLoop_spec h (solver_field s) Hwf fuel _ (cellsOf_revealed _ _) [] Hok0)
    as (probs & E & Hok & Hs); [simpl; lia|].
  exists probs. rewrite E. simpl. split_and!; try done.
  - eapply solveLoop_closed; [done | exact E |].
    intros k p Hin. by apply elem_of_nil in Hin.
  - intros Hadj Hno. apply Hs; try done. intros k p Hin. by apply elem_of_nil in Hin.
Qed.

Lemma elem_of_mapValues {V} (m : list (Key * V)) v : v ∈ mapValues m ↔ ∃ k, (k, v) ∈ m.
Proof.
  unfold mapValues. rewrite list_elem_of_In, in_map_iff. split.
  - intros ([k v'] & <- & Hin). exists k. by apply list_elem_of_In.
  - intros [k Hin]. exists (k, v). split; [done | by apply list_elem_of_In].
Qed.

(** X18 — [solve] reports closed cells of the grid only, and no position twice. *)
Theorem solve_reports_closed_cells_once fuel s h :
  wf h (solver_field s) →
  (rows (params (solver_field s)) * cols (params (solver_field s)) < fuel)%nat →
  ∃ out,
    solve fuel s h = Ok out
    ∧ NoDup (MineProbability.position <$> out)
    ∧ ∀ p, p ∈ out →
        inBounds (params (solver_field s)) (MineProbability.position p)
        ∧ revealedAt h (solver_field s) (MineProbability.position p) = false.
Proof.
  intros Hwf Hfuel.
  destruct (solve_report fuel s h Hwf Hfuel) as (probs & E & [Hnd Hent] & Hcl & _).
  exists (mapValues probs). split_and!; [done| |].
  - apply (NoDup_fmap_1 createKey).
    assert (createKey <$> (MineProbability.position <$> mapValues probs) = map fst probs)
      as ->; [|done].
    unfold mapValues. change (map snd probs) with (snd <$> probs).
    change (map fst probs) with (fst <$> probs). rewrite <- !list_fmap_compose.
    apply list_fmap_ext. intros i [k p] Hi. simpl.
    apply list_elem_of_lookup_2 in Hi. by destruct (Hent _ _ Hi) as (-> & _).
  - intros p [k Hk]%elem_of_mapValues. split; [|by apply (Hcl k p)].
    by destruct (Hent _ _ Hk) as (_ & ? & _).
Qed.

(** The solver over the settled row reports the closed cell on the left. *)
Lemma solve_reports_closed_cells_once_witness :
  ∃ out,
    solve 4 (solverOf settledRow).1 (solverOf settledRow).2 = Ok out
    ∧ NoDup (MineProbability.position <$> out)
    ∧ ∀ p, p ∈ out →
        inBounds (params (solver_field (solverOf settledRow).1)) (MineProbability.position p)
        ∧ revealedAt (solverOf settledRow).2 (solver_field (solverOf settledRow).1)
            (MineProbability.position p) = false.
Proof.
  apply (solve_reports_closed_cells_once 4 (solverOf settledRow).1 (solverOf settledRow).2).
  - apply wfb_sound. vm_compute. reflexivity.
  - vm_compute. lia.
Defined.




(** X20 — On a field with no revealed cell [solve] reports nothing and
    [isGuessingState] answers [true]: so it is for every solver built from
    a configuration without data. *)
Theorem solver_without_revealed_cells_reports_nothing :
  (∀ fuel s h,
     (∀ q c, cellAt h (solver_field s) q = Some c → isRevealed c = false) →
     solve (S fuel) s h = Ok [] ∧ isGuessingState (S fuel) s h = Ok true)
  ∧ (∀ fuel0 p h0 rng0 s h rng fuel,
       newSolver fuel0 {| cfg_params := p; cfg_data := None |} h0 rng0 = Ok (s, h, rng) →
       solve (S fuel) s h = Ok [] ∧ isGuessingState (S fuel) s h = Ok true).
Proof.
  assert (∀ fuel s h,
            (∀ q c, cellAt h (solver_field s) q = Some c → isRevealed c = false) →
            solve (S fuel) s h = Ok [] ∧ isGuessingState (S fuel) s h = Ok true) as Hgen.
  { intros fuel s h Hclosed.
    assert (solve (S fuel) s h = Ok []) as E.
    { unfold solve. simpl. rewrite filter_none; [done|].
      intros c [q Hq]%elem_of_getData. rewrite (Hclosed q c Hq). done. }
    split; [done|]. unfold isGuessingState. by rewrite E. }
  split; [exact Hgen|].
  intros fuel0 p h0 rng0 s h rng fuel Hnew. apply Hgen.
  assert (newGameEngine fuel0 {| cfg_params := p; cfg_data := None |} h0 rng0
          = Ok ({| mode := guessing; field := solver_field s; gameParams := p;
                   status := Idle; flagsRemaining := mines p |}, h, rng)) as Heng.
  { unfold newSolver in Hnew. unfold newGameEngine.
    apply bind_Ok in Hnew as ([[f h'] rng'] & -> & [= <- <- <-]). done. }
  apply newGameEngine_fresh in Heng as (_ & _ & _ & _ & _ & _ & Hblank & _).
  intros q c Hq. by destruct (Hblank q c Hq).
Qed.

(** The solver of a fresh 3 x 3 game. *)
Lemma solver_without_revealed_cells_reports_nothing_witness :
  solve 1 (solverOf demoConfig).1 (solverOf demoConfig).2 = Ok []
  ∧ isGuessingState 1 (solverOf demoConfig).1 (solverOf demoConfig).2 = Ok true.
Proof.
  apply (proj2 solver_without_revealed_cells_reports_nothing 1%nat demoParams [] demoRng
           (solverOf demoConfig).1 (solverOf demoConfig).2 demoRng 0%nat).
  vm_compute. reflexivity.
Defined.

(** ** field-solver.ts: [generateAllAssignments] *)

(** X21 — For up to 30 distinct variables [generateAllAssignments] is exhaustive:
    each assignment lists the variables in their order, the assignment of
    number [i] gives variable [j] the bit [j] of [i], and every way of
    giving the variables truth values is among the assignments. *)
Theorem generateAllAssignments_exhaustive (variables : list Key) :
  NoDup variables → (length variables ≤ 30)%nat →
  (∀ a, a ∈ generateAllAssignments variables → map fst a = variables)
  ∧ (∀ i : nat, Z.of_nat i < 2 ^ Z.of_nat (length variables) →
       generateAllAssignments variables !! i
       = Some (imap (fun j v => (v, Z.testbit (Z.of_nat i) (Z.of_nat j))) variables))
  ∧ (∀ val : Key → bool,
       map (fun v => (v, val v)) variables ∈ generateAllAssignments variables).
Proof.
  intros Hnd Hlen.
  assert (2 ^ Z.of_nat (length variables) <= 2 ^ 30) as Hpow
    by (apply Z.pow_le_mono_r; lia).
  assert (2 ^ 30 < 2 ^ 31) as Hlt by (apply Z.pow_lt_mono_r; lia).
  assert (∀ i : nat, Z.of_nat i < 2 ^ Z.of_nat (length variables) →
            generateAllAssignments variables !! i
            = Some (imap (fun j v => (v, Z.testbit (Z.of_nat i) (Z.of_nat j))) variables))
    as Hnth.
  { intros i Hi. unfold generateAllAssignments. cbv zeta.
    rewrite shl32_small by lia.
    change (map ?g ?l) with (g <$> l). rewrite list_lookup_fmap.
    rewrite lookup_seq_lt by lia. cbn [fmap option_fmap option_map Nat.add]. f_equal.
    pose proof (assignment_loop variables (Z.of_nat i) (length variables)
                  Hnd ltac:(lia) Hlen ltac:(lia)) as Hloop.
    cbv zeta in Hloop. rewrite Hloop. by rewrite firstn_all. }
  split_and!.
  - intros a Ha. apply list_elem_of_lookup in Ha as [i Hi].
    assert (i < length (generateAllAssignments variables))%nat as Hlti
      by (by eapply lookup_lt_Some).
    rewrite length_generateAllAssignments, shl32_small in Hlti by lia.
    rewrite Hnth in Hi by lia. injection Hi as <-. apply fst_imap.
  - exact Hnth.
  - intros val. pose proof (encode_bounds val variables) as Hb.
    apply list_elem_of_lookup. exists (Z.to_nat (encode val variables)).
    rewrite Hnth by lia. rewrite Z2Nat.id by lia. by rewrite encode_bits.
Qed.

(** The four assignments of two variables. *)
Lemma generateAllAssignments_exhaustive_witness :
  generateAllAssignments [(0, 0); (2, 0)] !! 2%nat
  = Some (imap (fun j v => (v, Z.testbit (Z.of_nat 2) (Z.of_nat j))) [(0, 0); (2, 0)]).
Proof.
  apply (proj1 (proj2 (generateAllAssignments_exhaustive [(0, 0); (2, 0)]
                         ltac:(apply (bool_decide_unpack _); vm_compute; exact I)
                         ltac:(vm_compute; lia)))).
  vm_compute. reflexivity.
Defined.

(** ** utils.ts: [createKey] and [parseKey] on strings *)

Import String.StringSyntax Ascii.AsciiSyntax.

Lemma split_digits d rest :
  StringKeys.split (String.append (DecimalString.NilEmpty.string_of_uint d)
                      (String.String "-"%char rest))
  = DecimalString.NilEmpty.string_of_uint d :: StringKeys.split rest.
Proof. induction d; simpl; rewrite ?IHd; reflexivity. Qed.

Lemma split_digits_end d :
  StringKeys.split (DecimalString.NilEmpty.string_of_uint d)
  = [DecimalString.NilEmpty.string_of_uint d].
Proof. induction d; simpl; rewrite ?IHd; reflexivity. Qed.

Lemma split_nonempty s : StringKeys.split s ≠ [].
Proof.
  destruct s as [|c s]; simpl; [done|].
  destruct (Ascii.eqb c "-"%char); [done|]. by destruct (StringKeys.split s).
Qed.

Lemma number_digits d :
  Z.of_uint d < 2 ^ 53 →
  StringKeys.number (DecimalString.NilEmpty.string_of_uint d) = Some (Z.of_uint d).
Proof.
  intros Hd. unfold StringKeys.number. rewrite DecimalString.NilEmpty.usu. simpl.
  destruct (Z.ltb_spec (Z.of_uint d) (2 ^ 53)); [done | lia].
Qed.

(** A number that is not negative prints as its digits. *)
Lemma showNumber_nonneg z :
  0 <= z →
  ∃ d, StringKeys.showNumber z = DecimalString.NilEmpty.string_of_uint d ∧ Z.of_uint d = z.
Proof.
  intros Hz. destruct z as [|p|p]; [| |lia].
  - exists (Decimal.D0 Decimal.Nil). done.
  - exists (Pos.to_uint p). split; [done|]. apply (DecimalZ.of_to (Z.pos p)).
Qed.

(** A negative number prints as a dash and the digits of its magnitude. *)
Lemma showNumber_neg z :
  z < 0 →
  ∃ d, StringKeys.showNumber z
       = String.String "-"%char (DecimalString.NilEmpty.string_of_uint d)
       ∧ Z.of_uint d = - z.
Proof.
  intros Hz. destruct z as [|p|p]; [lia|lia|].
  exists (Pos.to_uint p). split; [done|]. apply (DecimalZ.of_to (Z.pos p)).
Qed.

Lemma parseKey_createKey_nonneg p :
  0 <= col p < 2 ^ 53 → 0 <= row p < 2 ^ 53 →
  StringKeys.parseKey (StringKeys.createKey p) = Some p.
Proof.
  intros Hc Hr.
  destruct (showNumber_nonneg (col p)) as (dc & Ec & Hdc); [lia|].
  destruct (showNumber_nonneg (row p)) as (dr & Er & Hdr); [lia|].
  unfold StringKeys.parseKey, StringKeys.createKey. rewrite Ec, Er.
  change (String.append "-"%string ?s) with (String.String "-"%char s).
  rewrite split_digits, split_digits_end.
  rewrite !number_digits by lia. simpl. rewrite Hdc, Hdr. by destruct p.
Qed.

(** X3 — For coordinates that are not negative [parseKey] undoes [createKey],
    so different positions have different keys.  A negative column breaks
    the round trip: its dash is taken for the separator, and the key is read
    as column 0 with the column's magnitude as the row. *)
Theorem string_keys_round_trip :
  (∀ p, 0 <= col p < 2 ^ 53 → 0 <= row p < 2 ^ 53 →
     StringKeys.parseKey (StringKeys.createKey p) = Some p)
  ∧ (∀ p q, 0 <= col p < 2 ^ 53 → 0 <= row p < 2 ^ 53 →
       0 <= col q < 2 ^ 53 → 0 <= row q < 2 ^ 53 →
       StringKeys.createKey p = StringKeys.createKey q → p = q)
  ∧ (∀ p, - 2 ^ 53 < col p < 0 → - 2 ^ 53 < row p < 2 ^ 53 →
       StringKeys.parseKey (StringKeys.createKey p)
       = Some {| col := 0; row := - col p |}).
Proof.
  split_and!.
  - apply parseKey_createKey_nonneg.
  - intros p q Hpc Hpr Hqc Hqr Heq.
    pose proof (parseKey_createKey_nonneg p Hpc Hpr) as Hp.
    pose proof (parseKey_createKey_nonneg q Hqc Hqr) as Hq.
    rewrite Heq, Hq in Hp. by injection Hp.
  - intros p Hc Hr.
    destruct (showNumber_neg (col p)) as (dc & Ec & Hdc); [lia|].
    unfold StringKeys.parseKey, StringKeys.createKey. rewrite Ec.
    change (String.append "-"%string ?s) with (String.String "-"%char s).
    cbn [String.append StringKeys.split Ascii.eqb Bool.eqb]. rewrite split_digits.
    destruct (StringKeys.split (StringKeys.showNumber (row p))) as [|x xs] eqn:Es;
      [by apply split_nonempty in Es|].
    rewrite number_digits by lia. rewrite Hdc. reflexivity.
Qed.

(** The key of column 12 and row 0 is read back; the key of column -5 and
    row 3, written with two dashes, is read as column 0 and row 5. *)
Lemma string_keys_round_trip_witness :
  StringKeys.parseKey (StringKeys.createKey {| col := 12; row := 0 |})
  = Some {| col := 12; row := 0 |}
  ∧ StringKeys.parseKey (StringKeys.createKey {| col := -5; row := 3 |})
    = Some {| col := 0; row := 5 |}.
Proof.
  split.
  - apply (proj1 string_keys_round_trip {| col := 12; row := 0 |}); simpl; lia.
  - apply (proj2 (proj2 string_keys_round_trip) {| col := -5; row := 3 |}); simpl; lia.
Defined.
